(** * Karnaugh-map minimisation of access patterns and its analyzers

    A shallow embedding of the minimisation engine of
    [src/artifact/kmap_simplify.py] and of its pass over the CSV file, of
    the counting of [src/artifact/access_analyzer.py] and
    [src/artifact/factor_analyzer.py] and of the canonical brackets of
    [src/artifact/tools/compare_tables.py], with the properties that the
    specification states and further ones read off the code.

    Conventions of the embedding.
    - A Python [int] is a [Z]; [&], [|], [^], [~] and [<<] are [Z.land],
      [Z.lor], [Z.lxor], [Z.lnot] and [Z.shiftl].
    - A Python [str] holding an expression is a [string] whose characters
      are the code points below 256; a one-character [str] naming a
      variable is an [ascii].  An argument [str | None] is an
      [option string].
    - A Python [set] of integers is a duplicate-free list.  Python leaves
      the iteration order of a set unspecified; the embedding iterates in
      ascending order.  The properties of the solver and of the finder are
      proved for lists in any order.
    - A Python [dict] is an association list in insertion order; an
      assignment to a key already present replaces the value in place.
    - A Python [list] or [tuple] is a [list].
    - The [while] loop of the finder runs on fuel; the fuel given is shown
      to suffice.  Everything else is structurally recursive.  The
      functions of the engine have no raising path: every subscript and
      every key they use is in range by construction.
    - A [frozenset] of one-character strings is a duplicate-free list of
      characters, and a [set] of them a list without two members of the
      same elements; what is proved of the analyzers holds for every
      order of enumeration.
    - A CSV file is the list of its records; [generate] ends in an
      [outcome] that tells a [SystemExit] and the [ValueError] of the
      writer from a normal end. *)

From Stdlib Require Import ZArith List Bool Ascii String Lia Permutation Sorted.
Import ListNotations.
Local Open Scope Z_scope.

(** ** Integer sets and dictionaries *)

Module IntSet.

Definition mem (x : Z) (s : list Z) : bool := existsb (Z.eqb x) s.

Fixpoint add (x : Z) (s : list Z) : list Z :=
  match s with
  | [] => [x]
  | y :: r =>
      if x <? y then x :: s
      else if x =? y then s
      else y :: add x r
  end.

Definition update (s xs : list Z) : list Z :=
  fold_left (fun acc x => add x acc) xs s.

Definition inter (a b : list Z) : list Z := filter (fun x => mem x b) a.

Definition diff (a b : list Z) : list Z :=
  filter (fun x => negb (mem x b)) a.

End IntSet.

Module Dict.
Section WithKey.
Context {K V : Type} (keq : K -> K -> bool).

Fixpoint set (k : K) (v : V) (d : list (K * V)) : list (K * V) :=
  match d with
  | [] => [(k, v)]
  | (k', v') :: r =>
      if keq k k' then (k', v) :: r else (k', v') :: set k v r
  end.

Fixpoint get (k : K) (d : list (K * V)) : option V :=
  match d with
  | [] => None
  | (k', v') :: r => if keq k k' then Some v' else get k r
  end.
End WithKey.
End Dict.

(** ** Cubes *)

Definition implicant : Type := (Z * Z)%type.

Definition implicant_eqb (a b : implicant) : bool :=
  (fst a =? fst b) && (snd a =? snd b).

Fixpoint pos_ones (p : positive) : nat :=
  match p with
  | xH => 1
  | xO q => pos_ones q
  | xI q => S (pos_ones q)
  end.

(** [bin(x).count('1')]: the number of 1 digits of the binary numeral of
    [x] (the sign is not a digit). *)
Definition bin_count_ones (x : Z) : nat :=
  match x with
  | Z0 => 0%nat
  | Zpos p => pos_ones p
  | Zneg p => pos_ones p
  end.

Definition adjacent_cells (cell1 cell2 : Z) : bool :=
  Nat.eqb (bin_count_ones (Z.lxor cell1 cell2)) 1.

(** ** Prime implicant finder *)

(** The state of one pass of the pairwise loop: [next_level] and [used]. *)
Definition qm_state : Type := (list (Z * Z) * list Z)%type.

(** Lines 112-114: the cube that replaces two adjacent ones. *)
Definition merge_implicants (item1 item2 : Z * Z) : implicant :=
  let '(term1, mask1) := item1 in
  let '(term2, mask2) := item2 in
  let diff_bit := Z.lxor term1 term2 in
  let new_term := Z.land term1 term2 in
  let new_mask := Z.land (Z.land mask1 mask2) (Z.lnot diff_bit) in
  (new_term, new_mask).

(** Body of the inner loop for the pair [(item1, item2)]. *)
Definition combine_pair (item1 item2 : Z * Z) (st : qm_state) : qm_state :=
  if adjacent_cells (fst item1) (fst item2) then
    let '(new_term, new_mask) := merge_implicants item1 item2 in
    (Dict.set Z.eqb new_term new_mask (fst st),
     IntSet.add (fst item2) (IntSet.add (fst item1) (snd st)))
  else st.

(** [for j in range(i + 1, len(items))] for a fixed [items[i]]. *)
Fixpoint combine_with (item1 : Z * Z) (rest : list (Z * Z)) (st : qm_state)
  : qm_state :=
  match rest with
  | [] => st
  | item2 :: rest' => combine_with item1 rest' (combine_pair item1 item2 st)
  end.

(** [for i in range(len(items))]. *)
Fixpoint combine_all (items : list (Z * Z)) (st : qm_state) : qm_state :=
  match items with
  | [] => st
  | item1 :: rest => combine_all rest (combine_with item1 rest st)
  end.

Definition unused_terms (current_level : list (Z * Z)) (used : list Z)
  : list implicant :=
  filter (fun tm => negb (IntSet.mem (fst tm) used)) current_level.

Definition initial_level (minterms : list Z) : list (Z * Z) :=
  fold_left (fun d minterm => Dict.set Z.eqb minterm minterm d) minterms [].

(** The [while current_level] loop.  [None] only when [fuel] passes are not
    enough to empty the level. *)
Fixpoint qm_loop (fuel : nat) (current_level : list (Z * Z))
    (prime_implicants : list implicant) : option (list implicant) :=
  match current_level with
  | [] => Some prime_implicants
  | _ :: _ =>
      match fuel with
      | O => None
      | S fuel' =>
          let '(next_level, used) := combine_all current_level ([], []) in
          qm_loop fuel' next_level
            (prime_implicants ++ unused_terms current_level used)
      end
  end.

(** Every pass removes at least one key from the level, so [length minterms]
    passes are enough and [None] does not occur on non-negative minterms
    (proved below). *)
Definition find_prime_implicants (minterms : list Z) : list implicant :=
  match minterms with
  | [] => []
  | _ :: _ =>
      match qm_loop (List.length minterms) (initial_level minterms) [] with
      | Some prime_implicants => prime_implicants
      | None => []
      end
  end.

(** ** Rendering and coverage of a cube *)

(** [range(n)] *)
Definition range (n : nat) : list nat := seq 0 n.

Definition bit_pos_of (num_vars i : nat) : Z :=
  Z.of_nat num_vars - 1 - Z.of_nat i.

Definition bit_set (x bit_pos : Z) : bool :=
  negb (Z.land x (Z.shiftl 1 bit_pos) =? 0).

Definition implicant_factors (imp : implicant) (variables : list ascii)
  : list ascii :=
  let '(term, mask) := imp in
  flat_map
    (fun i =>
       let bit_pos := bit_pos_of (List.length variables) i in
       if bit_set mask bit_pos then
         if bit_set term bit_pos then
           match nth_error variables i with Some v => [v] | None => [] end
         else []
       else [])
    (range (List.length variables)).

Definition implicant_to_expr (imp : implicant) (variables : list ascii)
  : string :=
  match implicant_factors imp variables with
  | [] => EmptyString
  | factors => ("[" ++ string_of_list_ascii factors ++ "]")%string
  end.

(** [itertools.product([0, 1], repeat=n)] *)
Fixpoint product01 (n : nat) : list (list Z) :=
  match n with
  | O => [[]]
  | S k => map (cons 0) (product01 k) ++ map (cons 1) (product01 k)
  end.

Definition dont_care_bits_of (mask : Z) (num_vars : nat) : list Z :=
  flat_map
    (fun i =>
       let bit_pos := bit_pos_of num_vars i in
       if bit_set mask bit_pos then [] else [bit_pos])
    (range num_vars).

(** The inner [for i, bit_value in enumerate(dont_care_assignment)]. *)
Fixpoint set_dont_cares (minterm : Z) (dont_care_assignment bits : list Z)
  : Z :=
  match dont_care_assignment, bits with
  | bit_value :: vs, b :: bs =>
      set_dont_cares
        (if bit_value =? 0 then minterm else Z.lor minterm (Z.shiftl 1 b))
        vs bs
  | _, _ => minterm
  end.

Definition get_covered_minterms (imp : implicant) (num_vars : nat)
  : list Z :=
  let '(term, mask) := imp in
  let dont_care_bits := dont_care_bits_of mask num_vars in
  fold_left
    (fun covered dont_care_assignment =>
       IntSet.add (set_dont_cares term dont_care_assignment dont_care_bits)
         covered)
    (product01 (List.length dont_care_bits)) [].

(** ** Exact cover solver *)

Module NatSet.

Definition mem (x : nat) (s : list nat) : bool := existsb (Nat.eqb x) s.

Fixpoint add (x : nat) (s : list nat) : list nat :=
  match s with
  | [] => [x]
  | y :: r =>
      if Nat.ltb x y then x :: s
      else if Nat.eqb x y then s
      else y :: add x r
  end.

Definition of_list (xs : list nat) : list nat :=
  fold_left (fun acc x => add x acc) xs [].

Definition diff (a b : list nat) : list nat :=
  filter (fun x => negb (mem x b)) a.

(** [p >= q] on sets: [q] is a subset of [p]. *)
Definition superset (p q : list nat) : bool :=
  forallb (fun x => mem x p) q.

End NatSet.

(** Stable insertion sort, the model of [sorted] and [list.sort]. *)
Section Sorting.
Context {A : Type} (leb : A -> A -> bool).

Fixpoint insert_sorted (x : A) (l : list A) : list A :=
  match l with
  | [] => [x]
  | y :: r => if leb x y then x :: l else y :: insert_sorted x r
  end.

Definition sorted (l : list A) : list A :=
  fold_right insert_sorted [] l.

(** [min(l, key=...)] with [ltb] the strict order on keys: the first of
    the smallest elements. *)
Definition min_from (ltb : A -> A -> bool) (first : A) (rest : list A) : A :=
  fold_left (fun best x => if ltb x best then x else best) rest first.
End Sorting.

Fixpoint list_eqb {A : Type} (eqb : A -> A -> bool) (a b : list A) : bool :=
  match a, b with
  | [], [] => true
  | x :: a', y :: b' => eqb x y && list_eqb eqb a' b'
  | _, _ => false
  end.

(** Order of Python tuples of integers. *)
Fixpoint tuple_ltb (a b : list nat) : bool :=
  match a, b with
  | [], [] => false
  | [], _ :: _ => true
  | _ :: _, [] => false
  | x :: a', y :: b' =>
      if Nat.ltb x y then true
      else if Nat.eqb x y then tuple_ltb a' b'
      else false
  end.

Definition cost : Type := (nat * nat)%type.

Definition cost_ltb (a b : cost) : bool :=
  Nat.ltb (fst a) (fst b) || (Nat.eqb (fst a) (fst b) && Nat.ltb (snd a) (snd b)).

Definition cost_leb (a b : cost) : bool := negb (cost_ltb b a).

Definition cost_eqb (a b : cost) : bool :=
  Nat.eqb (fst a) (fst b) && Nat.eqb (snd a) (snd b).

Definition sum_nat (l : list nat) : nat := fold_left Nat.add l 0%nat.

Definition product_cost (literal_counts : list nat) (p : list nat) : cost :=
  (List.length p, sum_nat (map (fun i => nth i literal_counts 0%nat) p)).

Definition products_add (p : list nat) (products : list (list nat))
  : list (list nat) :=
  if existsb (list_eqb Nat.eqb p) products then products
  else products ++ [p].

Definition reduce_products (literal_counts : list nat)
    (prods : list (list nat)) : list (list nat) :=
  fold_left
    (fun minimal p =>
       if existsb (fun q => NatSet.superset p q) minimal then minimal
       else minimal ++ [p])
    (sorted
       (fun a b =>
          cost_leb (product_cost literal_counts a)
            (product_cost literal_counts b))
       prods)
    [].

(** One round of the loop over the clauses: cross every product with every
    index of the clause, then reduce. *)
Definition multiply_clause (literal_counts : list nat)
    (products : list (list nat)) (clause : list nat) : list (list nat) :=
  reduce_products literal_counts
    (fold_left
       (fun new_products p =>
          fold_left
            (fun new_products idx =>
               products_add (NatSet.add idx p) new_products)
            clause new_products)
       products []).

(** The loop over the clauses; [None] is the early [return essential] taken
    when a round leaves no product. *)
Fixpoint petrick (literal_counts : list nat) (clauses : list (list nat))
    (products : list (list nat)) : option (list (list nat)) :=
  match clauses with
  | [] => Some products
  | clause :: rest =>
      match multiply_clause literal_counts products clause with
      | [] => None
      | products' => petrick literal_counts rest products'
      end
  end.

(** Lines 246-254: the cheapest product, ties broken by the index tuple. *)
Definition choose_product (literal_counts : list nat)
    (products : list (list nat)) : list nat :=
  match map (product_cost literal_counts) products with
  | [] => []
  | c :: cs =>
      let best_cost := min_from cost_ltb c cs in
      let best_products :=
        filter
          (fun p => cost_eqb (product_cost literal_counts p) best_cost)
          products in
      match best_products with
      | [] => []
      | p :: ps =>
          min_from
            (fun a b => tuple_ltb (sorted Nat.leb a) (sorted Nat.leb b)) p ps
      end
  end.

Definition build_coverage (prime_implicants : list implicant)
    (minterms : list Z) (num_vars : nat) : list (implicant * list Z) :=
  fold_left
    (fun coverage pi =>
       Dict.set implicant_eqb pi
         (IntSet.inter (get_covered_minterms pi num_vars) minterms) coverage)
    prime_implicants [].

(** [[pi for pi, cov in coverage.items() if m in cov]] *)
Definition covering_of (coverage : list (implicant * list Z)) (m : Z)
  : list implicant :=
  map fst (filter (fun pc => IntSet.mem m (snd pc)) coverage).

Definition coverage_get (coverage : list (implicant * list Z))
    (pi : implicant) : list Z :=
  match Dict.get implicant_eqb pi coverage with
  | Some cov => cov
  | None => []
  end.

(** Body of the loop that extracts the essential implicants; the state is
    [(essential, covered_by_essential)]. *)
Definition essential_step (coverage : list (implicant * list Z))
    (st : list implicant * list Z) (m : Z) : list implicant * list Z :=
  match covering_of coverage m with
  | [epi] =>
      if existsb (implicant_eqb epi) (fst st) then st
      else (fst st ++ [epi], IntSet.update (snd st) (coverage_get coverage epi))
  | _ => st
  end.

(** [{pi: i for i, pi in enumerate(pi_list)}] *)
Definition build_index_of (pi_list : list implicant)
  : list (implicant * nat) :=
  fold_left
    (fun d ip => Dict.set implicant_eqb (snd ip) (fst ip) d)
    (combine (seq 0 (List.length pi_list)) pi_list) [].

Definition index_set (index_of : list (implicant * nat))
    (pis : list implicant) : list nat :=
  NatSet.of_list
    (flat_map
       (fun pi =>
          match Dict.get implicant_eqb pi index_of with
          | Some i => [i]
          | None => []
          end)
       pis).

(** Body of the loop that builds the Petrick clauses. *)
Definition clause_step (coverage : list (implicant * list Z))
    (index_of : list (implicant * nat)) (essential : list implicant)
    (clauses : list (list nat)) (m : Z) : list (list nat) :=
  let idxs := index_set index_of (covering_of coverage m) in
  match idxs with
  | [] => clauses
  | _ :: _ =>
      let idxs' := NatSet.diff idxs (index_set index_of essential) in
      match idxs' with
      | [] => clauses
      | _ :: _ => clauses ++ [idxs']
      end
  end.

Definition build_clauses (coverage : list (implicant * list Z))
    (index_of : list (implicant * nat)) (essential : list implicant)
    (remaining : list Z) : list (list nat) :=
  fold_left (clause_step coverage index_of essential) remaining [].

(** Lines 200-203: the number of 1 digits of each relevance mask. *)
Definition literal_counts_of (pi_list : list implicant) : list nat :=
  map (fun pi => bin_count_ones (snd pi)) pi_list.

Definition essential_prime_implicant_cover
    (prime_implicants : list implicant) (minterms : list Z)
    (num_vars : nat) : list implicant :=
  match prime_implicants, minterms with
  | [], _ | _, [] => prime_implicants
  | _ :: _, _ :: _ =>
      let coverage := build_coverage prime_implicants minterms num_vars in
      let '(essential, covered_by_essential) :=
        fold_left (essential_step coverage) minterms ([], []) in
      let remaining := IntSet.diff minterms covered_by_essential in
      match remaining with
      | [] => essential
      | _ :: _ =>
          let pi_list := prime_implicants in
          let index_of := build_index_of pi_list in
          let literal_counts := literal_counts_of pi_list in
          let clauses := build_clauses coverage index_of essential remaining in
          match clauses with
          | [] => essential
          | _ :: _ =>
              match petrick literal_counts clauses [[]] with
              | None => essential
              | Some products =>
                  let chosen := choose_product literal_counts products in
                  essential
                    ++ flat_map
                         (fun i =>
                            match nth_error pi_list i with
                            | Some pi => [pi]
                            | None => []
                            end)
                         (sorted Nat.leb chosen)
              end
          end
      end
  end.

(** ** Minimisation entry point *)

(** Lines 279-287: render the cover, drop the empty renderings, sort and
    join. *)
Definition format_cover (minimal_implicants : list implicant)
    (variables : list ascii) : string :=
  let terms :=
    flat_map
      (fun pi =>
         match implicant_to_expr pi variables with
         | EmptyString => []
         | expr => [expr]
         end)
      minimal_implicants in
  String.concat EmptyString (sorted String.leb terms).

Definition minimize_karnaugh (minterms : list Z) (variables : list ascii)
  : string :=
  match minterms with
  | [] => EmptyString
  | _ :: _ =>
      let num_vars := List.length variables in
      if Nat.ltb 6 num_vars then EmptyString
      else
        let prime_implicants := find_prime_implicants minterms in
        match prime_implicants with
        | [] => EmptyString
        | _ :: _ =>
            let minimal_implicants :=
              essential_prime_implicant_cover prime_implicants minterms
                num_vars in
            format_cover minimal_implicants variables
        end
  end.

(** ** Parser *)

Definition chars (s : string) : list ascii := list_ascii_of_string s.

Definition code (c : ascii) : nat := nat_of_ascii c.

(** [\s] and [str.isspace] on the code points below 256. *)
Definition is_space (c : ascii) : bool :=
  let n := code c in
  (Nat.leb 9 n && Nat.leb n 13) || (Nat.leb 28 n && Nat.leb n 32)
  || Nat.eqb n 133 || Nat.eqb n 160.

(** [[A-Z]] *)
Definition is_upper (c : ascii) : bool :=
  let n := code c in Nat.leb 65 n && Nat.leb n 90.

(** [str.isalpha] on the code points below 256. *)
Definition isalpha (c : ascii) : bool :=
  let n := code c in
  (Nat.leb 65 n && Nat.leb n 90) || (Nat.leb 97 n && Nat.leb n 122)
  || Nat.eqb n 170 || Nat.eqb n 181 || Nat.eqb n 186
  || (Nat.leb 192 n && Nat.leb n 214) || (Nat.leb 216 n && Nat.leb n 246)
  || (Nat.leb 248 n && Nat.leb n 255).

Fixpoint take_while (p : ascii -> bool) (s : list ascii) : list ascii :=
  match s with
  | c :: r => if p c then c :: take_while p r else []
  | [] => []
  end.

Fixpoint drop_while (p : ascii -> bool) (s : list ascii) : list ascii :=
  match s with
  | c :: r => if p c then drop_while p r else s
  | [] => []
  end.

(** One attempt to match [\[\s*([A-Z]+)\s*\]] at the head of [s]: the
    captured group and the length of the match.  The three repetitions are
    over disjoint character classes, none of which holds a bracket, so the
    greedy reading is the only one and backtracking finds nothing more. *)
Definition match_bracket (s : list ascii) : option (list ascii * nat) :=
  match s with
  | c :: s1 =>
      if Ascii.eqb c "[" then
        let w1 := take_while is_space s1 in
        let s2 := drop_while is_space s1 in
        let g := take_while is_upper s2 in
        let s3 := drop_while is_upper s2 in
        match g with
        | [] => None
        | _ :: _ =>
            let w2 := take_while is_space s3 in
            match drop_while is_space s3 with
            | c' :: _ =>
                if Ascii.eqb c' "]" then
                  Some (g,
                    (1 + List.length w1 + List.length g + List.length w2 + 1)%nat)
                else None
            | [] => None
            end
        end
      else None
  | [] => None
  end.

(** [BRACKET_RE.findall]: scan from the left; after a match resume behind
    it, otherwise one character further.  [skip] counts the characters of
    the last match still to pass. *)
Fixpoint findall_from (skip : nat) (s : list ascii) : list (list ascii) :=
  match s with
  | [] => []
  | _ :: r =>
      match skip with
      | S k => findall_from k r
      | O =>
          match match_bracket s with
          | Some (g, len) => g :: findall_from (len - 1) r
          | None => findall_from 0 r
          end
      end
  end.

Definition bracket_findall (s : list ascii) : list (list ascii) :=
  findall_from 0 s.

(** [str.strip()] *)
Definition strip (s : list ascii) : list ascii :=
  rev (drop_while is_space (rev (drop_while is_space s))).

Module CharSet.
Definition mem (c : ascii) (s : list ascii) : bool :=
  existsb (Ascii.eqb c) s.
Definition add (c : ascii) (s : list ascii) : list ascii :=
  if mem c s then s else s ++ [c].
Definition update (s cs : list ascii) : list ascii :=
  fold_left (fun acc c => add c acc) cs s.
Definition of_list (cs : list ascii) : list ascii := update [] cs.
End CharSet.

(** [not expr] for [expr: str | None] *)
Definition is_falsy (expr : option string) : bool :=
  match expr with
  | None => true
  | Some EmptyString => true
  | Some _ => false
  end.

Definition text_of (expr : option string) : list ascii :=
  match expr with
  | None => []
  | Some s => chars s
  end.

(** Lines 50-56: one set of factors per bracket group. *)
Definition parse_terms (expr : list ascii) : list (list ascii) :=
  map (fun m => CharSet.of_list (filter isalpha m)) (bracket_findall expr).

Definition var_assignment_of (variables : list ascii) (assignment : list Z)
  : list (ascii * Z) :=
  fold_left (fun d kv => Dict.set Ascii.eqb (fst kv) (snd kv) d)
    (combine variables assignment) [].

Definition factor_true (var_assignment : list (ascii * Z)) (factor : ascii)
  : bool :=
  match Dict.get Ascii.eqb factor var_assignment with
  | Some v => v =? 1
  | None => false
  end.

Definition term_satisfied (terms : list (list ascii))
    (var_assignment : list (ascii * Z)) : bool :=
  existsb (fun term => forallb (factor_true var_assignment) term) terms.

Definition sum_Z (l : list Z) : Z := fold_left Z.add l 0.

Definition minterm_of (assignment : list Z) (num_vars : nat) : Z :=
  sum_Z
    (map (fun i => nth i assignment 0 * 2 ^ bit_pos_of num_vars i)
       (range num_vars)).

Definition minterms_of_terms (terms : list (list ascii))
    (variables : list ascii) : list Z :=
  fold_left
    (fun minterms assignment =>
       if term_satisfied terms (var_assignment_of variables assignment)
       then IntSet.add (minterm_of assignment (List.length variables)) minterms
       else minterms)
    (product01 (List.length variables)) [].

Definition is_placeholder (s : list ascii) : bool :=
  match strip s with
  | [] => true
  | [c] => Ascii.eqb c "-"
  | _ => false
  end.

Definition parse_expr_to_minterms (expr : option string)
    (variables : list ascii) : list Z :=
  if is_falsy expr || is_placeholder (text_of expr) then []
  else
    match parse_terms (text_of expr) with
    | [] => []
    | terms => minterms_of_terms terms variables
    end.

(** ** Universe and substitution *)

Definition extract_variables (expr : option string) : list ascii :=
  if is_falsy expr then []
  else
    fold_left
      (fun variables m => CharSet.update variables (filter isalpha m))
      (bracket_findall (text_of expr)) [].

Definition is_not_P (v : ascii) : bool := negb (Ascii.eqb v "P").

(** [variables.index("P") if "P" in variables else -1] *)
Fixpoint index_of_P (variables : list ascii) : option nat :=
  match variables with
  | [] => None
  | v :: r =>
      if Ascii.eqb v "P" then Some 0%nat
      else option_map S (index_of_P r)
  end.

(** Lines 337-345: spread the bits of [reset_term] over the positions of
    the variables other than [P]. *)
Definition shift_reset (variables : list ascii) (reset_term : Z) : Z :=
  let n := List.length variables in
  let n_reset := List.length (filter is_not_P variables) in
  fst
    (fold_left
       (fun (st : Z * nat) (iv : nat * ascii) =>
          let '(shifted_reset, reset_pos) := st in
          let '(i, var) := iv in
          if is_not_P var then
            let bit_pos := bit_pos_of n i in
            let reset_bit_pos := bit_pos_of n_reset reset_pos in
            ((if bit_set reset_term reset_bit_pos
              then Z.lor shifted_reset (Z.shiftl 1 bit_pos)
              else shifted_reset),
             S reset_pos)
          else st)
       (combine (seq 0 n) variables) (0, 0%nat)).

(** Body of the loop over [base_minterms]. *)
Definition expand_step (variables : list ascii) (reset_minterms : list Z)
    (expanded_minterms : list Z) (minterm : Z) : list Z :=
  match index_of_P variables with
  | Some p_index =>
      let p_bit := Z.shiftl 1 (bit_pos_of (List.length variables) p_index) in
      if negb (Z.land minterm p_bit =? 0) then
        let base_without_p := Z.land minterm (Z.lnot p_bit) in
        fold_left
          (fun acc reset_term =>
             IntSet.add
               (Z.lor base_without_p (shift_reset variables reset_term)) acc)
          reset_minterms expanded_minterms
      else IntSet.add minterm expanded_minterms
  | None => IntSet.add minterm expanded_minterms
  end.

Definition all_vars_of (base_expr reset_expr : option string) : list ascii :=
  let all_vars :=
    if is_falsy base_expr then []
    else CharSet.update [] (extract_variables base_expr) in
  if is_falsy reset_expr then all_vars
  else CharSet.update all_vars (extract_variables reset_expr).

(** [sorted(list(all_vars))] *)
Definition variables_of (base_expr reset_expr : option string)
  : list ascii :=
  sorted Ascii.leb (all_vars_of base_expr reset_expr).

(** The minterm set that [compute_kmap] hands to [minimize_karnaugh]. *)
Definition kmap_minterms (base_expr reset_expr : option string) : list Z :=
  let all_vars := all_vars_of base_expr reset_expr in
  let variables := sorted Ascii.leb all_vars in
  let base_minterms := parse_expr_to_minterms base_expr variables in
  if CharSet.mem "P" all_vars && negb (is_falsy reset_expr) then
    let reset_minterms :=
      parse_expr_to_minterms reset_expr (filter is_not_P variables) in
    fold_left (expand_step variables reset_minterms) base_minterms []
  else base_minterms.

Definition compute_kmap (base_expr reset_expr : option string) : string :=
  match all_vars_of base_expr reset_expr with
  | [] => EmptyString
  | _ :: _ =>
      minimize_karnaugh (kmap_minterms base_expr reset_expr)
        (variables_of base_expr reset_expr)
  end.

(** ** Sets of factor sets (access_analyzer.py, factor_analyzer.py) *)

(** A [frozenset] of one-character strings is a duplicate-free list of
    characters; a [set] of such sets holds no two lists with the same
    elements.  Python leaves the iteration order of both unspecified; the
    lists keep the order of insertion, and what is proved of the functions
    below holds for every order. *)
Module TermSet.

(** [a.issubset(b)] *)
Definition subset (a b : list ascii) : bool :=
  forallb (fun c => CharSet.mem c b) a.

(** [a == b] on sets *)
Definition eqb (a b : list ascii) : bool := subset a b && subset b a.

Definition mem (t : list ascii) (s : list (list ascii)) : bool :=
  existsb (eqb t) s.

Definition add (t : list ascii) (s : list (list ascii))
  : list (list ascii) :=
  if mem t s then s else s ++ [t].

(** [len(a.intersection(b)) > 0] *)
Definition meets (a b : list ascii) : bool :=
  existsb (fun c => CharSet.mem c b) a.

End TermSet.

(** [itertools.combinations(pool, r)] *)
Fixpoint combinations {A : Type} (pool : list A) (r : nat) : list (list A) :=
  match r with
  | O => [[]]
  | S r' =>
      match pool with
      | [] => []
      | x :: rest =>
          map (cons x) (combinations rest r') ++ combinations rest r
      end
  end.

(** A [collections.Counter] keyed by strings, in insertion order. *)
Module Counter.

Definition get (key : string) (counts : list (string * nat)) : nat :=
  match Dict.get String.eqb key counts with
  | Some n => n
  | None => 0%nat
  end.

(** [counts[key] += 1] *)
Definition incr (key : string) (counts : list (string * nat))
  : list (string * nat) :=
  Dict.set String.eqb key (S (get key counts)) counts.

(** The key [(-cnt, pattern)] of the final sort. *)
Definition report_leb (a b : string * nat) : bool :=
  Nat.ltb (snd b) (snd a)
  || (Nat.eqb (snd a) (snd b) && String.leb (fst a) (fst b)).

End Counter.

Module AccessAnalyzer.

Definition parse_expr (expr : option string) : list (list ascii) :=
  if is_falsy expr then []
  else
    let expr := strip (text_of expr) in
    match expr with
    | [] => []
    | _ :: _ =>
        if list_eqb Ascii.eqb expr ["-"%char] then []
        else
          fold_left
            (fun terms grp =>
               match filter isalpha grp with
               | [] => terms
               | factors => TermSet.add (CharSet.of_list factors) terms
               end)
            (bracket_findall expr) []
    end.

Definition format_expr (terms : list (list ascii)) : string :=
  let parts :=
    flat_map
      (fun t =>
         match t with
         | [] => []
         | _ :: _ =>
             [("[" ++ string_of_list_ascii (sorted Ascii.leb t) ++ "]")%string]
         end)
      terms in
  String.concat EmptyString (sorted String.leb parts).

Definition format_set (s : list ascii) : string :=
  String.concat EmptyString
    (map (fun ch => ("[" ++ String ch EmptyString ++ "]")%string)
       (sorted Ascii.leb s)).

(** The counting loop of [run_sufficiency] over the cells of the column,
    [None] for a row without the column. *)
Definition sufficiency_counts (cells : list (option string))
  : list (string * nat) :=
  fold_left
    (fun counts cell =>
       let expr_raw := string_of_list_ascii (strip (text_of cell)) in
       match parse_expr (Some expr_raw) with
       | [] => counts
       | terms =>
           let canon := format_expr terms in
           match canon with
           | EmptyString => counts
           | _ => Counter.incr canon counts
           end
       end)
    cells [].

(** The lines that [run_sufficiency] prints, as pairs of a pattern and its
    count. *)
Definition run_sufficiency (cells : list (option string))
  : list (string * nat) :=
  sorted Counter.report_leb (sufficiency_counts cells).

(** The first loop of [run_necessity]: the term sets of the rows and the
    factors seen. *)
Definition rows_terms_of (cells : list (option string))
  : list (list (list ascii)) :=
  map parse_expr cells.

Definition all_factors_of (rows_terms : list (list (list ascii)))
  : list ascii :=
  fold_left
    (fun all_factors terms =>
       fold_left (fun acc t => CharSet.update acc t) terms all_factors)
    rows_terms [].

(** [[frozenset(comb) for r in range(1, len(pool) + 1)
      for comb in combinations(pool, r)]] *)
Definition combos_of (pool : list ascii) : list (list ascii) :=
  flat_map (fun r => combinations pool r) (seq 1 (List.length pool)).

(** The number of rows with terms in which every term meets [C]. *)
Definition necessity_count (rows_terms : list (list (list ascii)))
    (C : list ascii) : nat :=
  List.length
    (filter
       (fun terms =>
          match terms with
          | [] => false
          | _ :: _ => forallb (fun term => TermSet.meets term C) terms
          end)
       rows_terms).

Definition necessity_counts (cells : list (option string))
  : list (string * nat) :=
  let rows_terms := rows_terms_of cells in
  let all_factors := all_factors_of rows_terms in
  match rows_terms, all_factors with
  | [], _ | _, [] => []
  | _ :: _, _ :: _ =>
      fold_left
        (fun counts C =>
           let cnt := necessity_count rows_terms C in
           match cnt with
           | O => counts
           | S _ => Dict.set String.eqb (format_set C) cnt counts
           end)
        (combos_of (sorted Ascii.leb all_factors)) []
  end.

Definition run_necessity (cells : list (option string))
  : list (string * nat) :=
  sorted Counter.report_leb (necessity_counts cells).

End AccessAnalyzer.

Module FactorAnalyzer.

Definition parse_terms (expr : option string) : list (list ascii) :=
  if is_falsy expr then []
  else
    let expr := strip (text_of expr) in
    match expr with
    | [] => []
    | _ :: _ =>
        if list_eqb Ascii.eqb expr ["-"%char] then []
        else
          fold_left
            (fun terms grp =>
               match filter isalpha grp with
               | [] => terms
               | factors => TermSet.add (CharSet.of_list factors) terms
               end)
            (bracket_findall expr) []
    end.

(** Line 101: [t and any(term.issubset(c) for term in t)]. *)
Definition accessible (terms : list (list ascii)) (c : list ascii) : bool :=
  match terms with
  | [] => false
  | _ :: _ => existsb (fun term => TermSet.subset term c) terms
  end.

(** The value of [counts_1[c]] (or [counts_2[c]]) after the counting loop,
    for the term sets of the rows of that column. *)
Definition access_count (rows_terms : list (list (list ascii)))
    (c : list ascii) : nat :=
  List.length (filter (fun terms => accessible terms c) rows_terms).

End FactorAnalyzer.

(** ** Canonical brackets (tools/compare_tables.py) *)

Module StringSet.
Definition mem (x : string) (s : list string) : bool :=
  existsb (String.eqb x) s.
Definition add (x : string) (s : list string) : list string :=
  if mem x s then s else s ++ [x].
Definition of_list (xs : list string) : list string :=
  fold_left (fun acc x => add x acc) xs [].
End StringSet.

Module CompareTables.

Definition canonical_brackets (parts : list string) : string :=
  let groups :=
    flat_map
      (fun p =>
         match string_of_list_ascii (sorted Ascii.leb (chars p)) with
         | EmptyString => []
         | letters => [letters]
         end)
      parts in
  let groups := sorted String.leb (StringSet.of_list groups) in
  match groups with
  | [] => EmptyString
  | _ :: _ =>
      String.concat EmptyString
        (map (fun g => ("[" ++ g ++ "]")%string) groups)
  end.

End CompareTables.

(** ** The pass over the CSV file (generate) *)

(** The input file is taken as the list of records that [csv.reader] yields
    for it and the output file as the list of records handed to the csv
    writer; the dialects, which only decide how a record is spelled, are
    left out. *)
Module Csv.

(** A row of [csv.DictReader]: the values by column name, [None] under a
    column that the record is too short for, and the fields beyond the
    header, which the reader keeps under the key [None]. *)
Record row : Type := {
  fields : list (string * option string);
  rest : option (list string)
}.

(** [DictReader.__next__] on a record that is not blank. *)
Definition read_row (fieldnames record : list string) : row :=
  let d :=
    fold_left (fun d kv => Dict.set String.eqb (fst kv) (Some (snd kv)) d)
      (combine fieldnames record) [] in
  let lf := List.length fieldnames in
  let lr := List.length record in
  if Nat.ltb lf lr then {| fields := d; rest := Some (skipn lf record) |}
  else
    {| fields :=
         fold_left (fun d key => Dict.set String.eqb key None d)
           (skipn lr fieldnames) d;
       rest := None |}.

(** [row.get(key)] *)
Definition get (key : string) (r : row) : option string :=
  match Dict.get String.eqb key (fields r) with
  | Some v => v
  | None => None
  end.

(** [row[key] = value] *)
Definition set (key : string) (value : string) (r : row) : row :=
  {| fields := Dict.set String.eqb key (Some value) (fields r);
     rest := rest r |}.

(** [DictWriter.writerow]: [None] when the row has a key that is not a
    field name ([ValueError]); a value [None] is written as the empty
    string. *)
Definition write_row (fieldnames : list string) (r : row)
  : option (list string) :=
  let wrong_fields :=
    existsb (fun k => negb (StringSet.mem k fieldnames)) (map fst (fields r))
    || match rest r with Some _ => true | None => false end in
  if wrong_fields then None
  else
    Some
      (map
         (fun key =>
            match Dict.get String.eqb key (fields r) with
            | Some (Some v) => v
            | Some None => EmptyString
            | None => EmptyString
            end)
         fieldnames).

End Csv.

(** How [generate] ends: by [SystemExit] with a message, by the
    [ValueError] of the writer, or normally; in the last two cases with the
    records written so far. *)
Inductive outcome : Type :=
| SystemExit (message : string)
| ValueError (written : list (list string))
| Written (written : list (list string)).

Definition required : list string :=
  ["ID"; "1FA"; "2FA"; "Reset1FA"; "Reset2FA"]%string.

(** Lines 376-379: the header of the output. *)
Definition output_fieldnames (fieldnames : list string) : list string :=
  fold_left
    (fun fieldnames new_col =>
       if StringSet.mem new_col fieldnames then fieldnames
       else fieldnames ++ [new_col])
    ["Kmap1FA"; "Kmap2FA"]%string fieldnames.

(** Lines 384-385: the two columns computed for a row. *)
Definition add_kmaps (r : Csv.row) : Csv.row :=
  let r1 :=
    Csv.set "Kmap1FA"
      (compute_kmap (Csv.get "1FA" r) (Csv.get "Reset1FA" r)) r in
  Csv.set "Kmap2FA"
    (compute_kmap (Csv.get "2FA" r1) (Csv.get "Reset2FA" r1)) r1.

(** The loop over the rows; [written] holds the records written so far,
    last first. *)
Fixpoint generate_rows (in_fieldnames fieldnames : list string)
    (records : list (list string)) (written : list (list string))
  : outcome :=
  match records with
  | [] => Written (rev written)
  | [] :: records' =>
      generate_rows in_fieldnames fieldnames records' written
  | record :: records' =>
      let r := add_kmaps (Csv.read_row in_fieldnames record) in
      match Csv.write_row fieldnames r with
      | None => ValueError (rev written)
      | Some out => generate_rows in_fieldnames fieldnames records' (out :: written)
      end
  end.

Definition generate (records : list (list string)) : outcome :=
  match records with
  | [] | [] :: _ => SystemExit "Input CSV has no header row."
  | in_fieldnames :: records' =>
      let missing :=
        filter (fun c => negb (StringSet.mem c in_fieldnames)) required in
      match missing with
      | _ :: _ =>
          SystemExit
            ("Missing required columns: " ++ String.concat ", " missing)
      | [] =>
          let fieldnames := output_fieldnames in_fieldnames in
          generate_rows in_fieldnames fieldnames records' [fieldnames]
      end
  end.

(** * Vocabulary of the properties *)

(** Two non-negative integers differ in exactly one binary digit. *)
Definition differ_in_exactly_one_bit (a b : Z) : Prop :=
  exists k, 0 <= k /\
    forall i, 0 <= i -> (Z.testbit a i <> Z.testbit b i <-> i = k).

(** The pair (bit value, bit position) sets bit [i]. *)
Definition selects (i : Z) (vb : Z * Z) : bool :=
  negb (fst vb =? 0) && (snd vb =? i).

(** The character [c] is in the class [p]. *)
Definition holds (p : ascii -> bool) (c : ascii) : Prop := p c = true.

(** A list that is empty or starts with a character outside [p]. *)
Definition stops (p : ascii -> bool) (t : list ascii) : Prop :=
  match t with
  | [] => True
  | c :: _ => p c = false
  end.

(** The text of a bracket group: '[', whitespace, letters, whitespace,
    ']'. *)
Definition bracket_group (ws1 letters ws2 : list ascii) : list ascii :=
  "["%char :: ws1 ++ letters ++ ws2 ++ ["]"%char].

(** The minterm [m] lies in no coverage set. *)
Definition uncovered (coverage : list (implicant * list Z)) (m : Z) : Prop :=
  forall pi cov, In (pi, cov) coverage -> ~ In m cov.

(** Total literal count of a product. *)
Definition literal_total (literal_counts : list nat) (p : list nat) : nat :=
  sum_nat (map (fun i => nth i literal_counts 0%nat) p).

(** [c] is a best product of [products]: none is cheaper, and none of the
    same cost has a smaller index tuple. *)
Definition best_product (literal_counts : list nat)
    (products : list (list nat)) (c : list nat) : Prop :=
  In c products
  /\ forall p, In p products ->
       ((List.length c < List.length p)%nat
        \/ (List.length c = List.length p
            /\ (literal_total literal_counts c
                < literal_total literal_counts p)%nat)
        \/ (List.length c = List.length p
            /\ literal_total literal_counts c = literal_total literal_counts p
            /\ tuple_ltb (sorted Nat.leb p) (sorted Nat.leb c) = false)).

(** [a] is a proper prefix of [b]. *)
Definition proper_prefix (a b : string) : Prop :=
  a <> b /\ exists r, b = (a ++ r)%string.

(** A letter string between brackets. *)
Definition bracketed (letters : string) : string :=
  ("[" ++ letters ++ "]")%string.

(** What the spec's words describe: one group per implicant, the groups
    ordered by their letter strings. *)
Definition format_by_letters (cover : list implicant)
    (variables : list ascii) : string :=
  String.concat EmptyString
    (map bracketed
       (sorted String.leb
          (map
             (fun imp => string_of_list_ascii (implicant_factors imp variables))
             cover))).

(** Order of the code points. *)
Definition ascii_lt (a b : ascii) : Prop := Ascii.ltb a b = true.

(** The symbols of the universe at the positions where mask and value both
    have a 1, in the order of the universe. *)
Definition letters_of (imp : implicant) (variables : list ascii)
  : list ascii :=
  map snd
    (filter
       (fun iv =>
          Z.testbit (snd imp) (bit_pos_of (List.length variables) (fst iv))
          && Z.testbit (fst imp) (bit_pos_of (List.length variables) (fst iv)))
       (combine (seq 0 (List.length variables)) variables)).

(** Truth value of a Python string. *)
Definition nonempty (s : string) : bool :=
  match s with
  | EmptyString => false
  | String _ _ => true
  end.

(** [t] requires nothing that [x] does not have: every 1 of [t] is a 1 of
    [x]. *)
Definition subcube (t x : Z) : Prop := Z.land x t = t.

(** A minterm of the set none of whose proper subcubes is in the set. *)
Definition minimal_in (minterms : list Z) (m : Z) : Prop :=
  In m minterms /\ forall t, In t minterms -> subcube t m -> t = m.

(** The number whose binary digits are the assignment, first variable
    first. *)
Fixpoint value (a : list Z) : Z :=
  match a with
  | [] => 0
  | v :: r => v * 2 ^ Z.of_nat (List.length r) + value r
  end.

(** An element of an assignment. *)
Definition is_bit (v : Z) : Prop := v = 0 \/ v = 1.

(** The symbol [c] names a variable that the assignment sets to 1. *)
Definition at_one (variables : list ascii) (assignment : list Z) (c : ascii)
  : Prop :=
  exists i, nth_error variables i = Some c /\ nth_error assignment i = Some 1.

(** Some term has all its symbols set to 1. *)
Definition sat (terms : list (list ascii)) (variables : list ascii)
    (assignment : list Z) : Prop :=
  exists term, In term terms /\ forall c, In c term -> at_one variables assignment c.

(** The text of a group without its two brackets. *)
Definition unbracket (g : string) : list ascii := removelast (tl (chars g)).

(** A rendered group: brackets around one or more uppercase letters. *)
Definition wf_group (g : string) : Prop :=
  exists letters,
    letters <> [] /\ Forall (holds is_upper) letters
    /\ chars g = bracket_group [] letters [].

(** The set of indices [p] holds an index of the clause. *)
Definition hits (p clause : list nat) : Prop :=
  exists i, In i p /\ In i clause.

(** Some implicant of [cover] covers the minterm [m]. *)
Definition covers (num_vars : nat) (cover : list implicant) (m : Z) : Prop :=
  exists pi, In pi cover /\ In m (get_covered_minterms pi num_vars).

(** The invariant of the loop over the clauses: [done] are the clauses
    already multiplied in. *)
Definition products_ok (done : list (list nat)) (products : list (list nat))
  : Prop :=
  products <> []
  /\ (forall p, In p products ->
        StronglySorted lt p /\ Forall (hits p) done
        /\ forall i, In i p -> exists c, In c done /\ In i c)
  /\ (forall H, Forall (hits H) done -> exists p, In p products /\ incl p H).

(** The minterm [x] has a 1 at the position of the symbol [c]. *)
Definition has_factor (variables : list ascii) (x : Z) (c : ascii) : Prop :=
  exists i,
    nth_error variables i = Some c
    /\ Z.testbit x (bit_pos_of (List.length variables) i) = true.

(** Some term has all its symbols among the 1 positions of [x]. *)
Definition grants (terms : list (list ascii)) (variables : list ascii)
    (x : Z) : Prop :=
  exists term, In term terms /\ forall c, In c term -> has_factor variables x c.

(** The terms of an expression that may be absent. *)
Definition terms_of (expr : option string) : list (list ascii) :=
  parse_terms (text_of expr).

(** The digits of [x] over [n] variables, first variable first. *)
Definition digits (n : nat) (x : Z) : list Z :=
  map (fun i => if Z.testbit x (bit_pos_of n i) then 1 else 0) (seq 0 n).

(** Some base term has each of its symbols either among the 1 positions of
    [x] or equal to P while the reset terms grant [x]: the base expression
    with P replaced by the reset expression. *)
Definition grants_subst (base_terms reset_terms : list (list ascii))
    (variables : list ascii) (x : Z) : Prop :=
  exists term,
    In term base_terms
    /\ forall c, In c term ->
         has_factor variables x c
         \/ (c = "P"%char /\ grants reset_terms variables x).

(** Body of the loop of lines 339-345. *)
Definition shift_step (n n_reset : nat) (reset_term : Z)
    (st : Z * nat) (iv : nat * ascii) : Z * nat :=
  let '(shifted_reset, reset_pos) := st in
  let '(i, var) := iv in
  if is_not_P var then
    let bit_pos := bit_pos_of n i in
    let reset_bit_pos := bit_pos_of n_reset reset_pos in
    ((if bit_set reset_term reset_bit_pos
      then Z.lor shifted_reset (Z.shiftl 1 bit_pos)
      else shifted_reset),
     S reset_pos)
  else st.

(** The number whose digits are those of [x] without the digit at
    position [pb]. *)
Definition without_pivot (pb x : Z) : Z :=
  Z.lor (Z.land x (Z.ones pb)) (Z.shiftl (Z.shiftr x (pb + 1)) pb).

(** Two lists hold the same characters. *)
Definition same_factors (a b : list ascii) : Prop :=
  forall c, In c a <-> In c b.

(** Two lists of terms hold the same factor sets. *)
Definition same_terms (T1 T2 : list (list ascii)) : Prop :=
  (forall t, In t T1 -> exists t', In t' T2 /\ same_factors t t')
  /\ (forall t, In t T2 -> exists t', In t' T1 /\ same_factors t t').

(** A list that stands for a set of non-empty sets of uppercase letters:
    no character twice in a term, no factor set twice in the list. *)
Definition term_set (T : list (list ascii)) : Prop :=
  Forall (fun t => t <> [] /\ NoDup t /\ Forall (holds is_upper) t) T
  /\ NoDup (map (sorted Ascii.leb) T).

(** The bracket group of a term. *)
Definition rendered (t : list ascii) : string :=
  bracketed (string_of_list_ascii (sorted Ascii.leb t)).

(** The minterm over [variables] with a 1 at the symbols that [member]
    accepts. *)
Definition indicator (variables : list ascii) (member : ascii -> bool) : Z :=
  value (map (fun v => if member v then 1 else 0) variables).

(** The field of a record under a column of the header, the empty string
    when the record is too short or the column is missing. *)
Fixpoint lookup (fieldnames record : list string) (key : string) : string :=
  match fieldnames, record with
  | k :: fieldnames', v :: record' =>
      if String.eqb key k then v else lookup fieldnames' record' key
  | _, _ => EmptyString
  end.

(** The values of a row once the two computed columns are set. *)
Definition with_kmaps (v : string -> string) (key : string) : string :=
  if String.eqb key "Kmap2FA" then
    compute_kmap (Some (v "2FA"%string)) (Some (v "Reset2FA"%string))
  else if String.eqb key "Kmap1FA" then
    compute_kmap (Some (v "1FA"%string)) (Some (v "Reset1FA"%string))
  else v key.

(** What the writer spells for a key of a row. *)
Definition spelled (r : Csv.row) (key : string) : string :=
  match Dict.get String.eqb key (Csv.fields r) with
  | Some (Some v) => v
  | _ => EmptyString
  end.

(** The record written for a record of the input. *)
Definition row_of (in_fieldnames record : list string) : list string :=
  map (with_kmaps (lookup in_fieldnames record))
    (output_fieldnames in_fieldnames).

(** A record that [DictReader] does not skip. *)
Definition nonblank (record : list string) : bool :=
  match record with
  | [] => false
  | _ :: _ => true
  end.

(** The record has no more fields than the header. *)
Definition fits (in_fieldnames record : list string) : Prop :=
  (List.length record <= List.length in_fieldnames)%nat.

(** A row that has at least one term. *)
Definition has_terms (terms : list (list ascii)) : bool :=
  match terms with
  | [] => false
  | _ :: _ => true
  end.

(** The factors of [universe] outside [C]. *)
Definition outside (universe C : list ascii) : list ascii :=
  filter (fun f => negb (CharSet.mem f C)) universe.

(** The number of cells that have terms and the pattern [pattern]. *)
Definition pattern_count (cells : list (option string)) (pattern : string)
  : nat :=
  List.length
    (filter
       (fun cell =>
          has_terms (AccessAnalyzer.parse_expr cell)
          && String.eqb pattern
               (AccessAnalyzer.format_expr (AccessAnalyzer.parse_expr cell)))
       cells).

(** [c] picks elements of [pool], in the order of [pool]. *)
Inductive picks {A : Type} : list A -> list A -> Prop :=
| picks_nil : picks [] []
| picks_take (x : A) (c pool : list A) :
    picks c pool -> picks (x :: c) (x :: pool)
| picks_skip (x : A) (c pool : list A) :
    picks c pool -> picks c (x :: pool).

(** The order of the lines of a report: by descending count, lines of the
    same count by ascending pattern. *)
Definition report_order (a b : string * nat) : Prop :=
  (snd b < snd a)%nat
  \/ (snd a = snd b /\ String.leb (fst a) (fst b) = true).

(** * Properties *)

(** ** Bits *)

Lemma shiftl_1_pow2 (b : Z) : 0 <= b -> Z.shiftl 1 b = 2 ^ b.
Proof. intros Hb. now rewrite Z.shiftl_1_l. Qed.

Lemma land_pow2_testbit (x b : Z) :
  0 <= b -> (Z.land x (2 ^ b) =? 0) = negb (Z.testbit x b).
Proof.
  intros Hb. destruct (Z.testbit x b) eqn:E; simpl.
  - apply Z.eqb_neq. intros H.
    assert (T : Z.testbit (Z.land x (2 ^ b)) b = false)
      by (rewrite H; apply Z.bits_0).
    rewrite Z.land_spec, E, Z.pow2_bits_true in T by assumption.
    discriminate.
  - apply Z.eqb_eq. apply Z.bits_inj'. intros i Hi.
    rewrite Z.land_spec, Z.bits_0, Z.pow2_bits_eqb by assumption.
    destruct (Z.eqb_spec b i); subst; rewrite ?E, ?andb_false_r; reflexivity.
Qed.

Lemma bit_set_testbit (x b : Z) : 0 <= b -> bit_set x b = Z.testbit x b.
Proof.
  intros Hb. unfold bit_set.
  rewrite shiftl_1_pow2, land_pow2_testbit by assumption.
  apply negb_involutive.
Qed.

Lemma bits_above_lt (x : Z) (n : Z) :
  0 <= n -> 0 <= x -> (forall i, n <= i -> Z.testbit x i = false) ->
  x < 2 ^ n.
Proof.
  intros Hn Hx H.
  assert (E : x = x mod 2 ^ n).
  { apply Z.bits_inj'. intros i Hi.
    destruct (Z_lt_le_dec i n).
    - now rewrite Z.mod_pow2_bits_low.
    - rewrite Z.mod_pow2_bits_high by lia. now apply H. }
  rewrite E. apply Z.mod_pos_bound. apply Z.pow_pos_nonneg; lia.
Qed.

Lemma lt_bits_above (x n i : Z) :
  0 <= x < 2 ^ n -> n <= i -> Z.testbit x i = false.
Proof.
  intros [Hx Hlt] Hi.
  destruct (Z.eq_dec x 0) as [->|Hne]; [apply Z.bits_0|].
  apply Z.bits_above_log2; [assumption|].
  assert (Z.log2 x < n); [|lia].
  apply Z.log2_lt_pow2; lia.
Qed.

Lemma pos_ones_pos (p : positive) : (1 <= pos_ones p)%nat.
Proof. induction p; simpl; lia. Qed.

Lemma pos_ones_one (p : positive) :
  pos_ones p = 1%nat -> exists k, 0 <= k /\ Z.pos p = 2 ^ k.
Proof.
  induction p as [q IH|q IH|]; simpl; intros H.
  - pose proof (pos_ones_pos q). lia.
  - destruct (IH H) as (k & Hk & E). exists (k + 1). split; [lia|].
    rewrite Z.pow_add_r, Z.pow_1_r by lia. rewrite <- E. lia.
  - exists 0. split; [lia|reflexivity].
Qed.

Lemma count_ones_pow2 (n : nat) : bin_count_ones (2 ^ Z.of_nat n) = 1%nat.
Proof.
  induction n as [|n IH]; [reflexivity|].
  rewrite Nat2Z.inj_succ, Z.pow_succ_r by lia.
  destruct (2 ^ Z.of_nat n) as [|p|p]; simpl in *;
    [discriminate IH | exact IH | exact IH].
Qed.

Lemma count_ones_one (x : Z) :
  0 <= x -> (bin_count_ones x = 1%nat <-> exists k, 0 <= k /\ x = 2 ^ k).
Proof.
  intros Hx. split.
  - destruct x as [|p|p]; simpl; try discriminate; try lia.
    apply pos_ones_one.
  - intros (k & Hk & ->). rewrite <- (Z2Nat.id k) by assumption.
    apply count_ones_pow2.
Qed.

Lemma lxor_pow2_differ (a b k : Z) :
  0 <= k -> Z.lxor a b = 2 ^ k ->
  forall i, 0 <= i -> (Z.testbit a i <> Z.testbit b i <-> i = k).
Proof.
  intros Hk E i Hi.
  assert (T : xorb (Z.testbit a i) (Z.testbit b i) = (k =? i)).
  { rewrite <- Z.lxor_spec, E. now apply Z.pow2_bits_eqb. }
  destruct (Z.eqb_spec k i), (Z.testbit a i), (Z.testbit b i);
    simpl in T; try discriminate; split; intros; subst; congruence.
Qed.

Lemma adjacent_cells_lxor (a b : Z) :
  0 <= a -> 0 <= b ->
  (adjacent_cells a b = true <-> exists k, 0 <= k /\ Z.lxor a b = 2 ^ k).
Proof.
  intros Ha Hb. unfold adjacent_cells. rewrite Nat.eqb_eq.
  apply count_ones_one. now apply Z.lxor_nonneg.
Qed.

Lemma adjacent_cells_spec (a b : Z) :
  0 <= a -> 0 <= b ->
  (adjacent_cells a b = true <-> differ_in_exactly_one_bit a b).
Proof.
  intros Ha Hb. rewrite adjacent_cells_lxor by assumption. split.
  - intros (k & Hk & E). exists k. split; [assumption|].
    now apply lxor_pow2_differ.
  - intros (k & Hk & D). exists k. split; [assumption|].
    apply Z.bits_inj'. intros i Hi.
    rewrite Z.lxor_spec, Z.pow2_bits_eqb by assumption.
    specialize (D i Hi).
    destruct (Z.eqb_spec k i) as [->|Hne].
    + destruct (Z.testbit a i), (Z.testbit b i); simpl; try reflexivity;
        exfalso; assert (i = i) as X by reflexivity; apply D in X; congruence.
    + destruct (Z.testbit a i), (Z.testbit b i); simpl; try reflexivity;
        exfalso; apply Hne; symmetry; apply D; discriminate.
Qed.

(** ** Sets and dictionaries *)

Lemma IntSet_mem_In (x : Z) (s : list Z) : IntSet.mem x s = true <-> In x s.
Proof.
  unfold IntSet.mem. rewrite existsb_exists. split.
  - intros (y & Hy & E). apply Z.eqb_eq in E. now subst.
  - intros H. exists x. split; [assumption|apply Z.eqb_refl].
Qed.

Lemma IntSet_add_In (x y : Z) (s : list Z) :
  In x (IntSet.add y s) <-> x = y \/ In x s.
Proof.
  induction s as [|z r IH]; simpl.
  - intuition.
  - destruct (Z.ltb_spec y z); [simpl; intuition|].
    destruct (Z.eqb_spec y z); [subst; simpl; intuition|].
    simpl. rewrite IH. intuition.
Qed.

Lemma IntSet_update_In (x : Z) (xs s : list Z) :
  In x (IntSet.update s xs) <-> In x s \/ In x xs.
Proof.
  unfold IntSet.update. revert s.
  induction xs as [|y r IH]; intros s; simpl; [intuition|].
  rewrite IH, IntSet_add_In. intuition.
Qed.

Lemma IntSet_inter_In (x : Z) (a b : list Z) :
  In x (IntSet.inter a b) <-> In x a /\ In x b.
Proof.
  unfold IntSet.inter. now rewrite filter_In, IntSet_mem_In.
Qed.

Lemma IntSet_diff_In (x : Z) (a b : list Z) :
  In x (IntSet.diff a b) <-> In x a /\ ~ In x b.
Proof.
  unfold IntSet.diff. rewrite filter_In, negb_true_iff.
  rewrite <- (IntSet_mem_In x b).
  destruct (IntSet.mem x b); intuition congruence.
Qed.

(** Members of a set built by adding one value per element of a list. *)
Lemma fold_add_In {A : Type} (f : A -> Z) (l : list A) (s : list Z) (x : Z) :
  In x (fold_left (fun acc a => IntSet.add (f a) acc) l s)
  <-> In x s \/ exists a, In a l /\ x = f a.
Proof.
  revert s. induction l as [|a r IH]; intros s; simpl.
  - split; [auto|]. intros [H|(a & [] & _)]. exact H.
  - rewrite IH, IntSet_add_In. split.
    + intros [[->|H]|(b & Hb & ->)]; eauto.
    + intros [H|(b & [<-|Hb] & ->)]; eauto.
Qed.

Lemma Dict_set_keys_fresh {V : Type} (k : Z) (v : V) (d : list (Z * V)) :
  ~ In k (map fst d) -> Dict.set Z.eqb k v d = d ++ [(k, v)].
Proof.
  induction d as [|[k' v'] r IH]; simpl; intros H; [reflexivity|].
  destruct (Z.eqb_spec k k'); [subst; tauto|].
  rewrite IH; tauto.
Qed.

Lemma initial_level_map (minterms : list Z) :
  NoDup minterms -> initial_level minterms = map (fun m => (m, m)) minterms.
Proof.
  unfold initial_level.
  enough (G : forall d, NoDup minterms ->
             (forall m, In m minterms -> ~ In m (map fst d)) ->
             fold_left (fun d m => Dict.set Z.eqb m m d) minterms d
             = d ++ map (fun m => (m, m)) minterms).
  { intros H. apply (G [] H). intros m _ []. }
  induction minterms as [|m r IH]; intros d Hnd Hfresh; simpl.
  - now rewrite app_nil_r.
  - inversion Hnd as [|? ? Hm Hr]; subst.
    rewrite Dict_set_keys_fresh by (apply Hfresh; now left).
    rewrite IH; [now rewrite <- app_assoc| assumption |].
    intros x Hx. rewrite map_app, in_app_iff. simpl.
    intros [H|[<-|[]]]; [|contradiction].
    apply (Hfresh x); [now right|assumption].
Qed.

(** ** Coverage of a cube *)

Lemma product01_In (k : nat) (a : list Z) :
  In a (product01 k)
  <-> List.length a = k /\ Forall (fun v => v = 0 \/ v = 1) a.
Proof.
  revert a. induction k as [|k IH]; intros a; simpl.
  - split.
    + intros [<-|[]]. split; [reflexivity|constructor].
    + intros [H _]. left. destruct a; [reflexivity|discriminate].
  - rewrite in_app_iff, !in_map_iff. split.
    + intros [(b & <- & Hb)|(b & <- & Hb)]; apply IH in Hb as [Hl Hf];
        (split; [simpl; congruence|constructor; auto]).
    + intros [Hl Hf]. destruct a as [|v b]; [discriminate|].
      inversion Hf as [|? ? Hv Hb]; subst.
      assert (In b (product01 k)) by (apply IH; split; [simpl in Hl; lia|assumption]).
      destruct Hv as [->| ->]; [left|right]; exists b; auto.
Qed.

Lemma set_dont_cares_testbit (bits a : list Z) (t i : Z) :
  Forall (fun b => 0 <= b) bits -> 0 <= i ->
  Z.testbit (set_dont_cares t a bits) i
  = Z.testbit t i || existsb (selects i) (combine a bits).
Proof.
  intros Hb Hi. revert a t.
  induction Hb as [|b bits Hb0 Hbs IH]; intros a t.
  - destruct a; simpl; now rewrite orb_false_r.
  - destruct a as [|v a]; simpl; [now rewrite orb_false_r|].
    rewrite IH. unfold selects at 2. simpl.
    destruct (Z.eqb_spec v 0); simpl; [reflexivity|].
    rewrite Z.lor_spec, shiftl_1_pow2, Z.pow2_bits_eqb by assumption.
    now rewrite orb_assoc.
Qed.

Lemma set_dont_cares_nonneg (bits a : list Z) (t : Z) :
  Forall (fun b => 0 <= b) bits -> 0 <= t -> 0 <= set_dont_cares t a bits.
Proof.
  intros Hb. revert a t.
  induction Hb as [|b bits Hb0 Hbs IH]; intros a t Ht.
  - destruct a; simpl; assumption.
  - destruct a as [|v a]; simpl; [assumption|].
    apply IH. destruct (v =? 0); [assumption|].
    apply Z.lor_nonneg. split; [assumption|].
    rewrite shiftl_1_pow2 by assumption. apply Z.pow_nonneg. lia.
Qed.

Lemma dont_care_bits_In (mask : Z) (n : nat) (b : Z) :
  In b (dont_care_bits_of mask n)
  <-> 0 <= b < Z.of_nat n /\ Z.testbit mask b = false.
Proof.
  unfold dont_care_bits_of, range. rewrite in_flat_map. split.
  - intros (i & Hi & Hb). apply in_seq in Hi.
    assert (0 <= bit_pos_of n i < Z.of_nat n) by (unfold bit_pos_of; lia).
    rewrite bit_set_testbit in Hb by lia.
    destruct (Z.testbit mask (bit_pos_of n i)) eqn:E; simpl in Hb;
      [contradiction|]. destruct Hb as [<-|[]]. auto.
  - intros [Hb E]. exists (Z.to_nat (Z.of_nat n - 1 - b)). split.
    + apply in_seq. lia.
    + assert (bit_pos_of n (Z.to_nat (Z.of_nat n - 1 - b)) = b)
        as -> by (unfold bit_pos_of; lia).
      rewrite bit_set_testbit, E by lia. now left.
Qed.

Lemma selects_chosen (x i : Z) (bits : list Z) :
  existsb (selects i)
    (combine (map (fun b => if Z.testbit x b then 1 else 0) bits) bits)
  = existsb (fun b => Z.testbit x b && (b =? i)) bits.
Proof.
  induction bits as [|b r IH]; simpl; [reflexivity|].
  rewrite IH. f_equal. unfold selects. simpl.
  now destruct (Z.testbit x b).
Qed.

(** The minterms a cube covers: those within [num_vars] bits that agree with
    [term] wherever [term] or [mask] has a 1. *)
Lemma get_covered_minterms_In (term mask : Z) (num_vars : nat) (x : Z) :
  0 <= term < 2 ^ Z.of_nat num_vars ->
  (In x (get_covered_minterms (term, mask) num_vars)
   <-> 0 <= x < 2 ^ Z.of_nat num_vars
       /\ forall i, 0 <= i ->
            Z.testbit x i
            = Z.testbit term i
              || (negb (Z.testbit mask i) && (i <? Z.of_nat num_vars)
                  && Z.testbit x i)).
Proof.
  intros Ht. unfold get_covered_minterms.
  set (bits := dont_care_bits_of mask num_vars).
  assert (Hbits : Forall (fun b => 0 <= b) bits).
  { apply Forall_forall. intros b Hb. apply dont_care_bits_In in Hb. lia. }
  assert (Hsel : forall a i, 0 <= i ->
            existsb (selects i) (combine a bits) = true ->
            Z.testbit mask i = false /\ i < Z.of_nat num_vars).
  { intros a i Hi H. apply existsb_exists in H as ([v b] & Hin & Hs).
    apply in_combine_r in Hin. apply dont_care_bits_In in Hin.
    unfold selects in Hs. simpl in Hs. apply andb_true_iff in Hs as [_ Hs].
    apply Z.eqb_eq in Hs. subst. split; [tauto|lia]. }
  rewrite fold_add_In. split.
  - intros [[]|(a & Ha & ->)].
    assert (T : forall i, 0 <= i ->
              Z.testbit (set_dont_cares term a bits) i
              = Z.testbit term i || existsb (selects i) (combine a bits))
      by (intros; now apply set_dont_cares_testbit).
    split; [split|].
    + apply set_dont_cares_nonneg; [assumption|lia].
    + apply bits_above_lt; [lia| |].
      * apply set_dont_cares_nonneg; [assumption|lia].
      * intros i Hi. rewrite T by lia.
        rewrite (lt_bits_above term (Z.of_nat num_vars)) by assumption.
        simpl. destruct (existsb _ _) eqn:E; [|reflexivity].
        apply Hsel in E; lia.
    + intros i Hi. rewrite T by assumption.
      destruct (Z.testbit term i); [reflexivity|]. simpl.
      destruct (existsb _ _) eqn:E; [|now rewrite andb_false_r].
      apply Hsel in E as [-> E]; [|assumption].
      apply Z.ltb_lt in E. now rewrite E.
  - intros [Hx Hbitsx]. right.
    exists (map (fun b => if Z.testbit x b then 1 else 0) bits).
    split.
    + apply product01_In. split; [apply length_map|].
      apply Forall_forall. intros v Hv. apply in_map_iff in Hv as (b & <- & _).
      destruct (Z.testbit x b); auto.
    + apply Z.bits_inj'. intros i Hi.
      rewrite set_dont_cares_testbit, selects_chosen by assumption.
      rewrite (Hbitsx i Hi) at 1.
      f_equal.
      destruct (existsb _ bits) eqn:E.
      * apply existsb_exists in E as (b & Hb & E).
        apply andb_true_iff in E as [Hxb E]. apply Z.eqb_eq in E. subst b.
        apply dont_care_bits_In in Hb as [Hr ->].
        rewrite Hxb. simpl. rewrite andb_true_r. apply Z.ltb_lt. lia.
      * destruct (Z.testbit mask i) eqn:Em; [reflexivity|]. simpl.
        destruct (Z.ltb_spec i (Z.of_nat num_vars)); [|reflexivity]. simpl.
        destruct (Z.testbit x i) eqn:Ex; [|reflexivity].
        exfalso. rewrite <- not_true_iff_false in E. apply E.
        apply existsb_exists. exists i. split.
        -- apply dont_care_bits_In. split; [lia|assumption].
        -- now rewrite Ex, Z.eqb_refl.
Qed.

(** ** The generation-zero implicants (C4) *)

(** C4, counterexample: the generation-zero implicant of minterm 2 over two
    variables is [(2, 2)], and it covers the minterms 2 and 3, not 2 alone. *)
Lemma initial_implicant_covers_more :
  initial_level [2; 3] = [(2, 2); (3, 3)]
  /\ get_covered_minterms (2, 2) 2 = [2; 3]
  /\ get_covered_minterms (2, 2) 2 <> [2].
Proof. repeat split; try reflexivity. vm_compute. discriminate. Qed.

(** A cube whose mask equals its value covers the minterms within range
    that have a 1 wherever the cube has one. *)
Lemma covered_by_positive_cube (num_vars : nat) (m x : Z) :
  0 <= m < 2 ^ Z.of_nat num_vars ->
  (In x (get_covered_minterms (m, m) num_vars)
   <-> 0 <= x < 2 ^ Z.of_nat num_vars /\ Z.land x m = m).
Proof.
  intros Hr. rewrite get_covered_minterms_In by assumption.
  split; intros [Hx H]; (split; [assumption|]).
  - apply Z.bits_inj'. intros i Hi. rewrite Z.land_spec.
    specialize (H i Hi). destruct (Z.testbit m i); simpl in *.
    + now rewrite H.
    + apply andb_false_r.
  - intros i Hi.
    assert (T : Z.testbit (Z.land x m) i = Z.testbit m i) by now rewrite H.
    rewrite Z.land_spec in T.
    destruct (Z.testbit m i); simpl in *.
    + now rewrite andb_true_r in T.
    + destruct (Z.ltb_spec i (Z.of_nat num_vars)); simpl; [reflexivity|].
      now apply (lt_bits_above x (Z.of_nat num_vars)).
Qed.

(** C4, amended: the finder starts with one implicant per minterm, whose
    value bits and relevance mask both equal the minterm; only the 1 bits of
    the minterm are thereby relevant, and over [num_vars] variables the
    implicant built from [m] covers exactly the minterms below
    [2 ^ num_vars] that have a 1 wherever [m] has one. *)
Theorem initial_implicant_cover
    (minterms : list Z) (num_vars : nat) (m x : Z) :
  NoDup minterms -> In m minterms -> 0 <= m < 2 ^ Z.of_nat num_vars ->
  initial_level minterms = map (fun t => (t, t)) minterms
  /\ In (m, m) (initial_level minterms)
  /\ (In x (get_covered_minterms (m, m) num_vars)
      <-> 0 <= x < 2 ^ Z.of_nat num_vars /\ Z.land x m = m).
Proof.
  intros Hnd Hm Hr. rewrite (initial_level_map _ Hnd).
  split; [reflexivity|]. split.
  - apply in_map_iff. now exists m.
  - now apply covered_by_positive_cube.
Qed.

Lemma initial_implicant_cover_witness :
  initial_level [2; 3] = map (fun t => (t, t)) [2; 3]
  /\ In (2, 2) (initial_level [2; 3])
  /\ (In 3 (get_covered_minterms (2, 2) 2)
      <-> 0 <= 3 < 2 ^ Z.of_nat 2 /\ Z.land 3 2 = 2).
Proof.
  apply (initial_implicant_cover [2; 3] 2 2 3).
  - repeat constructor; simpl; intuition lia.
  - simpl. auto.
  - simpl. lia.
Defined.

(** ** The merge rule (C3) *)

(** C3, counterexample: the generation-zero implicants [(1, 1)] and
    [(3, 3)] of the minterm set {1, 3} are merged although their relevance
    masks differ. *)
Lemma merge_with_different_masks :
  initial_level [1; 3] = [(1, 1); (3, 3)]
  /\ combine_pair (1, 1) (3, 3) ([], []) = ([(1, 1)], [1; 3])
  /\ snd ((1, 1) : implicant) <> snd ((3, 3) : implicant)
  /\ find_prime_implicants [1; 3] = [(1, 1)].
Proof. repeat split; try reflexivity. simpl. lia. Qed.

Lemma merge_implicants_bits (term1 mask1 term2 mask2 i : Z) :
  0 <= i ->
  Z.testbit (fst (merge_implicants (term1, mask1) (term2, mask2))) i
  = Z.testbit term1 i && Z.testbit term2 i
  /\ Z.testbit (snd (merge_implicants (term1, mask1) (term2, mask2))) i
     = Z.testbit mask1 i && Z.testbit mask2 i
       && negb (xorb (Z.testbit term1 i) (Z.testbit term2 i)).
Proof.
  intros Hi. simpl.
  now rewrite !Z.land_spec, Z.lnot_spec, Z.lxor_spec by assumption.
Qed.

(** C3, amended: within a generation two implicants are merged if and only
    if their value bits differ in exactly one bit; the relevance masks are
    not compared.  The merged implicant clears the differing bit from the
    mask and from the value and keeps the common bits elsewhere. *)
Theorem merge_rule (term1 mask1 term2 mask2 : Z) (st : qm_state) :
  0 <= term1 -> 0 <= term2 ->
  let merged := merge_implicants (term1, mask1) (term2, mask2) in
  (differ_in_exactly_one_bit term1 term2 ->
   combine_pair (term1, mask1) (term2, mask2) st
   = (Dict.set Z.eqb (fst merged) (snd merged) (fst st),
      IntSet.add term2 (IntSet.add term1 (snd st))))
  /\ (~ differ_in_exactly_one_bit term1 term2 ->
      combine_pair (term1, mask1) (term2, mask2) st = st)
  /\ (forall k, 0 <= k -> Z.testbit term1 k <> Z.testbit term2 k ->
      Z.testbit (snd merged) k = false /\ Z.testbit (fst merged) k = false)
  /\ (forall i, 0 <= i -> Z.testbit term1 i = Z.testbit term2 i ->
      Z.testbit (snd merged) i = Z.testbit mask1 i && Z.testbit mask2 i
      /\ Z.testbit (fst merged) i = Z.testbit term1 i).
Proof.
  intros H1 H2 merged. subst merged. unfold combine_pair.
  cbn [fst]. pose proof (adjacent_cells_spec term1 term2 H1 H2) as A.
  split; [|split; [|split]].
  - intros D. apply A in D. rewrite D. reflexivity.
  - intros D. destruct (adjacent_cells term1 term2); [|reflexivity].
    exfalso. apply D. now apply A.
  - intros k Hk D.
    destruct (merge_implicants_bits term1 mask1 term2 mask2 k Hk) as [-> ->].
    destruct (Z.testbit term1 k), (Z.testbit term2 k); simpl;
      try congruence; rewrite ?andb_false_r; auto.
  - intros i Hi E.
    destruct (merge_implicants_bits term1 mask1 term2 mask2 i Hi) as [-> ->].
    rewrite E. destruct (Z.testbit term2 i); simpl;
      now rewrite ?andb_true_r.
Qed.

Lemma merge_rule_witness :
  (differ_in_exactly_one_bit 1 3 ->
   combine_pair (1, 1) (3, 3) ([], [])
   = (Dict.set Z.eqb (fst (merge_implicants (1, 1) (3, 3)))
        (snd (merge_implicants (1, 1) (3, 3))) [],
      IntSet.add 3 (IntSet.add 1 [])))
  /\ (~ differ_in_exactly_one_bit 1 3 ->
      combine_pair (1, 1) (3, 3) ([], []) = ([], []))
  /\ (forall k, 0 <= k -> Z.testbit 1 k <> Z.testbit 3 k ->
      Z.testbit (snd (merge_implicants (1, 1) (3, 3))) k = false
      /\ Z.testbit (fst (merge_implicants (1, 1) (3, 3))) k = false)
  /\ (forall i, 0 <= i -> Z.testbit 1 i = Z.testbit 3 i ->
      Z.testbit (snd (merge_implicants (1, 1) (3, 3))) i
      = Z.testbit 1 i && Z.testbit 3 i
      /\ Z.testbit (fst (merge_implicants (1, 1) (3, 3))) i = Z.testbit 1 i).
Proof.
  apply (merge_rule 1 1 3 3 ([], [])); lia.
Defined.

(** ** Sorting *)

Section SortingFacts.
Context {A : Type} (leb : A -> A -> bool).

Lemma insert_sorted_In (x y : A) (l : list A) :
  In x (insert_sorted leb y l) <-> x = y \/ In x l.
Proof.
  induction l as [|z r IH]; simpl; [intuition|].
  destruct (leb y z); simpl; [intuition|]. rewrite IH. intuition.
Qed.

Lemma sorted_In (x : A) (l : list A) : In x (sorted leb l) <-> In x l.
Proof.
  induction l as [|y r IH]; simpl; [reflexivity|].
  rewrite insert_sorted_In, IH. intuition.
Qed.

Lemma insert_sorted_perm (y : A) (l : list A) :
  Permutation (insert_sorted leb y l) (y :: l).
Proof.
  induction l as [|z r IH]; simpl; [reflexivity|].
  destruct (leb y z); [reflexivity|].
  rewrite IH. apply perm_swap.
Qed.

Lemma sorted_perm (l : list A) : Permutation (sorted leb l) l.
Proof.
  induction l as [|y r IH]; simpl; [reflexivity|].
  rewrite insert_sorted_perm. now constructor.
Qed.
End SortingFacts.

(** ** The size bound (C6) *)

(** C6: above six variables [minimize_karnaugh] returns the empty string
    whatever the minterms are, and so does [compute_kmap]; it is an ordinary
    result, the function being total.  Up to six variables the result is the
    rendering of the cover selected among the prime implicants found. *)
Theorem universe_limit (minterms : list Z) (variables : list ascii) :
  ((6 < List.length variables)%nat ->
   minimize_karnaugh minterms variables = EmptyString)
  /\ ((List.length variables <= 6)%nat ->
      minimize_karnaugh minterms variables
      = format_cover
          (essential_prime_implicant_cover
             (find_prime_implicants minterms) minterms
             (List.length variables))
          variables)
  /\ (forall base_expr reset_expr,
      variables = variables_of base_expr reset_expr ->
      (6 < List.length variables)%nat ->
      compute_kmap base_expr reset_expr = EmptyString).
Proof.
  split; [|split].
  - intros H. unfold minimize_karnaugh.
    destruct minterms; [reflexivity|].
    apply Nat.ltb_lt in H. now rewrite H.
  - intros H. unfold minimize_karnaugh.
    destruct minterms as [|m r]; [reflexivity|].
    destruct (Nat.ltb_spec 6 (List.length variables)); [lia|].
    destruct (find_prime_implicants (m :: r)); reflexivity.
  - intros base_expr reset_expr -> H. unfold compute_kmap.
    destruct (all_vars_of base_expr reset_expr); [reflexivity|].
    unfold minimize_karnaugh.
    destruct (kmap_minterms base_expr reset_expr); [reflexivity|].
    apply Nat.ltb_lt in H. now rewrite H.
Qed.

Lemma universe_limit_witness :
  minimize_karnaugh [127] ["A"; "B"; "C"; "D"; "E"; "F"; "G"]%char
  = EmptyString
  /\ minimize_karnaugh [5; 6; 7] ["A"; "B"; "C"]%char
     = format_cover
         (essential_prime_implicant_cover
            (find_prime_implicants [5; 6; 7]) [5; 6; 7] 3)
         ["A"; "B"; "C"]%char.
Proof.
  split.
  - apply (universe_limit [127] ["A"; "B"; "C"; "D"; "E"; "F"; "G"]%char).
    simpl. lia.
  - apply (universe_limit [5; 6; 7] ["A"; "B"; "C"]%char). simpl. lia.
Defined.

(** ** Substitution of the pivot (C8, C10) *)

Lemma CharSet_mem_In (c : ascii) (s : list ascii) :
  CharSet.mem c s = true <-> In c s.
Proof.
  unfold CharSet.mem. rewrite existsb_exists. split.
  - intros (y & Hy & E). apply Ascii.eqb_eq in E. now subst.
  - intros H. exists c. split; [assumption|apply Ascii.eqb_refl].
Qed.

Lemma index_of_P_Some (variables : list ascii) :
  In "P"%char variables -> exists p_index, index_of_P variables = Some p_index.
Proof.
  induction variables as [|v r IH]; simpl; [intros []|].
  destruct (Ascii.eqb_spec v "P"); [eauto|].
  intros [H|H]; [contradiction|]. destruct (IH H) as [p ->]. simpl. eauto.
Qed.

(** C8: Scenario C.  Primary "[P]", secondary "[Q]": the universe is P, Q;
    the primary minterms 2 and 3 (P = 1) are each replaced by the secondary
    minterm mapped onto the position of Q; a minterm with P = 0 passes
    unchanged; the final minterm set is {1} (Q = 1, P = 0) and the output is
    "[Q]". *)
Theorem scenario_C_substitution :
  let variables := variables_of (Some "[P]"%string) (Some "[Q]"%string) in
  variables = ["P"; "Q"]%char
  /\ parse_expr_to_minterms (Some "[P]"%string) variables = [2; 3]
  /\ parse_expr_to_minterms (Some "[Q]"%string) (filter is_not_P variables)
     = [1]
  /\ expand_step variables [1] [] 2 = [1]
  /\ expand_step variables [1] [1] 3 = [1]
  /\ (forall reset_minterms expanded_minterms minterm,
      Z.land minterm 2 = 0 ->
      expand_step variables reset_minterms expanded_minterms minterm
      = IntSet.add minterm expanded_minterms)
  /\ kmap_minterms (Some "[P]"%string) (Some "[Q]"%string) = [1]
  /\ compute_kmap (Some "[P]"%string) (Some "[Q]"%string) = "[Q]"%string.
Proof.
  cbv zeta.
  assert (E : variables_of (Some "[P]"%string) (Some "[Q]"%string)
              = ["P"; "Q"]%char) by (vm_compute; reflexivity).
  rewrite !E.
  repeat split; try (vm_compute; reflexivity).
  intros reset_minterms expanded_minterms minterm H.
  unfold expand_step. simpl index_of_P. cbv iota beta.
  replace (Z.shiftl 1 (bit_pos_of (List.length ["P"; "Q"]%char) 0)) with 2
    by reflexivity.
  now rewrite H.
Qed.

Lemma expand_without_reset_In
    (variables : list ascii) (p_index : nat) (l acc : list Z) (x : Z) :
  index_of_P variables = Some p_index ->
  In x (fold_left (expand_step variables []) l acc)
  <-> In x acc
      \/ (In x l
          /\ Z.land x
               (Z.shiftl 1 (bit_pos_of (List.length variables) p_index))
             = 0).
Proof.
  intros HP. revert acc.
  induction l as [|m r IH]; intros acc; simpl; [intuition|].
  rewrite IH. unfold expand_step. rewrite HP.
  destruct (Z.eqb_spec
              (Z.land m (Z.shiftl 1 (bit_pos_of (List.length variables) p_index)))
              0) as [E|E]; simpl.
  - rewrite IntSet_add_In. split.
    + intros [[->|H]|[H1 H2]]; auto.
    + intros [H|[[<-|H1] H2]]; auto.
  - split.
    + intros [H|[H1 H2]]; auto.
    + intros [H|[[<-|H1] H2]]; auto. contradiction.
Qed.

(** C10: a secondary expression that is not empty and holds no bracket
    group (such as "-") still triggers the substitution when P is in the
    universe; the secondary minterm set is empty, so exactly the primary
    minterms with the P bit 0 survive.  Hence "[P]" with secondary "-" gives
    the empty string, while "[P]" without a secondary gives "[P]". *)
Theorem placeholder_reset_discards :
  (forall base_expr reset_expr,
     is_falsy reset_expr = false ->
     parse_terms (text_of reset_expr) = [] ->
     CharSet.mem "P" (all_vars_of base_expr reset_expr) = true ->
     let variables := variables_of base_expr reset_expr in
     exists p_index,
       index_of_P variables = Some p_index
       /\ forall x,
            In x (kmap_minterms base_expr reset_expr)
            <-> In x (parse_expr_to_minterms base_expr variables)
                /\ Z.land x
                     (Z.shiftl 1
                        (bit_pos_of (List.length variables) p_index)) = 0)
  /\ compute_kmap (Some "[P]"%string) (Some "-"%string) = EmptyString
  /\ compute_kmap (Some "[P]"%string) None = "[P]"%string.
Proof.
  split; [|split; vm_compute; reflexivity].
  intros base_expr reset_expr Hf Ht HP variables.
  destruct (index_of_P_Some variables) as [p_index Hp].
  { apply sorted_In. now apply CharSet_mem_In. }
  exists p_index. split; [assumption|]. intros x.
  unfold kmap_minterms. rewrite HP, Hf. simpl.
  assert (R : parse_expr_to_minterms reset_expr
                (filter is_not_P
                   (sorted Ascii.leb (all_vars_of base_expr reset_expr)))
              = []).
  { unfold parse_expr_to_minterms. rewrite Ht.
    now destruct (is_falsy reset_expr || is_placeholder (text_of reset_expr)). }
  rewrite R. fold (variables_of base_expr reset_expr). fold variables.
  rewrite (expand_without_reset_In variables p_index) by assumption.
  simpl. intuition.
Qed.

Lemma placeholder_reset_discards_witness :
  exists p_index,
    index_of_P (variables_of (Some "[P][Q]"%string) (Some "-"%string))
    = Some p_index
    /\ forall x,
         In x (kmap_minterms (Some "[P][Q]"%string) (Some "-"%string))
         <-> In x
               (parse_expr_to_minterms (Some "[P][Q]"%string)
                  (variables_of (Some "[P][Q]"%string) (Some "-"%string)))
             /\ Z.land x
                  (Z.shiftl 1
                     (bit_pos_of
                        (List.length
                           (variables_of (Some "[P][Q]"%string)
                              (Some "-"%string)))
                        p_index)) = 0.
Proof.
  apply (proj1 placeholder_reset_discards
           (Some "[P][Q]"%string) (Some "-"%string)); reflexivity.
Defined.

(** ** The bracket scanner (C5) *)

Lemma take_while_Forall (p : ascii -> bool) (s : list ascii) :
  Forall (holds p) (take_while p s).
Proof.
  induction s as [|c r IH]; simpl; [constructor|].
  destruct (p c) eqn:E; constructor; assumption.
Qed.

Lemma take_drop_while (p : ascii -> bool) (s : list ascii) :
  take_while p s ++ drop_while p s = s.
Proof.
  induction s as [|c r IH]; simpl; [reflexivity|].
  destruct (p c); simpl; [now rewrite IH|reflexivity].
Qed.

Lemma take_while_all (p : ascii -> bool) (s t : list ascii) :
  Forall (holds p) s -> stops p t ->
  take_while p (s ++ t) = s /\ drop_while p (s ++ t) = t.
Proof.
  intros Hs Ht. induction Hs as [|c r Hc Hr IH]; simpl.
  - destruct t as [|c t]; simpl in *; [auto|]. now rewrite Ht.
  - rewrite Hc. destruct IH as [-> ->]. auto.
Qed.

Lemma take_while_app_stop (p : ascii -> bool) (s : list ascii) (c : ascii)
    (t : list ascii) :
  p c = false ->
  take_while p (s ++ c :: t) = take_while p s
  /\ drop_while p (s ++ c :: t) = drop_while p s ++ c :: t.
Proof.
  intros Hc. induction s as [|d r IH]; simpl.
  - now rewrite Hc.
  - destruct (p d); [|auto]. destruct IH as [-> ->]. auto.
Qed.

Lemma is_upper_not_space (c : ascii) : is_upper c = true -> is_space c = false.
Proof.
  destruct c as [[] [] [] [] [] [] [] []]; vm_compute; intros H;
    first [reflexivity | discriminate H].
Qed.

Lemma is_upper_isalpha (c : ascii) : is_upper c = true -> isalpha c = true.
Proof.
  destruct c as [[] [] [] [] [] [] [] []]; vm_compute; intros H;
    first [reflexivity | discriminate H].
Qed.

Lemma is_upper_not_bracket (c : ascii) :
  is_upper c = true -> c <> "["%char /\ c <> "]"%char.
Proof. intros H. split; intros ->; discriminate H. Qed.

Lemma is_space_not_bracket (c : ascii) :
  is_space c = true -> c <> "["%char /\ c <> "]"%char.
Proof. intros H. split; intros ->; discriminate H. Qed.

Lemma match_bracket_Some (s g : list ascii) (len : nat) :
  match_bracket s = Some (g, len) ->
  g <> [] /\ Forall (holds is_upper) g /\ (1 <= len <= List.length s)%nat.
Proof.
  unfold match_bracket. destruct s as [|c s1]; [discriminate|].
  destruct (Ascii.eqb c "["); [|discriminate].
  pose proof (take_while_Forall is_upper (drop_while is_space s1)) as Hg.
  pose proof (take_drop_while is_space s1) as E1.
  pose proof (take_drop_while is_upper (drop_while is_space s1)) as E2.
  pose proof (take_drop_while is_space
                (drop_while is_upper (drop_while is_space s1))) as E3.
  destruct (take_while is_upper (drop_while is_space s1)) as [|u g'] eqn:Eg;
    [discriminate|].
  destruct (drop_while is_space
              (drop_while is_upper (drop_while is_space s1)))
    as [|c' r] eqn:Ed; [discriminate|].
  destruct (Ascii.eqb c' "]"); [|discriminate].
  intros [= <- <-]. split; [discriminate|]. split; [assumption|].
  apply (f_equal (@List.length ascii)) in E1, E2, E3.
  rewrite length_app in E1, E2, E3. simpl in *. lia.
Qed.

(** A failed or successful attempt is decided before the next opening
    bracket. *)
Lemma match_bracket_app (s t : list ascii) :
  s <> [] -> match_bracket (s ++ "["%char :: t) = match_bracket s.
Proof.
  destruct s as [|c s1]; [congruence|]. intros _. simpl.
  destruct (Ascii.eqb c "["); [|reflexivity].
  destruct (take_while_app_stop is_space s1 "[" t eq_refl) as [-> ->].
  destruct (drop_while is_space s1) as [|d s2] eqn:E2.
  - reflexivity.
  - rewrite <- app_comm_cons.
    change (d :: s2 ++ "["%char :: t) with ((d :: s2) ++ "["%char :: t).
    destruct (take_while_app_stop is_upper (d :: s2) "[" t eq_refl)
      as [-> ->].
    destruct (take_while is_upper (d :: s2)); [reflexivity|].
    destruct (take_while_app_stop is_space (drop_while is_upper (d :: s2))
                "[" t eq_refl) as [-> ->].
    destruct (drop_while is_space (drop_while is_upper (d :: s2)));
      reflexivity.
Qed.

Lemma findall_from_skip (a b : list ascii) :
  findall_from (List.length a) (a ++ b) = findall_from 0 b.
Proof. induction a as [|c r IH]; simpl; [now destruct b|assumption]. Qed.

Lemma findall_from_app (pre t : list ascii) (k : nat) :
  (k <= List.length pre)%nat ->
  findall_from k (pre ++ "["%char :: t)
  = findall_from k pre ++ findall_from 0 ("["%char :: t).
Proof.
  revert k. induction pre as [|c r IH]; intros k Hk.
  - assert (k = 0%nat) as -> by (simpl in Hk; lia). reflexivity.
  - rewrite <- app_comm_cons.
    destruct k as [|k].
    + cbn [findall_from].
      change (c :: r ++ "["%char :: t) with ((c :: r) ++ "["%char :: t).
      rewrite match_bracket_app by discriminate.
      destruct (match_bracket (c :: r)) as [[g len]|] eqn:E.
      * apply match_bracket_Some in E as (_ & _ & Hlen). simpl in Hlen.
        rewrite IH by lia. reflexivity.
      * apply IH. lia.
    + cbn [findall_from]. apply IH. simpl in Hk. lia.
Qed.

Lemma findall_from_no_bracket (a t : list ascii) :
  Forall (fun c => c <> "["%char) a ->
  findall_from 0 (a ++ t) = findall_from 0 t.
Proof.
  induction 1 as [|c r Hc Hr IH]; [reflexivity|].
  rewrite <- app_comm_cons. cbn [findall_from]. unfold match_bracket.
  destruct (Ascii.eqb_spec c "["); [contradiction|]. exact IH.
Qed.

Lemma match_bracket_group (ws1 letters ws2 post : list ascii) :
  letters <> [] -> Forall (holds is_upper) letters ->
  Forall (holds is_space) ws1 -> Forall (holds is_space) ws2 ->
  match_bracket (bracket_group ws1 letters ws2 ++ post)
  = Some (letters, List.length (bracket_group ws1 letters ws2)).
Proof.
  intros Hne Hl H1 H2. unfold bracket_group.
  rewrite <- app_comm_cons, <- !app_assoc. cbn [match_bracket].
  rewrite Ascii.eqb_refl.
  destruct letters as [|u l]; [congruence|].
  inversion Hl as [|? ? Hu Hl']; subst.
  destruct (take_while_all is_space ws1 ((u :: l) ++ ws2 ++ ["]"%char] ++ post))
    as [-> ->]; [assumption|simpl; now apply is_upper_not_space|].
  assert (S2 : stops is_upper (ws2 ++ ["]"%char] ++ post)).
  { destruct H2 as [|w ws Hw]; simpl; [reflexivity|].
    destruct (is_upper w) eqn:E; [|reflexivity].
    apply is_upper_not_space in E. unfold holds in Hw. congruence. }
  destruct (take_while_all is_upper (u :: l) (ws2 ++ ["]"%char] ++ post))
    as [-> ->]; [assumption|assumption|].
  destruct (take_while_all is_space ws2 (["]"%char] ++ post))
    as [-> ->]; [assumption|reflexivity|].
  simpl. rewrite !length_app. simpl. rewrite !length_app. simpl.
  do 2 f_equal. lia.
Qed.

Lemma bracket_findall_group (pre ws1 letters ws2 post : list ascii) :
  letters <> [] -> Forall (holds is_upper) letters ->
  Forall (holds is_space) ws1 -> Forall (holds is_space) ws2 ->
  bracket_findall (pre ++ bracket_group ws1 letters ws2 ++ post)
  = bracket_findall pre ++ letters :: bracket_findall post.
Proof.
  intros Hne Hl H1 H2. unfold bracket_findall.
  pose proof (match_bracket_group ws1 letters ws2 post Hne Hl H1 H2) as M.
  remember (bracket_group ws1 letters ws2) as G eqn:EG.
  assert (exists r, G = "["%char :: r) as [r Er]
    by (subst G; unfold bracket_group; eauto).
  rewrite Er in *. rewrite <- app_comm_cons.
  rewrite findall_from_app by lia. f_equal.
  cbn [findall_from]. rewrite app_comm_cons, M. f_equal.
  simpl List.length. rewrite Nat.sub_1_r. simpl Nat.pred.
  apply findall_from_skip.
Qed.

Lemma CharSet_add_In (x c : ascii) (s : list ascii) :
  In x (CharSet.add c s) <-> x = c \/ In x s.
Proof.
  unfold CharSet.add. destruct (CharSet.mem c s) eqn:E.
  - apply CharSet_mem_In in E. split; [auto|]. intros [->|H]; assumption.
  - rewrite in_app_iff. simpl. intuition.
Qed.

Lemma CharSet_update_In (x : ascii) (cs s : list ascii) :
  In x (CharSet.update s cs) <-> In x s \/ In x cs.
Proof.
  unfold CharSet.update. revert s.
  induction cs as [|c r IH]; intros s; simpl; [intuition|].
  rewrite IH, CharSet_add_In. intuition.
Qed.

Lemma CharSet_of_list_In (x : ascii) (cs : list ascii) :
  In x (CharSet.of_list cs) <-> In x cs.
Proof. unfold CharSet.of_list. rewrite CharSet_update_In. simpl. tauto. Qed.

Lemma filter_isalpha_upper (letters : list ascii) :
  Forall (holds is_upper) letters -> filter isalpha letters = letters.
Proof.
  induction 1 as [|c r Hc Hr IH]; simpl; [reflexivity|].
  rewrite (is_upper_isalpha c Hc). now rewrite IH.
Qed.

(** C5, counterexample: a group whose letters are separated by a space
    holds no match of the pattern, so "[A B]" yields no term at all. *)
Lemma spaced_letters_not_recognized :
  bracket_findall (chars "[A B]") = []
  /\ parse_terms (chars "[A B]") = []
  /\ parse_expr_to_minterms (Some "[A B]"%string) ["A"; "B"]%char = [].
Proof. repeat split; vm_compute; reflexivity. Qed.

(** C5, amended: the parser recognizes every bracket group made of '[',
    optional whitespace, one or more contiguous uppercase letters, optional
    whitespace and ']', wherever it stands in the text; the whitespace next
    to the brackets is stripped and the group yields the term holding
    exactly its letters.  Whitespace between the letters is not tolerated:
    such a group is passed over and yields no term. *)
Theorem bracket_group_recognized (pre ws1 letters ws2 post : list ascii) :
  letters <> [] -> Forall (holds is_upper) letters ->
  Forall (holds is_space) ws1 -> Forall (holds is_space) ws2 ->
  bracket_findall (pre ++ bracket_group ws1 letters ws2 ++ post)
  = bracket_findall pre ++ letters :: bracket_findall post
  /\ parse_terms (pre ++ bracket_group ws1 letters ws2 ++ post)
     = parse_terms pre ++ CharSet.of_list letters :: parse_terms post
  /\ (forall c, In c (CharSet.of_list letters) <-> In c letters)
  /\ (forall ws more,
      ws <> [] -> Forall (holds is_space) ws ->
      more <> [] -> Forall (holds is_upper) more ->
      bracket_findall
        (pre ++ bracket_group ws1 (letters ++ ws ++ more) ws2 ++ post)
      = bracket_findall pre ++ bracket_findall post).
Proof.
  intros Hne Hl H1 H2.
  pose proof (bracket_findall_group pre ws1 letters ws2 post Hne Hl H1 H2)
    as F.
  split; [exact F|]. split; [|split].
  - unfold parse_terms. rewrite F, map_app. simpl.
    now rewrite (filter_isalpha_upper letters Hl).
  - intros c. apply CharSet_of_list_In.
  - intros ws more Hws Hs Hmore Hm. unfold bracket_findall, bracket_group.
    rewrite <- app_comm_cons, findall_from_app by lia. f_equal.
    cbn [findall_from].
    assert (M : match_bracket
                  ("["%char :: (ws1 ++ (letters ++ ws ++ more) ++ ws2 ++ ["]"%char]) ++ post)
                = None).
    { cbn [match_bracket]. rewrite Ascii.eqb_refl.
      rewrite <- !app_assoc.
      destruct letters as [|u l]; [congruence|].
      inversion Hl as [|? ? Hu Hl']; subst.
      destruct (take_while_all is_space ws1
                  ((u :: l) ++ ws ++ more ++ ws2 ++ ["]"%char] ++ post))
        as [-> ->]; [assumption|simpl; now apply is_upper_not_space|].
      destruct ws as [|w ws']; [congruence|].
      inversion Hs as [|? ? Hw Hs']; subst.
      assert (Uw : is_upper w = false).
      { destruct (is_upper w) eqn:E; [|reflexivity].
        apply is_upper_not_space in E. unfold holds in Hw. congruence. }
      destruct (take_while_all is_upper (u :: l)
                  ((w :: ws') ++ more ++ ws2 ++ ["]"%char] ++ post))
        as [-> ->]; [assumption|exact Uw|].
      destruct more as [|v more']; [congruence|].
      inversion Hm as [|? ? Hv Hm']; subst.
      destruct (take_while_all is_space (w :: ws')
                  ((v :: more') ++ ws2 ++ ["]"%char] ++ post))
        as [_ ->]; [assumption|simpl; now apply is_upper_not_space|].
      simpl. destruct (Ascii.eqb_spec v "]"); [|reflexivity].
      now apply is_upper_not_bracket in Hv. }
    rewrite M.
    apply findall_from_no_bracket.
    rewrite !Forall_app. repeat split.
    + eapply Forall_impl; [|exact H1]. intros a Ha. now apply is_space_not_bracket.
    + eapply Forall_impl; [|exact Hl]. intros a Ha. now apply is_upper_not_bracket.
    + eapply Forall_impl; [|exact Hs]. intros a Ha. now apply is_space_not_bracket.
    + eapply Forall_impl; [|exact Hm]. intros a Ha. now apply is_upper_not_bracket.
    + eapply Forall_impl; [|exact H2]. intros a Ha. now apply is_space_not_bracket.
    + constructor; [discriminate|constructor].
Qed.

Lemma bracket_group_recognized_witness :
  bracket_findall
    (chars "x" ++ bracket_group (chars " ") (chars "AB") (chars " ")
       ++ chars "[C]")
  = bracket_findall (chars "x") ++ chars "AB" :: bracket_findall (chars "[C]")
  /\ parse_terms
       (chars "x" ++ bracket_group (chars " ") (chars "AB") (chars " ")
          ++ chars "[C]")
     = parse_terms (chars "x") ++ CharSet.of_list (chars "AB")
         :: parse_terms (chars "[C]")
  /\ (forall c, In c (CharSet.of_list (chars "AB")) <-> In c (chars "AB"))
  /\ (forall ws more,
      ws <> [] -> Forall (holds is_space) ws ->
      more <> [] -> Forall (holds is_upper) more ->
      bracket_findall
        (chars "x"
           ++ bracket_group (chars " ") (chars "AB" ++ ws ++ more) (chars " ")
           ++ chars "[C]")
      = bracket_findall (chars "x") ++ bracket_findall (chars "[C]")).
Proof.
  apply (bracket_group_recognized (chars "x") (chars " ") (chars "AB")
           (chars " ") (chars "[C]")).
  - discriminate.
  - repeat constructor.
  - repeat constructor.
  - repeat constructor.
Defined.

(** ** An uncoverable minterm (C2) *)

Lemma implicant_eqb_eq (a b : implicant) : implicant_eqb a b = true <-> a = b.
Proof.
  destruct a as [t m], b as [t' m']. unfold implicant_eqb. simpl.
  rewrite andb_true_iff, !Z.eqb_eq. split; [intros [-> ->]|intros [= -> ->]]; auto.
Qed.

Lemma Dict_set_In {V : Type} (k : implicant) (v : V)
    (d : list (implicant * V)) (kv : implicant * V) :
  In kv (Dict.set implicant_eqb k v d) -> kv = (k, v) \/ In kv d.
Proof.
  induction d as [|[k' v'] r IH]; simpl.
  - intros [<-|[]]. now left.
  - destruct (implicant_eqb k k') eqn:E.
    + apply implicant_eqb_eq in E. subst k'. simpl. intuition.
    + simpl. intuition.
Qed.

Lemma Dict_get_In {V : Type} (k : implicant) (v : V)
    (d : list (implicant * V)) :
  Dict.get implicant_eqb k d = Some v -> In (k, v) d.
Proof.
  induction d as [|[k' v'] r IH]; simpl; [discriminate|].
  destruct (implicant_eqb k k') eqn:E.
  - apply implicant_eqb_eq in E. intros [= ->]. subst. now left.
  - auto.
Qed.

Lemma build_coverage_In (prime_implicants : list implicant)
    (minterms : list Z) (num_vars : nat) (pi : implicant) (cov : list Z) :
  In (pi, cov) (build_coverage prime_implicants minterms num_vars) ->
  In pi prime_implicants
  /\ cov = IntSet.inter (get_covered_minterms pi num_vars) minterms.
Proof.
  unfold build_coverage.
  enough (G : forall d,
             In (pi, cov)
               (fold_left
                  (fun coverage pi =>
                     Dict.set implicant_eqb pi
                       (IntSet.inter (get_covered_minterms pi num_vars) minterms)
                       coverage)
                  prime_implicants d) ->
             In (pi, cov) d
             \/ (In pi prime_implicants
                 /\ cov = IntSet.inter (get_covered_minterms pi num_vars) minterms)).
  { intros H. destruct (G [] H) as [[]|H']. exact H'. }
  induction prime_implicants as [|p r IH]; intros d H; simpl in *; [auto|].
  apply IH in H as [H|[H1 H2]]; [|auto].
  apply Dict_set_In in H as [[= -> ->]|H]; auto.
Qed.

Lemma build_coverage_ext (prime_implicants : list implicant)
    (t1 t2 : list Z) (num_vars : nat) :
  (forall pi, In pi prime_implicants ->
     IntSet.inter (get_covered_minterms pi num_vars) t1
     = IntSet.inter (get_covered_minterms pi num_vars) t2) ->
  build_coverage prime_implicants t1 num_vars
  = build_coverage prime_implicants t2 num_vars.
Proof.
  unfold build_coverage. generalize (@nil (implicant * list Z)).
  induction prime_implicants as [|p r IH]; intros d H; simpl; [reflexivity|].
  rewrite (H p) by now left. apply IH. intros pi Hpi. apply H. now right.
Qed.

Lemma uncovered_covering_of (coverage : list (implicant * list Z)) (m : Z) :
  uncovered coverage m -> covering_of coverage m = [].
Proof.
  intros U. unfold covering_of.
  replace (filter (fun pc => IntSet.mem m (snd pc)) coverage) with
    (@nil (implicant * list Z)); [reflexivity|].
  symmetry. induction coverage as [|[pi cov] r IH]; simpl; [reflexivity|].
  destruct (IntSet.mem m cov) eqn:E.
  - apply IntSet_mem_In in E. exfalso. apply (U pi cov); [now left|assumption].
  - apply IH. intros pi' cov' H. apply (U pi' cov'). now right.
Qed.

Lemma essential_step_uncovered (coverage : list (implicant * list Z))
    (st : list implicant * list Z) (m : Z) :
  uncovered coverage m -> essential_step coverage st m = st.
Proof.
  intros U. unfold essential_step. now rewrite uncovered_covering_of.
Qed.

Lemma clause_step_uncovered (coverage : list (implicant * list Z))
    (index_of : list (implicant * nat)) (essential : list implicant)
    (clauses : list (list nat)) (m : Z) :
  uncovered coverage m ->
  clause_step coverage index_of essential clauses m = clauses.
Proof.
  intros U. unfold clause_step. now rewrite uncovered_covering_of.
Qed.

Lemma coverage_get_In (coverage : list (implicant * list Z))
    (pi : implicant) (x : Z) :
  In x (coverage_get coverage pi) -> exists cov, In (pi, cov) coverage /\ In x cov.
Proof.
  unfold coverage_get.
  destruct (Dict.get implicant_eqb pi coverage) as [cov|] eqn:E; [|intros []].
  apply Dict_get_In in E. eauto.
Qed.

Lemma essential_fold_covered (coverage : list (implicant * list Z))
    (l : list Z) (st : list implicant * list Z) (x : Z) :
  In x (snd (fold_left (essential_step coverage) l st)) ->
  In x (snd st) \/ exists pi cov, In (pi, cov) coverage /\ In x cov.
Proof.
  revert st. induction l as [|m r IH]; intros st H; simpl in *; [auto|].
  apply IH in H as [H|H]; [|auto].
  unfold essential_step in H.
  destruct (covering_of coverage m) as [|epi [|]]; auto.
  destruct (existsb (implicant_eqb epi) (fst st)); auto.
  simpl in H. apply IntSet_update_In in H as [H|H]; auto.
  apply coverage_get_In in H as (cov & H1 & H2). eauto.
Qed.

(** C2, counterexample: with the single prime implicant [(1, 1)] and the
    target {0, 1} over one variable, minterm 0 is covered by no implicant
    and stays uncovered after the essential step; no clause is built for it
    and the solver returns the cover [[(1, 1)]], the very value it returns
    for the target {1}. *)
Lemma uncoverable_minterm_skipped :
  covering_of (build_coverage [(1, 1)] [0; 1] 1) 0 = []
  /\ build_clauses (build_coverage [(1, 1)] [0; 1] 1)
       (build_index_of [(1, 1)]) [(1, 1)] [0] = []
  /\ essential_prime_implicant_cover [(1, 1)] [0; 1] 1 = [(1, 1)]
  /\ essential_prime_implicant_cover [(1, 1)] [1] 1 = [(1, 1)]
  /\ ~ In 0 (get_covered_minterms (1, 1) 1).
Proof.
  repeat split; try (vm_compute; reflexivity).
  vm_compute. intros [H|[]]. discriminate H.
Qed.

(** C2, amended: a target minterm that no prime implicant covers is
    skipped silently: no clause is built for it, no failure is signalled,
    and the solver returns the cover it returns for the target without that
    minterm (the empty cover when the minterm is the whole target). *)
Theorem uncoverable_minterm_ignored
    (prime_implicants : list implicant) (before after : list Z) (m : Z)
    (num_vars : nat) :
  (forall pi, In pi prime_implicants ->
     ~ In m (get_covered_minterms pi num_vars)) ->
  (before ++ after <> [] ->
   essential_prime_implicant_cover prime_implicants (before ++ m :: after)
     num_vars
   = essential_prime_implicant_cover prime_implicants (before ++ after)
       num_vars)
  /\ essential_prime_implicant_cover prime_implicants [m] num_vars = [].
Proof.
  intros Hm.
  assert (U : forall target,
            uncovered (build_coverage prime_implicants target num_vars) m).
  { intros target pi cov H. apply build_coverage_In in H as [Hpi ->].
    rewrite IntSet_inter_In. intros [H _]. exact (Hm pi Hpi H). }
  split.
  - intros Hne. unfold essential_prime_implicant_cover.
    destruct prime_implicants as [|p ps] eqn:Ep; [reflexivity|].
    rewrite <- Ep in *.
    destruct (before ++ m :: after) as [|a0 r0] eqn:E1;
      [destruct before; discriminate|].
    destruct (before ++ after) as [|a1 r1] eqn:E2; [congruence|].
    clear Hne. rewrite <- E1, <- E2. clear E1 E2 a0 r0 a1 r1.
    assert (C : build_coverage prime_implicants (before ++ m :: after) num_vars
                = build_coverage prime_implicants (before ++ after) num_vars).
    { apply build_coverage_ext. intros pi Hpi. unfold IntSet.inter.
      apply filter_ext_in. intros x Hx.
      assert (x <> m) by (intros ->; exact (Hm pi Hpi Hx)).
      apply eq_true_iff_eq. rewrite !IntSet_mem_In, !in_app_iff. simpl.
      intuition congruence. }
    rewrite C. specialize (U (before ++ after)).
    set (coverage := build_coverage prime_implicants (before ++ after) num_vars)
      in *.
    assert (F : fold_left (essential_step coverage) (before ++ m :: after)
                  ([], [])
                = fold_left (essential_step coverage) (before ++ after)
                    ([], [])).
    { rewrite !fold_left_app. simpl. now rewrite essential_step_uncovered. }
    rewrite F.
    destruct (fold_left (essential_step coverage) (before ++ after) ([], []))
      as [essential covered] eqn:EF.
    assert (Hc : ~ In m covered).
    { intros H.
      assert (H' : In m (snd (fold_left (essential_step coverage)
                                (before ++ after) ([], []))))
        by now rewrite EF.
      apply essential_fold_covered in H' as [[]|(pi & cov & H1 & H2)].
      exact (U pi cov H1 H2). }
    assert (D : IntSet.diff (before ++ m :: after) covered
                = IntSet.diff before covered ++ m :: IntSet.diff after covered).
    { unfold IntSet.diff. rewrite filter_app. simpl.
      destruct (IntSet.mem m covered) eqn:E; [|reflexivity].
      apply IntSet_mem_In in E. contradiction. }
    assert (D' : IntSet.diff (before ++ after) covered
                 = IntSet.diff before covered ++ IntSet.diff after covered).
    { unfold IntSet.diff. now rewrite filter_app. }
    rewrite D, D'. clear D D'.
    set (index_of := build_index_of prime_implicants).
    assert (B : forall r1 r2,
              build_clauses coverage index_of essential (r1 ++ m :: r2)
              = build_clauses coverage index_of essential (r1 ++ r2)).
    { intros r1 r2. unfold build_clauses. rewrite !fold_left_app. simpl.
      now rewrite clause_step_uncovered. }
    destruct (IntSet.diff before covered ++ m :: IntSet.diff after covered)
      as [|a0 r0] eqn:E1;
      [destruct (IntSet.diff before covered); discriminate|].
    rewrite <- E1. clear E1 a0 r0. rewrite B.
    destruct (IntSet.diff before covered ++ IntSet.diff after covered)
      as [|a1 r1] eqn:E2; [|reflexivity].
    reflexivity.
  - unfold essential_prime_implicant_cover.
    destruct prime_implicants as [|p ps] eqn:Ep; [reflexivity|].
    rewrite <- Ep in *. specialize (U [m]).
    set (coverage := build_coverage prime_implicants [m] num_vars) in *.
    cbn [fold_left]. rewrite (essential_step_uncovered coverage _ m U).
    cbn [IntSet.diff IntSet.mem existsb filter negb].
    unfold build_clauses. cbn [fold_left].
    now rewrite (clause_step_uncovered coverage _ _ _ m U).
Qed.

Lemma uncoverable_minterm_ignored_witness :
  (([] : list Z) ++ [1] <> [] ->
   essential_prime_implicant_cover [(1, 1)] ([] ++ 0 :: [1]) 1
   = essential_prime_implicant_cover [(1, 1)] ([] ++ [1]) 1)
  /\ essential_prime_implicant_cover [(1, 1)] [0] 1 = [].
Proof.
  apply (uncoverable_minterm_ignored [(1, 1)] [] [1] 0 1).
  intros pi [<-|[]]. vm_compute. intros [H|[]]. discriminate H.
Defined.

(** ** Selection of the cheapest product *)

Section MinFrom.
Context {A : Type} (ltb : A -> A -> bool).
Hypothesis ltb_irrefl : forall x, ltb x x = false.
Hypothesis ltb_below :
  forall x b y, ltb x b = true -> ltb y b = false -> ltb y x = false.

Lemma min_from_spec (first : A) (rest : list A) :
  In (min_from ltb first rest) (first :: rest)
  /\ forall x, In x (first :: rest) -> ltb x (min_from ltb first rest) = false.
Proof.
  unfold min_from.
  enough (G : forall seen best,
             In best seen ->
             (forall x, In x seen -> ltb x best = false) ->
             let r := fold_left (fun best x => if ltb x best then x else best)
                        rest best in
             In r (seen ++ rest)
             /\ forall x, In x (seen ++ rest) -> ltb x r = false).
  { apply (G [first] first); [now left|].
    intros x [<-|[]]. apply ltb_irrefl. }
  induction rest as [|y r IH]; intros seen best Hb Hmin; simpl.
  - rewrite app_nil_r. auto.
  - replace (seen ++ y :: r) with ((seen ++ [y]) ++ r)
      by now rewrite <- app_assoc.
    apply IH.
    + destruct (ltb y best); apply in_app_iff; simpl; auto.
    + intros x Hx. apply in_app_iff in Hx as [Hx|[<-|[]]].
      * destruct (ltb y best) eqn:E; [|auto].
        apply (ltb_below y best x E). auto.
      * destruct (ltb y best) eqn:E; [apply ltb_irrefl|assumption].
Qed.
End MinFrom.

Lemma cost_ltb_irrefl (a : cost) : cost_ltb a a = false.
Proof.
  unfold cost_ltb. rewrite !Nat.ltb_irrefl, Nat.eqb_refl. reflexivity.
Qed.

Lemma cost_ltb_lt (a b : cost) :
  cost_ltb a b = true
  <-> (fst a < fst b \/ (fst a = fst b /\ snd a < snd b))%nat.
Proof.
  unfold cost_ltb.
  rewrite orb_true_iff, andb_true_iff, !Nat.ltb_lt, Nat.eqb_eq. tauto.
Qed.

Lemma cost_ltb_ge (a b : cost) :
  cost_ltb a b = false
  <-> (fst b < fst a \/ (fst b = fst a /\ snd b <= snd a))%nat.
Proof.
  rewrite <- not_true_iff_false, cost_ltb_lt. lia.
Qed.

Lemma cost_ltb_below (x b y : cost) :
  cost_ltb x b = true -> cost_ltb y b = false -> cost_ltb y x = false.
Proof. rewrite cost_ltb_lt, !cost_ltb_ge. lia. Qed.

Lemma cost_eqb_eq (a b : cost) : cost_eqb a b = true <-> a = b.
Proof.
  destruct a, b. unfold cost_eqb. simpl.
  rewrite andb_true_iff, !Nat.eqb_eq. split; [intros [-> ->]|intros [= -> ->]]; auto.
Qed.

Lemma tuple_ltb_irrefl (a : list nat) : tuple_ltb a a = false.
Proof.
  induction a as [|x r IH]; simpl; [reflexivity|].
  now rewrite Nat.ltb_irrefl, Nat.eqb_refl.
Qed.

Lemma tuple_ltb_trans (a b c : list nat) :
  tuple_ltb a b = true -> tuple_ltb b c = true -> tuple_ltb a c = true.
Proof.
  revert b c. induction a as [|x a IH]; intros [|y b] [|z c]; simpl;
    try discriminate; auto.
  destruct (Nat.ltb_spec x y), (Nat.ltb_spec y z), (Nat.ltb_spec x z);
    try lia; auto;
    destruct (Nat.eqb_spec x y), (Nat.eqb_spec y z), (Nat.eqb_spec x z);
    try lia; try discriminate; eauto.
Qed.

Lemma tuple_ltb_total (a b : list nat) :
  tuple_ltb a b = false -> tuple_ltb b a = false -> a = b.
Proof.
  revert b. induction a as [|x a IH]; intros [|y b]; simpl;
    try discriminate; auto.
  destruct (Nat.ltb_spec x y), (Nat.ltb_spec y x); try lia; try discriminate.
  destruct (Nat.eqb_spec x y), (Nat.eqb_spec y x); try lia.
  intros H1 H2. subst. f_equal. auto.
Qed.

Lemma tuple_ltb_below (x b y : list nat) :
  tuple_ltb x b = true -> tuple_ltb y b = false -> tuple_ltb y x = false.
Proof.
  intros H1 H2. destruct (tuple_ltb y x) eqn:E; [|reflexivity].
  rewrite (tuple_ltb_trans y x b E H1) in H2. discriminate.
Qed.

Lemma choose_product_best (literal_counts : list nat)
    (products : list (list nat)) :
  products <> [] ->
  best_product literal_counts products
    (choose_product literal_counts products).
Proof.
  intros Hne. unfold choose_product.
  destruct (map (product_cost literal_counts) products) as [|c cs] eqn:Ec.
  { destruct products; [congruence|discriminate]. }
  destruct (min_from_spec cost_ltb cost_ltb_irrefl cost_ltb_below c cs)
    as [Hin Hmin].
  set (best_cost := min_from cost_ltb c cs) in *.
  rewrite <- Ec in Hin, Hmin.
  apply in_map_iff in Hin as (p0 & Hp0 & Hin0).
  set (key := fun a b : list nat =>
                tuple_ltb (sorted Nat.leb a) (sorted Nat.leb b)).
  destruct (filter (fun p => cost_eqb (product_cost literal_counts p) best_cost)
              products) as [|p ps] eqn:Ef.
  { exfalso.
    assert (H : In p0 (filter
                         (fun p => cost_eqb (product_cost literal_counts p) best_cost)
                         products)).
    { apply filter_In. split; [assumption|]. now apply cost_eqb_eq. }
    rewrite Ef in H. exact H. }
  assert (Kirr : forall x, key x x = false)
    by (intros; apply tuple_ltb_irrefl).
  assert (Kbel : forall x b y, key x b = true -> key y b = false -> key y x = false)
    by (intros x b y; apply tuple_ltb_below).
  destruct (min_from_spec key Kirr Kbel p ps) as [Cin Cmin].
  set (chosen := min_from key p ps) in *.
  rewrite <- Ef in Cin, Cmin.
  apply filter_In in Cin as [Cin Ccost]. apply cost_eqb_eq in Ccost.
  split; [assumption|].
  intros q Hq.
  assert (Hge : cost_ltb (product_cost literal_counts q) best_cost = false).
  { apply Hmin. apply in_map_iff. eauto. }
  rewrite <- Ccost in Hge. apply cost_ltb_ge in Hge.
  unfold product_cost in Hge. simpl in Hge. fold (literal_total literal_counts chosen) in Hge.
  fold (literal_total literal_counts q) in Hge.
  destruct Hge as [H|[H1 H2]]; [now left|].
  apply Nat.lt_eq_cases in H2 as [H2|H2]; [right; left; auto|].
  right. right. repeat split; auto.
  apply Cmin. apply filter_In. split; [assumption|].
  apply cost_eqb_eq. rewrite <- Ccost. unfold product_cost.
  fold (literal_total literal_counts chosen).
  fold (literal_total literal_counts q). congruence.
Qed.

Lemma best_product_unique (literal_counts : list nat)
    (products : list (list nat)) (c1 c2 : list nat) :
  (forall p q, In p products -> In q products ->
     sorted Nat.leb p = sorted Nat.leb q -> p = q) ->
  best_product literal_counts products c1 ->
  best_product literal_counts products c2 ->
  c1 = c2.
Proof.
  intros Hinj [H1 M1] [H2 M2].
  specialize (M1 c2 H2). specialize (M2 c1 H1).
  apply Hinj; try assumption.
  apply tuple_ltb_total; intuition (try lia; auto).
Qed.

(** The choice among any products: the product picked has the fewest
    implicants, then the smallest total literal count (the literal count of
    an implicant being the number of 1 bits of its relevance mask), then
    the smallest sorted index tuple; the choice does not depend on the
    order in which the products are enumerated. *)
Lemma choose_product_facts
    (pi_list : list implicant) (products : list (list nat)) :
  products <> [] ->
  let literal_counts := literal_counts_of pi_list in
  let chosen := choose_product literal_counts products in
  (forall i pi, nth_error pi_list i = Some pi ->
     nth i literal_counts 0%nat = bin_count_ones (snd pi))
  /\ best_product literal_counts products chosen
  /\ (forall products',
      Permutation products products' ->
      (forall p q, In p products -> In q products ->
         sorted Nat.leb p = sorted Nat.leb q -> p = q) ->
      choose_product literal_counts products' = chosen).
Proof.
  intros Hne literal_counts chosen. split; [|split].
  - intros i pi H. unfold literal_counts, literal_counts_of.
    apply (map_nth_error (fun pi => bin_count_ones (snd pi))) in H.
    now apply nth_error_nth.
  - now apply choose_product_best.
  - intros products' Hperm Hinj.
    assert (Hne' : products' <> []).
    { intros ->. apply Permutation_sym, Permutation_nil in Hperm. congruence. }
    pose proof (choose_product_best literal_counts products Hne) as B.
    pose proof (choose_product_best literal_counts products' Hne') as B'.
    apply (best_product_unique literal_counts products); try assumption.
    destruct B' as [Hin Hmin]. split.
    + eapply Permutation_in; [apply Permutation_sym; exact Hperm|exact Hin].
    + intros p Hp. apply Hmin. eapply Permutation_in; eassumption.
Qed.

(** ** The formatter (C9) *)

Section SortedFacts.
Context {A : Type} (leb : A -> A -> bool).
Hypothesis leb_total : forall a b, leb a b = true \/ leb b a = true.

Let le (a b : A) : Prop := leb a b = true.

Lemma insert_sorted_Sorted (x : A) (l : list A) :
  Sorted le l -> Sorted le (insert_sorted leb x l).
Proof.
  induction 1 as [|y r Hr IH Hhd]; simpl.
  - repeat constructor.
  - destruct (leb x y) eqn:E.
    + constructor; [now constructor|]. now constructor.
    + constructor; [assumption|].
      destruct r as [|z r']; simpl.
      * constructor. unfold le. destruct (leb_total x y); congruence.
      * inversion Hhd; subst.
        destruct (leb x z); constructor; try assumption.
        unfold le. destruct (leb_total x y); congruence.
Qed.

Lemma sorted_Sorted (l : list A) : Sorted le (sorted leb l).
Proof.
  induction l as [|x r IH]; simpl; [constructor|].
  now apply insert_sorted_Sorted.
Qed.
End SortedFacts.

(** C9, counterexample: the cover (0,0), (2,2), (3,3) over A, B has three
    implicants and is rendered with two groups, the group of A, B before the
    group of A although "A" sorts before "AB"; one group per implicant in
    the order of the letter strings would read "[][A][AB]".  The implicant
    (0,0) is the cover that [minimize_karnaugh] computes for the minterm 0,
    and it is rendered with no group at all. *)
Lemma groups_not_sorted_by_letters :
  format_cover [(0, 0); (2, 2); (3, 3)] ["A"; "B"]%char = "[AB][A]"%string
  /\ format_by_letters [(0, 0); (2, 2); (3, 3)] ["A"; "B"]%char
     = "[][A][AB]"%string
  /\ implicant_to_expr (0, 0) ["A"; "B"]%char = EmptyString
  /\ String.ltb "A" "AB" = true
  /\ String.ltb "[AB]" "[A]" = true
  /\ essential_prime_implicant_cover (find_prime_implicants [0]) [0] 2
     = [(0, 0)]
  /\ minimize_karnaugh [0] ["A"; "B"]%char = EmptyString.
Proof. repeat split; vm_compute; reflexivity. Qed.

Lemma flat_map_indexed (P : nat -> bool) (full vars : list ascii) (k : nat) :
  (forall j, (j < List.length vars)%nat ->
     nth_error full (k + j) = nth_error vars j) ->
  flat_map
    (fun i =>
       if P i then match nth_error full i with Some v => [v] | None => [] end
       else [])
    (seq k (List.length vars))
  = map snd (filter (fun iv => P (fst iv)) (combine (seq k (List.length vars)) vars)).
Proof.
  revert k. induction vars as [|v r IH]; intros k H; simpl; [reflexivity|].
  rewrite IH.
  - pose proof (H 0%nat) as H0. simpl in H0. rewrite Nat.add_0_r in H0.
    rewrite H0 by lia. destruct (P k); reflexivity.
  - intros j Hj. specialize (H (S j)). simpl in H.
    rewrite <- H by lia. f_equal. lia.
Qed.

Lemma implicant_factors_letters (imp : implicant) (variables : list ascii) :
  implicant_factors imp variables = letters_of imp variables.
Proof.
  destruct imp as [term mask]. unfold implicant_factors, letters_of, range.
  remember (List.length variables) as n eqn:En.
  transitivity
    (flat_map
       (fun i =>
          if bit_set mask (bit_pos_of n i) && bit_set term (bit_pos_of n i)
          then match nth_error variables i with Some v => [v] | None => [] end
          else [])
       (seq 0 n)).
  { apply flat_map_ext. intros i.
    destruct (bit_set mask (bit_pos_of n i)), (bit_set term (bit_pos_of n i));
      reflexivity. }
  pose proof (flat_map_indexed
                (fun i => bit_set mask (bit_pos_of n i)
                          && bit_set term (bit_pos_of n i))
                variables variables 0) as F.
  rewrite <- En in F. rewrite F by reflexivity.
  f_equal. apply filter_ext_in. intros [i v] Hin. simpl.
  apply in_combine_l, in_seq in Hin.
  rewrite !bit_set_testbit by (unfold bit_pos_of; lia). reflexivity.
Qed.

Lemma letters_of_sorted (imp : implicant) (variables : list ascii) :
  StronglySorted ascii_lt variables ->
  StronglySorted ascii_lt (letters_of imp variables).
Proof.
  unfold letters_of.
  generalize (fun iv : nat * ascii =>
                Z.testbit (snd imp) (bit_pos_of (List.length variables) (fst iv))
                && Z.testbit (fst imp) (bit_pos_of (List.length variables) (fst iv))).
  intros Q Hs. generalize 0%nat.
  induction Hs as [|v r Hr IH Hv]; intros k; simpl; [constructor|].
  assert (T : Forall (ascii_lt v)
                (map snd (filter Q (combine (seq (S k) (List.length r)) r)))).
  { apply Forall_forall. intros c Hc.
    apply in_map_iff in Hc as ([i c'] & <- & Hc).
    apply filter_In in Hc as [Hc _]. apply in_combine_r in Hc.
    rewrite Forall_forall in Hv. now apply Hv. }
  destruct (Q (k, v)); simpl; [constructor; [apply IH|exact T]|apply IH].
Qed.

Lemma rendered_terms_filter (cover : list implicant) (variables : list ascii) :
  flat_map
    (fun pi =>
       match implicant_to_expr pi variables with
       | EmptyString => []
       | expr => [expr]
       end)
    cover
  = filter nonempty (map (fun pi => implicant_to_expr pi variables) cover).
Proof.
  induction cover as [|pi r IH]; simpl; [reflexivity|].
  rewrite IH. now destruct (implicant_to_expr pi variables).
Qed.

(** C9, amended: an implicant with at least one position where mask and
    value are both 1 is rendered as one bracket group holding exactly the
    universe symbols at those positions, in the order of the universe
    (ascending when the universe is); an implicant with no such position is
    rendered as the empty string and contributes no group.  The groups are
    sorted ascending as bracketed strings and concatenated with no
    separator. *)
Theorem format_cover_spec (cover : list implicant) (variables : list ascii) :
  (forall imp,
     implicant_to_expr imp variables
     = match letters_of imp variables with
       | [] => EmptyString
       | letters => ("[" ++ string_of_list_ascii letters ++ "]")%string
       end)
  /\ (forall imp,
      StronglySorted ascii_lt variables ->
      StronglySorted ascii_lt (letters_of imp variables))
  /\ exists groups,
       format_cover cover variables = String.concat EmptyString groups
       /\ Permutation groups
            (filter nonempty
               (map (fun imp => implicant_to_expr imp variables) cover))
       /\ Sorted (fun a b => String.leb a b = true) groups.
Proof.
  split; [|split].
  - intros imp. unfold implicant_to_expr.
    now rewrite implicant_factors_letters.
  - intros imp. apply letters_of_sorted.
  - unfold format_cover. rewrite rendered_terms_filter.
    eexists. split; [reflexivity|]. split.
    + apply sorted_perm.
    + apply sorted_Sorted. apply String.leb_total.
Qed.

(** ** The finder on non-negative minterms *)

Section DictFacts.
Context {K V : Type} (keq : K -> K -> bool).
Hypothesis keq_eq : forall a b, keq a b = true <-> a = b.

Lemma Dict_set_inv (k : K) (v : V) (d : list (K * V)) (kv : K * V) :
  In kv (Dict.set keq k v d) -> kv = (k, v) \/ In kv d.
Proof.
  induction d as [|[k' v'] r IH]; simpl.
  - intros [<-|[]]. now left.
  - destruct (keq k k') eqn:E.
    + apply keq_eq in E. subst k'. simpl. intuition.
    + simpl. intuition.
Qed.

Lemma Dict_set_same (k : K) (v : V) (d : list (K * V)) :
  In (k, v) (Dict.set keq k v d).
Proof.
  induction d as [|[k' v'] r IH]; simpl; [now left|].
  destruct (keq k k') eqn:E.
  - apply keq_eq in E. subst. now left.
  - now right.
Qed.

Lemma Dict_set_other (k : K) (v : V) (d : list (K * V)) (kv : K * V) :
  In kv d -> fst kv <> k -> In kv (Dict.set keq k v d).
Proof.
  induction d as [|[k' v'] r IH]; simpl; [intros []|].
  intros [<-|H] Hne.
  - destruct (keq k k') eqn:E; [|now left].
    apply keq_eq in E. simpl in Hne. congruence.
  - destruct (keq k k'); right; auto.
Qed.

Lemma Dict_set_keys (k : K) (v : V) (d : list (K * V)) (k' : K) :
  In k' (map fst (Dict.set keq k v d)) <-> k' = k \/ In k' (map fst d).
Proof.
  induction d as [|[k0 v0] r IH]; simpl; [intuition|].
  destruct (keq k k0) eqn:E; simpl.
  - apply keq_eq in E. subst. intuition.
  - rewrite IH. intuition.
Qed.

Lemma Dict_set_NoDup (k : K) (v : V) (d : list (K * V)) :
  NoDup (map fst d) -> NoDup (map fst (Dict.set keq k v d)).
Proof.
  induction d as [|[k0 v0] r IH]; simpl; intros H.
  - constructor; [intros []|constructor].
  - inversion H as [|? ? Hn Hr]; subst.
    destruct (keq k k0) eqn:E; simpl; [now constructor|].
    constructor; [|auto].
    rewrite Dict_set_keys. intros [->|H']; [|contradiction].
    assert (keq k k = true) by now apply keq_eq. congruence.
Qed.

Lemma Dict_set_length (k : K) (v : V) (d : list (K * V)) :
  (List.length (Dict.set keq k v d) <= S (List.length d))%nat.
Proof.
  induction d as [|[k0 v0] r IH]; simpl; [lia|].
  destruct (keq k k0); simpl; lia.
Qed.

Lemma Dict_get_Some (k : K) (v : V) (d : list (K * V)) :
  NoDup (map fst d) -> In (k, v) d -> Dict.get keq k d = Some v.
Proof.
  induction d as [|[k0 v0] r IH]; simpl; [intros _ []|].
  intros H Hin. inversion H as [|? ? Hn Hr]; subst.
  destruct (keq k k0) eqn:E.
  - apply keq_eq in E. subst k0. destruct Hin as [[= ->]|Hin]; [reflexivity|].
    exfalso. apply Hn. apply in_map_iff. now exists (k, v).
  - destruct Hin as [[= -> ->]|Hin]; [|auto].
    assert (keq k k = true) by now apply keq_eq. congruence.
Qed.
End DictFacts.

Lemma subcube_bits (t x : Z) :
  subcube t x <-> forall i, 0 <= i -> Z.testbit t i = true -> Z.testbit x i = true.
Proof.
  unfold subcube. split.
  - intros H i Hi Ht. rewrite <- H, Z.land_spec in Ht.
    now apply andb_true_iff in Ht.
  - intros H. apply Z.bits_inj'. intros i Hi. rewrite Z.land_spec.
    specialize (H i Hi). destruct (Z.testbit t i); [now rewrite H|].
    apply andb_false_r.
Qed.

Lemma subcube_refl (t : Z) : subcube t t.
Proof. apply Z.land_diag. Qed.

Lemma subcube_trans (a b c : Z) : subcube a b -> subcube b c -> subcube a c.
Proof. rewrite !subcube_bits. auto. Qed.

Lemma subcube_le (t x : Z) : 0 <= t -> 0 <= x -> subcube t x -> t <= x.
Proof.
  intros Ht Hx H.
  assert (E : Z.ldiff t x = 0).
  { apply Z.bits_inj'. intros i Hi. rewrite Z.ldiff_spec, Z.bits_0.
    rewrite subcube_bits in H. specialize (H i Hi).
    destruct (Z.testbit t i); [now rewrite H|reflexivity]. }
  pose proof (Z.sub_nocarry_ldiff x t E) as D.
  assert (0 <= Z.ldiff x t) by (apply Z.ldiff_nonneg; auto).
  lia.
Qed.

Lemma merge_same_mask (term1 term2 : Z) :
  merge_implicants (term1, term1) (term2, term2)
  = (Z.land term1 term2, Z.land term1 term2).
Proof.
  simpl. f_equal. apply Z.bits_inj'. intros i Hi.
  rewrite !Z.land_spec, Z.lnot_spec, Z.lxor_spec by assumption.
  destruct (Z.testbit term1 i), (Z.testbit term2 i); reflexivity.
Qed.

Lemma adjacent_land (a b : Z) :
  0 <= a -> 0 <= b -> adjacent_cells a b = true ->
  (Z.land a b = a /\ a < b) \/ (Z.land a b = b /\ b < a).
Proof.
  intros Ha Hb H. apply adjacent_cells_lxor in H as (k & Hk & E); try assumption.
  pose proof (lxor_pow2_differ a b k Hk E) as D.
  assert (Hne : a <> b).
  { intros ->. destruct (D k Hk) as [_ D']. now apply D'. }
  assert (L : forall i, 0 <= i -> i <> k -> Z.testbit a i = Z.testbit b i).
  { intros i Hi Hik. destruct (D i Hi) as [D' _].
    destruct (Z.testbit a i), (Z.testbit b i); try reflexivity;
      exfalso; apply Hik, D'; discriminate. }
  destruct (Z.testbit a k) eqn:Ea.
  - right.
    assert (Eb : Z.testbit b k = false).
    { destruct (D k Hk) as [_ D']. specialize (D' eq_refl).
      rewrite Ea in D'. now destruct (Z.testbit b k). }
    assert (S : Z.land a b = b).
    { apply Z.bits_inj'. intros i Hi. rewrite Z.land_spec.
      destruct (Z.eq_dec i k) as [->|Hik]; [now rewrite Ea, Eb|].
      rewrite (L i Hi Hik). apply andb_diag. }
    split; [assumption|].
    assert (b <= a) by (apply subcube_le; assumption). lia.
  - left.
    assert (S : Z.land a b = a).
    { apply Z.bits_inj'. intros i Hi. rewrite Z.land_spec.
      destruct (Z.eq_dec i k) as [->|Hik]; [now rewrite Ea|].
      rewrite (L i Hi Hik). apply andb_diag. }
    split; [assumption|].
    assert (a <= b).
    { apply subcube_le; try assumption. unfold subcube.
      now rewrite Z.land_comm. }
    lia.
Qed.

Section OnePass.
Variable minterms : list Z.
Hypothesis minterms_nonneg : Forall (fun m => 0 <= m) minterms.

(** Every cube of the level has its mask equal to its value, and the value
    is one of the minterms. *)
Definition level_ok (level : list (Z * Z)) : Prop :=
  forall t m, In (t, m) level -> m = t /\ In t minterms.

Variable level : list (Z * Z).
Hypothesis level_is_ok : level_ok level.

Definition pass_inv (st : qm_state) : Prop :=
  (forall k v, In (k, v) (fst st) ->
     v = k /\ In k (map fst level) /\ exists k', In k' (map fst level) /\ k < k')
  /\ NoDup (map fst (fst st))
  /\ (forall t, In t (snd st) ->
        exists t1 t2,
          In t1 (map fst level) /\ In t2 (map fst level)
          /\ adjacent_cells t1 t2 = true /\ (t = t1 \/ t = t2)
          /\ In (Z.land t1 t2) (map fst (fst st))).

Lemma level_key_nonneg (t : Z) : In t (map fst level) -> 0 <= t.
Proof.
  intros H. apply in_map_iff in H as ([t' m] & <- & H).
  apply level_is_ok in H as [_ H].
  rewrite Forall_forall in minterms_nonneg. now apply minterms_nonneg.
Qed.

Lemma combine_pair_inv (item1 item2 : Z * Z) (st : qm_state) :
  In item1 level -> In item2 level -> pass_inv st ->
  pass_inv (combine_pair item1 item2 st).
Proof.
  intros H1 H2 (Ha & Hb & Hc). unfold combine_pair.
  destruct item1 as [t1 m1], item2 as [t2 m2]. cbn [fst].
  destruct (adjacent_cells t1 t2) eqn:Adj;
    [|exact (conj Ha (conj Hb Hc))].
  destruct (level_is_ok _ _ H1) as [-> S1].
  destruct (level_is_ok _ _ H2) as [-> S2].
  rewrite merge_same_mask.
  assert (K1 : In t1 (map fst level))
    by (apply in_map_iff; now exists (t1, t1)).
  assert (K2 : In t2 (map fst level))
    by (apply in_map_iff; now exists (t2, t2)).
  pose proof (level_key_nonneg t1 K1) as N1.
  pose proof (level_key_nonneg t2 K2) as N2.
  pose proof (adjacent_land t1 t2 N1 N2 Adj) as AL.
  unfold pass_inv. cbn [fst snd]. split; [|split].
  - intros k v H.
    apply Dict_set_inv in H as [[= -> ->]|H];
      [|now apply Ha|apply Z.eqb_eq].
    split; [reflexivity|].
    destruct AL as [[-> ?]|[-> ?]]; eauto.
  - apply Dict_set_NoDup; [apply Z.eqb_eq|assumption].
  - intros t Ht. rewrite !IntSet_add_In in Ht.
    destruct Ht as [->|[->|Ht]].
    + exists t1, t2. repeat split; auto.
      apply Dict_set_keys; [apply Z.eqb_eq|now left].
    + exists t1, t2. repeat split; auto.
      apply Dict_set_keys; [apply Z.eqb_eq|now left].
    + destruct (Hc t Ht) as (u1 & u2 & U1 & U2 & UA & UT & UK).
      exists u1, u2. repeat split; auto.
      apply Dict_set_keys; [apply Z.eqb_eq|now right].
Qed.

Lemma combine_with_inv (item1 : Z * Z) (rest : list (Z * Z))
    (st : qm_state) :
  In item1 level -> incl rest level -> pass_inv st ->
  pass_inv (combine_with item1 rest st).
Proof.
  intros H1. revert st. induction rest as [|item2 r IH]; intros st Hr Hst;
    simpl; [assumption|].
  apply IH.
  - intros x Hx. apply Hr. now right.
  - apply combine_pair_inv; auto. apply Hr. now left.
Qed.

Lemma combine_all_inv (items : list (Z * Z)) (st : qm_state) :
  incl items level -> pass_inv st -> pass_inv (combine_all items st).
Proof.
  revert st. induction items as [|item1 r IH]; intros st Hi Hst; simpl;
    [assumption|].
  assert (incl r level) by (intros x Hx; apply Hi; now right).
  apply IH; [assumption|].
  apply combine_with_inv; auto. apply Hi. now left.
Qed.

Lemma pass_inv_init : pass_inv ([], []).
Proof.
  unfold pass_inv. simpl. split; [|split]; try contradiction.
  constructor.
Qed.

Lemma pass_result_inv : pass_inv (combine_all level ([], [])).
Proof. apply combine_all_inv; [apply incl_refl|apply pass_inv_init]. Qed.
End OnePass.

Lemma list_max_exists (l : list Z) :
  l <> [] -> exists M, In M l /\ forall x, In x l -> x <= M.
Proof.
  induction l as [|a r IH]; [congruence|]. intros _.
  destruct r as [|b r'].
  - exists a. split; [now left|]. intros x [<-|[]]. lia.
  - destruct IH as (M & HM & Hmax); [discriminate|].
    destruct (Z_le_gt_dec a M).
    + exists M. split; [now right|]. intros x [<-|Hx]; auto.
    + exists a. split; [now left|]. intros x [<-|Hx]; [lia|].
      specialize (Hmax x Hx). lia.
Qed.

Lemma next_level_shorter (minterms : list Z) (level : list (Z * Z)) :
  Forall (fun m => 0 <= m) minterms -> level_ok minterms level ->
  level <> [] ->
  (List.length (fst (combine_all level ([], []))) < List.length level)%nat.
Proof.
  intros Hn Hok Hne.
  destruct (pass_result_inv minterms Hn level Hok) as (Ha & Hb & _).
  set (next := fst (combine_all level ([], []))) in *.
  destruct (list_max_exists (map fst level)) as (M & HM & Hmax).
  { destruct level; [congruence|discriminate]. }
  assert (I : incl (map fst next) (remove Z.eq_dec M (map fst level))).
  { intros k Hk. apply in_map_iff in Hk as ([k0 v] & <- & Hk). simpl.
    destruct (Ha k0 v Hk) as (_ & Hin & k' & Hk' & Hlt).
    apply in_in_remove; [|assumption].
    specialize (Hmax k' Hk'). lia. }
  pose proof (NoDup_incl_length Hb I) as L1.
  pose proof (remove_length_lt Z.eq_dec (map fst level) M HM) as L2.
  rewrite !length_map in *. lia.
Qed.

Lemma qm_loop_spec (minterms : list Z) :
  Forall (fun m => 0 <= m) minterms ->
  forall fuel level acc,
    level_ok minterms level -> (List.length level <= fuel)%nat ->
    exists r,
      qm_loop fuel level acc = Some r
      /\ (forall imp, In imp r ->
            In imp acc \/ (snd imp = fst imp /\ In (fst imp) minterms))
      /\ (forall imp, In imp acc -> In imp r)
      /\ (forall m, minimal_in minterms m -> In (m, m) level -> In (m, m) r).
Proof.
  intros Hn. induction fuel as [|fuel IH]; intros level acc Hok Hlen.
  - destruct level; [|simpl in Hlen; lia].
    exists acc. simpl. repeat split; auto. intros m _ [].
  - destruct level as [|item rest] eqn:El.
    { exists acc. simpl. repeat split; auto. intros m _ []. }
    rewrite <- El in *.
    assert (Hne : level <> []) by (rewrite El; discriminate).
    pose proof (next_level_shorter minterms level Hn Hok Hne) as Hshort.
    pose proof (pass_result_inv minterms Hn level Hok) as (Ha & Hb & Hc).
    assert (Q : qm_loop (S fuel) level acc
                = qm_loop fuel (fst (combine_all level ([], [])))
                    (acc ++ unused_terms level
                              (snd (combine_all level ([], []))))).
    { rewrite El at 1. cbn [qm_loop]. rewrite <- El.
      now destruct (combine_all level ([], [])). }
    destruct (combine_all level ([], [])) as [next used] eqn:Ec.
    cbn [fst snd] in *.
    assert (Hok' : level_ok minterms next).
    { intros t m H. destruct (Ha t m H) as (-> & Hin & _). split; [reflexivity|].
      apply in_map_iff in Hin as ([t' m'] & <- & Hin).
      now apply Hok in Hin. }
    destruct (IH next (acc ++ unused_terms level used) Hok') as
      (r & Hr & Hsound & Hacc & Hmin); [lia|].
    exists r. rewrite Q. split; [assumption|]. split; [|split].
    + intros imp Himp. apply Hsound in Himp as [Himp|Himp]; [|auto].
      apply in_app_iff in Himp as [Himp|Himp]; [auto|].
      right. apply filter_In in Himp as [Himp _].
      destruct imp as [t m]. apply Hok in Himp as [-> ?]. auto.
    + intros imp Himp. apply Hacc. apply in_app_iff. auto.
    + intros m Hm Hin.
      destruct (IntSet.mem m used) eqn:Eu.
      * apply Hmin; [assumption|].
        apply IntSet_mem_In in Eu.
        destruct (Hc m Eu) as (t1 & t2 & K1 & K2 & Adj & Hor & Hk).
        pose proof (level_key_nonneg minterms Hn level Hok t1 K1) as N1.
        pose proof (level_key_nonneg minterms Hn level Hok t2 K2) as N2.
        assert (S1 : In t1 minterms).
        { apply in_map_iff in K1 as ([a b] & <- & K1). now apply Hok in K1. }
        assert (S2 : In t2 minterms).
        { apply in_map_iff in K2 as ([a b] & <- & K2). now apply Hok in K2. }
        destruct Hm as [Hm1 Hm2].
        assert (E : Z.land t1 t2 = m).
        { destruct (adjacent_land t1 t2 N1 N2 Adj) as [[E Hlt]|[E Hlt]];
            destruct Hor as [->| ->]; try assumption.
          - exfalso. assert (t1 = t2); [|lia].
            apply Hm2; [assumption|]. unfold subcube.
            now rewrite Z.land_comm.
          - exfalso. assert (t2 = t1); [|lia].
            apply Hm2; assumption. }
        rewrite E in Hk. apply in_map_iff in Hk as ([k v] & Ek & Hk).
        simpl in Ek. subst k. destruct (Ha m v Hk) as (-> & _). assumption.
      * apply Hacc. apply in_app_iff. right. apply filter_In.
        split; [assumption|]. simpl. now rewrite Eu.
Qed.

Lemma initial_level_facts (minterms : list Z) :
  level_ok minterms (initial_level minterms)
  /\ (forall m, In m minterms -> In (m, m) (initial_level minterms))
  /\ (List.length (initial_level minterms) <= List.length minterms)%nat.
Proof.
  unfold initial_level.
  enough (G : forall l d,
             let d' := fold_left (fun d m => Dict.set Z.eqb m m d) l d in
             (forall t m, In (t, m) d' -> In (t, m) d \/ (m = t /\ In t l))
             /\ (forall m, In (m, m) d \/ In m l -> In (m, m) d')
             /\ (List.length d' <= List.length d + List.length l)%nat).
  { destruct (G minterms []) as (G1 & G2 & G3). split; [|split].
    - intros t m H. apply G1 in H as [[]|H]. exact H.
    - intros m H. apply G2. now right.
    - exact G3. }
  induction l as [|a r IH]; intros d; simpl.
  - split; [auto|]. split; [|lia]. intros m [H|[]]. exact H.
  - destruct (IH (Dict.set Z.eqb a a d)) as (G1 & G2 & G3). split; [|split].
    + intros t m H. apply G1 in H as [H|[H1 H2]]; [|auto].
      apply Dict_set_inv in H as [[= -> ->]|H]; auto. apply Z.eqb_eq.
    + intros m H. apply G2.
      destruct (Z.eq_dec m a) as [->|Hne].
      * left. apply Dict_set_same. apply Z.eqb_eq.
      * destruct H as [H|[H|H]]; [|congruence|now right].
        left. apply Dict_set_other; [apply Z.eqb_eq|assumption|exact Hne].
    + pose proof (Dict_set_length Z.eqb a a d). lia.
Qed.

(** X1: on non-negative minterms the [while] loop of the finder exits
    within [len(minterms)] passes, and what it has collected by then is the
    result of [find_prime_implicants]. *)
Theorem finder_terminates (minterms : list Z) :
  Forall (fun m => 0 <= m) minterms ->
  exists prime_implicants,
    qm_loop (List.length minterms) (initial_level minterms) []
    = Some prime_implicants
    /\ find_prime_implicants minterms = prime_implicants.
Proof.
  intros Hn. destruct (initial_level_facts minterms) as (H1 & _ & H3).
  destruct (qm_loop_spec minterms Hn (List.length minterms)
              (initial_level minterms) [] H1 H3) as (r & Hr & _).
  exists r. split; [assumption|].
  unfold find_prime_implicants. rewrite Hr.
  destruct minterms; [|reflexivity].
  simpl in Hr. now injection Hr.
Qed.

Lemma finder_terminates_witness :
  exists prime_implicants,
    qm_loop (List.length [5; 6; 7]) (initial_level [5; 6; 7]) []
    = Some prime_implicants
    /\ find_prime_implicants [5; 6; 7] = prime_implicants.
Proof.
  apply (finder_terminates [5; 6; 7]).
  repeat constructor; lia.
Defined.

(** The cubes found have their mask equal to their value, which is one of
    the minterms; every minimal minterm is found. *)
Lemma find_prime_implicants_spec (minterms : list Z) :
  Forall (fun m => 0 <= m) minterms ->
  (forall t m, In (t, m) (find_prime_implicants minterms) ->
     m = t /\ In t minterms)
  /\ (forall m, minimal_in minterms m ->
        In (m, m) (find_prime_implicants minterms)).
Proof.
  intros Hn. destruct (initial_level_facts minterms) as (H1 & H2 & H3).
  destruct (qm_loop_spec minterms Hn (List.length minterms)
              (initial_level minterms) [] H1 H3) as (r & Hr & Hs & _ & Hm).
  unfold find_prime_implicants. rewrite Hr.
  destruct minterms as [|a l] eqn:E.
  - split; [intros t m []|]. intros m [[] _].
  - rewrite <- E in *. split.
    + intros t m H. apply Hs in H as [[]|H]. exact H.
    + intros m Hmin. apply Hm; [assumption|]. apply H2. apply Hmin.
Qed.

(** ** The solver when the minimal minterms are among the implicants *)

Lemma exists_minimal (minterms : list Z) (x : Z) :
  Forall (fun m => 0 <= m) minterms -> In x minterms ->
  exists m, minimal_in minterms m /\ subcube m x.
Proof.
  intros Hn. rewrite Forall_forall in Hn.
  enough (G : forall k x, (Z.to_nat x < k)%nat -> In x minterms ->
             exists m, minimal_in minterms m /\ subcube m x).
  { intros Hx. apply (G (S (Z.to_nat x))); [lia|assumption]. }
  clear x. induction k as [|k IH]; intros x Hk Hx; [lia|].
  destruct (existsb (fun t => (Z.land x t =? t) && negb (t =? x)) minterms)
    eqn:E.
  - apply existsb_exists in E as (t & Ht & E).
    apply andb_true_iff in E as [E1 E2].
    apply Z.eqb_eq in E1. apply negb_true_iff, Z.eqb_neq in E2.
    assert (t <= x) by (apply subcube_le; auto).
    destruct (IH t) as (m & Hm & Hs); [pose proof (Hn t Ht); lia|assumption|].
    exists m. split; [assumption|]. now apply (subcube_trans m t x).
  - exists x. split; [|apply subcube_refl]. split; [assumption|].
    intros t Ht Hs. destruct (Z.eq_dec t x) as [|Hne]; [assumption|].
    exfalso. rewrite <- not_true_iff_false in E. apply E.
    apply existsb_exists. exists t. split; [assumption|].
    apply andb_true_iff. split; [now apply Z.eqb_eq|].
    now apply negb_true_iff, Z.eqb_neq.
Qed.

Lemma build_coverage_facts (prime_implicants : list implicant)
    (minterms : list Z) (num_vars : nat) :
  NoDup (map fst (build_coverage prime_implicants minterms num_vars))
  /\ forall pi, In pi prime_implicants ->
       In (pi, IntSet.inter (get_covered_minterms pi num_vars) minterms)
         (build_coverage prime_implicants minterms num_vars).
Proof.
  unfold build_coverage.
  set (f := fun coverage pi =>
              Dict.set implicant_eqb pi
                (IntSet.inter (get_covered_minterms pi num_vars) minterms)
                coverage).
  enough (G : forall l d,
             NoDup (map fst d) ->
             NoDup (map fst (fold_left f l d))
             /\ forall pi,
                  In (pi, IntSet.inter (get_covered_minterms pi num_vars) minterms) d
                  \/ In pi l ->
                  In (pi, IntSet.inter (get_covered_minterms pi num_vars) minterms)
                    (fold_left f l d)).
  { destruct (G prime_implicants []) as [G1 G2]; [constructor|].
    split; [assumption|]. intros pi H. apply G2. now right. }
  induction l as [|a r IH]; intros d Hd; simpl.
  - split; [assumption|]. intros pi [H|[]]. exact H.
  - destruct (IH (f d a)) as [G1 G2].
    { apply Dict_set_NoDup; [apply implicant_eqb_eq|assumption]. }
    split; [assumption|]. intros pi H. apply G2.
    destruct (implicant_eqb pi a) eqn:E.
    + apply implicant_eqb_eq in E. subst a. left.
      apply Dict_set_same, implicant_eqb_eq.
    + assert (pi <> a).
      { intros ->. assert (implicant_eqb a a = true) by now apply implicant_eqb_eq.
        congruence. }
      destruct H as [H|[H|H]]; [|congruence|now right].
      left. apply Dict_set_other; [apply implicant_eqb_eq|assumption|assumption].
Qed.

Lemma NoDup_filter_keys {K V : Type} (P : K * V -> bool) (d : list (K * V)) :
  NoDup (map fst d) -> NoDup (map fst (filter P d)).
Proof.
  induction d as [|kv r IH]; simpl; intros H; [constructor|].
  inversion H as [|? ? Hn Hr]; subst.
  destruct (P kv); simpl; [|auto].
  constructor; [|auto].
  intros Hin. apply Hn. apply in_map_iff in Hin as (kv' & E & Hin).
  apply filter_In in Hin as [Hin _]. apply in_map_iff. eauto.
Qed.

Lemma NoDup_all_equal {A : Type} (l : list A) (k : A) :
  NoDup l -> (forall x, In x l -> x = k) -> In k l -> l = [k].
Proof.
  intros Hnd Hall Hin. destruct l as [|a r]; [destruct Hin|].
  assert (a = k) by (apply Hall; now left). subst a.
  destruct r as [|b r']; [reflexivity|].
  assert (b = k) by (apply Hall; right; now left). subst b.
  inversion Hnd as [|? ? Hn _]. exfalso. apply Hn. now left.
Qed.

Section EssentialFold.
Variable coverage : list (implicant * list Z).

Definition closed (st : list implicant * list Z) : Prop :=
  forall epi x, In epi (fst st) -> In x (coverage_get coverage epi) ->
    In x (snd st).

Lemma essential_step_mono (st : list implicant * list Z) (m : Z) :
  (forall epi, In epi (fst st) -> In epi (fst (essential_step coverage st m)))
  /\ (forall x, In x (snd st) -> In x (snd (essential_step coverage st m))).
Proof.
  unfold essential_step.
  destruct (covering_of coverage m) as [|epi [|]]; auto.
  destruct (existsb (implicant_eqb epi) (fst st)); auto. simpl. split.
  - intros e He. apply in_app_iff. auto.
  - intros x Hx. apply IntSet_update_In. auto.
Qed.

Lemma essential_step_closed (st : list implicant * list Z) (m : Z) :
  closed st -> closed (essential_step coverage st m).
Proof.
  intros Hc. unfold essential_step.
  destruct (covering_of coverage m) as [|epi [|]]; auto.
  destruct (existsb (implicant_eqb epi) (fst st)); auto.
  intros e x He Hx. simpl in *. apply IntSet_update_In.
  apply in_app_iff in He as [He|[<-|[]]]; [left; eapply Hc; eauto|now right].
Qed.

Lemma essential_step_adds (st : list implicant * list Z) (m : Z)
    (epi : implicant) :
  covering_of coverage m = [epi] ->
  In epi (fst (essential_step coverage st m)).
Proof.
  intros E. unfold essential_step. rewrite E.
  destruct (existsb (implicant_eqb epi) (fst st)) eqn:Ex.
  - apply existsb_exists in Ex as (e & He & Ee).
    apply implicant_eqb_eq in Ee. now subst.
  - simpl. apply in_app_iff. right. now left.
Qed.

Lemma essential_fold_facts (l : list Z) (st : list implicant * list Z) :
  closed st ->
  let st' := fold_left (essential_step coverage) l st in
  closed st'
  /\ (forall epi, In epi (fst st) -> In epi (fst st'))
  /\ (forall m epi, In m l -> covering_of coverage m = [epi] ->
        In epi (fst st')).
Proof.
  revert st. induction l as [|a r IH]; intros st Hc; simpl.
  - repeat split; auto. intros m epi [].
  - destruct (IH (essential_step coverage st a)) as (C & M & A).
    { now apply essential_step_closed. }
    split; [assumption|]. split.
    + intros epi H. apply M. now apply essential_step_mono.
    + intros m epi [<-|Hm] E; [|eauto].
      apply M. now apply essential_step_adds.
Qed.

Lemma essential_fold_incl (l : list Z) (st : list implicant * list Z)
    (epi : implicant) :
  In epi (fst (fold_left (essential_step coverage) l st)) ->
  In epi (fst st) \/ In epi (map fst coverage).
Proof.
  revert st. induction l as [|a r IH]; intros st H; simpl in *; [auto|].
  apply IH in H as [H|H]; [|auto].
  unfold essential_step in H.
  destruct (covering_of coverage a) as [|e [|]] eqn:E; auto.
  destruct (existsb (implicant_eqb e) (fst st)); auto.
  simpl in H. apply in_app_iff in H as [H|[<-|[]]]; [auto|].
  right. unfold covering_of in E.
  assert (In e (map fst (filter (fun pc => IntSet.mem a (snd pc)) coverage)))
    by (rewrite E; now left).
  apply in_map_iff in H as (kv & <- & H). apply filter_In in H as [H _].
  apply in_map_iff. eauto.
Qed.
Lemma essential_fold_origin (l : list Z) (st : list implicant * list Z)
    (epi : implicant) :
  In epi (fst (fold_left (essential_step coverage) l st)) ->
  In epi (fst st) \/ exists m, In m l /\ covering_of coverage m = [epi].
Proof.
  revert st. induction l as [|a r IH]; intros st H; simpl in *; [auto|].
  apply IH in H as [H|(m & Hm & E)]; [|eauto].
  unfold essential_step in H.
  destruct (covering_of coverage a) as [|e [|]] eqn:E; auto.
  destruct (existsb (implicant_eqb e) (fst st)); auto.
  simpl in H. apply in_app_iff in H as [H|[<-|[]]]; eauto.
Qed.
End EssentialFold.

(** The solver returns implicants it was given. *)
Lemma essential_cover_incl (prime_implicants : list implicant)
    (minterms : list Z) (num_vars : nat) (imp : implicant) :
  In imp (essential_prime_implicant_cover prime_implicants minterms num_vars) ->
  In imp prime_implicants.
Proof.
  unfold essential_prime_implicant_cover.
  destruct prime_implicants as [|p ps] eqn:Ep; [auto|].
  destruct minterms as [|s ss] eqn:Es; [auto|].
  rewrite <- Ep, <- Es.
  set (coverage := build_coverage prime_implicants minterms num_vars).
  destruct (fold_left (essential_step coverage) minterms ([], []))
    as [essential covered] eqn:Ef.
  assert (He : forall e, In e essential -> In e prime_implicants).
  { intros e H.
    assert (H' : In e (fst (fold_left (essential_step coverage) minterms ([], []))))
      by now rewrite Ef.
    apply essential_fold_incl in H' as [[]|H'].
    apply in_map_iff in H' as ([pi cov] & <- & H').
    now apply build_coverage_In in H'. }
  destruct (IntSet.diff minterms covered); [apply He|].
  destruct (build_clauses _ _ _ _); [apply He|].
  destruct (petrick _ _ _); [|apply He].
  intros H. apply in_app_iff in H as [H|H]; [now apply He|].
  apply in_flat_map in H as (i & _ & H).
  destruct (nth_error prime_implicants i) eqn:E; [|destruct H].
  destruct H as [<-|[]]. now apply nth_error_In in E.
Qed.

(** When the essential implicants cover the whole target, the solver
    returns them. *)
Lemma solver_essential_only (prime_implicants : list implicant)
    (minterms : list Z) (num_vars : nat) :
  prime_implicants <> [] -> minterms <> [] ->
  IntSet.diff minterms
    (snd (fold_left
            (essential_step (build_coverage prime_implicants minterms num_vars))
            minterms ([], []))) = [] ->
  essential_prime_implicant_cover prime_implicants minterms num_vars
  = fst (fold_left
           (essential_step (build_coverage prime_implicants minterms num_vars))
           minterms ([], [])).
Proof.
  intros Hp Hm. unfold essential_prime_implicant_cover.
  destruct prime_implicants as [|p ps] eqn:Ep; [congruence|].
  destruct minterms as [|s ss] eqn:Es; [congruence|].
  rewrite <- Ep, <- Es.
  destruct (fold_left
              (essential_step (build_coverage prime_implicants minterms num_vars))
              minterms ([], [])) as [essential covered].
  cbn [fst snd]. now intros ->.
Qed.

(** The solver on positive cubes of the target that include its minimal
    minterms: the essential implicants are those of the minimal minterms,
    and they cover the target, so that the solver returns them. *)
Section PositiveCover.
Variable prime_implicants : list implicant.
Variable minterms : list Z.
Variable num_vars : nat.

Hypothesis in_range :
  Forall (fun m => 0 <= m < 2 ^ Z.of_nat num_vars) minterms.
Hypothesis positive_cubes :
  forall t m, In (t, m) prime_implicants -> m = t /\ In t minterms.
Hypothesis minimal_found :
  forall m, minimal_in minterms m -> In (m, m) prime_implicants.

Let coverage := build_coverage prime_implicants minterms num_vars.

Lemma pc_nonneg : Forall (fun m => 0 <= m) minterms.
Proof. eapply Forall_impl; [|exact in_range]. simpl. intros; lia. Qed.

Lemma pc_range (m : Z) : In m minterms -> 0 <= m < 2 ^ Z.of_nat num_vars.
Proof. intros H. rewrite Forall_forall in in_range. now apply in_range. Qed.

(** The coverage entry of a cube of the list, and the target minterms in
    it. *)
Lemma pc_entry (t x : Z) :
  In (t, t) prime_implicants ->
  In ((t, t), IntSet.inter (get_covered_minterms (t, t) num_vars) minterms)
    coverage
  /\ (In x minterms -> subcube t x ->
      In x (IntSet.inter (get_covered_minterms (t, t) num_vars) minterms)).
Proof.
  intros Ht.
  destruct (build_coverage_facts prime_implicants minterms num_vars)
    as [_ Cin].
  split; [now apply Cin|]. intros Hx Hs.
  apply IntSet_inter_In. split; [|assumption].
  apply covered_by_positive_cube.
  - apply pc_range. now apply positive_cubes in Ht.
  - split; [now apply pc_range|exact Hs].
Qed.

Lemma pc_covering_in (m : Z) (pi : implicant) :
  In pi (covering_of coverage m) ->
  exists t, pi = (t, t) /\ In t minterms /\ subcube t m.
Proof.
  intros Hpi. unfold covering_of in Hpi.
  apply in_map_iff in Hpi as ([pi' cov] & <- & Hpi).
  apply filter_In in Hpi as [Hpi Hmem]. simpl in *.
  apply IntSet_mem_In in Hmem.
  apply build_coverage_In in Hpi as [Hpi ->].
  destruct pi' as [t mk]. destruct (positive_cubes t mk Hpi) as [-> Ht].
  apply IntSet_inter_In in Hmem as [Hmem _].
  apply covered_by_positive_cube in Hmem; [|now apply pc_range].
  exists t. tauto.
Qed.

Lemma pc_covering_has (t m : Z) :
  In (t, t) prime_implicants -> In m minterms -> subcube t m ->
  In (t, t) (covering_of coverage m).
Proof.
  intros Ht Hm Hs. unfold covering_of. apply in_map_iff.
  exists ((t, t), IntSet.inter (get_covered_minterms (t, t) num_vars) minterms).
  split; [reflexivity|]. apply filter_In.
  destruct (pc_entry t m Ht) as [H1 H2]. split; [assumption|].
  simpl. apply IntSet_mem_In. auto.
Qed.

Lemma pc_covering_minimal (m : Z) :
  minimal_in minterms m -> covering_of coverage m = [(m, m)].
Proof.
  intros Hm. apply NoDup_all_equal.
  - unfold covering_of. apply NoDup_filter_keys.
    apply build_coverage_facts.
  - intros pi Hpi. apply pc_covering_in in Hpi as (t & -> & Ht & Hs).
    f_equal; now apply Hm.
  - apply pc_covering_has; [now apply minimal_found|apply Hm|].
    apply subcube_refl.
Qed.

Lemma pc_single_cover (m : Z) (epi : implicant) :
  In m minterms -> covering_of coverage m = [epi] ->
  exists t, epi = (t, t) /\ minimal_in minterms t.
Proof.
  intros Hm E.
  destruct (exists_minimal minterms m pc_nonneg Hm) as (t & Ht & Hs).
  exists t. split; [|assumption].
  assert (H : In (t, t) (covering_of coverage m)).
  { apply pc_covering_has; [now apply minimal_found|assumption|assumption]. }
  rewrite E in H. destruct H as [H|[]]. now symmetry.
Qed.

Lemma pc_stage :
  let st := fold_left (essential_step coverage) minterms ([], []) in
  (forall x, In x minterms ->
     exists t, In (t, t) (fst st) /\ subcube t x /\ In x (snd st))
  /\ (forall epi, In epi (fst st) ->
        exists t, epi = (t, t) /\ minimal_in minterms t).
Proof.
  cbv zeta.
  destruct (essential_fold_facts coverage minterms ([], []))
    as (Hclosed & _ & Hadds).
  { intros e x []. }
  split.
  - intros x Hx.
    destruct (exists_minimal minterms x pc_nonneg Hx) as (m & Hm & Hs).
    exists m.
    assert (He : In (m, m)
                   (fst (fold_left (essential_step coverage) minterms ([], [])))).
    { apply (Hadds m); [apply Hm|now apply pc_covering_minimal]. }
    split; [assumption|]. split; [assumption|].
    apply (Hclosed (m, m) x He). unfold coverage_get.
    destruct (pc_entry m x (minimal_found m Hm)) as [H1 H2].
    rewrite (Dict_get_Some implicant_eqb implicant_eqb_eq (m, m) _
               coverage (proj1 (build_coverage_facts _ _ _)) H1).
    auto.
  - intros epi He.
    apply essential_fold_origin in He as [[]|(m & Hm & E)].
    now apply (pc_single_cover m).
Qed.

Lemma pc_result :
  prime_implicants <> [] -> minterms <> [] ->
  essential_prime_implicant_cover prime_implicants minterms num_vars
  = fst (fold_left (essential_step coverage) minterms ([], [])).
Proof.
  intros Hp Hm. apply solver_essential_only; try assumption.
  fold coverage. destruct pc_stage as [Hall _].
  unfold IntSet.diff.
  match goal with
  | |- filter ?f minterms = [] => destruct (filter f minterms) as [|y r] eqn:E
  end; [reflexivity|].
  match type of E with
  | filter ?f minterms = _ =>
      assert (H : In y (filter f minterms)) by (rewrite E; now left)
  end.
  apply filter_In in H as [H1 H2].
  destruct (Hall y H1) as (_ & _ & _ & H3).
  apply IntSet_mem_In in H3. rewrite H3 in H2. discriminate.
Qed.

(** Every target minterm lies above an implicant of the returned cover. *)
Lemma essential_cover_complete (x : Z) :
  In x minterms ->
  exists t,
    In (t, t)
      (essential_prime_implicant_cover prime_implicants minterms num_vars)
    /\ subcube t x.
Proof.
  intros Hx.
  assert (Hm : minterms <> []) by (intros E; rewrite E in Hx; exact Hx).
  assert (Hp : prime_implicants <> []).
  { intros E. destruct (exists_minimal minterms x pc_nonneg Hx) as (m & Hmin & _).
    apply minimal_found in Hmin. rewrite E in Hmin. exact Hmin. }
  rewrite (pc_result Hp Hm).
  destruct pc_stage as [Hall _].
  destruct (Hall x Hx) as (t & H1 & H2 & _). eauto.
Qed.

(** The returned cover holds only the cubes of minimal target minterms. *)
Lemma essential_cover_minimal (imp : implicant) :
  minterms <> [] ->
  In imp (essential_prime_implicant_cover prime_implicants minterms num_vars) ->
  exists t, imp = (t, t) /\ minimal_in minterms t.
Proof.
  intros Hm Himp.
  assert (Hp : prime_implicants <> []).
  { intros E. rewrite E in Himp. unfold essential_prime_implicant_cover in Himp.
    exact Himp. }
  rewrite (pc_result Hp Hm) in Himp.
  destruct pc_stage as [_ Hess]. now apply Hess.
Qed.
End PositiveCover.

(** ** Assignments and minterm numbers *)

Lemma sum_Z_from (l : list Z) (s : Z) : fold_left Z.add l s = s + sum_Z l.
Proof.
  unfold sum_Z. revert s. induction l as [|x r IH]; intros s; simpl; [lia|].
  rewrite IH, (IH x). lia.
Qed.

Lemma sum_Z_cons (x : Z) (l : list Z) : sum_Z (x :: l) = x + sum_Z l.
Proof. unfold sum_Z at 1. simpl. apply sum_Z_from. Qed.

Lemma minterm_of_value (a : list Z) : minterm_of a (List.length a) = value a.
Proof.
  unfold minterm_of, range. induction a as [|v r IH]; [reflexivity|].
  cbn [List.length seq map value]. rewrite sum_Z_cons. f_equal.
  - cbn [nth]. unfold bit_pos_of. f_equal. f_equal. lia.
  - rewrite <- IH, <- seq_shift, map_map. f_equal.
    apply map_ext. intros i. cbn [nth]. unfold bit_pos_of. f_equal. f_equal. lia.
Qed.

Lemma value_range (a : list Z) :
  Forall is_bit a -> 0 <= value a < 2 ^ Z.of_nat (List.length a).
Proof.
  induction 1 as [|v r Hv Hr IH]; [simpl; lia|].
  cbn [value List.length]. rewrite Nat2Z.inj_succ, Z.pow_succ_r by lia.
  destruct Hv as [-> | ->]; lia.
Qed.

Lemma testbit_shifted_sum (v w k j : Z) :
  0 <= k -> 0 <= j -> 0 <= w < 2 ^ k ->
  Z.testbit (v * 2 ^ k + w) j
  = if j <? k then Z.testbit w j else Z.testbit v (j - k).
Proof.
  intros Hk Hj Hw.
  assert (P : 0 < 2 ^ k) by (apply Z.pow_pos_nonneg; lia).
  destruct (Z.ltb_spec j k).
  - rewrite <- (Z.mod_pow2_bits_low (v * 2 ^ k + w) k j) by lia.
    rewrite Z.add_comm, Z_mod_plus_full, Z.mod_small by lia. reflexivity.
  - replace j with ((j - k) + k) at 1 by lia.
    rewrite <- Z.div_pow2_bits by lia.
    rewrite Z.add_comm, Z_div_plus_full, Z.div_small by lia. reflexivity.
Qed.

Lemma value_testbit (a : list Z) (i : nat) (v : Z) :
  Forall is_bit a -> nth_error a i = Some v ->
  Z.testbit (value a) (bit_pos_of (List.length a) i) = (v =? 1).
Proof.
  intros Ha. revert i. induction Ha as [|u r Hu Hr IH]; intros i Hi.
  - destruct i; discriminate.
  - cbn [value List.length].
    pose proof (value_range r Hr) as R.
    destruct i as [|i]; simpl in Hi.
    + injection Hi as ->.
      replace (bit_pos_of (S (List.length r)) 0) with (Z.of_nat (List.length r))
        by (unfold bit_pos_of; lia).
      rewrite testbit_shifted_sum by lia.
      rewrite Z.ltb_irrefl, Z.sub_diag.
      destruct Hu as [-> | ->]; reflexivity.
    + assert (i < List.length r)%nat by (apply nth_error_Some; congruence).
      replace (bit_pos_of (S (List.length r)) (S i))
        with (bit_pos_of (List.length r) i) by (unfold bit_pos_of; lia).
      rewrite testbit_shifted_sum by (unfold bit_pos_of; lia).
      destruct (Z.ltb_spec (bit_pos_of (List.length r) i)
                  (Z.of_nat (List.length r))) as [_|Hge];
        [now apply IH|unfold bit_pos_of in Hge; lia].
Qed.

(** ** Satisfaction of a term set *)

Lemma In_combine_nth {A B : Type} (l : list A) (l' : list B) (x : A) (y : B) :
  In (x, y) (combine l l')
  <-> exists i, nth_error l i = Some x /\ nth_error l' i = Some y.
Proof.
  revert l'. induction l as [|a r IH]; intros [|b r']; simpl.
  - split; [intros []|intros ([|] & H & _); discriminate].
  - split; [intros []|intros ([|] & H & _); discriminate].
  - split; [intros []|intros ([|] & _ & H); discriminate].
  - rewrite IH. split.
    + intros [[= -> ->]|(i & H1 & H2)]; [now exists 0%nat|now exists (S i)].
    + intros ([|i] & H1 & H2); simpl in *; [left; congruence|right; eauto].
Qed.

Lemma map_fst_combine {A B : Type} (l : list A) (l' : list B) :
  List.length l = List.length l' -> map fst (combine l l') = l.
Proof.
  revert l'. induction l as [|a r IH]; intros [|b r'] H; simpl in *;
    try discriminate; [reflexivity|]. f_equal. apply IH. lia.
Qed.

Lemma var_assignment_of_combine (variables : list ascii) (assignment : list Z) :
  NoDup variables -> List.length variables = List.length assignment ->
  var_assignment_of variables assignment = combine variables assignment.
Proof.
  intros Hnd Hlen. unfold var_assignment_of.
  pose proof (map_fst_combine variables assignment Hlen) as K.
  rewrite <- K in Hnd. clear K Hlen.
  enough (G : forall l d,
             NoDup (map fst l) ->
             (forall k, In k (map fst l) -> ~ In k (map fst d)) ->
             fold_left (fun d (kv : ascii * Z) =>
                          Dict.set Ascii.eqb (fst kv) (snd kv) d) l d
             = d ++ l).
  { apply (G _ [] Hnd). intros k _ []. }
  induction l as [|[k v] r IH]; intros d Hl Hd; simpl.
  - now rewrite app_nil_r.
  - inversion Hl as [|? ? Hk Hr]; subst.
    assert (E : Dict.set Ascii.eqb k v d = d ++ [(k, v)]).
    { assert (Hfresh : ~ In k (map fst d)) by (apply Hd; now left).
      clear -Hfresh. induction d as [|[k' v'] d' IHd]; simpl; [reflexivity|].
      destruct (Ascii.eqb_spec k k'); [subst; exfalso; apply Hfresh; now left|].
      rewrite IHd; [reflexivity|]. intros H. apply Hfresh. now right. }
    rewrite E, IH; [now rewrite <- app_assoc|assumption|].
    intros k' Hk'. rewrite map_app, in_app_iff. simpl.
    intros [H|[<-|[]]]; [|contradiction].
    apply (Hd k'); [now right|assumption].
Qed.

Lemma ascii_eqb_eq (a b : ascii) : Ascii.eqb a b = true <-> a = b.
Proof. apply Ascii.eqb_eq. Qed.

Lemma Dict_get_entry {K V : Type} (keq : K -> K -> bool)
    (keq_eq : forall a b, keq a b = true <-> a = b)
    (k : K) (v : V) (d : list (K * V)) :
  Dict.get keq k d = Some v -> In (k, v) d.
Proof.
  induction d as [|[k' v'] r IH]; simpl; [discriminate|].
  destruct (keq k k') eqn:E.
  - apply keq_eq in E. intros [= ->]. subst. now left.
  - auto.
Qed.

Lemma factor_true_at_one (variables : list ascii) (assignment : list Z)
    (c : ascii) :
  NoDup variables -> List.length variables = List.length assignment ->
  (factor_true (var_assignment_of variables assignment) c = true
   <-> at_one variables assignment c).
Proof.
  intros Hnd Hlen. rewrite var_assignment_of_combine by assumption.
  unfold factor_true, at_one. split.
  - destruct (Dict.get Ascii.eqb c (combine variables assignment)) as [v|] eqn:E;
      [|discriminate].
    intros Hv. apply Z.eqb_eq in Hv. subst v.
    apply (Dict_get_entry Ascii.eqb ascii_eqb_eq) in E.
    now apply In_combine_nth.
  - intros H. apply In_combine_nth in H.
    rewrite (Dict_get_Some Ascii.eqb ascii_eqb_eq c 1); [reflexivity| |assumption].
    now rewrite map_fst_combine.
Qed.

Lemma term_satisfied_sat (terms : list (list ascii)) (variables : list ascii)
    (assignment : list Z) :
  NoDup variables -> List.length variables = List.length assignment ->
  (term_satisfied terms (var_assignment_of variables assignment) = true
   <-> sat terms variables assignment).
Proof.
  intros Hnd Hlen. unfold term_satisfied, sat. rewrite existsb_exists.
  split; intros (term & Hin & H); exists term; (split; [assumption|]).
  - rewrite forallb_forall in H. intros c Hc.
    apply factor_true_at_one; auto.
  - apply forallb_forall. intros c Hc. apply factor_true_at_one; auto.
Qed.

Lemma fold_cond_add_In {A : Type} (cond : A -> bool) (f : A -> Z)
    (l : list A) (s : list Z) (x : Z) :
  In x (fold_left
          (fun acc a => if cond a then IntSet.add (f a) acc else acc) l s)
  <-> In x s \/ exists a, In a l /\ cond a = true /\ x = f a.
Proof.
  revert s. induction l as [|a r IH]; intros s; simpl.
  - split; [auto|]. intros [H|(a & [] & _)]. exact H.
  - rewrite IH. destruct (cond a) eqn:E.
    + rewrite IntSet_add_In. split.
      * intros [[->|H]|(b & Hb & Hc & ->)]; eauto 6.
      * intros [H|(b & [<-|Hb] & Hc & ->)]; eauto 6.
    + split.
      * intros [H|(b & Hb & Hc & ->)]; eauto 6.
      * intros [H|(b & [<-|Hb] & Hc & ->)]; eauto 6. congruence.
Qed.

Lemma fold_left_ext_in {A B : Type} (f g : A -> B -> A) (l : list B) (s : A) :
  (forall b, In b l -> forall a, f a b = g a b) ->
  fold_left f l s = fold_left g l s.
Proof.
  revert s. induction l as [|b r IH]; intros s H; simpl; [reflexivity|].
  rewrite (H b) by now left. apply IH. intros b' Hb'. apply H. now right.
Qed.

Lemma minterms_of_terms_In (terms : list (list ascii))
    (variables : list ascii) (x : Z) :
  In x (minterms_of_terms terms variables)
  <-> exists a,
        In a (product01 (List.length variables))
        /\ term_satisfied terms (var_assignment_of variables a) = true
        /\ x = minterm_of a (List.length variables).
Proof.
  unfold minterms_of_terms.
  rewrite (fold_cond_add_In
             (fun a => term_satisfied terms (var_assignment_of variables a))
             (fun a => minterm_of a (List.length variables))).
  simpl. split; [intros [[]|H]; exact H|auto].
Qed.

Lemma minterms_of_terms_ext (terms terms' : list (list ascii))
    (variables : list ascii) :
  (forall a, In a (product01 (List.length variables)) ->
     term_satisfied terms' (var_assignment_of variables a)
     = term_satisfied terms (var_assignment_of variables a)) ->
  minterms_of_terms terms' variables = minterms_of_terms terms variables.
Proof.
  intros H. unfold minterms_of_terms. apply fold_left_ext_in.
  intros a Ha acc. now rewrite H.
Qed.

Lemma minterms_of_no_terms (variables : list ascii) :
  minterms_of_terms [] variables = [].
Proof.
  unfold minterms_of_terms.
  generalize (product01 (List.length variables)).
  induction l as [|a r IH]; simpl; [reflexivity|exact IH].
Qed.

(** ** The early exits of the parser agree with its main path *)

Lemma strip_decompose (s : list ascii) :
  exists w1 w2,
    s = w1 ++ strip s ++ w2
    /\ Forall (holds is_space) w1 /\ Forall (holds is_space) w2.
Proof.
  unfold strip. set (d := drop_while is_space s).
  exists (take_while is_space s), (rev (take_while is_space (rev d))).
  split; [|split].
  - rewrite <- rev_app_distr, take_drop_while, rev_involutive.
    unfold d. now rewrite take_drop_while.
  - apply take_while_Forall.
  - apply Forall_rev, take_while_Forall.
Qed.

Lemma placeholder_no_group (s : list ascii) :
  is_placeholder s = true -> bracket_findall s = [].
Proof.
  intros H. destruct (strip_decompose s) as (w1 & w2 & E & H1 & H2).
  assert (N : Forall (fun c => c <> "["%char) s).
  { rewrite E, !Forall_app. repeat split.
    - eapply Forall_impl; [|exact H1]. intros a Ha. now apply is_space_not_bracket.
    - unfold is_placeholder in H.
      destruct (strip s) as [|c [|c' r]]; [constructor| |discriminate].
      apply Ascii.eqb_eq in H. subst c.
      constructor; [discriminate|constructor].
    - eapply Forall_impl; [|exact H2]. intros a Ha. now apply is_space_not_bracket. }
  unfold bracket_findall. rewrite <- (app_nil_r s).
  now rewrite findall_from_no_bracket.
Qed.

Lemma parse_expr_to_minterms_terms (s : string) (variables : list ascii) :
  parse_expr_to_minterms (Some s) variables
  = minterms_of_terms (parse_terms (chars s)) variables.
Proof.
  unfold parse_expr_to_minterms. cbn [text_of].
  destruct (is_falsy (Some s)) eqn:Ef.
  - destruct s; [|discriminate]. simpl. symmetry. apply minterms_of_no_terms.
  - destruct (is_placeholder (chars s)) eqn:Ep; simpl.
    + unfold parse_terms. rewrite (placeholder_no_group _ Ep). simpl.
      symmetry. apply minterms_of_no_terms.
    + destruct (parse_terms (chars s)); [|reflexivity].
      symmetry. apply minterms_of_no_terms.
Qed.

(** ** The universe of an expression *)

Lemma CharSet_add_NoDup (c : ascii) (s : list ascii) :
  NoDup s -> NoDup (CharSet.add c s).
Proof.
  intros H. unfold CharSet.add. destruct (CharSet.mem c s) eqn:E; [assumption|].
  apply NoDup_app; [assumption|repeat constructor; intros []|].
  intros x Hx [<-|[]]. apply CharSet_mem_In in Hx. congruence.
Qed.

Lemma CharSet_update_NoDup (cs s : list ascii) :
  NoDup s -> NoDup (CharSet.update s cs).
Proof.
  unfold CharSet.update. revert s.
  induction cs as [|c r IH]; intros s H; simpl; [assumption|].
  apply IH. now apply CharSet_add_NoDup.
Qed.

Lemma findall_from_groups (s : list ascii) (k : nat) (g : list ascii) :
  In g (findall_from k s) -> g <> [] /\ Forall (holds is_upper) g.
Proof.
  revert k. induction s as [|c r IH]; intros k; [intros []|].
  cbn [findall_from]. destruct k as [|k]; [|apply IH].
  destruct (match_bracket (c :: r)) as [[g' len]|] eqn:E; [|apply IH].
  intros [<-|H]; [|now apply IH in H].
  apply match_bracket_Some in E. tauto.
Qed.

Lemma extract_fold_facts (groups : list (list ascii)) (init : list ascii) :
  let vars :=
    fold_left (fun variables m => CharSet.update variables (filter isalpha m))
      groups init in
  (NoDup init -> NoDup vars)
  /\ forall c, In c vars
       <-> In c init \/ exists g, In g groups /\ In c (filter isalpha g).
Proof.
  revert init. induction groups as [|g r IH]; intros init; simpl.
  - split; [auto|]. intros c. split; [auto|]. intros [H|(g & [] & _)]. exact H.
  - destruct (IH (CharSet.update init (filter isalpha g))) as [N I].
    split.
    + intros H. apply N. now apply CharSet_update_NoDup.
    + intros c. rewrite I, CharSet_update_In. split.
      * intros [[H|H]|(g' & Hg & Hc)]; eauto.
      * intros [H|(g' & [<-|Hg] & Hc)]; eauto.
Qed.

(** The universe of a single expression: duplicate-free, made of uppercase
    letters, and holding every symbol of every term. *)
Lemma universe_facts (s : string) :
  let variables := variables_of (Some s) None in
  NoDup variables
  /\ (forall c, In c variables -> is_upper c = true)
  /\ (forall term, In term (parse_terms (chars s)) ->
        term <> [] /\ forall c, In c term -> In c variables).
Proof.
  cbv zeta. unfold variables_of, all_vars_of.
  change (is_falsy None) with true. cbv iota.
  destruct (is_falsy (Some s)) eqn:Ef.
  { destruct s; [|discriminate]. simpl. repeat split;
      try constructor; try contradiction. }
  unfold extract_variables. rewrite Ef. cbn [text_of].
  destruct (extract_fold_facts (bracket_findall (chars s)) []) as [N I].
  set (vars := fold_left
                 (fun variables m => CharSet.update variables (filter isalpha m))
                 (bracket_findall (chars s)) []) in *.
  assert (G : forall g, In g (bracket_findall (chars s)) ->
            g <> [] /\ Forall (holds is_upper) g)
    by (intros g; apply findall_from_groups).
  split; [|split].
  - eapply Permutation_NoDup; [apply Permutation_sym, sorted_perm|].
    apply CharSet_update_NoDup. constructor.
  - intros c Hc. apply sorted_In, CharSet_update_In in Hc as [[]|Hc].
    apply I in Hc as [[]|(g & Hg & Hc)].
    apply filter_In in Hc as [Hc _]. destruct (G g Hg) as [_ Hu].
    rewrite Forall_forall in Hu. now apply Hu.
  - intros term Hterm. unfold parse_terms in Hterm.
    apply in_map_iff in Hterm as (g & <- & Hg).
    destruct (G g Hg) as [Hne Hu].
    rewrite (filter_isalpha_upper g Hu). split.
    + destruct g as [|c r]; [congruence|]. intros E.
      assert (In c (CharSet.of_list (c :: r)))
        by (apply CharSet_of_list_In; now left).
      rewrite E in H. exact H.
    + intros c Hc. apply (proj1 (CharSet_of_list_In c g)) in Hc.
      apply sorted_In, CharSet_update_In. right. apply I. right.
      exists g. split; [assumption|]. now rewrite (filter_isalpha_upper g Hu).
Qed.

(** ** Reading back a rendered cover *)

Lemma chars_app (a b : string) : chars (a ++ b) = chars a ++ chars b.
Proof. induction a as [|c a IH]; simpl; [reflexivity|]. now rewrite <- IH. Qed.

Lemma chars_concat (l : list string) :
  chars (String.concat EmptyString l) = List.concat (map chars l).
Proof.
  induction l as [|h t IH]; [reflexivity|].
  destruct t as [|h' t'].
  - simpl. now rewrite app_nil_r.
  - change (String.concat EmptyString (h :: h' :: t'))
      with (h ++ EmptyString ++ String.concat EmptyString (h' :: t'))%string.
    rewrite chars_app.
    change (EmptyString ++ String.concat EmptyString (h' :: t'))%string
      with (String.concat EmptyString (h' :: t')).
    rewrite IH. reflexivity.
Qed.

Lemma unbracket_group (g : string) (letters : list ascii) :
  chars g = bracket_group [] letters [] -> unbracket g = letters.
Proof.
  intros E. unfold unbracket. rewrite E. unfold bracket_group. simpl.
  apply removelast_last.
Qed.

Lemma findall_concat_groups (groups : list string) :
  Forall wf_group groups ->
  bracket_findall (List.concat (map chars groups)) = map unbracket groups.
Proof.
  induction 1 as [|g r (letters & Hne & Hu & E) Hr IH]; [reflexivity|].
  cbn [map List.concat]. rewrite (unbracket_group g letters E), E, <- IH.
  exact (bracket_findall_group [] [] letters [] (List.concat (map chars r))
           Hne Hu (Forall_nil _) (Forall_nil _)).
Qed.

Lemma letters_of_In (imp : implicant) (variables : list ascii) (c : ascii) :
  In c (letters_of imp variables)
  <-> exists i,
        nth_error variables i = Some c
        /\ Z.testbit (snd imp) (bit_pos_of (List.length variables) i) = true
        /\ Z.testbit (fst imp) (bit_pos_of (List.length variables) i) = true.
Proof.
  unfold letters_of. rewrite in_map_iff. split.
  - intros ([i c'] & <- & H). apply filter_In in H as [H1 H2].
    simpl in *. apply andb_true_iff in H2.
    apply In_combine_nth in H1 as (j & H1 & H3).
    assert (i = j).
    { pose proof H1 as H4. apply nth_error_nth with (d := 0%nat) in H4.
      rewrite seq_nth in H4; [lia|]. apply nth_error_Some. congruence. }
    subst j. exists i. tauto.
  - intros (i & H1 & H2 & H3). exists (i, c). split; [reflexivity|].
    apply filter_In. split.
    + apply In_combine_nth. exists i. split; [|assumption].
      assert (i < List.length variables)%nat by (apply nth_error_Some; congruence).
      rewrite nth_error_nth' with (d := 0%nat) by now rewrite length_seq.
      now rewrite seq_nth.
    + simpl. now rewrite H2, H3.
Qed.

Lemma rendered_group (imp : implicant) (variables : list ascii) :
  letters_of imp variables <> [] ->
  chars (implicant_to_expr imp variables)
  = bracket_group [] (letters_of imp variables) []
  /\ nonempty (implicant_to_expr imp variables) = true.
Proof.
  intros Hne. unfold implicant_to_expr. rewrite implicant_factors_letters.
  destruct (letters_of imp variables) as [|c l]; [congruence|].
  split; [|reflexivity].
  change ("[" ++ string_of_list_ascii (c :: l) ++ "]")%string
    with (String "[" (string_of_list_ascii (c :: l) ++ "]")).
  unfold chars. cbn [list_ascii_of_string]. fold (chars (string_of_list_ascii (c :: l) ++ "]")).
  rewrite chars_app. unfold chars at 1.
  rewrite list_ascii_of_string_of_list_ascii. reflexivity.
Qed.

Lemma rendered_empty (imp : implicant) (variables : list ascii) :
  letters_of imp variables = [] ->
  implicant_to_expr imp variables = EmptyString.
Proof.
  intros E. unfold implicant_to_expr.
  now rewrite implicant_factors_letters, E.
Qed.

(** The groups read back from a rendered cover are the letter lists of its
    implicants that have letters. *)
Lemma findall_format_cover (cover : list implicant) (variables : list ascii)
    (letters : list ascii) :
  (forall c, In c variables -> is_upper c = true) ->
  (In letters (bracket_findall (chars (format_cover cover variables)))
   <-> exists imp,
         In imp cover /\ letters_of imp variables = letters /\ letters <> []).
Proof.
  intros Hup. unfold format_cover. rewrite rendered_terms_filter, chars_concat.
  set (groups := sorted String.leb
                   (filter nonempty
                      (map (fun pi => implicant_to_expr pi variables) cover))).
  assert (Hg : forall g, In g groups <->
             exists imp, In imp cover /\ letters_of imp variables <> []
                         /\ g = implicant_to_expr imp variables).
  { intros g. unfold groups. rewrite sorted_In, filter_In, in_map_iff. split.
    - intros ((imp & <- & Himp) & Hne). exists imp. split; [assumption|].
      split; [|reflexivity]. intros E.
      rewrite (rendered_empty imp variables E) in Hne. discriminate.
    - intros (imp & Himp & Hne & ->). split; [eauto|].
      now apply rendered_group. }
  assert (Hwf : Forall wf_group groups).
  { apply Forall_forall. intros g Hin. apply Hg in Hin as (imp & _ & Hne & ->).
    exists (letters_of imp variables). split; [assumption|]. split.
    - apply Forall_forall. intros c Hc. apply Hup.
      apply letters_of_In in Hc as (i & Hi & _). now apply nth_error_In in Hi.
    - now apply rendered_group. }
  rewrite (findall_concat_groups groups Hwf), in_map_iff. split.
  - intros (g & <- & Hin). apply Hg in Hin as (imp & Himp & Hne & ->).
    exists imp. split; [assumption|].
    destruct (rendered_group imp variables Hne) as [E _].
    rewrite (unbracket_group _ _ E). auto.
  - intros (imp & Himp & <- & Hne).
    exists (implicant_to_expr imp variables). split.
    + destruct (rendered_group imp variables Hne) as [E _].
      apply (unbracket_group _ _ E).
    + apply Hg. eauto.
Qed.

(** ** Round trip through the pipeline (C1) *)

(** C1, counterexample: the universe of "[ABCDEFG]" has seven variables;
    the output is the empty string, whose minterm set over that universe is
    empty, while the input has the minterm 127. *)
Lemma roundtrip_fails_above_limit :
  compute_kmap (Some "[ABCDEFG]"%string) None = EmptyString
  /\ parse_expr_to_minterms (Some "[ABCDEFG]"%string)
       (variables_of (Some "[ABCDEFG]"%string) None) = [127]
  /\ parse_expr_to_minterms
       (Some (compute_kmap (Some "[ABCDEFG]"%string) None))
       (variables_of (Some "[ABCDEFG]"%string) None) = [].
Proof. repeat split; vm_compute; reflexivity. Qed.

Lemma minimize_karnaugh_small (minterms : list Z) (variables : list ascii) :
  (List.length variables <= 6)%nat ->
  minimize_karnaugh minterms variables
  = format_cover
      (essential_prime_implicant_cover (find_prime_implicants minterms)
         minterms (List.length variables))
      variables.
Proof.
  intros H. unfold minimize_karnaugh.
  destruct minterms as [|m r]; [reflexivity|].
  destruct (Nat.ltb_spec 6 (List.length variables)); [lia|].
  destruct (find_prime_implicants (m :: r)); reflexivity.
Qed.

Lemma kmap_minterms_no_reset (base_expr : option string) :
  kmap_minterms base_expr None
  = parse_expr_to_minterms base_expr (variables_of base_expr None).
Proof.
  unfold kmap_minterms, variables_of. cbn [is_falsy negb].
  now rewrite andb_false_r.
Qed.

Section RoundTrip.
Variable s : string.

Let variables := variables_of (Some s) None.
Let terms := parse_terms (chars s).
Let minterms := minterms_of_terms terms variables.
Let n := List.length variables.

Lemma rt_universe :
  NoDup variables
  /\ (forall c, In c variables -> is_upper c = true)
  /\ (forall term, In term terms ->
        term <> [] /\ forall c, In c term -> In c variables).
Proof. apply universe_facts. Qed.

Lemma rt_assignment (a : list Z) :
  In a (product01 n) ->
  List.length variables = List.length a /\ Forall is_bit a.
Proof.
  intros H. apply product01_In in H as [H1 H2]. split; [now rewrite H1|].
  exact H2.
Qed.

Lemma rt_minterm (x : Z) :
  In x minterms
  <-> exists a, In a (product01 n) /\ sat terms variables a /\ x = value a.
Proof.
  unfold minterms. rewrite minterms_of_terms_In. fold n.
  destruct rt_universe as (Hnd & _).
  split; intros (a & Ha & Hs & ->); exists a;
    destruct (rt_assignment a Ha) as [Hl Hb];
    (split; [assumption|]); split.
  - now apply term_satisfied_sat in Hs.
  - unfold n. rewrite Hl. apply minterm_of_value.
  - now apply term_satisfied_sat.
  - unfold n. rewrite Hl. symmetry. apply minterm_of_value.
Qed.

(** With an empty universe no assignment satisfies a term. *)
Lemma rt_empty_universe :
  all_vars_of (Some s) None = [] -> minterms = [].
Proof.
  intros Ev. destruct minterms as [|x r] eqn:Em; [reflexivity|]. exfalso.
  assert (Hx : In x minterms) by (rewrite Em; now left).
  apply rt_minterm in Hx as (a & _ & (term & Hin & _) & _).
  destruct rt_universe as (_ & _ & Hterms).
  destruct (Hterms term Hin) as [Hne Hsub].
  destruct term as [|c r']; [congruence|].
  assert (H : In c variables) by (apply Hsub; now left).
  unfold variables, variables_of in H. rewrite Ev in H. exact H.
Qed.
(** The minterm set in the order in which it happens to be enumerated. *)
Variable enumeration : list Z.
Hypothesis enumerates : forall x, In x enumeration <-> In x minterms.

Hypothesis small : (n <= 6)%nat.

Let cover :=
  essential_prime_implicant_cover (find_prime_implicants enumeration)
    enumeration n.

Lemma rt_range : Forall (fun m => 0 <= m < 2 ^ Z.of_nat n) enumeration.
Proof.
  apply Forall_forall. intros x Hx.
  apply enumerates, rt_minterm in Hx as (a & Ha & _ & ->).
  destruct (rt_assignment a Ha) as [Hl Hb].
  unfold n. rewrite Hl. now apply value_range.
Qed.

Lemma rt_nonneg : Forall (fun m => 0 <= m) enumeration.
Proof.
  eapply Forall_impl; [|exact rt_range]. simpl. intros; lia.
Qed.

(** A symbol set to 1 by the assignment of a minterm is a letter of the
    positive cube of that minterm. *)
Lemma rt_letter (a : list Z) (c : ascii) :
  In a (product01 n) -> at_one variables a c ->
  In c (letters_of (value a, value a) variables).
Proof.
  intros Ha (i & Hi & Hv). destruct (rt_assignment a Ha) as [Hl Hb].
  apply letters_of_In. exists i. split; [assumption|]. cbn [fst snd].
  rewrite Hl, (value_testbit a i 1 Hb Hv). auto.
Qed.

Lemma rt_cover_sound (t m : Z) :
  In (t, m) cover ->
  m = t
  /\ exists a, In a (product01 n) /\ sat terms variables a /\ t = value a.
Proof.
  intros H. apply essential_cover_incl in H.
  apply (proj1 (find_prime_implicants_spec enumeration rt_nonneg)) in H
    as [-> H].
  split; [reflexivity|]. now apply rt_minterm, enumerates.
Qed.

Lemma rt_cover_complete (x : Z) :
  In x minterms -> exists t, In (t, t) cover /\ subcube t x.
Proof.
  intros Hx. apply enumerates in Hx.
  destruct (find_prime_implicants_spec enumeration rt_nonneg) as [Hs Hm].
  now apply essential_cover_complete; try apply rt_range.
Qed.

Lemma rt_sat_cover (a : list Z) :
  In a (product01 n) ->
  (sat terms variables a
   <-> exists imp,
         In imp cover /\ letters_of imp variables <> []
         /\ forall c, In c (letters_of imp variables) ->
              at_one variables a c).
Proof.
  intros Ha. destruct (rt_assignment a Ha) as [Hl Hb].
  destruct rt_universe as (Hnd & Hup & Hterms). split.
  - intros Hs.
    assert (Hx : In (value a) minterms) by (apply rt_minterm; eauto).
    destruct (rt_cover_complete _ Hx) as (t & Ht & Hsub).
    exists (t, t). split; [assumption|].
    destruct (rt_cover_sound t t Ht) as (_ & b & Hb1 & (term & Hin & Hall) & ->).
    split.
    + destruct (Hterms term Hin) as [Hne _].
      destruct term as [|c r]; [congruence|].
      assert (In c (letters_of (value b, value b) variables))
        by (apply rt_letter; [assumption|apply Hall; now left]).
      intros E. rewrite E in H. exact H.
    + intros c Hc. apply letters_of_In in Hc as (i & Hi & _ & Hbit).
      cbn [fst] in Hbit.
      assert (Hlt : (i < List.length a)%nat).
      { rewrite <- Hl. apply nth_error_Some. congruence. }
      destruct (nth_error a i) as [v|] eqn:Ev;
        [|apply nth_error_None in Ev; lia].
      exists i. split; [assumption|].
      rewrite subcube_bits in Hsub.
      apply Hsub in Hbit; [|unfold bit_pos_of; lia].
      rewrite Hl, (value_testbit a i v Hb Ev) in Hbit.
      apply Z.eqb_eq in Hbit. now subst v.
  - intros ([t m] & Hin & _ & Hall).
    destruct (rt_cover_sound t m Hin)
      as (-> & b & Hb1 & (term & Hterm & Hb2) & ->).
    exists term. split; [assumption|].
    intros c Hc. apply Hall. apply rt_letter; auto.
Qed.

Lemma rt_sat_output (a : list Z) :
  In a (product01 n) ->
  (sat (parse_terms (chars (format_cover cover variables))) variables a
   <-> sat terms variables a).
Proof.
  intros Ha. rewrite (rt_sat_cover a Ha).
  destruct rt_universe as (Hnd & Hup & _).
  assert (Hl : forall imp c,
            In c (CharSet.of_list (filter isalpha (letters_of imp variables)))
            <-> In c (letters_of imp variables)).
  { intros imp c. rewrite CharSet_of_list_In, filter_isalpha_upper; [reflexivity|].
    apply Forall_forall. intros d Hd. apply Hup.
    apply letters_of_In in Hd as (i & Hi & _). now apply nth_error_In in Hi. }
  unfold sat, parse_terms. split.
  - intros (term & Hin & Hall).
    apply in_map_iff in Hin as (letters & <- & Hin).
    apply findall_format_cover in Hin as (imp & Himp & <- & Hne);
      [|assumption].
    exists imp. split; [assumption|]. split; [assumption|].
    intros c Hc. apply Hall. now apply Hl.
  - intros (imp & Himp & Hne & Hall).
    exists (CharSet.of_list (filter isalpha (letters_of imp variables))).
    split.
    + apply in_map_iff. exists (letters_of imp variables).
      split; [reflexivity|]. apply findall_format_cover; eauto.
    + intros c Hc. apply Hall. now apply Hl.
Qed.

(** The output computed from any enumeration of the minterm set reads back
    as the minterm set. *)
Lemma rt_minimized :
  parse_expr_to_minterms (Some (minimize_karnaugh enumeration variables))
    variables
  = minterms.
Proof.
  rewrite parse_expr_to_minterms_terms.
  rewrite minimize_karnaugh_small by exact small. fold n cover.
  unfold minterms. apply minterms_of_terms_ext. fold n. intros a Ha.
  destruct (rt_assignment a Ha) as [Hl Hb].
  destruct rt_universe as (Hnd & _).
  apply eq_true_iff_eq.
  rewrite !term_satisfied_sat by assumption.
  now apply rt_sat_output.
Qed.

End RoundTrip.

(** C1, amended: for every input string whose universe has at most six
    variables, the string produced by the pipeline (parse, minterm
    generation, prime implicants, minimal cover, format), parsed again and
    evaluated over the same universe, has exactly the minterm set of the
    input. *)
Theorem roundtrip_minterms (s : string) :
  (List.length (variables_of (Some s) None) <= 6)%nat ->
  parse_expr_to_minterms (Some (compute_kmap (Some s) None))
    (variables_of (Some s) None)
  = parse_expr_to_minterms (Some s) (variables_of (Some s) None).
Proof.
  intros small. unfold compute_kmap. rewrite kmap_minterms_no_reset.
  destruct (all_vars_of (Some s) None) as [|v vs] eqn:Ev.
  - rewrite (parse_expr_to_minterms_terms s).
    rewrite (rt_empty_universe s Ev).
    rewrite parse_expr_to_minterms_terms. apply minterms_of_no_terms.
  - rewrite (parse_expr_to_minterms_terms s).
    apply (rt_minimized s); [tauto|exact small].
Qed.

Lemma roundtrip_minterms_witness :
  parse_expr_to_minterms
    (Some (compute_kmap (Some "[A][AB][BC]"%string) None))
    (variables_of (Some "[A][AB][BC]"%string) None)
  = parse_expr_to_minterms (Some "[A][AB][BC]"%string)
      (variables_of (Some "[A][AB][BC]"%string) None).
Proof.
  apply (roundtrip_minterms "[A][AB][BC]"%string).
  vm_compute. repeat constructor.
Defined.

(** X6: the round trip does not depend on the order in which the minterm
    set is enumerated: whatever list holds exactly the minterms of the
    input, the string computed from it reads back as the minterm set of the
    input. *)
Theorem roundtrip_any_enumeration (s : string) (enumeration : list Z) :
  (forall x,
     In x enumeration
     <-> In x (parse_expr_to_minterms (Some s) (variables_of (Some s) None))) ->
  (List.length (variables_of (Some s) None) <= 6)%nat ->
  parse_expr_to_minterms
    (Some (minimize_karnaugh enumeration (variables_of (Some s) None)))
    (variables_of (Some s) None)
  = parse_expr_to_minterms (Some s) (variables_of (Some s) None).
Proof.
  intros Henum small. rewrite (parse_expr_to_minterms_terms s) in *.
  now apply (rt_minimized s).
Qed.

Lemma roundtrip_any_enumeration_witness :
  parse_expr_to_minterms
    (Some (minimize_karnaugh [7; 3; 6; 4; 5]
             (variables_of (Some "[A][BC]"%string) None)))
    (variables_of (Some "[A][BC]"%string) None)
  = parse_expr_to_minterms (Some "[A][BC]"%string)
      (variables_of (Some "[A][BC]"%string) None).
Proof.
  apply (roundtrip_any_enumeration "[A][BC]"%string [7; 3; 6; 4; 5]).
  - intros x. vm_compute. intuition.
  - vm_compute. repeat constructor.
Defined.

(** ** The formatter on the covers of the pipeline *)

Lemma letters_incl_subcube (variables : list ascii) (t1 t2 : Z) :
  NoDup variables ->
  0 <= t1 < 2 ^ Z.of_nat (List.length variables) ->
  (forall c, In c (letters_of (t1, t1) variables) ->
     In c (letters_of (t2, t2) variables)) ->
  subcube t1 t2.
Proof.
  intros Hnd Hr Hincl. apply subcube_bits. intros i Hi Hbit.
  destruct (Z_lt_le_dec i (Z.of_nat (List.length variables))) as [Hlt|Hge];
    [|rewrite (lt_bits_above t1 _ i Hr Hge) in Hbit; discriminate].
  set (j := Z.to_nat (Z.of_nat (List.length variables) - 1 - i)).
  assert (Hj : (j < List.length variables)%nat) by (unfold j; lia).
  assert (Hpos : bit_pos_of (List.length variables) j = i)
    by (unfold bit_pos_of, j; lia).
  destruct (nth_error variables j) as [c|] eqn:Ec;
    [|apply nth_error_None in Ec; lia].
  assert (H1 : In c (letters_of (t1, t1) variables)).
  { apply letters_of_In. exists j. cbn [fst snd]. rewrite Hpos. auto. }
  apply Hincl, letters_of_In in H1 as (j' & Ec' & _ & Hbit').
  cbn [fst] in Hbit'.
  assert (j = j').
  { apply (proj1 (NoDup_nth_error variables) Hnd); [assumption|congruence]. }
  subst j'. now rewrite Hpos in Hbit'.
Qed.

Lemma letters_of_nonzero (variables : list ascii) (t : Z) :
  0 < t < 2 ^ Z.of_nat (List.length variables) ->
  letters_of (t, t) variables <> [].
Proof.
  intros Hr.
  assert (Hbit : Z.testbit t (Z.log2 t) = true) by (apply Z.bit_log2; lia).
  assert (Hlog : 0 <= Z.log2 t < Z.of_nat (List.length variables)).
  { split; [apply Z.log2_nonneg|]. apply Z.log2_lt_pow2; lia. }
  set (j := Z.to_nat (Z.of_nat (List.length variables) - 1 - Z.log2 t)).
  assert (Hj : (j < List.length variables)%nat) by (unfold j; lia).
  assert (Hpos : bit_pos_of (List.length variables) j = Z.log2 t)
    by (unfold bit_pos_of, j; lia).
  destruct (nth_error variables j) as [c|] eqn:Ec;
    [|apply nth_error_None in Ec; lia].
  assert (H : In c (letters_of (t, t) variables)).
  { apply letters_of_In. exists j. cbn [fst snd]. rewrite Hpos. auto. }
  intros E. rewrite E in H. exact H.
Qed.

Lemma string_compare_refl (s : string) : String.compare s s = Eq.
Proof.
  pose proof (String.compare_antisym s s) as H.
  destruct (String.compare s s); [reflexivity|discriminate H|discriminate H].
Qed.

Lemma compare_common_suffix (s1 s2 t : string) :
  ~ proper_prefix s1 s2 -> ~ proper_prefix s2 s1 ->
  String.compare (s1 ++ t) (s2 ++ t) = String.compare s1 s2.
Proof.
  revert s2. induction s1 as [|c1 r1 IH]; intros [|c2 r2] H1 H2.
  - simpl. apply string_compare_refl.
  - exfalso. apply H1. split; [discriminate|]. now exists (String c2 r2).
  - exfalso. apply H2. split; [discriminate|]. now exists (String c1 r1).
  - simpl. destruct (Ascii.compare c1 c2) eqn:E; try reflexivity.
    apply Ascii.compare_eq_iff in E. subst c2. apply IH.
    + intros [Hne (r & Hr)]. apply H1. split; [congruence|].
      exists r. simpl. now rewrite Hr.
    + intros [Hne (r & Hr)]. apply H2. split; [congruence|].
      exists r. simpl. now rewrite Hr.
Qed.

Lemma leb_bracketed (s1 s2 : string) :
  ~ proper_prefix s1 s2 -> ~ proper_prefix s2 s1 ->
  String.leb (bracketed s1) (bracketed s2) = String.leb s1 s2.
Proof.
  intros H1 H2. unfold String.leb, bracketed.
  change (String.compare ("[" ++ s1 ++ "]") ("[" ++ s2 ++ "]"))
    with (String.compare (s1 ++ "]") (s2 ++ "]")).
  now rewrite compare_common_suffix.
Qed.

Lemma insert_sorted_map {A B : Type} (f : A -> B)
    (lebA : A -> A -> bool) (lebB : B -> B -> bool) (x : A) (l : list A) :
  (forall b, In b l -> lebB (f x) (f b) = lebA x b) ->
  insert_sorted lebB (f x) (map f l) = map f (insert_sorted lebA x l).
Proof.
  induction l as [|y r IH]; intros H; simpl; [reflexivity|].
  rewrite (H y) by now left.
  destruct (lebA x y); simpl; [reflexivity|].
  rewrite IH; [reflexivity|]. intros b Hb. apply H. now right.
Qed.

Lemma sorted_map {A B : Type} (f : A -> B)
    (lebA : A -> A -> bool) (lebB : B -> B -> bool) (l : list A) :
  (forall a b, In a l -> In b l -> lebB (f a) (f b) = lebA a b) ->
  sorted lebB (map f l) = map f (sorted lebA l).
Proof.
  induction l as [|x r IH]; intros H; simpl; [reflexivity|].
  rewrite IH by (intros a b Ha Hb; apply H; now right).
  apply insert_sorted_map. intros b Hb. apply sorted_In in Hb.
  apply H; [now left|now right].
Qed.

Lemma chars_injective (a b : string) : chars a = chars b -> a = b.
Proof.
  intros H. rewrite <- (string_of_list_ascii_of_string a),
    <- (string_of_list_ascii_of_string b). unfold chars in H. now rewrite H.
Qed.

(** X8: on the covers that the pipeline computes (for non-zero minterms
    within range and a duplicate-free universe) every implicant is rendered
    as one group and no group's letters are a proper prefix of another's,
    so the output is the one that sorting the groups by their letter
    strings gives. *)
Theorem pipeline_groups_by_letters
    (minterms : list Z) (variables : list ascii) :
  NoDup variables ->
  Forall (fun m => 0 < m < 2 ^ Z.of_nat (List.length variables)) minterms ->
  let cover :=
    essential_prime_implicant_cover (find_prime_implicants minterms)
      minterms (List.length variables) in
  (forall imp, In imp cover -> implicant_to_expr imp variables <> EmptyString)
  /\ format_cover cover variables = format_by_letters cover variables.
Proof.
  intros Hnd Hr cover.
  assert (Hr' : Forall (fun m => 0 <= m < 2 ^ Z.of_nat (List.length variables))
                  minterms).
  { eapply Forall_impl; [|exact Hr]. simpl. intros; lia. }
  assert (Hn : Forall (fun m => 0 <= m) minterms).
  { eapply Forall_impl; [|exact Hr]. simpl. intros; lia. }
  destruct (find_prime_implicants_spec minterms Hn) as [Hs Hm].
  rewrite Forall_forall in Hr.
  assert (Hcover : forall imp, In imp cover ->
            exists t, imp = (t, t) /\ minimal_in minterms t).
  { intros imp Himp.
    apply (essential_cover_minimal (find_prime_implicants minterms) minterms
             (List.length variables) Hr' Hs Hm); [|exact Himp].
    intros E. subst cover. rewrite E in Himp. exact Himp. }
  assert (Hne : forall imp, In imp cover -> letters_of imp variables <> []).
  { intros imp Himp. destruct (Hcover imp Himp) as (t & -> & Ht & _).
    apply letters_of_nonzero. now apply Hr. }
  split.
  { intros imp Himp E.
    destruct (rendered_group imp variables (Hne imp Himp)) as [_ N].
    rewrite E in N. discriminate. }
  unfold format_cover, format_by_letters.
  rewrite rendered_terms_filter. f_equal.
  set (letters := fun imp : implicant =>
                    string_of_list_ascii (letters_of imp variables)).
  rewrite (map_ext
             (fun imp => string_of_list_ascii (implicant_factors imp variables))
             letters)
    by (intros imp; unfold letters; now rewrite implicant_factors_letters).
  assert (R : map (fun pi => implicant_to_expr pi variables) cover
              = map bracketed (map letters cover)).
  { rewrite map_map. apply map_ext_in. intros imp Himp.
    apply chars_injective.
    destruct (rendered_group imp variables (Hne imp Himp)) as [-> _].
    unfold bracketed, letters, bracket_group.
    change (chars ("[" ++ string_of_list_ascii (letters_of imp variables) ++ "]"))
      with ("["%char
            :: chars (string_of_list_ascii (letters_of imp variables) ++ "]")).
    rewrite chars_app. unfold chars at 1.
    now rewrite list_ascii_of_string_of_list_ascii. }
  rewrite R.
  assert (F : filter nonempty (map bracketed (map letters cover))
              = map bracketed (map letters cover)).
  { apply forallb_filter_id. apply forallb_forall. intros g Hg.
    apply in_map_iff in Hg as (l & <- & _). reflexivity. }
  rewrite F. apply sorted_map.
  intros a b Ha Hb.
  apply in_map_iff in Ha as (ia & <- & Ha).
  apply in_map_iff in Hb as (ib & <- & Hb).
  destruct (Hcover ia Ha) as (ta & -> & Hta).
  destruct (Hcover ib Hb) as (tb & -> & Htb).
  assert (P : forall t1 t2,
            minimal_in minterms t1 -> minimal_in minterms t2 ->
            ~ proper_prefix (letters (t1, t1)) (letters (t2, t2))).
  { intros t1 t2 H1 H2 [Hdiff (r & Hpre)]. apply Hdiff.
    assert (E : t1 = t2); [|now subst].
    apply H2; [apply H1|].
    apply (letters_incl_subcube variables); [assumption| |].
    - destruct H1 as [H1 _]. apply Hr in H1. lia.
    - intros c Hc. unfold letters in Hpre.
      apply (f_equal chars) in Hpre. rewrite chars_app in Hpre.
      unfold chars in Hpre at 1 2.
      rewrite !list_ascii_of_string_of_list_ascii in Hpre.
      rewrite Hpre. apply in_app_iff. now left. }
  apply leb_bracketed; now apply P.
Qed.

Lemma pipeline_groups_by_letters_witness :
  (forall imp,
     In imp
       (essential_prime_implicant_cover (find_prime_implicants [5; 6; 7])
          [5; 6; 7] (List.length ["A"; "B"; "C"]%char)) ->
     implicant_to_expr imp ["A"; "B"; "C"]%char <> EmptyString)
  /\ format_cover
       (essential_prime_implicant_cover (find_prime_implicants [5; 6; 7])
          [5; 6; 7] (List.length ["A"; "B"; "C"]%char))
       ["A"; "B"; "C"]%char
     = format_by_letters
         (essential_prime_implicant_cover (find_prime_implicants [5; 6; 7])
            [5; 6; 7] (List.length ["A"; "B"; "C"]%char))
         ["A"; "B"; "C"]%char.
Proof.
  apply (pipeline_groups_by_letters [5; 6; 7] ["A"; "B"; "C"]%char).
  - repeat constructor; simpl; intuition discriminate.
  - repeat constructor; simpl; lia.
Defined.

(** ** Further properties of the pipeline *)

(** X2: for target minterms within the range of the universe, the cover
    selected among the prime implicants found consists of positive cubes of
    target minterms (mask equal to value), and every target minterm is
    covered by one of them. *)
Theorem cover_covers_target (minterms : list Z) (num_vars : nat) :
  Forall (fun m => 0 <= m < 2 ^ Z.of_nat num_vars) minterms ->
  let cover :=
    essential_prime_implicant_cover (find_prime_implicants minterms)
      minterms num_vars in
  (forall t m, In (t, m) cover -> m = t /\ In t minterms)
  /\ (forall x, In x minterms ->
      exists t,
        In (t, t) cover /\ In x (get_covered_minterms (t, t) num_vars)).
Proof.
  intros Hr cover.
  assert (Hn : Forall (fun m => 0 <= m) minterms).
  { eapply Forall_impl; [|exact Hr]. simpl. intros; lia. }
  destruct (find_prime_implicants_spec minterms Hn) as [Hs Hm].
  split.
  - intros t m H. apply essential_cover_incl in H. now apply Hs.
  - intros x Hx.
    destruct (essential_cover_complete (find_prime_implicants minterms)
                minterms num_vars Hr Hs Hm x Hx) as (t & Ht & Hsub).
    exists t. split; [assumption|].
    rewrite Forall_forall in Hr.
    assert (In t minterms).
    { apply essential_cover_incl in Ht. now apply Hs in Ht. }
    apply covered_by_positive_cube; auto.
Qed.

Lemma cover_covers_target_witness :
  (forall t m,
     In (t, m)
       (essential_prime_implicant_cover (find_prime_implicants [5; 6; 7])
          [5; 6; 7] 3) ->
     m = t /\ In t [5; 6; 7])
  /\ (forall x, In x [5; 6; 7] ->
      exists t,
        In (t, t)
          (essential_prime_implicant_cover (find_prime_implicants [5; 6; 7])
             [5; 6; 7] 3)
        /\ In x (get_covered_minterms (t, t) 3)).
Proof.
  apply (cover_covers_target [5; 6; 7] 3).
  repeat constructor; simpl; lia.
Defined.

(** X3: no expression, a blank one or the placeholder "-" gives the empty
    output, and so does every input whose universe is empty. *)
Theorem boundary_empty_output :
  compute_kmap None None = EmptyString
  /\ (forall s, is_placeholder (chars s) = true ->
      compute_kmap (Some s) None = EmptyString)
  /\ (forall base_expr reset_expr,
      variables_of base_expr reset_expr = [] ->
      compute_kmap base_expr reset_expr = EmptyString).
Proof.
  split; [reflexivity|]. split.
  - intros s H. unfold compute_kmap, all_vars_of.
    change (is_falsy None) with true. cbv iota.
    destruct (is_falsy (Some s)) eqn:Ef; [reflexivity|].
    unfold extract_variables. rewrite Ef. cbn [text_of].
    now rewrite (placeholder_no_group _ H).
  - intros base_expr reset_expr H. unfold compute_kmap.
    unfold variables_of in H.
    pose proof (sorted_perm Ascii.leb (all_vars_of base_expr reset_expr)) as P.
    rewrite H in P. apply Permutation_nil in P. now rewrite P.
Qed.

(** ** Scenarios of the specification *)

(** Scenario A, absorption. *)
Example scenario_A_absorption :
  compute_kmap (Some "[A][AB]"%string) None = "[A]"%string.
Proof. vm_compute. reflexivity. Qed.

(** Scenario B, no absorption. *)
Example scenario_B_no_absorption :
  compute_kmap (Some "[AB][AC]"%string) None = "[AB][AC]"%string
  /\ find_prime_implicants [5; 6; 7] = [(5, 5); (6, 6)]
  /\ get_covered_minterms (5, 5) 3 = [5; 7].
Proof. repeat split; vm_compute; reflexivity. Qed.

(** Petrick's method on a cyclic cover table.  The six cubes below are
    the prime implicants (with their own masks) of the function with the
    minterms 0, 1, 2, 5, 6, 7 over three variables; each minterm is covered
    by two of them, so none is essential.  The solver returns the three
    cubes of the smallest index tuple among the two cheapest covers, and
    the other one when the cubes are listed in the reverse order. *)
Example scenario_D_cyclic :
  let prime_implicants : list implicant :=
    [(0, 6); (0, 5); (1, 3); (2, 3); (5, 5); (6, 6)] in
  let clauses :=
    build_clauses (build_coverage prime_implicants [0; 1; 2; 5; 6; 7] 3)
      (build_index_of prime_implicants) [] [0; 1; 2; 5; 6; 7] in
  clauses = [[0; 1]; [0; 2]; [1; 3]; [2; 4]; [3; 5]; [4; 5]]%nat
  /\ petrick (literal_counts_of prime_implicants) clauses [[]]
     = Some [[1; 2; 5]; [0; 3; 4]; [1; 2; 3; 4]; [0; 2; 3; 5]; [0; 1; 4; 5]]%nat
  /\ essential_prime_implicant_cover prime_implicants [0; 1; 2; 5; 6; 7] 3
     = [(0, 6); (2, 3); (5, 5)]
  /\ essential_prime_implicant_cover (rev prime_implicants)
       [0; 1; 2; 5; 6; 7] 3
     = [(6, 6); (1, 3); (0, 5)].
Proof. repeat split; vm_compute; reflexivity. Qed.

Example boundary_no_access :
  compute_kmap (Some "-"%string) None = EmptyString
  /\ compute_kmap (Some EmptyString) None = EmptyString
  /\ compute_kmap None None = EmptyString.
Proof. repeat split; vm_compute; reflexivity. Qed.

Example text_outside_groups_ignored :
  bracket_findall (chars "[ AB ][C]x[[D][A B]")
  = [chars "AB"; chars "C"; chars "D"].
Proof. vm_compute. reflexivity. Qed.

(** ** Sets of indices *)

Lemma NatSet_mem_In (x : nat) (s : list nat) : NatSet.mem x s = true <-> In x s.
Proof.
  unfold NatSet.mem. rewrite existsb_exists. split.
  - intros (y & Hy & E). apply Nat.eqb_eq in E. now subst.
  - intros H. exists x. split; [assumption|apply Nat.eqb_refl].
Qed.

Lemma NatSet_add_In (x y : nat) (s : list nat) :
  In y (NatSet.add x s) <-> y = x \/ In y s.
Proof.
  induction s as [|z r IH]; simpl; [intuition|].
  destruct (Nat.ltb x z); [simpl; intuition|].
  destruct (Nat.eqb_spec x z); simpl; [subst; intuition|].
  rewrite IH. intuition.
Qed.

Lemma NatSet_add_sorted (x : nat) (s : list nat) :
  StronglySorted lt s -> StronglySorted lt (NatSet.add x s).
Proof.
  induction s as [|z r IH]; intros Hs; simpl.
  - repeat constructor.
  - inversion Hs as [|? ? Hr Hz]; subst.
    destruct (Nat.ltb_spec x z).
    + constructor; [assumption|]. constructor; [assumption|].
      rewrite Forall_forall in *. intros y Hy. specialize (Hz y Hy). 
      unfold lt in *. lia.
    + destruct (Nat.eqb_spec x z); [assumption|].
      constructor; [now apply IH|].
      rewrite Forall_forall in *. intros y Hy.
      apply NatSet_add_In in Hy as [->|Hy]; [unfold lt in *; lia|now apply Hz].
Qed.

Lemma sorted_lt_NoDup (s : list nat) : StronglySorted lt s -> NoDup s.
Proof.
  induction 1 as [|x r Hr IH Hx]; constructor; [|assumption].
  intros Hin. rewrite Forall_forall in Hx. specialize (Hx x Hin). 
  unfold lt in Hx. lia.
Qed.

Lemma NatSet_of_list_In (x : nat) (l : list nat) :
  In x (NatSet.of_list l) <-> In x l.
Proof.
  unfold NatSet.of_list.
  enough (G : forall s, In x (fold_left (fun acc y => NatSet.add y acc) l s)
                        <-> In x s \/ In x l).
  { rewrite G. simpl. intuition. }
  induction l as [|a r IH]; intros s; simpl; [intuition|].
  rewrite IH, NatSet_add_In. intuition.
Qed.

Lemma NatSet_diff_In (x : nat) (a b : list nat) :
  In x (NatSet.diff a b) <-> In x a /\ ~ In x b.
Proof.
  unfold NatSet.diff. rewrite filter_In, negb_true_iff.
  rewrite <- (NatSet_mem_In x b). destruct (NatSet.mem x b); intuition congruence.
Qed.

Lemma NatSet_superset_incl (p q : list nat) :
  NatSet.superset p q = true <-> incl q p.
Proof.
  unfold NatSet.superset. rewrite forallb_forall. unfold incl.
  split; intros H x Hx; apply NatSet_mem_In; auto.
Qed.

Lemma list_eqb_nat_eq (a b : list nat) : list_eqb Nat.eqb a b = true <-> a = b.
Proof.
  revert b. induction a as [|x a IH]; intros [|y b]; simpl;
    try (split; [discriminate|discriminate]); [intuition|].
  rewrite andb_true_iff, Nat.eqb_eq, IH. split; [intros [-> ->]|intros [= -> ->]]; auto.
Qed.

Lemma products_add_In (p q : list nat) (products : list (list nat)) :
  In q (products_add p products) <-> q = p \/ In q products.
Proof.
  unfold products_add.
  destruct (existsb (list_eqb Nat.eqb p) products) eqn:E.
  - apply existsb_exists in E as (r & Hr & E). apply list_eqb_nat_eq in E.
    subst r. intuition. now subst.
  - rewrite in_app_iff. simpl. intuition.
Qed.

Lemma products_add_nonempty (p : list nat) (products : list (list nat)) :
  products_add p products <> [].
Proof.
  intros E. assert (H : In p (products_add p products))
    by (apply products_add_In; now left).
  rewrite E in H. exact H.
Qed.

(** The cross product of one round. *)
Lemma crossed_In (products : list (list nat)) (clause : list nat)
    (q : list nat) :
  In q
    (fold_left
       (fun new_products p =>
          fold_left
            (fun new_products idx =>
               products_add (NatSet.add idx p) new_products)
            clause new_products)
       products [])
  <-> exists p idx, In p products /\ In idx clause /\ q = NatSet.add idx p.
Proof.
  assert (Inner : forall p init,
            In q (fold_left
                    (fun new_products idx =>
                       products_add (NatSet.add idx p) new_products)
                    clause init)
            <-> In q init \/ exists idx, In idx clause /\ q = NatSet.add idx p).
  { intros p. induction clause as [|c r IH]; intros init; simpl.
    - split; [auto|]. intros [H|(idx & [] & _)]. exact H.
    - rewrite IH, products_add_In. split.
      + intros [[->|H]|(idx & H1 & H2)]; eauto.
      + intros [H|(idx & [<-|H1] & H2)]; eauto. }
  enough (G : forall init,
             In q
               (fold_left
                  (fun new_products p =>
                     fold_left
                       (fun new_products idx =>
                          products_add (NatSet.add idx p) new_products)
                       clause new_products)
                  products init)
             <-> In q init
                 \/ exists p idx,
                      In p products /\ In idx clause /\ q = NatSet.add idx p).
  { rewrite G. simpl. intuition. }
  induction products as [|p r IH]; intros init; simpl.
  - split; [auto|]. intros [H|(p & idx & [] & _)]. exact H.
  - rewrite IH, Inner. split.
    + intros [[H|(idx & H1 & H2)]|(p' & idx & H1 & H2 & H3)]; eauto 8.
    + intros [H|(p' & idx & [<-|H1] & H2 & H3)]; eauto 8.
Qed.

(** Absorption keeps a subset of the products that lies below every
    product. *)
Lemma reduce_products_facts (literal_counts : list nat)
    (prods : list (list nat)) :
  (forall q, In q (reduce_products literal_counts prods) -> In q prods)
  /\ (forall p, In p prods ->
        exists q, In q (reduce_products literal_counts prods) /\ incl q p).
Proof.
  unfold reduce_products.
  set (leb := fun a b =>
                cost_leb (product_cost literal_counts a)
                  (product_cost literal_counts b)).
  set (step := fun minimal p =>
                 if existsb (fun q => NatSet.superset p q) minimal then minimal
                 else minimal ++ [p]).
  assert (G : forall l init,
            (forall q, In q (fold_left step l init) -> In q init \/ In q l)
            /\ (forall q, In q init -> In q (fold_left step l init))
            /\ (forall p, In p l ->
                  exists q, In q (fold_left step l init) /\ incl q p)).
  { induction l as [|a r IH]; intros init; simpl.
    - repeat split; auto. intros p [].
    - destruct (IH (step init a)) as (G1 & G2 & G3).
      assert (S1 : forall q, In q (step init a) -> In q init \/ q = a).
      { intros q. unfold step.
        destruct (existsb _ init); [auto|].
        rewrite in_app_iff. simpl. intuition. }
      assert (S2 : forall q, In q init -> In q (step init a)).
      { intros q Hq. unfold step. destruct (existsb _ init); [auto|].
        apply in_app_iff. now left. }
      assert (S3 : exists q, In q (step init a) /\ incl q a).
      { unfold step.
        destruct (existsb (fun q => NatSet.superset a q) init) eqn:E.
        - apply existsb_exists in E as (q & Hq & E).
          apply NatSet_superset_incl in E. eauto.
        - exists a. split; [apply in_app_iff; right; now left|apply incl_refl]. }
      split; [|split].
      + intros q Hq. apply G1 in Hq as [Hq|Hq]; [|auto].
        apply S1 in Hq as [Hq| ->]; auto.
      + intros q Hq. apply G2, S2, Hq.
      + intros p [<-|Hp]; [|auto].
        destruct S3 as (q & Hq & Hi). exists q. split; [now apply G2|assumption]. }
  destruct (G (sorted leb prods) []) as (G1 & _ & G3). split.
  - intros q Hq. apply G1 in Hq as [[]|Hq]. now apply sorted_In in Hq.
  - intros p Hp. apply G3. now apply sorted_In.
Qed.

Lemma products_ok_init : products_ok [] [[]].
Proof.
  split; [discriminate|]. split.
  - intros p [<-|[]]. split; [constructor|]. split; [constructor|]. intros i [].
  - intros H _. exists []. split; [now left|]. intros x [].
Qed.

Lemma multiply_clause_ok (literal_counts : list nat)
    (done products : list (list nat)) (clause : list nat) :
  clause <> [] -> products_ok done products ->
  products_ok (done ++ [clause])
    (multiply_clause literal_counts products clause).
Proof.
  intros Hc (Hne & Hs & Hcomp). unfold multiply_clause.
  destruct (reduce_products_facts literal_counts
              (fold_left
                 (fun new_products p =>
                    fold_left
                      (fun new_products idx =>
                         products_add (NatSet.add idx p) new_products)
                      clause new_products)
                 products [])) as [R1 R2].
  set (crossed := fold_left _ products []) in *.
  split; [|split].
  - destruct products as [|p ps]; [congruence|].
    destruct clause as [|idx cs]; [congruence|].
    destruct (R2 (NatSet.add idx p)) as (q & Hq & _).
    { apply crossed_In. exists p, idx. simpl. auto. }
    intros E. rewrite E in Hq. exact Hq.
  - intros q Hq. apply R1, crossed_In in Hq as (p & idx & Hp & Hidx & ->).
    destruct (Hs p Hp) as (S1 & S2 & S3). split; [|split].
    + now apply NatSet_add_sorted.
    + apply Forall_app. split.
      * eapply Forall_impl; [|exact S2]. intros c (i & Hi & Hic).
        exists i. split; [apply NatSet_add_In; now right|assumption].
      * constructor; [|constructor]. exists idx.
        split; [apply NatSet_add_In; now left|assumption].
    + intros i Hi. apply NatSet_add_In in Hi as [->|Hi].
      * exists clause. split; [apply in_app_iff; right; now left|assumption].
      * destruct (S3 i Hi) as (c & Hcd & Hic). exists c.
        split; [apply in_app_iff; now left|assumption].
  - intros H HH. apply Forall_app in HH as [HH1 HH2].
    destruct (Hcomp H HH1) as (p & Hp & Hi).
    inversion HH2 as [|? ? (idx & Hidx & Hidc) _]; subst.
    destruct (R2 (NatSet.add idx p)) as (q & Hq & Hqi).
    { apply crossed_In. eauto. }
    exists q. split; [assumption|]. intros x Hx. apply Hqi in Hx.
    apply NatSet_add_In in Hx as [->|Hx]; auto.
Qed.

Lemma petrick_ok (literal_counts : list nat) (clauses : list (list nat)) :
  Forall (fun c => c <> []) clauses ->
  forall done products,
    products_ok done products ->
    exists products',
      petrick literal_counts clauses products = Some products'
      /\ products_ok (done ++ clauses) products'.
Proof.
  induction 1 as [|c r Hc Hr IH]; intros done products Hok; simpl.
  - exists products. now rewrite app_nil_r.
  - pose proof (multiply_clause_ok literal_counts done products c Hc Hok) as Hm.
    destruct (multiply_clause literal_counts products c) as [|p ps] eqn:E.
    + destruct Hm as [Hm _]. congruence.
    + destruct (IH (done ++ [c]) (p :: ps) Hm) as (products' & E' & Hok').
      exists products'. split; [assumption|].
      now rewrite <- app_assoc in Hok'.
Qed.

Lemma sum_nat_from (l : list nat) (s : nat) :
  fold_left Nat.add l s = (s + sum_nat l)%nat.
Proof.
  unfold sum_nat. revert s. induction l as [|x r IH]; intros s; simpl; [lia|].
  rewrite IH, (IH x). lia.
Qed.

Lemma sum_nat_perm (l l' : list nat) :
  Permutation l l' -> sum_nat l = sum_nat l'.
Proof.
  induction 1; unfold sum_nat in *; simpl.
  - reflexivity.
  - rewrite !(sum_nat_from _ x). unfold sum_nat. congruence.
  - rewrite !(sum_nat_from _ (_ + _)). lia.
  - congruence.
Qed.

(** The choice that follows the loop over the clauses. *)
Lemma petrick_choice
    (literal_counts : list nat) (clauses : list (list nat)) :
  Forall (fun c => c <> []) clauses ->
  exists products,
    petrick literal_counts clauses [[]] = Some products
    /\ let chosen := choose_product literal_counts products in
       Forall (hits chosen) clauses
       /\ NoDup chosen
       /\ (forall i, In i chosen -> exists c, In c clauses /\ In i c)
       /\ forall H, NoDup H -> Forall (hits H) clauses ->
            (List.length chosen <= List.length H)%nat
            /\ (List.length H = List.length chosen ->
                (literal_total literal_counts chosen
                 <= literal_total literal_counts H)%nat).
Proof.
  intros Hc.
  destruct (petrick_ok literal_counts clauses Hc [] [[]] products_ok_init)
    as (products & E & Hne & Hs & Hcomp).
  simpl in Hs, Hcomp.
  exists products. split; [assumption|]. intros chosen.
  destruct (choose_product_best literal_counts products Hne) as [Hin Hbest].
  fold chosen in Hin, Hbest.
  destruct (Hs chosen Hin) as (S1 & S2 & S3).
  split; [assumption|]. split; [now apply sorted_lt_NoDup|].
  split; [assumption|].
  intros H Hnd HH. destruct (Hcomp H HH) as (q & Hq & Hi).
  assert (Hqn : NoDup q) by (apply sorted_lt_NoDup, Hs, Hq).
  assert (Hlen : (List.length q <= List.length H)%nat)
    by now apply NoDup_incl_length.
  specialize (Hbest q Hq). split; [lia|].
  intros El.
  assert (Hperm : Permutation q H).
  { apply NoDup_Permutation_bis; [assumption|lia|assumption]. }
  assert (Et : literal_total literal_counts q = literal_total literal_counts H).
  { unfold literal_total. apply sum_nat_perm. now apply Permutation_map. }
  lia.
Qed.

(** ** The solver on arbitrary implicants *)

Lemma covering_of_In (prime_implicants : list implicant) (minterms : list Z)
    (num_vars : nat) (m : Z) (pi : implicant) :
  In pi (covering_of (build_coverage prime_implicants minterms num_vars) m)
  <-> In pi prime_implicants
      /\ In m (get_covered_minterms pi num_vars) /\ In m minterms.
Proof.
  unfold covering_of. rewrite in_map_iff. split.
  - intros ([pi' cov] & <- & H). apply filter_In in H as [H Hm]. simpl in *.
    apply IntSet_mem_In in Hm. apply build_coverage_In in H as [H ->].
    apply IntSet_inter_In in Hm. tauto.
  - intros (Hpi & Hm & Hm').
    exists (pi, IntSet.inter (get_covered_minterms pi num_vars) minterms).
    split; [reflexivity|]. apply filter_In. split.
    + now apply build_coverage_facts.
    + simpl. apply IntSet_mem_In, IntSet_inter_In. auto.
Qed.

Lemma coverage_get_covered (prime_implicants : list implicant)
    (minterms : list Z) (num_vars : nat) (pi : implicant) (m : Z) :
  In m (coverage_get (build_coverage prime_implicants minterms num_vars) pi)
  <-> In pi prime_implicants
      /\ In m (get_covered_minterms pi num_vars) /\ In m minterms.
Proof.
  split.
  - intros H. apply coverage_get_In in H as (cov & H & Hm).
    apply build_coverage_In in H as [H ->].
    apply IntSet_inter_In in Hm. tauto.
  - intros (Hpi & Hm & Hm'). unfold coverage_get.
    destruct (build_coverage_facts prime_implicants minterms num_vars)
      as [Hnd Hin].
    rewrite (Dict_get_Some implicant_eqb implicant_eqb_eq pi _ _ Hnd
               (Hin pi Hpi)).
    apply IntSet_inter_In. auto.
Qed.

(** The essential implicants are pairwise different, and the minterms
    recorded as covered are those that one of them covers. *)
Lemma essential_fold_tight (coverage : list (implicant * list Z))
    (l : list Z) (st : list implicant * list Z) :
  NoDup (fst st) ->
  (forall x, In x (snd st) ->
     exists epi, In epi (fst st) /\ In x (coverage_get coverage epi)) ->
  let st' := fold_left (essential_step coverage) l st in
  NoDup (fst st')
  /\ forall x, In x (snd st') ->
       exists epi, In epi (fst st') /\ In x (coverage_get coverage epi).
Proof.
  revert st. induction l as [|m r IH]; intros st Hnd Ht; simpl; [auto|].
  apply IH; unfold essential_step;
    destruct (covering_of coverage m) as [|epi [|]]; auto;
    destruct (existsb (implicant_eqb epi) (fst st)) eqn:E; auto; simpl.
  - apply NoDup_app_remove_l with (l := []). simpl.
    rewrite <- not_true_iff_false in E.
    apply Permutation_NoDup with (l := epi :: fst st).
    + apply Permutation_cons_append.
    + constructor; [|assumption]. intros Hin. apply E.
      apply existsb_exists. exists epi. split; [assumption|].
      now apply implicant_eqb_eq.
  - intros x Hx. apply IntSet_update_In in Hx as [Hx|Hx].
    + destruct (Ht x Hx) as (e & He & Hc). exists e.
      split; [apply in_app_iff; now left|assumption].
    + exists epi. split; [apply in_app_iff; right; now left|assumption].
Qed.

Lemma build_index_of_facts (pi_list : list implicant) :
  (forall pi i, Dict.get implicant_eqb pi (build_index_of pi_list) = Some i ->
     nth_error pi_list i = Some pi)
  /\ (forall pi, In pi pi_list ->
        exists i, Dict.get implicant_eqb pi (build_index_of pi_list) = Some i).
Proof.
  unfold build_index_of.
  set (step := fun (d : list (implicant * nat)) (ip : nat * implicant) =>
                 Dict.set implicant_eqb (snd ip) (fst ip) d).
  assert (G : forall l k d,
            NoDup (map fst d) ->
            let d' := fold_left step (combine (seq k (List.length l)) l) d in
            NoDup (map fst d')
            /\ (forall pi i, In (pi, i) d' ->
                  In (pi, i) d
                  \/ ((k <= i)%nat /\ nth_error l (i - k) = Some pi))
            /\ (forall pi, In pi (map fst d) \/ In pi l -> In pi (map fst d'))).
  { induction l as [|a r IH]; intros k d Hd; simpl.
    - split; [assumption|]. split; [auto|]. intros pi [H|[]]. exact H.
    - destruct (IH (S k) (step d (k, a))) as (G1 & G2 & G3).
      { unfold step. simpl. now apply Dict_set_NoDup; [apply implicant_eqb_eq|]. }
      split; [assumption|]. split.
      + intros pi i H. apply G2 in H as [H|[H1 H2]].
        * unfold step in H. simpl in H.
          apply Dict_set_In in H as [[= -> ->]|H]; [|auto].
          right. split; [lia|]. now rewrite Nat.sub_diag.
        * right. split; [lia|].
          replace (i - k)%nat with (S (i - S k)) by lia. exact H2.
      + intros pi H. apply G3. unfold step. simpl.
        rewrite (Dict_set_keys implicant_eqb implicant_eqb_eq).
        destruct H as [H|[H|H]]; auto. }
  destruct (G pi_list 0%nat [] (NoDup_nil _)) as (G1 & G2 & G3).
  split.
  - intros pi i H. apply Dict_get_In in H. apply G2 in H as [[]|[_ H]].
    now rewrite Nat.sub_0_r in H.
  - intros pi H.
    assert (Hk : In pi
                   (map fst
                      (fold_left step
                         (combine (seq 0 (List.length pi_list)) pi_list) [])))
      by (apply G3; now right).
    apply in_map_iff in Hk as ([pi' i] & E & Hk). simpl in E. subst pi'.
    exists i. now apply (Dict_get_Some implicant_eqb implicant_eqb_eq).
Qed.

Lemma index_set_In (index_of : list (implicant * nat)) (pis : list implicant)
    (i : nat) :
  In i (index_set index_of pis)
  <-> exists pi, In pi pis /\ Dict.get implicant_eqb pi index_of = Some i.
Proof.
  unfold index_set. rewrite NatSet_of_list_In, in_flat_map. split.
  - intros (pi & Hpi & H).
    destruct (Dict.get implicant_eqb pi index_of) as [j|] eqn:E; [|destruct H].
    destruct H as [<-|[]]. eauto.
  - intros (pi & Hpi & E). exists pi. split; [assumption|].
    rewrite E. now left.
Qed.

Lemma NatSet_of_list_sorted (l : list nat) : StronglySorted lt (NatSet.of_list l).
Proof.
  unfold NatSet.of_list.
  enough (G : forall s, StronglySorted lt s ->
             StronglySorted lt (fold_left (fun acc x => NatSet.add x acc) l s))
    by (apply G; constructor).
  induction l as [|a r IH]; intros s Hs; simpl; [assumption|].
  apply IH. now apply NatSet_add_sorted.
Qed.

Lemma NatSet_add_length (x : nat) (s : list nat) :
  (List.length (NatSet.add x s) <= S (List.length s))%nat.
Proof.
  induction s as [|y r IH]; simpl; [lia|].
  destruct (Nat.ltb x y); simpl; [lia|].
  destruct (Nat.eqb x y); simpl; lia.
Qed.

Lemma NatSet_of_list_length (l : list nat) :
  (List.length (NatSet.of_list l) <= List.length l)%nat.
Proof.
  unfold NatSet.of_list.
  enough (G : forall s,
             (List.length (fold_left (fun acc x => NatSet.add x acc) l s)
              <= List.length s + List.length l)%nat)
    by (apply (G [])).
  induction l as [|a r IH]; intros s; simpl; [lia|].
  specialize (IH (NatSet.add a s)). pose proof (NatSet_add_length a s). lia.
Qed.

Lemma index_set_length (index_of : list (implicant * nat))
    (pis : list implicant) :
  (List.length (index_set index_of pis) <= List.length pis)%nat.
Proof.
  unfold index_set.
  etransitivity; [apply NatSet_of_list_length|].
  induction pis as [|pi r IH]; simpl; [lia|].
  rewrite length_app. destruct (Dict.get implicant_eqb pi index_of); simpl; lia.
Qed.

Lemma build_clauses_facts (coverage : list (implicant * list Z))
    (index_of : list (implicant * nat)) (essential : list implicant)
    (remaining : list Z) (c : list nat) :
  In c (build_clauses coverage index_of essential remaining)
  <-> c <> []
      /\ exists m,
           In m remaining
           /\ c = NatSet.diff (index_set index_of (covering_of coverage m))
                    (index_set index_of essential).
Proof.
  unfold build_clauses.
  enough (G : forall init,
             In c (fold_left (clause_step coverage index_of essential)
                     remaining init)
             <-> In c init
                 \/ (c <> []
                     /\ exists m,
                          In m remaining
                          /\ c = NatSet.diff
                                   (index_set index_of (covering_of coverage m))
                                   (index_set index_of essential))).
  { rewrite G. simpl. intuition. }
  induction remaining as [|m r IH]; intros init; simpl.
  - split; [auto|]. intros [H|(_ & m & [] & _)]. exact H.
  - rewrite IH. clear IH.
    assert (S : forall x,
              In x (clause_step coverage index_of essential init m)
              <-> In x init
                  \/ (x <> []
                      /\ x = NatSet.diff
                               (index_set index_of (covering_of coverage m))
                               (index_set index_of essential))).
    { intros x. unfold clause_step.
      destruct (index_set index_of (covering_of coverage m)) as [|i ir] eqn:E.
      - simpl. split; [auto|]. intros [H|[H1 H2]]; [assumption|congruence].
      - destruct (NatSet.diff (i :: ir) (index_set index_of essential))
          as [|j js] eqn:E'.
        + split; [auto|]. intros [H|[H1 H2]]; [assumption|congruence].
        + rewrite in_app_iff. simpl. split.
          * intros [H|[<-|[]]]; [auto|]. right. split; [discriminate|reflexivity].
          * intros [H|[_ ->]]; auto. }
    rewrite S. split.
    + intros [[H|[H1 H2]]|(H1 & m' & H2 & H3)]; eauto 8.
    + intros [H|(H1 & m' & [<-|H2] & H3)]; eauto 8.
Qed.

Lemma IntSet_diff_nil (a b : list Z) (x : Z) :
  IntSet.diff a b = [] -> In x a -> In x b.
Proof.
  intros E Hx. destruct (IntSet.mem x b) eqn:M; [now apply IntSet_mem_In|].
  assert (H : In x (IntSet.diff a b)).
  { apply IntSet_diff_In. split; [assumption|]. intros Hb.
    apply IntSet_mem_In in Hb. congruence. }
  rewrite E in H. destruct H.
Qed.

Lemma picked_length (pi_list : list implicant) (chosen : list nat) :
  (List.length
     (flat_map
        (fun i =>
           match nth_error pi_list i with
           | Some pi => [pi]
           | None => []
           end)
        (sorted Nat.leb chosen))
   <= List.length chosen)%nat.
Proof.
  rewrite <- (Permutation_length (sorted_perm Nat.leb chosen)).
  induction (sorted Nat.leb chosen) as [|i r IH]; simpl; [lia|].
  rewrite length_app. destruct (nth_error pi_list i); simpl; lia.
Qed.

(** X5: on a non-empty target the cover that the solver selects is made of
    the given implicants, covers every target minterm that some given
    implicant covers, and no duplicate-free selection of the given
    implicants that does so has fewer members. *)
Theorem solver_minimum_cover (prime_implicants : list implicant)
    (minterms : list Z) (num_vars : nat) :
  minterms <> [] ->
  let cover :=
    essential_prime_implicant_cover prime_implicants minterms num_vars in
  incl cover prime_implicants
  /\ (forall m, In m minterms -> covers num_vars prime_implicants m ->
        covers num_vars cover m)
  /\ (forall C, NoDup C -> incl C prime_implicants ->
        (forall m, In m minterms -> covers num_vars prime_implicants m ->
           covers num_vars C m) ->
        (List.length cover <= List.length C)%nat).
Proof.
  intros Hms. cbv zeta.
  split; [intros imp; apply essential_cover_incl|].
  unfold essential_prime_implicant_cover.
  destruct prime_implicants as [|p0 ps] eqn:Ep.
  { split.
    - intros m _ (pi & [] & _).
    - intros C _ _ _. simpl. lia. }
  destruct minterms as [|m0 ms0] eqn:Em; [congruence|].
  rewrite <- Ep, <- Em.
  assert (Hp : prime_implicants <> []) by (rewrite Ep; discriminate).
  clear Ep Em Hms p0 ps m0 ms0.
  set (coverage := build_coverage prime_implicants minterms num_vars).
  destruct (essential_fold_facts coverage minterms ([], []))
    as (Hclosed & _ & _); [intros e x []|].
  destruct (essential_fold_tight coverage minterms ([], []))
    as (HndE & Htight); [constructor|intros x []|].
  pose proof (fun epi =>
                essential_fold_origin coverage minterms ([], []) epi)
    as Horigin.
  cbv zeta in Hclosed, HndE, Htight.
  destruct (fold_left (essential_step coverage) minterms ([], []))
    as [essential covered] eqn:Ef.
  cbn [fst snd] in *. unfold closed in Hclosed. cbn [fst snd] in Hclosed.
  (* what the essential implicants cover *)
  assert (Hcov : forall m, In m covered -> covers num_vars essential m).
  { intros m Hm. destruct (Htight m Hm) as (epi & He & Hc).
    apply coverage_get_covered in Hc. exists epi. tauto. }
  assert (HessC : forall C, incl C prime_implicants ->
            (forall m, In m minterms -> covers num_vars prime_implicants m ->
               covers num_vars C m) ->
            incl essential C).
  { intros C Hincl HC epi He.
    destruct (Horigin epi He) as [[]|(m & Hm & E)].
    assert (Hin : In epi (covering_of coverage m)) by (rewrite E; now left).
    apply covering_of_In in Hin as (H1 & H2 & _).
    destruct (HC m Hm) as (pi & HpiC & Hpim); [now exists epi|].
    assert (Hpi : In pi (covering_of coverage m)).
    { apply covering_of_In. auto. }
    rewrite E in Hpi. destruct Hpi as [<-|[]]. exact HpiC. }
  assert (HlenE : forall C, NoDup C -> incl C prime_implicants ->
            (forall m, In m minterms -> covers num_vars prime_implicants m ->
               covers num_vars C m) ->
            (List.length essential <= List.length C)%nat).
  { intros C _ Hincl HC. apply NoDup_incl_length; [assumption|].
    now apply HessC. }
  set (index_of := build_index_of prime_implicants).
  destruct (build_index_of_facts prime_implicants) as [Hidx1 Hidx2].
  fold index_of in Hidx1, Hidx2.
  (* a target minterm outside [covered] whose clause is empty *)
  assert (Hempty : forall m pi,
            In pi prime_implicants -> In m minterms ->
            In m (get_covered_minterms pi num_vars) ->
            NatSet.diff (index_set index_of (covering_of coverage m))
              (index_set index_of essential) = [] ->
            In pi essential).
  { intros m pi Hpi Hm Hc E.
    destruct (Hidx2 pi Hpi) as (i & Hi).
    assert (H1 : In i (index_set index_of (covering_of coverage m))).
    { apply index_set_In. exists pi. split; [|assumption].
      apply covering_of_In. auto. }
    destruct (in_dec Nat.eq_dec i (index_set index_of essential)) as [H2|H2].
    - apply index_set_In in H2 as (epi & He & Hie).
      apply Hidx1 in Hi, Hie. rewrite Hi in Hie. now injection Hie as ->.
    - assert (H3 : In i (NatSet.diff
                           (index_set index_of (covering_of coverage m))
                           (index_set index_of essential)))
        by (apply NatSet_diff_In; auto).
      rewrite E in H3. destruct H3. }
  destruct (IntSet.diff minterms covered) as [|r0 rs] eqn:Er.
  { split; [|exact HlenE].
    intros m Hm _. apply Hcov. now apply (IntSet_diff_nil minterms). }
  rewrite <- Er. set (remaining := IntSet.diff minterms covered).
  assert (Hrem : forall m, In m remaining <-> In m minterms /\ ~ In m covered)
    by (intros m; apply IntSet_diff_In).
  clear Er r0 rs.
  pose proof (build_clauses_facts coverage index_of essential remaining)
    as Hclauses.
  destruct (build_clauses coverage index_of essential remaining)
    as [|c0 cs] eqn:Ec.
  { split; [|exact HlenE].
    intros m Hm (pi & Hpi & Hc).
    destruct (in_dec Z.eq_dec m covered) as [Hin|Hout]; [now apply Hcov|].
    exists pi. split; [|assumption].
    apply (Hempty m pi Hpi Hm Hc).
    destruct (NatSet.diff (index_set index_of (covering_of coverage m))
                (index_set index_of essential)) as [|j js] eqn:E;
      [reflexivity|].
    exfalso. apply (proj2 (Hclauses (j :: js))).
    split; [discriminate|]. exists m. split; [now apply Hrem|now rewrite E]. }
  cbv iota. set (clauses := c0 :: cs) in *.
  destruct (petrick_choice (literal_counts_of prime_implicants) clauses)
    as (products & Epk & Hhits & HndC & Hfrom & Hmin).
  { apply Forall_forall. intros c Hc. now apply Hclauses in Hc. }
  rewrite Epk.
  set (chosen := choose_product (literal_counts_of prime_implicants) products)
    in *.
  split.
  - intros m Hm (pi & Hpi & Hc).
    destruct (in_dec Z.eq_dec m covered) as [Hin|Hout].
    { destruct (Hcov m Hin) as (e & He & Hce). exists e.
      split; [apply in_app_iff; now left|assumption]. }
    destruct (NatSet.diff (index_set index_of (covering_of coverage m))
                (index_set index_of essential)) as [|j js] eqn:E.
    { exists pi. split; [|assumption]. apply in_app_iff. left.
      now apply (Hempty m pi Hpi Hm Hc). }
    assert (Hcl : In (j :: js) clauses).
    { apply Hclauses. split; [discriminate|]. exists m.
      split; [now apply Hrem|now rewrite E]. }
    rewrite Forall_forall in Hhits.
    destruct (Hhits _ Hcl) as (i & Hi & Hic).
    rewrite <- E in Hic. apply NatSet_diff_In in Hic as [Hic _].
    apply index_set_In in Hic as (pi' & Hpi' & Hidx).
    apply covering_of_In in Hpi' as (_ & Hc' & _).
    exists pi'. split; [|assumption].
    apply in_app_iff. right. apply in_flat_map. exists i.
    split; [now apply sorted_In|]. rewrite (Hidx1 pi' i Hidx). now left.
  - intros C HndCover Hincl HC.
    rewrite length_app.
    pose proof (picked_length prime_implicants chosen) as Hpick.
    set (in_ess := fun pi : implicant => existsb (implicant_eqb pi) essential).
    assert (Hin_ess : forall pi, in_ess pi = true <-> In pi essential).
    { intros pi. unfold in_ess. rewrite existsb_exists. split.
      - intros (e & He & Ee). apply implicant_eqb_eq in Ee. now subst.
      - intros H. exists pi. split; [assumption|now apply implicant_eqb_eq]. }
    pose proof (filter_length in_ess C) as Hsplit.
    assert (H1 : (List.length essential
                  <= List.length (filter in_ess C))%nat).
    { apply NoDup_incl_length; [assumption|]. intros e He.
      apply filter_In. split; [now apply (HessC C)|now apply Hin_ess]. }
    set (C' := filter (fun x => negb (in_ess x)) C) in *.
    set (H := index_set index_of C').
    destruct (Hmin H) as [Hle _].
    { apply sorted_lt_NoDup. apply NatSet_of_list_sorted. }
    { apply Forall_forall. intros c Hc.
      apply Hclauses in Hc as (Hne & m & Hm & Ecl).
      apply Hrem in Hm as [Hm Hout].
      destruct c as [|i0 c']; [congruence|].
      assert (Hi0 : In i0 (i0 :: c')) by now left.
      rewrite Ecl in Hi0. apply NatSet_diff_In in Hi0 as [Hi0 _].
      apply index_set_In in Hi0 as (pi0 & Hpi0 & _).
      apply covering_of_In in Hpi0 as (Hpi0 & Hc0 & _).
      destruct (HC m Hm) as (pi & HpiC & Hpim); [now exists pi0|].
      assert (Hpi : In pi prime_implicants) by now apply Hincl.
      assert (Hne' : ~ In pi essential).
      { intros He. apply Hout. apply (Hclosed pi m He).
        apply coverage_get_covered. auto. }
      destruct (Hidx2 pi Hpi) as (j & Hj).
      exists j. split.
      - apply index_set_In. exists pi. split; [|assumption].
        apply filter_In. split; [assumption|].
        apply negb_true_iff. rewrite <- not_true_iff_false.
        now rewrite Hin_ess.
      - rewrite Ecl. apply NatSet_diff_In. split.
        + apply index_set_In. exists pi. split; [|assumption].
          apply covering_of_In. auto.
        + intros Hje. apply index_set_In in Hje as (epi & He & Hie).
          apply Hidx1 in Hj, Hie. rewrite Hj in Hie.
          injection Hie as ->. contradiction. }
    pose proof (index_set_length index_of C') as Hlen.
    fold H in Hlen. lia.
Qed.

Lemma solver_minimum_cover_witness :
  let cover :=
    essential_prime_implicant_cover (find_prime_implicants [5; 6; 7])
      [5; 6; 7] 3 in
  incl cover (find_prime_implicants [5; 6; 7])
  /\ (forall m, In m [5; 6; 7] ->
        covers 3 (find_prime_implicants [5; 6; 7]) m -> covers 3 cover m)
  /\ (forall C, NoDup C -> incl C (find_prime_implicants [5; 6; 7]) ->
        (forall m, In m [5; 6; 7] ->
           covers 3 (find_prime_implicants [5; 6; 7]) m -> covers 3 C m) ->
        (List.length cover <= List.length C)%nat).
Proof.
  apply (solver_minimum_cover (find_prime_implicants [5; 6; 7]) [5; 6; 7] 3).
  discriminate.
Defined.

(** ** Order of the symbols *)

Lemma ascii_leb_le (a b : ascii) :
  Ascii.leb a b = true <-> (N_of_ascii a <= N_of_ascii b)%N.
Proof.
  unfold Ascii.leb, Ascii.compare, N.le.
  destruct (N_of_ascii a ?= N_of_ascii b)%N; split; congruence.
Qed.

Lemma ascii_ltb_lt (a b : ascii) :
  Ascii.ltb a b = true <-> (N_of_ascii a < N_of_ascii b)%N.
Proof.
  unfold Ascii.ltb, Ascii.compare, N.lt.
  destruct (N_of_ascii a ?= N_of_ascii b)%N; split; congruence.
Qed.

Lemma N_of_ascii_inj (a b : ascii) : N_of_ascii a = N_of_ascii b -> a = b.
Proof.
  intros H. rewrite <- (ascii_N_embedding a), <- (ascii_N_embedding b).
  now rewrite H.
Qed.

Lemma sorted_strict (l : list ascii) :
  NoDup l -> StronglySorted ascii_lt (sorted Ascii.leb l).
Proof.
  intros Hnd.
  assert (Hnd' : NoDup (sorted Ascii.leb l)).
  { eapply Permutation_NoDup; [apply Permutation_sym, sorted_perm|assumption]. }
  pose proof (sorted_Sorted Ascii.leb Ascii.leb_total l) as Hs.
  apply Sorted_StronglySorted in Hs.
  2:{ intros a b c Hab Hbc. apply ascii_leb_le in Hab, Hbc.
      apply ascii_leb_le. lia. }
  induction Hs as [|x r Hr IH Hx]; [constructor|].
  inversion Hnd' as [|? ? Hn Hnr]; subst.
  constructor; [now apply IH|].
  rewrite Forall_forall in *. intros y Hy. specialize (Hx y Hy).
  apply ascii_leb_le in Hx. apply ascii_ltb_lt.
  assert (N_of_ascii x <> N_of_ascii y).
  { intros E. apply N_of_ascii_inj in E. subst y. contradiction. }
  lia.
Qed.

Lemma strict_NoDup (l : list ascii) : StronglySorted ascii_lt l -> NoDup l.
Proof.
  induction 1 as [|x r Hr IH Hx]; constructor; [|assumption].
  intros Hin. rewrite Forall_forall in Hx. specialize (Hx x Hin).
  apply ascii_ltb_lt in Hx. lia.
Qed.

(** ** The universe of two expressions *)

Lemma extract_variables_In (expr : option string) (c : ascii) :
  In c (extract_variables expr)
  <-> exists g, In g (bracket_findall (text_of expr)) /\ In c g.
Proof.
  unfold extract_variables.
  destruct (is_falsy expr) eqn:Ef.
  { split; [intros []|]. intros (g & Hg & _).
    destruct expr as [[|]|]; simpl in *; try discriminate; destruct Hg. }
  destruct (extract_fold_facts (bracket_findall (text_of expr)) []) as [_ I].
  rewrite I. split.
  - intros [[]|(g & Hg & Hc)]. apply filter_In in Hc as [Hc _]. eauto.
  - intros (g & Hg & Hc). right. exists g. split; [assumption|].
    destruct (findall_from_groups _ _ _ Hg) as [_ Hu].
    now rewrite (filter_isalpha_upper g Hu).
Qed.

Lemma extract_variables_upper (expr : option string) (c : ascii) :
  In c (extract_variables expr) -> is_upper c = true.
Proof.
  intros H. apply extract_variables_In in H as (g & Hg & Hc).
  destruct (findall_from_groups _ _ _ Hg) as [_ Hu].
  rewrite Forall_forall in Hu. now apply Hu.
Qed.

Lemma extract_variables_NoDup (expr : option string) :
  NoDup (extract_variables expr).
Proof.
  unfold extract_variables. destruct (is_falsy expr); [constructor|].
  apply extract_fold_facts. constructor.
Qed.

Lemma all_vars_facts (base_expr reset_expr : option string) :
  NoDup (all_vars_of base_expr reset_expr)
  /\ forall c, In c (all_vars_of base_expr reset_expr)
       <-> In c (extract_variables base_expr)
           \/ In c (extract_variables reset_expr).
Proof.
  unfold all_vars_of.
  assert (Hb : forall e c, is_falsy e = true -> ~ In c (extract_variables e)).
  { intros e c He. unfold extract_variables. rewrite He. intros []. }
  set (first := if is_falsy base_expr then []
                else CharSet.update [] (extract_variables base_expr)).
  assert (F : NoDup first
              /\ forall c, In c first <-> In c (extract_variables base_expr)).
  { unfold first. destruct (is_falsy base_expr) eqn:E.
    - split; [constructor|]. intros c. split; [intros []|now apply Hb].
    - split; [apply CharSet_update_NoDup; constructor|].
      intros c. rewrite CharSet_update_In. simpl. intuition. }
  destruct F as [F1 F2].
  destruct (is_falsy reset_expr) eqn:E.
  - split; [assumption|]. intros c. rewrite F2. split; [auto|].
    intros [H|H]; [assumption|]. now apply Hb in H.
  - split; [now apply CharSet_update_NoDup|].
    intros c. rewrite CharSet_update_In, F2. reflexivity.
Qed.

Lemma variables_of_facts (base_expr reset_expr : option string) :
  StronglySorted ascii_lt (variables_of base_expr reset_expr)
  /\ NoDup (variables_of base_expr reset_expr)
  /\ forall c, In c (variables_of base_expr reset_expr)
       <-> In c (extract_variables base_expr)
           \/ In c (extract_variables reset_expr).
Proof.
  destruct (all_vars_facts base_expr reset_expr) as [Hnd Hin].
  unfold variables_of.
  pose proof (sorted_strict _ Hnd) as Hs.
  split; [assumption|]. split; [now apply strict_NoDup|].
  intros c. now rewrite sorted_In.
Qed.

Lemma terms_of_facts (expr : option string) (term : list ascii) :
  In term (terms_of expr) ->
  term <> [] /\ forall c, In c term -> In c (extract_variables expr).
Proof.
  unfold terms_of, parse_terms. intros H.
  apply in_map_iff in H as (g & <- & Hg).
  destruct (findall_from_groups _ _ _ Hg) as [Hne Hu].
  rewrite (filter_isalpha_upper g Hu). split.
  - destruct g as [|c r]; [congruence|]. intros E.
    assert (H : In c (CharSet.of_list (c :: r)))
      by (apply CharSet_of_list_In; now left).
    rewrite E in H. exact H.
  - intros c Hc. apply (proj1 (CharSet_of_list_In c g)) in Hc.
    apply extract_variables_In. eauto.
Qed.

(** ** Minterms as numbers *)

Lemma digits_facts (n : nat) (x : Z) :
  0 <= x < 2 ^ Z.of_nat n ->
  In (digits n x) (product01 n) /\ value (digits n x) = x.
Proof.
  intros Hx.
  assert (Hlen : List.length (digits n x) = n)
    by (unfold digits; now rewrite length_map, length_seq).
  assert (Hbits : Forall is_bit (digits n x)).
  { unfold digits. apply Forall_forall. intros v Hv.
    apply in_map_iff in Hv as (i & <- & _).
    destruct (Z.testbit x (bit_pos_of n i)); [now right|now left]. }
  split; [apply product01_In; auto|].
  pose proof (value_range _ Hbits) as Hr. rewrite Hlen in Hr.
  apply Z.bits_inj'. intros j Hj.
  destruct (Z_lt_le_dec j (Z.of_nat n)) as [Hlt|Hge].
  - set (i := Z.to_nat (Z.of_nat n - 1 - j)).
    assert (Hi : (i < n)%nat) by (unfold i; lia).
    assert (Hpos : bit_pos_of n i = j) by (unfold bit_pos_of, i; lia).
    assert (Hnth : nth_error (digits n x) i
                   = Some (if Z.testbit x j then 1 else 0)).
    { unfold digits. rewrite nth_error_map, nth_error_seq.
      destruct (Nat.ltb_spec i n); [|lia]. simpl. now rewrite Hpos. }
    pose proof (value_testbit _ i _ Hbits Hnth) as Hv.
    rewrite Hlen, Hpos in Hv. rewrite Hv.
    now destruct (Z.testbit x j).
  - rewrite (lt_bits_above _ _ j Hr Hge).
    now rewrite (lt_bits_above _ _ j Hx Hge).
Qed.

Lemma at_one_has_factor (variables : list ascii) (a : list Z) (c : ascii) :
  List.length variables = List.length a -> Forall is_bit a ->
  (at_one variables a c <-> has_factor variables (value a) c).
Proof.
  intros Hl Hb. unfold at_one, has_factor. split.
  - intros (i & Hi & Hv). exists i. split; [assumption|].
    rewrite Hl, (value_testbit a i 1 Hb Hv). reflexivity.
  - intros (i & Hi & Hbit). exists i. split; [assumption|].
    assert (Hlt : (i < List.length a)%nat).
    { rewrite <- Hl. apply nth_error_Some. congruence. }
    destruct (nth_error a i) as [v|] eqn:Ev;
      [|apply nth_error_None in Ev; lia].
    rewrite Hl, (value_testbit a i v Hb Ev) in Hbit.
    apply Z.eqb_eq in Hbit. now subst.
Qed.

Lemma minterms_of_terms_grants (terms : list (list ascii))
    (variables : list ascii) (x : Z) :
  NoDup variables ->
  (In x (minterms_of_terms terms variables)
   <-> 0 <= x < 2 ^ Z.of_nat (List.length variables)
       /\ grants terms variables x).
Proof.
  intros Hnd. rewrite minterms_of_terms_In. split.
  - intros (a & Ha & Hs & ->).
    apply product01_In in Ha as [Hl Hb].
    apply term_satisfied_sat in Hs; [|assumption|now rewrite Hl].
    rewrite <- Hl, (minterm_of_value a).
    split; [now apply value_range|].
    destruct Hs as (term & Hin & Hall). exists term. split; [assumption|].
    intros c Hc. apply at_one_has_factor; auto.
  - intros (Hr & term & Hin & Hall).
    destruct (digits_facts _ x Hr) as [Hd Hv].
    exists (digits (List.length variables) x).
    pose proof (proj1 (product01_In _ _) Hd) as [Hl Hb].
    split; [assumption|]. split.
    + apply term_satisfied_sat; [assumption|now rewrite Hl|].
      exists term. split; [assumption|]. intros c Hc.
      apply at_one_has_factor; [now rewrite Hl|assumption|].
      rewrite Hv. now apply Hall.
    + pose proof (minterm_of_value (digits (List.length variables) x)) as E.
      rewrite Hl in E. now rewrite E, Hv.
Qed.

Lemma parse_expr_to_minterms_of (expr : option string)
    (variables : list ascii) :
  parse_expr_to_minterms expr variables
  = minterms_of_terms (terms_of expr) variables.
Proof.
  destruct expr as [s|]; [apply parse_expr_to_minterms_terms|].
  unfold parse_expr_to_minterms, terms_of. simpl.
  symmetry. apply minterms_of_no_terms.
Qed.

Lemma has_factor_mono (variables : list ascii) (x y : Z) (c : ascii) :
  subcube x y -> has_factor variables x c -> has_factor variables y c.
Proof.
  intros Hs (i & Hi & Hb). exists i. split; [assumption|].
  rewrite subcube_bits in Hs. apply Hs; [|assumption].
  destruct (Z_lt_le_dec (bit_pos_of (List.length variables) i) 0);
    [|assumption].
  rewrite Z.testbit_neg_r in Hb by assumption. discriminate.
Qed.

Lemma grants_mono (terms : list (list ascii)) (variables : list ascii)
    (x y : Z) :
  subcube x y -> grants terms variables x -> grants terms variables y.
Proof.
  intros Hs (term & Hin & Hall). exists term. split; [assumption|].
  intros c Hc. eapply has_factor_mono; eauto.
Qed.

Lemma has_factor_nonzero (variables : list ascii) (x : Z) (c : ascii) :
  has_factor variables x c -> x <> 0.
Proof.
  intros (i & _ & Hb) ->. rewrite Z.bits_0 in Hb. discriminate.
Qed.

(** X9: the minterm set of an expression over a duplicate-free list of
    variables: every minterm is below [2 ^ n] and is not 0, a number is a
    minterm exactly when some term of the expression has all its symbols
    among the 1 positions of the number, and so every number within range
    that has all the 1 digits of a minterm is a minterm. *)
Theorem minterm_set_upward_closed (expr : option string)
    (variables : list ascii) (x : Z) :
  NoDup variables ->
  (In x (parse_expr_to_minterms expr variables)
   <-> 0 < x < 2 ^ Z.of_nat (List.length variables)
       /\ grants (terms_of expr) variables x)
  /\ (forall y, In x (parse_expr_to_minterms expr variables) ->
        0 <= y < 2 ^ Z.of_nat (List.length variables) -> subcube x y ->
        In y (parse_expr_to_minterms expr variables)).
Proof.
  intros Hnd. rewrite parse_expr_to_minterms_of.
  assert (Hnz : forall z, grants (terms_of expr) variables z -> z <> 0).
  { intros z (term & Hin & Hall).
    destruct (terms_of_facts expr term Hin) as [Hne _].
    destruct term as [|c r]; [congruence|].
    apply (has_factor_nonzero variables z c). apply Hall. now left. }
  split.
  - rewrite minterms_of_terms_grants by assumption. split.
    + intros [Hr Hg]. pose proof (Hnz x Hg). split; [lia|assumption].
    + intros [Hr Hg]. split; [lia|assumption].
  - intros y Hx Hy Hs.
    apply minterms_of_terms_grants in Hx as [_ Hg]; [|assumption].
    apply minterms_of_terms_grants; [assumption|].
    split; [assumption|]. now apply (grants_mono _ _ x).
Qed.

Lemma minterm_set_upward_closed_witness :
  (In 2 (parse_expr_to_minterms (Some "[A]"%string) ["A"; "B"]%char)
   <-> 0 < 2 < 2 ^ Z.of_nat (List.length ["A"; "B"]%char)
       /\ grants (terms_of (Some "[A]"%string)) ["A"; "B"]%char 2)
  /\ (forall y,
        In 2 (parse_expr_to_minterms (Some "[A]"%string) ["A"; "B"]%char) ->
        0 <= y < 2 ^ Z.of_nat (List.length ["A"; "B"]%char) -> subcube 2 y ->
        In y (parse_expr_to_minterms (Some "[A]"%string) ["A"; "B"]%char)).
Proof.
  apply (minterm_set_upward_closed (Some "[A]"%string) ["A"; "B"]%char 2).
  repeat constructor; simpl; intuition discriminate.
Defined.

(** X10: the universe of a pair of expressions is strictly ascending, made
    of uppercase letters, and holds exactly the symbols that occur in a
    bracket group of one of the two expressions. *)
Theorem universe_sorted_letters (base_expr reset_expr : option string) :
  StronglySorted ascii_lt (variables_of base_expr reset_expr)
  /\ forall c,
       In c (variables_of base_expr reset_expr)
       <-> is_upper c = true
           /\ exists g,
                (In g (bracket_findall (text_of base_expr))
                 \/ In g (bracket_findall (text_of reset_expr)))
                /\ In c g.
Proof.
  destruct (variables_of_facts base_expr reset_expr) as (Hs & _ & Hin).
  split; [assumption|]. intros c. rewrite Hin, !extract_variables_In. split.
  - intros [(g & Hg & Hc)|(g & Hg & Hc)].
    + split; [|eauto].
      apply (extract_variables_upper base_expr), extract_variables_In; eauto.
    + split; [|eauto].
      apply (extract_variables_upper reset_expr), extract_variables_In; eauto.
  - intros (_ & g & [Hg|Hg] & Hc); eauto.
Qed.

(** ** Substitution of the pivot in general *)

Lemma shift_reset_fold (variables : list ascii) (reset_term : Z) :
  shift_reset variables reset_term
  = fst (fold_left
           (shift_step (List.length variables)
              (List.length (filter is_not_P variables)) reset_term)
           (combine (seq 0 (List.length variables)) variables) (0, 0%nat)).
Proof. reflexivity. Qed.

Lemma shift_fold_segment (n n' : nat) (r : Z) (l : list ascii) :
  Forall (fun v => is_not_P v = true) l ->
  forall k pos acc,
    (k + List.length l <= n)%nat -> (pos + List.length l <= n')%nat ->
    let res :=
      fold_left (shift_step n n' r) (combine (seq k (List.length l)) l)
        (acc, pos) in
    snd res = (pos + List.length l)%nat
    /\ forall t, 0 <= t ->
         Z.testbit (fst res) t
         = Z.testbit acc t
           || ((Z.of_nat n - Z.of_nat k - Z.of_nat (List.length l) <=? t)
               && (t <=? Z.of_nat n - 1 - Z.of_nat k)
               && Z.testbit r
                    (t + (Z.of_nat n' - Z.of_nat pos)
                     - (Z.of_nat n - Z.of_nat k))).
Proof.
  induction 1 as [|v l Hv Hl IH]; intros k pos acc Hk Hp; simpl.
  - split; [lia|]. intros t Ht.
    repeat match goal with
           | |- context [?a <=? ?b] => destruct (Z.leb_spec a b)
           end; try lia; cbn [andb]; now rewrite orb_false_r.
  - rewrite Hv. simpl in Hk, Hp.
    set (acc1 := if bit_set r (bit_pos_of n' pos)
                 then Z.lor acc (Z.shiftl 1 (bit_pos_of n k)) else acc).
    destruct (IH (S k) (S pos) acc1) as [I1 I2]; [lia|lia|].
    split; [rewrite I1; lia|]. intros t Ht. rewrite (I2 t Ht).
    assert (E1 : Z.testbit acc1 t
                 = Z.testbit acc t
                   || ((t =? Z.of_nat n - 1 - Z.of_nat k)
                       && Z.testbit r (Z.of_nat n' - 1 - Z.of_nat pos))).
    { unfold acc1. rewrite bit_set_testbit by (unfold bit_pos_of; lia).
      unfold bit_pos_of.
      destruct (Z.testbit r (Z.of_nat n' - 1 - Z.of_nat pos)).
      - rewrite Z.lor_spec, shiftl_1_pow2 by lia.
        rewrite Z.pow2_bits_eqb by lia. rewrite andb_true_r.
        now rewrite (Z.eqb_sym t).
      - now rewrite andb_false_r, orb_false_r. }
    rewrite E1.
    replace (t + (Z.of_nat n' - Z.of_nat (S pos))
             - (Z.of_nat n - Z.of_nat (S k)))
      with (t + (Z.of_nat n' - Z.of_nat pos) - (Z.of_nat n - Z.of_nat k))
      by lia.
    destruct (Z.eqb_spec t (Z.of_nat n - 1 - Z.of_nat k)) as [->|Hne].
    + replace (Z.of_nat n - 1 - Z.of_nat k + (Z.of_nat n' - Z.of_nat pos)
               - (Z.of_nat n - Z.of_nat k))
        with (Z.of_nat n' - 1 - Z.of_nat pos) by lia.
      repeat match goal with
             | |- context [?a <=? ?b] => destruct (Z.leb_spec a b)
             end; try lia; cbn [orb andb];
        destruct (Z.testbit acc (Z.of_nat n - 1 - Z.of_nat k)),
          (Z.testbit r (Z.of_nat n' - 1 - Z.of_nat pos)); reflexivity.
    + cbn [andb]. rewrite orb_false_r. f_equal.
      repeat match goal with
             | |- context [?a <=? ?b] => destruct (Z.leb_spec a b)
             end; try lia; reflexivity.
Qed.

Lemma combine_seq_app {A : Type} (k : nat) (l1 l2 : list A) :
  combine (seq k (List.length (l1 ++ l2))) (l1 ++ l2)
  = combine (seq k (List.length l1)) l1
    ++ combine (seq (k + List.length l1) (List.length l2)) l2.
Proof.
  revert k. induction l1 as [|a r IH]; intros k; simpl.
  - now rewrite Nat.add_0_r.
  - rewrite IH. now rewrite Nat.add_succ_r.
Qed.

Lemma filter_all {A : Type} (f : A -> bool) (l : list A) :
  Forall (fun v => f v = true) l -> filter f l = l.
Proof.
  induction 1 as [|v l Hv Hl IH]; simpl; [reflexivity|].
  now rewrite Hv, IH.
Qed.

(** The universe around its pivot. *)
Lemma pivot_split (variables : list ascii) (p_index : nat) :
  NoDup variables -> index_of_P variables = Some p_index ->
  exists pre post,
    variables = pre ++ "P"%char :: post
    /\ List.length pre = p_index
    /\ Forall (fun v => is_not_P v = true) pre
    /\ Forall (fun v => is_not_P v = true) post.
Proof.
  revert p_index. induction variables as [|v r IH]; intros p Hnd HP;
    simpl in HP; [discriminate|].
  inversion Hnd as [|? ? Hn Hr]; subst.
  destruct (Ascii.eqb_spec v "P") as [->|Hv].
  - injection HP as <-. exists [], r. repeat split; [constructor|].
    apply Forall_forall. intros c Hc. unfold is_not_P.
    destruct (Ascii.eqb_spec c "P"); [subst; contradiction|reflexivity].
  - destruct (index_of_P r) as [q|] eqn:Eq; [|discriminate].
    injection HP as <-. destruct (IH q Hr eq_refl) as (pre & post & E & L & F1 & F2).
    exists (v :: pre), post. subst r. repeat split; simpl; auto.
    constructor; [|assumption]. unfold is_not_P.
    destruct (Ascii.eqb_spec v "P"); [contradiction|reflexivity].
Qed.

(** [shift_reset] opens a 0 digit at the position of the pivot: the digits
    below stay, the digits from there on move up by one. *)
Lemma shift_reset_testbit (pre post : list ascii) (r t : Z) :
  Forall (fun v => is_not_P v = true) pre ->
  Forall (fun v => is_not_P v = true) post ->
  0 <= t ->
  let variables := pre ++ "P"%char :: post in
  let n := Z.of_nat (List.length variables) in
  let pb := n - 1 - Z.of_nat (List.length pre) in
  Z.testbit (shift_reset variables r) t
  = ((pb <? t) && (t <? n) && Z.testbit r (t - 1))
    || ((t <? pb) && Z.testbit r t).
Proof.
  intros F1 F2 Ht variables n pb.
  rewrite shift_reset_fold.
  assert (En' : List.length (filter is_not_P variables)
                = (List.length pre + List.length post)%nat).
  { unfold variables. rewrite filter_app. simpl.
    rewrite (filter_all _ _ F1), (filter_all _ _ F2). now rewrite length_app. }
  assert (En : List.length variables
               = (List.length pre + S (List.length post))%nat).
  { unfold variables. rewrite length_app. reflexivity. }
  rewrite En'. unfold variables at 2 3. rewrite combine_seq_app.
  rewrite fold_left_app. simpl combine. simpl fold_left.
  set (N := List.length variables) in *.
  set (N' := (List.length pre + List.length post)%nat).
  destruct (shift_fold_segment N N' r pre F1 0%nat 0%nat 0) as [A1 A2];
    [lia|unfold N'; lia|].
  destruct (fold_left (shift_step N N' r)
              (combine (seq 0 (List.length pre)) pre) (0, 0%nat))
    as [acc1 pos1] eqn:E1.
  cbn [fst snd] in A1, A2.
  change (shift_step N N' r (acc1, pos1) (List.length pre, "P"%char))
    with (acc1, pos1).
  destruct (shift_fold_segment N N' r post F2 (S (List.length pre)) pos1 acc1)
    as [B1 B2]; [lia|unfold N'; lia|].
  rewrite (B2 t Ht), (A2 t Ht), Z.bits_0. subst pos1.
  unfold pb, n. fold N. unfold N'. rewrite En.
  replace (t + (Z.of_nat (List.length pre + List.length post) - Z.of_nat 0)
           - (Z.of_nat (List.length pre + S (List.length post)) - Z.of_nat 0))
    with (t - 1) by lia.
  replace (t + (Z.of_nat (List.length pre + List.length post)
                - Z.of_nat (0 + List.length pre))
           - (Z.of_nat (List.length pre + S (List.length post))
              - Z.of_nat (S (List.length pre))))
    with t by lia.
  repeat match goal with
         | |- context [?a <=? ?b] => destruct (Z.leb_spec a b)
         | |- context [?a <? ?b] => destruct (Z.ltb_spec a b)
         end; try lia; cbn [orb andb];
    destruct (Z.testbit r (t - 1)), (Z.testbit r t); reflexivity.
Qed.

Lemma expand_fold_In (variables : list ascii) (reset_minterms : list Z)
    (p_index : nat) (l acc : list Z) (x : Z) :
  index_of_P variables = Some p_index ->
  let pb := bit_pos_of (List.length variables) p_index in
  0 <= pb ->
  In x (fold_left (expand_step variables reset_minterms) l acc)
  <-> In x acc
      \/ (In x l /\ Z.testbit x pb = false)
      \/ exists m r,
           In m l /\ Z.testbit m pb = true /\ In r reset_minterms
           /\ x = Z.lor (Z.land m (Z.lnot (Z.shiftl 1 pb)))
                    (shift_reset variables r).
Proof.
  intros HP pb Hpb. revert acc.
  induction l as [|m rest IH]; intros acc; simpl.
  - split; [auto|]. intros [H|[[[] _]|(m & r & [] & _)]]. exact H.
  - rewrite IH. clear IH. unfold expand_step. rewrite HP. fold pb.
    rewrite shiftl_1_pow2, land_pow2_testbit, negb_involutive by assumption.
    destruct (Z.testbit m pb) eqn:Em.
    + rewrite (fold_add_In
                 (fun r => Z.lor (Z.land m (Z.lnot (2 ^ pb)))
                             (shift_reset variables r))).
      split.
      * intros [[H|(r & Hr & ->)]|[[H1 H2]|(m' & r & H1 & H2 & H3 & H4)]];
          eauto 10.
      * intros [H|[[[<-|H1] H2]|(m' & r & [<-|H1] & H2 & H3 & H4)]];
          eauto 10; congruence.
    + rewrite IntSet_add_In. split.
      * intros [[->|H]|[[H1 H2]|(m' & r & H1 & H2 & H3 & H4)]]; eauto 10.
      * intros [H|[[[<-|H1] H2]|(m' & r & [<-|H1] & H2 & H3 & H4)]];
          eauto 10; congruence.
Qed.

Section Pivot.
Variables pre post : list ascii.
Hypothesis pre_free : Forall (fun v => is_not_P v = true) pre.
Hypothesis post_free : Forall (fun v => is_not_P v = true) post.

Let variables := pre ++ "P"%char :: post.
Let n := List.length variables.
Let pb := bit_pos_of n (List.length pre).

Lemma pv_length : n = (List.length pre + S (List.length post))%nat.
Proof. unfold n, variables. now rewrite length_app. Qed.

Lemma pv_filter : filter is_not_P variables = pre ++ post.
Proof.
  unfold variables. rewrite filter_app. simpl.
  now rewrite (filter_all _ _ pre_free), (filter_all _ _ post_free).
Qed.

Lemma pv_pb : pb = Z.of_nat (List.length post).
Proof. unfold pb, bit_pos_of. rewrite pv_length. lia. Qed.

Lemma pv_not_P (c : ascii) : In c (pre ++ post) -> c <> "P"%char.
Proof.
  intros H ->. apply in_app_iff in H.
  rewrite Forall_forall in pre_free, post_free.
  destruct H as [H|H]; [apply pre_free in H|apply post_free in H];
    discriminate H.
Qed.

Lemma pv_shift_bits (r t : Z) :
  0 <= t ->
  Z.testbit (shift_reset variables r) t
  = ((pb <? t) && (t <? Z.of_nat n) && Z.testbit r (t - 1))
    || ((t <? pb) && Z.testbit r t).
Proof.
  intros Ht.
  pose proof (shift_reset_testbit pre post r t pre_free post_free Ht) as H.
  cbv zeta in H. fold variables in H. fold n in H.
  unfold pb, bit_pos_of. exact H.
Qed.

Lemma pv_shift_nonneg (r : Z) : 0 <= shift_reset variables r.
Proof.
  apply Z.bits_iff_nonneg_ex. exists (Z.of_nat n). intros t Ht.
  rewrite pv_shift_bits by lia.
  pose proof pv_pb. pose proof pv_length.
  repeat match goal with
         | |- context [?a <? ?b] => destruct (Z.ltb_spec a b)
         end; try lia; reflexivity.
Qed.

Lemma pv_shift_range (r : Z) : 0 <= shift_reset variables r < 2 ^ Z.of_nat n.
Proof.
  split; [apply pv_shift_nonneg|].
  apply bits_above_lt; [lia|apply pv_shift_nonneg|].
  intros t Ht. rewrite pv_shift_bits by lia.
  pose proof pv_pb. pose proof pv_length.
  repeat match goal with
         | |- context [?a <? ?b] => destruct (Z.ltb_spec a b)
         end; try lia; reflexivity.
Qed.

(** A symbol of the universe without the pivot, under [shift_reset]. *)
Lemma pv_has_factor (r : Z) (c : ascii) :
  has_factor (pre ++ post) r c <-> has_factor variables (shift_reset variables r) c.
Proof.
  pose proof pv_length as Hn. pose proof pv_pb as Hpb.
  unfold has_factor. fold n. rewrite length_app. split.
  - intros (i & Hi & Hb).
    destruct (Nat.lt_ge_cases i (List.length pre)) as [Hlt|Hge].
    + exists i. split.
      * unfold variables. rewrite nth_error_app1 in * by assumption. exact Hi.
      * rewrite pv_shift_bits by (unfold bit_pos_of; lia).
        unfold bit_pos_of in *.
        replace (Z.of_nat n - 1 - Z.of_nat i - 1)
          with (Z.of_nat (List.length pre + List.length post) - 1 - Z.of_nat i)
          by lia.
        rewrite Hb.
        repeat match goal with
               | |- context [?a <? ?b] => destruct (Z.ltb_spec a b)
               end; try lia; reflexivity.
    + assert (Hi' : (i < List.length pre + List.length post)%nat).
      { rewrite <- length_app. apply nth_error_Some. congruence. }
      exists (S i). split.
      * unfold variables. rewrite nth_error_app2 in * by lia.
        replace (S i - List.length pre)%nat with (S (i - List.length pre))
          by lia. exact Hi.
      * rewrite pv_shift_bits by (unfold bit_pos_of; lia).
        unfold bit_pos_of in *.
        replace (Z.of_nat n - 1 - Z.of_nat (S i))
          with (Z.of_nat (List.length pre + List.length post) - 1 - Z.of_nat i)
          by lia.
        rewrite Hb.
        repeat match goal with
               | |- context [?a <? ?b] => destruct (Z.ltb_spec a b)
               end; try lia; cbn [andb orb]; try reflexivity;
          now rewrite orb_true_r.
  - intros (i & Hi & Hb).
    assert (Hi' : (i < n)%nat) by (apply nth_error_Some; fold variables; congruence).
    rewrite pv_shift_bits in Hb by (unfold bit_pos_of; lia).
    unfold bit_pos_of in *.
    destruct (Nat.lt_trichotomy i (List.length pre)) as [Hlt|[->|Hgt]].
    + exists i. split.
      * unfold variables in Hi. rewrite nth_error_app1 in * by assumption.
        exact Hi.
      * replace (Z.of_nat (List.length pre + List.length post) - 1 - Z.of_nat i)
          with (Z.of_nat n - 1 - Z.of_nat i - 1) by lia.
        revert Hb.
        repeat match goal with
               | |- context [?a <? ?b] => destruct (Z.ltb_spec a b)
               end; try lia; cbn [andb orb]; rewrite ?orb_false_r;
          intros Hb; first [exact Hb|discriminate Hb].
    + exfalso. revert Hb.
      repeat match goal with
             | |- context [?a <? ?b] => destruct (Z.ltb_spec a b)
             end; try lia; cbn [andb orb]; rewrite ?orb_false_r;
        discriminate.
    + exists (i - 1)%nat. split.
      * unfold variables in Hi. rewrite nth_error_app2 in * by lia.
        replace (i - List.length pre)%nat
          with (S (i - 1 - List.length pre)) in Hi by lia. exact Hi.
      * replace (Z.of_nat (List.length pre + List.length post) - 1
                 - Z.of_nat (i - 1))
          with (Z.of_nat n - 1 - Z.of_nat i) by lia.
        revert Hb.
        repeat match goal with
               | |- context [?a <? ?b] => destruct (Z.ltb_spec a b)
               end; try lia; cbn [andb orb]; rewrite ?orb_false_r;
          intros Hb; first [exact Hb|discriminate Hb].
Qed.

Lemma pv_grants (terms : list (list ascii)) (r : Z) :
  grants terms (pre ++ post) r
  <-> grants terms variables (shift_reset variables r).
Proof.
  unfold grants. split; intros (term & Hin & Hall); exists term;
    (split; [assumption|]); intros c Hc; apply pv_has_factor; auto.
Qed.

Lemma pv_without_bits (x t : Z) :
  0 <= t ->
  Z.testbit (without_pivot pb x) t
  = if t <? pb then Z.testbit x t else Z.testbit x (t + 1).
Proof.
  intros Ht. pose proof pv_pb as Hpb. unfold without_pivot.
  rewrite Z.lor_spec, Z.land_spec, Z.shiftl_spec by assumption.
  destruct (Z.ltb_spec t pb).
  - rewrite Z.ones_spec_low by lia.
    rewrite (Z.testbit_neg_r _ (t - pb)) by lia.
    now rewrite andb_true_r, orb_false_r.
  - rewrite Z.ones_spec_high by lia.
    rewrite Z.shiftr_spec by lia. rewrite andb_false_r. simpl.
    f_equal. lia.
Qed.

Lemma pv_without_shift (x : Z) :
  0 <= x < 2 ^ Z.of_nat n -> Z.testbit x pb = false ->
  0 <= without_pivot pb x < 2 ^ Z.of_nat (List.length (pre ++ post))
  /\ shift_reset variables (without_pivot pb x) = x.
Proof.
  intros Hx Hp. pose proof pv_pb as Hpb. pose proof pv_length as Hn.
  assert (Hnn : 0 <= without_pivot pb x).
  { unfold without_pivot. apply Z.lor_nonneg. split.
    - apply Z.land_nonneg. left. lia.
    - apply Z.shiftl_nonneg, Z.shiftr_nonneg. lia. }
  split.
  - split; [assumption|].
    apply bits_above_lt; [lia|assumption|].
    intros t Ht. rewrite length_app in Ht.
    rewrite pv_without_bits by lia.
    destruct (Z.ltb_spec t pb); [lia|].
    apply (lt_bits_above x (Z.of_nat n)); [assumption|lia].
  - apply Z.bits_inj'. intros t Ht.
    rewrite pv_shift_bits by assumption.
    destruct (Z.ltb_spec pb t), (Z.ltb_spec t (Z.of_nat n)),
      (Z.ltb_spec t pb); try lia; cbn [andb orb].
    + rewrite pv_without_bits by lia.
      destruct (Z.ltb_spec (t - 1) pb); [lia|].
      rewrite orb_false_r. f_equal. lia.
    + symmetry. apply (lt_bits_above x (Z.of_nat n)); [assumption|lia].
    + rewrite pv_without_bits by lia.
      destruct (Z.ltb_spec t pb); [reflexivity|lia].
    + assert (t = pb) by lia. subst t. now rewrite Hp.
Qed.

End Pivot.

Lemma forall_or_split {A : Type} (P : A -> Prop) (Q : Prop) (l : list A) :
  (forall c, In c l -> P c \/ Q) -> (forall c, In c l -> P c) \/ Q.
Proof.
  induction l as [|a r IH]; intros H; [left; intros c []|].
  destruct (H a (or_introl eq_refl)) as [Ha|HQ]; [|now right].
  destruct IH as [Hr|HQ]; [intros c Hc; apply H; now right| |now right].
  left. intros c [<-|Hc]; auto.
Qed.

Lemma kmap_minterms_unfold (base_expr reset_expr : option string) :
  kmap_minterms base_expr reset_expr
  = let variables := variables_of base_expr reset_expr in
    let base_minterms := parse_expr_to_minterms base_expr variables in
    if CharSet.mem "P" (all_vars_of base_expr reset_expr)
       && negb (is_falsy reset_expr)
    then
      fold_left
        (expand_step variables
           (parse_expr_to_minterms reset_expr (filter is_not_P variables)))
        base_minterms []
    else base_minterms.
Proof. reflexivity. Qed.

Lemma terms_of_falsy (expr : option string) :
  is_falsy expr = true -> terms_of expr = [].
Proof.
  destruct expr as [[|]|]; simpl; try discriminate; reflexivity.
Qed.

Lemma has_factor_In (variables : list ascii) (x : Z) (c : ascii) :
  has_factor variables x c -> In c variables.
Proof. intros (i & Hi & _). now apply nth_error_In in Hi. Qed.

Lemma reset_substitution_facts (base_expr reset_expr : option string) (x : Z) :
  let variables := variables_of base_expr reset_expr in
  In x (kmap_minterms base_expr reset_expr)
  <-> 0 <= x < 2 ^ Z.of_nat (List.length variables)
      /\ (is_falsy reset_expr = false -> ~ has_factor variables x "P")
      /\ grants_subst (terms_of base_expr) (terms_of reset_expr) variables x.
Proof.
  intros variables. rewrite kmap_minterms_unfold. cbv zeta. fold variables.
  destruct (variables_of_facts base_expr reset_expr) as (_ & Hnd & Hin).
  fold variables in Hnd, Hin.
  assert (Hbase : forall y,
            In y (parse_expr_to_minterms base_expr variables)
            <-> 0 <= y < 2 ^ Z.of_nat (List.length variables)
                /\ grants (terms_of base_expr) variables y).
  { intros y. rewrite parse_expr_to_minterms_of.
    now apply minterms_of_terms_grants. }
  assert (Hplain : forall y,
            grants (terms_of base_expr) variables y ->
            grants_subst (terms_of base_expr) (terms_of reset_expr)
              variables y).
  { intros y (term & Ht & Hall). exists term. split; [assumption|].
    intros c Hc. left. now apply Hall. }
  destruct (is_falsy reset_expr) eqn:Er.
  { rewrite andb_false_r. rewrite Hbase. rewrite (terms_of_falsy _ Er).
    split.
    - intros [Hr Hg]. split; [assumption|]. split; [discriminate|].
      rewrite <- (terms_of_falsy _ Er). now apply Hplain.
    - intros (Hr & _ & term & Ht & Hall). split; [assumption|].
      exists term. split; [assumption|]. intros c Hc.
      destruct (Hall c Hc) as [H|[_ (t' & [] & _)]]. exact H. }
  rewrite andb_true_r.
  destruct (CharSet.mem "P" (all_vars_of base_expr reset_expr)) eqn:EP.
  2:{ assert (HnP : ~ In "P"%char variables).
      { intros H. apply sorted_In, CharSet_mem_In in H. congruence. }
      rewrite Hbase. split.
      - intros [Hr Hg]. split; [assumption|]. split; [|now apply Hplain].
        intros _ H. apply HnP. eapply has_factor_In. exact H.
      - intros (Hr & _ & term & Ht & Hall). split; [assumption|].
        exists term. split; [assumption|]. intros c Hc.
        destruct (Hall c Hc) as [H|[-> _]]; [exact H|].
        exfalso. apply HnP. apply Hin. left.
        now apply (terms_of_facts base_expr term Ht). }
  assert (HP : In "P"%char variables).
  { apply sorted_In, CharSet_mem_In. exact EP. }
  destruct (index_of_P_Some variables HP) as (p & Ep).
  destruct (pivot_split variables p Hnd Ep) as (pre & post & Ev & Lp & F1 & F2).
  subst p.
  pose proof (pv_length pre post) as Hn. rewrite <- Ev in Hn.
  pose proof (pv_pb pre post) as Hpb. rewrite <- Ev in Hpb.
  set (pb := bit_pos_of (List.length variables) (List.length pre)) in *.
  assert (HpbP : forall y, has_factor variables y "P" <-> Z.testbit y pb = true).
  { intros y. split.
    - intros (i & Hi & Hb).
      assert (Hp : nth_error variables (List.length pre) = Some "P"%char).
      { rewrite Ev, nth_error_app2 by lia.
        now rewrite Nat.sub_diag. }
      assert (i = List.length pre).
      { apply (proj1 (NoDup_nth_error variables) Hnd);
          [apply nth_error_Some; congruence|congruence]. }
      subst i. exact Hb.
    - intros Hb. exists (List.length pre). split; [|exact Hb].
      rewrite Ev, nth_error_app2 by lia.
      now rewrite Nat.sub_diag. }
  assert (Hreset : forall r,
            In r (parse_expr_to_minterms reset_expr
                    (filter is_not_P variables))
            <-> 0 <= r < 2 ^ Z.of_nat (List.length (pre ++ post))
                /\ grants (terms_of reset_expr) variables
                     (shift_reset variables r)).
  { intros r. rewrite parse_expr_to_minterms_of.
    rewrite Ev, (pv_filter pre post F1 F2).
    rewrite minterms_of_terms_grants.
    - now rewrite (pv_grants pre post F1 F2).
    - rewrite Ev in Hnd. apply NoDup_remove_1 in Hnd. exact Hnd. }
  rewrite (expand_fold_In variables _ (List.length pre) _ [] x Ep)
    by (fold pb; lia).
  fold pb. split.
  - intros [[]|[[Hx Hb]|(m & r & Hm & Hmb & Hr & ->)]].
    + apply Hbase in Hx as [Hr Hg]. split; [assumption|].
      split; [|now apply Hplain]. intros _ H. apply HpbP in H. congruence.
    + apply Hbase in Hm as [Hmr (term & Ht & Hall)].
      apply Hreset in Hr as [Hrr Hrg].
      pose proof (pv_shift_range pre post F1 F2 r) as Hsr.
      rewrite <- Ev in Hsr.
      set (x := Z.lor (Z.land m (Z.lnot (Z.shiftl 1 pb)))
                  (shift_reset variables r)).
      assert (Hbits : forall t, 0 <= t ->
                Z.testbit x t
                = (Z.testbit m t && negb (t =? pb))
                  || Z.testbit (shift_reset variables r) t).
      { intros t Ht0. unfold x.
        rewrite Z.lor_spec, Z.land_spec, Z.lnot_spec by assumption.
        rewrite shiftl_1_pow2, Z.pow2_bits_eqb by lia.
        now rewrite (Z.eqb_sym pb t). }
      assert (Hxp : Z.testbit x pb = false).
      { rewrite Hbits by lia. rewrite Z.eqb_refl, andb_false_r. simpl.
        rewrite Ev, (pv_shift_bits pre post F1 F2) by lia.
        rewrite <- Ev. fold pb.
        now rewrite !Z.ltb_irrefl. }
      assert (Hxn : 0 <= x).
      { unfold x. apply Z.lor_nonneg. split; [|lia].
        apply Z.land_nonneg. left. lia. }
      split; [|split].
      * split; [assumption|]. apply bits_above_lt; [lia|assumption|].
        intros t Htn. rewrite Hbits by lia.
        rewrite (lt_bits_above m _ t Hmr Htn).
        now rewrite (lt_bits_above _ _ t Hsr Htn).
      * intros _ H. apply HpbP in H. congruence.
      * assert (Hsub : subcube (shift_reset variables r) x).
        { apply subcube_bits. intros t Htn Hb. rewrite Hbits by assumption.
          rewrite Hb. apply orb_true_r. }
        exists term. split; [assumption|]. intros c Hc.
        destruct (Hall c Hc) as (i & Hi & Hb).
        destruct (Nat.eq_dec i (List.length pre)) as [->|Hne].
        -- right. split.
           ++ rewrite Ev, nth_error_app2 in Hi by lia.
              rewrite Nat.sub_diag in Hi. simpl in Hi. congruence.
           ++ now apply (grants_mono _ _ (shift_reset variables r)).
        -- left. exists i. split; [assumption|].
           assert (Hlt : (i < List.length variables)%nat)
             by (apply nth_error_Some; congruence).
           rewrite Hbits by (unfold bit_pos_of; lia). rewrite Hb.
           destruct (Z.eqb_spec (bit_pos_of (List.length variables) i) pb)
             as [E|E]; [|reflexivity].
           unfold pb, bit_pos_of in E. lia.
  - intros (Hr & HnP & term & Ht & Hall).
    assert (Hxp : Z.testbit x pb = false).
    { destruct (Z.testbit x pb) eqn:E; [|reflexivity].
      exfalso. apply (HnP eq_refl). now apply HpbP. }
    right.
    destruct (forall_or_split
                (fun c => has_factor variables x c)
                (grants (terms_of reset_expr) variables x) term) as [Hl|Hg].
    { intros c Hc. destruct (Hall c Hc) as [H|[_ H]]; auto. }
    { left. split; [|assumption]. apply Hbase. split; [assumption|].
      exists term. auto. }
    right.
    destruct (pv_without_shift pre post F1 F2 x) as [Hw1 Hw2];
      [now rewrite <- Ev|rewrite <- Ev; exact Hxp|].
    rewrite <- Ev in Hw1, Hw2. fold pb in Hw1, Hw2.
    exists (Z.lor x (2 ^ pb)), (without_pivot pb x).
    assert (Hmbits : forall t, 0 <= t ->
              Z.testbit (Z.lor x (2 ^ pb)) t = Z.testbit x t || (t =? pb)).
    { intros t Ht'. rewrite Z.lor_spec, Z.pow2_bits_eqb by lia.
      now rewrite (Z.eqb_sym pb t). }
    assert (Hmn : 0 <= Z.lor x (2 ^ pb)).
    { apply Z.lor_nonneg. split; [lia|apply Z.pow_nonneg; lia]. }
    split; [|split; [|split]].
    + apply Hbase. split.
      * split; [assumption|].
        apply bits_above_lt; [lia|assumption|].
        intros t Htn. rewrite Hmbits by lia.
        rewrite (lt_bits_above x _ t Hr Htn).
        destruct (Z.eqb_spec t pb); [lia|reflexivity].
      * exists term. split; [assumption|]. intros c Hc.
        destruct (Hall c Hc) as [(i & Hi & Hb)|[-> _]].
        -- exists i. split; [assumption|].
           assert (Hlt : (i < List.length variables)%nat)
             by (apply nth_error_Some; congruence).
           rewrite Hmbits by (unfold bit_pos_of; lia).
           now rewrite Hb.
        -- apply HpbP. rewrite Hmbits by lia.
           rewrite Z.eqb_refl. apply orb_true_r.
    + rewrite Hmbits by lia. rewrite Z.eqb_refl. apply orb_true_r.
    + apply Hreset. split; [assumption|]. now rewrite Hw2.
    + rewrite Hw2. apply Z.bits_inj'. intros t Htn.
      rewrite !Z.lor_spec, Z.land_spec, Z.lnot_spec by assumption.
      rewrite Z.lor_spec, shiftl_1_pow2, Z.pow2_bits_eqb by lia.
      destruct (Z.eqb_spec pb t) as [<-|]; [rewrite Hxp; reflexivity|].
      simpl. now rewrite orb_false_r, andb_true_r, orb_diag.
Qed.

(** ** What the output denotes *)

Lemma letters_has_factor (variables : list ascii) (t : Z) (c : ascii) :
  In c (letters_of (t, t) variables) <-> has_factor variables t c.
Proof.
  rewrite letters_of_In. unfold has_factor. cbn [fst snd].
  split; intros (i & H); exists i; tauto.
Qed.

Lemma has_factors_subcube (variables : list ascii) (t x : Z) :
  NoDup variables ->
  0 <= t < 2 ^ Z.of_nat (List.length variables) ->
  (forall c, has_factor variables t c -> has_factor variables x c) ->
  subcube t x.
Proof.
  intros Hnd Hr H. apply (letters_incl_subcube variables); try assumption.
  intros c Hc. apply letters_has_factor. apply H.
  now apply letters_has_factor.
Qed.

Lemma grants_parsed_cover (cover : list implicant) (variables : list ascii)
    (x : Z) :
  (forall c, In c variables -> is_upper c = true) ->
  (grants (parse_terms (chars (format_cover cover variables))) variables x
   <-> exists imp,
         In imp cover /\ letters_of imp variables <> []
         /\ forall c, In c (letters_of imp variables) ->
              has_factor variables x c).
Proof.
  intros Hup.
  assert (Hl : forall imp c,
            In c (CharSet.of_list (filter isalpha (letters_of imp variables)))
            <-> In c (letters_of imp variables)).
  { intros imp c. rewrite CharSet_of_list_In, filter_isalpha_upper;
      [reflexivity|].
    apply Forall_forall. intros d Hd. apply Hup.
    apply letters_of_In in Hd as (i & Hi & _). now apply nth_error_In in Hi. }
  unfold grants, parse_terms. split.
  - intros (term & Hin & Hall).
    apply in_map_iff in Hin as (letters & <- & Hin).
    apply findall_format_cover in Hin as (imp & Himp & <- & Hne);
      [|assumption].
    exists imp. split; [assumption|]. split; [assumption|].
    intros c Hc. apply Hall. now apply Hl.
  - intros (imp & Himp & Hne & Hall).
    exists (CharSet.of_list (filter isalpha (letters_of imp variables))).
    split.
    + apply in_map_iff. exists (letters_of imp variables).
      split; [reflexivity|]. apply findall_format_cover; eauto.
    + intros c Hc. apply Hall. now apply Hl.
Qed.

(** X11: the output of [minimize_karnaugh] on any set of non-zero minterms
    over at most six variables, parsed again over the same variables, is the
    upward closure of the set: the minterms within range that have all the 1
    positions of some minterm of the set. *)
Theorem minimize_karnaugh_upward_closure (minterms : list Z) (variables : list ascii)
    (x : Z) :
  NoDup variables ->
  (forall c, In c variables -> is_upper c = true) ->
  (List.length variables <= 6)%nat ->
  Forall (fun m => 0 < m < 2 ^ Z.of_nat (List.length variables)) minterms ->
  (In x (parse_expr_to_minterms (Some (minimize_karnaugh minterms variables))
           variables)
   <-> 0 <= x < 2 ^ Z.of_nat (List.length variables)
       /\ exists m, In m minterms /\ subcube m x).
Proof.
  intros Hnd Hup Hsmall Hr.
  rewrite parse_expr_to_minterms_terms, minterms_of_terms_grants by assumption.
  rewrite minimize_karnaugh_small by assumption.
  rewrite grants_parsed_cover by assumption.
  assert (Hr' : Forall (fun m => 0 <= m < 2 ^ Z.of_nat (List.length variables))
                  minterms).
  { eapply Forall_impl; [|exact Hr]. simpl. intros; lia. }
  assert (Hn : Forall (fun m => 0 <= m) minterms).
  { eapply Forall_impl; [|exact Hr]. simpl. intros; lia. }
  destruct (find_prime_implicants_spec minterms Hn) as [Hs Hm].
  rewrite Forall_forall in Hr.
  split; intros [Hx H]; (split; [assumption|]).
  - destruct H as (imp & Himp & Hne & Hall).
    destruct (essential_cover_minimal (find_prime_implicants minterms) minterms
                (List.length variables) Hr' Hs Hm imp) as (t & -> & Ht & _);
      [|assumption|].
    { intros E. rewrite E in Himp. exact Himp. }
    exists t. split; [assumption|].
    apply (has_factors_subcube variables); [assumption| |].
    + specialize (Hr t Ht). lia.
    + intros c Hc. apply Hall. now apply letters_has_factor.
  - destruct H as (m & Hmin & Hsub).
    destruct (essential_cover_complete (find_prime_implicants minterms)
                minterms (List.length variables) Hr' Hs Hm m Hmin)
      as (t & Ht & Hsub').
    exists (t, t). split; [assumption|].
    assert (Htm : In t minterms).
    { apply essential_cover_incl in Ht. now apply Hs in Ht. }
    split; [apply letters_of_nonzero; now apply Hr|].
    intros c Hc. apply letters_has_factor in Hc.
    apply (has_factor_mono variables t x); [|assumption].
    now apply (subcube_trans t m x).
Qed.

Lemma minimize_karnaugh_upward_closure_witness :
  In 3 (parse_expr_to_minterms
          (Some (minimize_karnaugh [1; 2] ["A"; "B"]%char)) ["A"; "B"]%char)
  <-> 0 <= 3 < 2 ^ Z.of_nat (List.length ["A"; "B"]%char)
      /\ exists m, In m [1; 2] /\ subcube m 3.
Proof.
  apply (minimize_karnaugh_upward_closure [1; 2] ["A"; "B"]%char 3).
  - repeat constructor; simpl; intuition discriminate.
  - intros c [<-|[<-|[]]]; reflexivity.
  - simpl. lia.
  - repeat constructor; simpl; lia.
Defined.

Lemma grants_nonzero (expr : option string) (variables : list ascii) (x : Z) :
  grants (terms_of expr) variables x -> x <> 0.
Proof.
  intros (term & Hin & Hall).
  destruct (terms_of_facts expr term Hin) as [Hne _].
  destruct term as [|c r]; [congruence|].
  apply (has_factor_nonzero variables x c). apply Hall. now left.
Qed.

Lemma grants_subst_nonzero (base_expr reset_expr : option string)
    (variables : list ascii) (x : Z) :
  grants_subst (terms_of base_expr) (terms_of reset_expr) variables x ->
  x <> 0.
Proof.
  intros (term & Hin & Hall).
  destruct (terms_of_facts base_expr term Hin) as [Hne _].
  destruct term as [|c r]; [congruence|].
  destruct (Hall c (or_introl eq_refl)) as [H|[_ H]].
  - now apply (has_factor_nonzero variables x c).
  - now apply (grants_nonzero reset_expr variables).
Qed.

Lemma kmap_minterms_range (base_expr reset_expr : option string) :
  Forall
    (fun m =>
       0 < m < 2 ^ Z.of_nat (List.length (variables_of base_expr reset_expr)))
    (kmap_minterms base_expr reset_expr).
Proof.
  apply Forall_forall. intros m Hm.
  apply reset_substitution_facts in Hm as (Hr & _ & Hg).
  apply grants_subst_nonzero in Hg. lia.
Qed.

Lemma variables_of_upper (base_expr reset_expr : option string) (c : ascii) :
  In c (variables_of base_expr reset_expr) -> is_upper c = true.
Proof.
  intros H. apply variables_of_facts in H as [H|H];
    now apply extract_variables_upper in H.
Qed.

Lemma compute_kmap_unfold (base_expr reset_expr : option string) :
  (List.length (variables_of base_expr reset_expr) <= 6)%nat ->
  compute_kmap base_expr reset_expr
  = format_cover
      (essential_prime_implicant_cover
         (find_prime_implicants (kmap_minterms base_expr reset_expr))
         (kmap_minterms base_expr reset_expr)
         (List.length (variables_of base_expr reset_expr)))
      (variables_of base_expr reset_expr).
Proof.
  intros Hsmall. unfold compute_kmap.
  destruct (all_vars_of base_expr reset_expr) as [|v vs] eqn:Ev.
  - assert (E : variables_of base_expr reset_expr = []).
    { unfold variables_of. now rewrite Ev. }
    rewrite E. simpl.
    pose proof (kmap_minterms_range base_expr reset_expr) as Hr.
    rewrite E in Hr. simpl in Hr.
    destruct (kmap_minterms base_expr reset_expr) as [|m ms]; [reflexivity|].
    inversion Hr; subst. lia.
  - now apply minimize_karnaugh_small.
Qed.

(** The characters of the output. *)
Lemma format_cover_chars (cover : list implicant) (variables : list ascii)
    (c : ascii) :
  In c (chars (format_cover cover variables)) ->
  c = "["%char \/ c = "]"%char
  \/ exists imp, In imp cover /\ In c (letters_of imp variables).
Proof.
  unfold format_cover. rewrite rendered_terms_filter, chars_concat.
  intros H. apply in_concat in H as (g & Hg & Hc).
  apply in_map_iff in Hg as (s & <- & Hs).
  apply sorted_In, filter_In in Hs as [Hs Hne].
  apply in_map_iff in Hs as (imp & <- & Himp).
  destruct (letters_of imp variables) as [|l ls] eqn:El.
  { rewrite (rendered_empty imp variables El) in Hne. discriminate. }
  destruct (rendered_group imp variables) as [E _]; [congruence|].
  rewrite E in Hc. unfold bracket_group in Hc. simpl in Hc.
  destruct Hc as [<-|Hc]; [now left|].
  rewrite El in Hc. simpl in Hc. 
  destruct Hc as [<-|Hc].
  { right. right. exists imp. split; [assumption|]. rewrite El. now left. }
  apply in_app_iff in Hc as [Hc|[<-|[]]]; [|now right; left].
  right. right. exists imp. split; [assumption|]. rewrite El. now right.
Qed.

(** X12: the output of the pipeline holds nothing but brackets and symbols
    of the universe of its two expressions, and when a reset expression is
    given it holds no P. *)
Theorem compute_kmap_letters (base_expr reset_expr : option string) (c : ascii) :
  In c (chars (compute_kmap base_expr reset_expr)) ->
  c = "["%char \/ c = "]"%char
  \/ (In c (variables_of base_expr reset_expr)
      /\ (is_falsy reset_expr = false -> c <> "P"%char)).
Proof.
  destruct (Nat.le_gt_cases
              (List.length (variables_of base_expr reset_expr)) 6)
    as [Hsmall|Hbig].
  2:{ unfold compute_kmap.
      destruct (all_vars_of base_expr reset_expr); [intros []|].
      unfold minimize_karnaugh.
      destruct (kmap_minterms base_expr reset_expr); [intros []|].
      destruct (Nat.ltb_spec 6
                  (List.length (variables_of base_expr reset_expr)));
        [intros []|lia]. }
  rewrite compute_kmap_unfold by assumption. intros H.
  apply format_cover_chars in H as [H|[H|(imp & Himp & Hc)]]; auto.
  right. right.
  pose proof (kmap_minterms_range base_expr reset_expr) as Hr.
  assert (Hn : Forall (fun m => 0 <= m) (kmap_minterms base_expr reset_expr)).
  { eapply Forall_impl; [|exact Hr]. simpl. intros; lia. }
  apply essential_cover_incl in Himp. destruct imp as [t mk].
  apply (find_prime_implicants_spec _ Hn) in Himp as [-> Ht].
  apply letters_has_factor in Hc.
  split; [now apply (has_factor_In _ t)|].
  intros Er ->.
  apply reset_substitution_facts in Ht as (_ & HnP & _). now apply HnP.
Qed.

Lemma compute_kmap_letters_witness :
  "A"%char = "["%char \/ "A"%char = "]"%char
  \/ (In "A"%char (variables_of (Some "[AP]"%string) (Some "[B]"%string))
      /\ (is_falsy (Some "[B]"%string) = false -> "A"%char <> "P"%char)).
Proof.
  apply (compute_kmap_letters (Some "[AP]"%string) (Some "[B]"%string)
           "A"%char).
  vm_compute. right. left. reflexivity.
Defined.

(** ** Sorting is canonical *)

Section SortCanonical.
Context {A : Type} (leb : A -> A -> bool).
Hypothesis leb_total : forall a b, leb a b = true \/ leb b a = true.
Hypothesis leb_trans :
  forall a b c, leb a b = true -> leb b c = true -> leb a c = true.
Hypothesis leb_antisym : forall a b, leb a b = true -> leb b a = true -> a = b.

Lemma sorted_fixed (l : list A) :
  Sorted (fun a b => leb a b = true) l -> sorted leb l = l.
Proof.
  induction 1 as [|x r Hr IH Hx]; [reflexivity|].
  simpl. rewrite IH. destruct Hx as [|y r' Hxy]; [reflexivity|].
  simpl. now rewrite Hxy.
Qed.

Lemma sorted_idempotent (l : list A) : sorted leb (sorted leb l) = sorted leb l.
Proof. apply sorted_fixed. now apply sorted_Sorted. Qed.

Lemma strongly_sorted_unique (l1 l2 : list A) :
  StronglySorted (fun a b => leb a b = true) l1 ->
  StronglySorted (fun a b => leb a b = true) l2 ->
  Permutation l1 l2 -> l1 = l2.
Proof.
  intros H1. revert l2. induction H1 as [|x r Hr IH Hx]; intros l2 H2 P.
  - apply Permutation_nil in P. now subst.
  - destruct H2 as [|y r2 Hr2 Hy].
    + apply Permutation_sym, Permutation_nil in P. discriminate.
    + assert (x = y).
      { rewrite Forall_forall in Hx, Hy.
        assert (Hxin : In x (y :: r2))
          by (apply (Permutation_in _ P); now left).
        assert (Hyin : In y (x :: r))
          by (apply (Permutation_in _ (Permutation_sym P)); now left).
        destruct Hxin as [->|Hxin]; [reflexivity|].
        destruct Hyin as [->|Hyin]; [reflexivity|].
        apply leb_antisym; auto. }
      subst y. f_equal. apply IH; [assumption|].
      now apply Permutation_cons_inv in P.
Qed.

Lemma sorted_permutation (l1 l2 : list A) :
  Permutation l1 l2 -> sorted leb l1 = sorted leb l2.
Proof.
  intros P. apply strongly_sorted_unique.
  - apply Sorted_StronglySorted; [exact leb_trans|now apply sorted_Sorted].
  - apply Sorted_StronglySorted; [exact leb_trans|now apply sorted_Sorted].
  - rewrite (sorted_perm leb l1), (sorted_perm leb l2). exact P.
Qed.
End SortCanonical.

Lemma ascii_leb_trans (a b c : ascii) :
  Ascii.leb a b = true -> Ascii.leb b c = true -> Ascii.leb a c = true.
Proof.
  intros H1 H2. apply ascii_leb_le in H1, H2. apply ascii_leb_le.
  now apply (N.le_trans _ (N_of_ascii b)).
Qed.

Lemma ascii_compare_lt (a b : ascii) :
  Ascii.compare a b = Lt <-> (N_of_ascii a < N_of_ascii b)%N.
Proof. unfold Ascii.compare. now rewrite N.compare_lt_iff. Qed.

Lemma ascii_compare_gt (a b : ascii) :
  Ascii.compare a b = Gt <-> (N_of_ascii b < N_of_ascii a)%N.
Proof. unfold Ascii.compare. now rewrite N.compare_gt_iff. Qed.

Lemma ascii_compare_eq (a b : ascii) : Ascii.compare a b = Eq <-> a = b.
Proof.
  split; [apply Ascii.compare_eq_iff|].
  intros ->. unfold Ascii.compare. apply N.compare_refl.
Qed.

Lemma string_leb_trans (a b c : string) :
  String.leb a b = true -> String.leb b c = true -> String.leb a c = true.
Proof.
  unfold String.leb. revert b c.
  induction a as [|x a IH]; intros [|y b] [|z c]; simpl; try congruence.
  destruct (Ascii.compare x y) eqn:Exy; try congruence;
    destruct (Ascii.compare y z) eqn:Eyz; try congruence.
  - apply ascii_compare_eq in Exy, Eyz. subst.
    rewrite (proj2 (ascii_compare_eq z z) eq_refl). apply IH.
  - apply ascii_compare_eq in Exy. subst. now rewrite Eyz.
  - apply ascii_compare_eq in Eyz. subst. now rewrite Exy.
  - apply ascii_compare_lt in Exy, Eyz.
    assert (H : Ascii.compare x z = Lt)
      by (apply ascii_compare_lt; now apply (N.lt_trans _ (N_of_ascii y))).
    now rewrite H.
Qed.

(** ** Whitespace around an expression *)

Lemma take_drop_app_none (p : ascii -> bool) (a w : list ascii) :
  Forall (fun c => p c = false) w ->
  take_while p (a ++ w) = take_while p a
  /\ drop_while p (a ++ w) = drop_while p a ++ w.
Proof.
  intros Hw. induction a as [|c r IH]; simpl.
  - destruct Hw as [|d w Hd Hw]; simpl; [auto|]. now rewrite Hd.
  - destruct (p c); [|auto]. destruct IH as [-> ->]. auto.
Qed.

Lemma take_drop_app_all (p : ascii -> bool) (a w : list ascii) :
  Forall (holds p) w ->
  match drop_while p a with
  | [] => drop_while p (a ++ w) = []
  | _ :: _ =>
      take_while p (a ++ w) = take_while p a
      /\ drop_while p (a ++ w) = drop_while p a ++ w
  end.
Proof.
  intros Hw. induction a as [|c r IH]; simpl.
  - induction Hw as [|d w Hd Hw IHw]; simpl; [reflexivity|]. now rewrite Hd.
  - destruct (p c) eqn:E; [|auto].
    destruct (drop_while p r); [assumption|].
    destruct IH as [-> ->]. auto.
Qed.

Lemma match_bracket_app_space (s w : list ascii) :
  s <> [] -> Forall (holds is_space) w ->
  match_bracket (s ++ w) = match_bracket s.
Proof.
  destruct s as [|c s1]; [congruence|]. intros _ Hw. simpl.
  destruct (Ascii.eqb c "["); [|reflexivity].
  assert (Hw' : Forall (fun c => is_upper c = false) w).
  { eapply Forall_impl; [|exact Hw]. intros a Ha.
    destruct (is_upper a) eqn:E; [|reflexivity].
    apply is_upper_not_space in E. unfold holds in Ha. congruence. }
  pose proof (take_drop_app_all is_space s1 w Hw) as H1.
  destruct (drop_while is_space s1) as [|d s2] eqn:E1.
  - rewrite H1. reflexivity.
  - destruct H1 as [-> ->].
    destruct (take_drop_app_none is_upper (d :: s2) w Hw') as [-> ->].
    destruct (take_while is_upper (d :: s2)) as [|g gs]; [reflexivity|].
    pose proof (take_drop_app_all is_space (drop_while is_upper (d :: s2)) w Hw)
      as H3.
    destruct (drop_while is_space (drop_while is_upper (d :: s2)))
      as [|e s4] eqn:E3.
    + rewrite H3. reflexivity.
    + destruct H3 as [-> ->]. reflexivity.
Qed.

Lemma findall_from_app_space (t w : list ascii) (k : nat) :
  Forall (holds is_space) w ->
  findall_from k (t ++ w) = findall_from k t.
Proof.
  intros Hw. revert k. induction t as [|c r IH]; intros k.
  - simpl. revert k.
    induction Hw as [|d w Hd Hw IHw]; intros k; [reflexivity|].
    cbn [findall_from]. destruct k; [|apply IHw].
    unfold match_bracket.
    destruct (Ascii.eqb_spec d "[");
      [subst; discriminate Hd|apply IHw].
  - rewrite <- app_comm_cons. cbn [findall_from].
    destruct k; [|apply IH].
    rewrite app_comm_cons, match_bracket_app_space by (discriminate || assumption).
    destruct (match_bracket (c :: r)) as [[g len]|]; now rewrite IH.
Qed.

Lemma bracket_findall_strip (s : list ascii) :
  bracket_findall (strip s) = bracket_findall s.
Proof.
  destruct (strip_decompose s) as (w1 & w2 & E & H1 & H2).
  rewrite E at 2. unfold bracket_findall.
  rewrite findall_from_no_bracket.
  - now rewrite findall_from_app_space.
  - eapply Forall_impl; [|exact H1]. intros a Ha.
    now apply is_space_not_bracket.
Qed.

(** ** Sets of factor sets *)

Lemma TermSet_subset_incl (a b : list ascii) :
  TermSet.subset a b = true <-> incl a b.
Proof.
  unfold TermSet.subset. rewrite forallb_forall. unfold incl.
  split; intros H x Hx; apply CharSet_mem_In; auto.
Qed.

Lemma TermSet_eqb_same (a b : list ascii) :
  TermSet.eqb a b = true <-> same_factors a b.
Proof.
  unfold TermSet.eqb. rewrite andb_true_iff, !TermSet_subset_incl.
  unfold same_factors, incl. split.
  - intros [H1 H2] c. split; auto.
  - intros H. split; intros c; apply H.
Qed.

Lemma canon_same (a b : list ascii) :
  NoDup a -> NoDup b ->
  (sorted Ascii.leb a = sorted Ascii.leb b <-> same_factors a b).
Proof.
  intros Ha Hb. split.
  - intros E c. rewrite <- (sorted_In Ascii.leb c a), E. apply sorted_In.
  - intros H.
    apply (sorted_permutation Ascii.leb Ascii.leb_total ascii_leb_trans
             Ascii.leb_antisym).
    now apply NoDup_Permutation.
Qed.

Lemma canon_NoDup (a : list ascii) : NoDup a -> NoDup (sorted Ascii.leb a).
Proof.
  intros H. eapply Permutation_NoDup; [apply Permutation_sym, sorted_perm|].
  exact H.
Qed.

Lemma canon_idempotent (a : list ascii) :
  sorted Ascii.leb (sorted Ascii.leb a) = sorted Ascii.leb a.
Proof. apply sorted_idempotent. apply Ascii.leb_total. Qed.

Lemma CharSet_of_list_NoDup (cs : list ascii) : NoDup (CharSet.of_list cs).
Proof. apply CharSet_update_NoDup. constructor. Qed.

Lemma CharSet_add_fresh (c : ascii) (s : list ascii) :
  ~ In c s -> CharSet.add c s = s ++ [c].
Proof.
  intros H. unfold CharSet.add.
  destruct (CharSet.mem c s) eqn:E; [|reflexivity].
  apply CharSet_mem_In in E. contradiction.
Qed.

Lemma CharSet_of_list_id (cs : list ascii) :
  NoDup cs -> CharSet.of_list cs = cs.
Proof.
  unfold CharSet.of_list, CharSet.update.
  enough (G : forall acc, NoDup (acc ++ cs) ->
             fold_left (fun a c => CharSet.add c a) cs acc = acc ++ cs)
    by (intros H; apply (G [] H)).
  induction cs as [|c r IH]; intros acc H; simpl; [now rewrite app_nil_r|].
  rewrite CharSet_add_fresh.
  - rewrite IH; rewrite <- app_assoc; [reflexivity|exact H].
  - apply NoDup_remove_2 in H. intros Hin. apply H. apply in_app_iff. now left.
Qed.

(** The terms that the loop over the bracket groups collects. *)
Lemma collect_terms_facts (groups : list (list ascii)) :
  Forall (fun g => g <> [] /\ Forall (holds is_upper) g) groups ->
  let T :=
    fold_left
      (fun terms grp =>
         match filter isalpha grp with
         | [] => terms
         | factors => TermSet.add (CharSet.of_list factors) terms
         end)
      groups [] in
  term_set T /\ same_terms T groups.
Proof.
  intros Hg. cbv zeta.
  set (step := fun (terms : list (list ascii)) (grp : list ascii) =>
                 match filter isalpha grp with
                 | [] => terms
                 | factors => TermSet.add (CharSet.of_list factors) terms
                 end).
  enough (G : forall init done,
             term_set init -> same_terms init done ->
             term_set (fold_left step groups init)
             /\ same_terms (fold_left step groups init) (done ++ groups)).
  { apply (G [] []).
    - split; constructor.
    - split; intros t []. }
  induction Hg as [|g r [Hne Hup] Hr IH]; intros init done Hi Hs; simpl.
  - now rewrite app_nil_r.
  - replace (done ++ g :: r) with ((done ++ [g]) ++ r)
      by now rewrite <- app_assoc.
    assert (Es : step init g = TermSet.add (CharSet.of_list g) init).
    { unfold step. rewrite (filter_isalpha_upper g Hup).
      destruct g; [congruence|reflexivity]. }
    rewrite Es. clear Es.
    assert (Hsame : same_factors (CharSet.of_list g) g)
      by (intros c; apply CharSet_of_list_In).
    apply IH; unfold TermSet.add;
      destruct (TermSet.mem (CharSet.of_list g) init) eqn:Em.
    + assumption.
    + destruct Hi as [Hi1 Hi2]. split.
      * apply Forall_app. split; [assumption|]. constructor; [|constructor].
        split; [|split].
        -- destruct g as [|c g']; [congruence|]. intros E.
           assert (H : In c (CharSet.of_list (c :: g')))
             by (apply CharSet_of_list_In; now left).
           rewrite E in H. exact H.
        -- apply CharSet_of_list_NoDup.
        -- apply Forall_forall. intros c Hc.
           apply (proj1 (CharSet_of_list_In c g)) in Hc.
           rewrite Forall_forall in Hup. now apply Hup.
      * rewrite map_app. simpl. apply NoDup_app; [assumption| |].
        -- constructor; [intros []|constructor].
        -- intros x Hx [<-|[]].
           apply in_map_iff in Hx as (t & Et & Ht).
           rewrite <- not_true_iff_false in Em. apply Em.
           unfold TermSet.mem. apply existsb_exists. exists t.
           split; [assumption|]. apply TermSet_eqb_same.
           rewrite Forall_forall in Hi1. destruct (Hi1 t Ht) as (_ & Hnd & _).
           apply canon_same; [apply CharSet_of_list_NoDup|assumption|].
           now symmetry.
    + destruct Hs as [Hs1 Hs2]. split.
      * intros t Ht. destruct (Hs1 t Ht) as (t' & Ht' & Hst).
        exists t'. split; [apply in_app_iff; now left|assumption].
      * intros t Ht. apply in_app_iff in Ht as [Ht|[<-|[]]]; [auto|].
        unfold TermSet.mem in Em. apply existsb_exists in Em as (t' & Ht' & E).
        apply TermSet_eqb_same in E. exists t'. split; [assumption|].
        intros c. rewrite <- (E c). symmetry. apply Hsame.
    + destruct Hs as [Hs1 Hs2]. split.
      * intros t Ht. apply in_app_iff in Ht as [Ht|[<-|[]]].
        -- destruct (Hs1 t Ht) as (t' & Ht' & Hst).
           exists t'. split; [apply in_app_iff; now left|assumption].
        -- exists g. split; [apply in_app_iff; right; now left|assumption].
      * intros t Ht. apply in_app_iff in Ht as [Ht|[<-|[]]].
        -- destruct (Hs2 t Ht) as (t' & Ht' & Hst).
           exists t'. split; [apply in_app_iff; now left|assumption].
        -- exists (CharSet.of_list g).
           split; [apply in_app_iff; right; now left|].
           intros c. symmetry. apply Hsame.
Qed.

Lemma findall_groups_wf (s : list ascii) :
  Forall (fun g => g <> [] /\ Forall (holds is_upper) g) (bracket_findall s).
Proof.
  apply Forall_forall. intros g Hg. now apply findall_from_groups in Hg.
Qed.

Lemma parse_expr_facts (expr : option string) :
  term_set (AccessAnalyzer.parse_expr expr)
  /\ same_terms (AccessAnalyzer.parse_expr expr)
       (bracket_findall (text_of expr)).
Proof.
  unfold AccessAnalyzer.parse_expr.
  assert (Hnil : forall l, l = [] ->
            term_set [] /\ same_terms [] (l : list (list ascii))).
  { intros l ->. split; [split; constructor|split; intros t []]. }
  destruct (is_falsy expr) eqn:Ef.
  { apply Hnil. destruct expr as [[|]|]; simpl in *; try discriminate;
      reflexivity. }
  destruct (strip (text_of expr)) as [|c r] eqn:Es.
  { apply Hnil. apply placeholder_no_group. unfold is_placeholder.
    now rewrite Es. }
  destruct (list_eqb Ascii.eqb (c :: r) ["-"%char]) eqn:Ed.
  { apply Hnil. apply placeholder_no_group. unfold is_placeholder.
    rewrite Es. simpl in Ed. destruct r; [|now rewrite andb_false_r in Ed].
    now rewrite andb_true_r in Ed. }
  rewrite <- Es, <- (bracket_findall_strip (text_of expr)).
  apply collect_terms_facts, findall_groups_wf.
Qed.

Lemma same_factors_sym (a b : list ascii) :
  same_factors a b -> same_factors b a.
Proof. intros H c. symmetry. apply H. Qed.

Lemma same_factors_trans (a b c : list ascii) :
  same_factors a b -> same_factors b c -> same_factors a c.
Proof. intros H1 H2 x. rewrite (H1 x). apply H2. Qed.

Lemma same_terms_refl (T : list (list ascii)) : same_terms T T.
Proof. split; intros t Ht; exists t; split; auto; intros c; reflexivity. Qed.

Lemma same_terms_sym (T1 T2 : list (list ascii)) :
  same_terms T1 T2 -> same_terms T2 T1.
Proof. intros [H1 H2]. split; assumption. Qed.

Lemma same_terms_trans (T1 T2 T3 : list (list ascii)) :
  same_terms T1 T2 -> same_terms T2 T3 -> same_terms T1 T3.
Proof.
  intros [A1 A2] [B1 B2]. split.
  - intros t Ht. destruct (A1 t Ht) as (t' & Ht' & E).
    destruct (B1 t' Ht') as (t'' & Ht'' & E').
    exists t''. split; [assumption|]. now apply (same_factors_trans _ t').
  - intros t Ht. destruct (B2 t Ht) as (t' & Ht' & E).
    destruct (A2 t' Ht') as (t'' & Ht'' & E').
    exists t''. split; [assumption|]. now apply (same_factors_trans _ t').
Qed.

Lemma format_expr_rendered (T : list (list ascii)) :
  Forall (fun t => t <> []) T ->
  AccessAnalyzer.format_expr T
  = String.concat EmptyString (sorted String.leb (map rendered T)).
Proof.
  intros H. unfold AccessAnalyzer.format_expr. do 2 f_equal.
  induction H as [|t r Ht Hr IH]; [reflexivity|].
  cbn [flat_map map]. rewrite IH. destruct t; [congruence|reflexivity].
Qed.

Lemma term_set_nonempty (T : list (list ascii)) :
  term_set T -> Forall (fun t => t <> []) T.
Proof.
  intros [H _]. eapply Forall_impl; [|exact H]. simpl. tauto.
Qed.

Lemma rendered_chars (t : list ascii) :
  chars (rendered t) = bracket_group [] (sorted Ascii.leb t) [].
Proof.
  unfold rendered, bracketed, bracket_group.
  change (chars ("[" ++ string_of_list_ascii (sorted Ascii.leb t) ++ "]"))
    with ("["%char
          :: chars (string_of_list_ascii (sorted Ascii.leb t) ++ "]")).
  rewrite chars_app. unfold chars at 1.
  now rewrite list_ascii_of_string_of_list_ascii.
Qed.

Lemma rendered_wf (t : list ascii) :
  t <> [] -> Forall (holds is_upper) t -> wf_group (rendered t).
Proof.
  intros Hne Hup. exists (sorted Ascii.leb t). split; [|split].
  - intros E. destruct t as [|c r]; [congruence|].
    assert (H : In c (sorted Ascii.leb (c :: r)))
      by (apply sorted_In; now left).
    rewrite E in H. exact H.
  - apply Forall_forall. intros c Hc. apply sorted_In in Hc.
    rewrite Forall_forall in Hup. now apply Hup.
  - apply rendered_chars.
Qed.

Lemma unbracket_rendered (t : list ascii) :
  unbracket (rendered t) = sorted Ascii.leb t.
Proof. apply unbracket_group, rendered_chars. Qed.

(** The enumeration of a term set does not matter to its pattern. *)
Lemma format_expr_invariant (T1 T2 : list (list ascii)) :
  term_set T1 -> term_set T2 -> same_terms T1 T2 ->
  AccessAnalyzer.format_expr T1 = AccessAnalyzer.format_expr T2.
Proof.
  intros H1 H2 [S1 S2].
  rewrite !format_expr_rendered by now apply term_set_nonempty.
  f_equal.
  apply (sorted_permutation String.leb String.leb_total string_leb_trans
           String.leb_antisym).
  change (map rendered T1)
    with (map (fun t => bracketed (string_of_list_ascii (sorted Ascii.leb t))) T1).
  change (map rendered T2)
    with (map (fun t => bracketed (string_of_list_ascii (sorted Ascii.leb t))) T2).
  rewrite <- !(map_map (sorted Ascii.leb)
                 (fun l => bracketed (string_of_list_ascii l))).
  apply Permutation_map.
  destruct H1 as [F1 N1], H2 as [F2 N2].
  rewrite Forall_forall in F1, F2.
  apply NoDup_Permutation; try assumption.
  intros x. rewrite !in_map_iff. split.
  - intros (t & <- & Ht). destruct (S1 t Ht) as (t' & Ht' & E).
    exists t'. split; [|assumption]. symmetry.
    apply canon_same; [apply F1|apply F2|]; assumption.
  - intros (t & <- & Ht). destruct (S2 t Ht) as (t' & Ht' & E).
    exists t'. split; [|assumption]. symmetry.
    apply canon_same; [apply F2|apply F1|]; assumption.
Qed.

(** The groups read back from a pattern are the terms it was made of. *)
Lemma findall_format_expr (T : list (list ascii)) :
  term_set T ->
  same_terms (bracket_findall (chars (AccessAnalyzer.format_expr T))) T.
Proof.
  intros HT. pose proof HT as [F N]. rewrite Forall_forall in F.
  rewrite format_expr_rendered by now apply term_set_nonempty.
  rewrite chars_concat, findall_concat_groups.
  2:{ apply Forall_forall. intros g Hg. apply sorted_In in Hg.
      apply in_map_iff in Hg as (t & <- & Ht).
      destruct (F t Ht) as (Hne & _ & Hup). now apply rendered_wf. }
  split.
  - intros x Hx. apply in_map_iff in Hx as (g & <- & Hg).
    apply sorted_In, in_map_iff in Hg as (t & <- & Ht).
    exists t. split; [assumption|]. rewrite unbracket_rendered.
    intros c. apply sorted_In.
  - intros t Ht. exists (sorted Ascii.leb t). split.
    + apply in_map_iff. exists (rendered t).
      split; [apply unbracket_rendered|].
      apply sorted_In, in_map_iff. eauto.
    + intros c. symmetry. apply sorted_In.
Qed.

Lemma parse_format_expr (T : list (list ascii)) :
  term_set T ->
  same_terms
    (AccessAnalyzer.parse_expr (Some (AccessAnalyzer.format_expr T))) T
  /\ AccessAnalyzer.format_expr
       (AccessAnalyzer.parse_expr (Some (AccessAnalyzer.format_expr T)))
     = AccessAnalyzer.format_expr T.
Proof.
  intros HT.
  destruct (parse_expr_facts (Some (AccessAnalyzer.format_expr T)))
    as [Hts Hst].
  assert (S : same_terms
                (AccessAnalyzer.parse_expr
                   (Some (AccessAnalyzer.format_expr T))) T).
  { eapply same_terms_trans; [exact Hst|]. now apply findall_format_expr. }
  split; [assumption|]. now apply format_expr_invariant.
Qed.

Lemma format_expr_injective (T1 T2 : list (list ascii)) :
  term_set T1 -> term_set T2 ->
  AccessAnalyzer.format_expr T1 = AccessAnalyzer.format_expr T2 ->
  same_terms T1 T2.
Proof.
  intros H1 H2 E.
  apply (same_terms_trans _
           (AccessAnalyzer.parse_expr (Some (AccessAnalyzer.format_expr T1)))).
  - apply same_terms_sym. now apply parse_format_expr.
  - rewrite E. now apply parse_format_expr.
Qed.

(** ** The cover of the pipeline as a term set *)

Lemma subcube_antisym (a b : Z) : subcube a b -> subcube b a -> a = b.
Proof. unfold subcube. intros H1 H2. rewrite <- H1, Z.land_comm. exact H2. Qed.

Lemma letters_injective (variables : list ascii) (t1 t2 : Z) :
  NoDup variables ->
  0 <= t1 < 2 ^ Z.of_nat (List.length variables) ->
  0 <= t2 < 2 ^ Z.of_nat (List.length variables) ->
  letters_of (t1, t1) variables = letters_of (t2, t2) variables -> t1 = t2.
Proof.
  intros Hnd H1 H2 E. apply subcube_antisym;
    apply (letters_incl_subcube variables); try assumption;
    intros c Hc; [rewrite <- E|rewrite E]; exact Hc.
Qed.

Lemma strict_sorted_leb (l : list ascii) :
  StronglySorted ascii_lt l -> Sorted (fun a b => Ascii.leb a b = true) l.
Proof.
  induction 1 as [|x r Hr IH Hx]; constructor; [assumption|].
  destruct r as [|y r']; constructor.
  inversion Hx as [|? ? Hxy _]; subst.
  apply ascii_leb_le. apply ascii_ltb_lt in Hxy. lia.
Qed.

Lemma letters_of_facts (imp : implicant) (variables : list ascii) :
  StronglySorted ascii_lt variables ->
  (forall c, In c variables -> is_upper c = true) ->
  NoDup (letters_of imp variables)
  /\ Forall (holds is_upper) (letters_of imp variables)
  /\ sorted Ascii.leb (letters_of imp variables) = letters_of imp variables.
Proof.
  intros Hs Hup. pose proof (letters_of_sorted imp variables Hs) as Hl.
  split; [now apply strict_NoDup|]. split.
  - apply Forall_forall. intros c Hc. apply Hup.
    apply letters_of_In in Hc as (i & Hi & _). now apply nth_error_In in Hi.
  - apply sorted_fixed. now apply strict_sorted_leb.
Qed.

(** The cover that the pipeline computes from minterms within range. *)
Lemma pipeline_cover_facts (minterms : list Z) (num_vars : nat) :
  Forall (fun m => 0 < m < 2 ^ Z.of_nat num_vars) minterms ->
  let cover :=
    essential_prime_implicant_cover (find_prime_implicants minterms)
      minterms num_vars in
  NoDup cover
  /\ (forall imp, In imp cover ->
        exists t, imp = (t, t) /\ In t minterms
                  /\ 0 < t < 2 ^ Z.of_nat num_vars)
  /\ (forall m, In m minterms ->
        exists t, In (t, t) cover /\ subcube t m).
Proof.
  intros Hr. cbv zeta.
  assert (Hr' : Forall (fun m => 0 <= m < 2 ^ Z.of_nat num_vars) minterms).
  { eapply Forall_impl; [|exact Hr]. simpl. intros; lia. }
  assert (Hn : Forall (fun m => 0 <= m) minterms).
  { eapply Forall_impl; [|exact Hr]. simpl. intros; lia. }
  destruct (find_prime_implicants_spec minterms Hn) as [Hs Hm].
  rewrite Forall_forall in Hr.
  split; [|split].
  - destruct minterms as [|m0 ms] eqn:Em; [constructor|]. rewrite <- Em in *.
    assert (Hne : minterms <> []) by (rewrite Em; discriminate).
    assert (Hp : find_prime_implicants minterms <> []).
    { destruct (exists_minimal minterms m0 Hn) as (m & Hmin & _);
        [rewrite Em; now left|].
      apply Hm in Hmin. intros E. rewrite E in Hmin. exact Hmin. }
    rewrite (pc_result _ _ _ Hr' Hs Hm Hp Hne).
    apply essential_fold_tight; [constructor|intros x []].
  - intros imp Himp. apply essential_cover_incl in Himp.
    destruct imp as [t mk]. apply Hs in Himp as [-> Ht].
    exists t. auto.
  - intros m Hmin.
    exact (essential_cover_complete _ _ _ Hr' Hs Hm m Hmin).
Qed.

Lemma compute_kmap_as_pattern (base_expr reset_expr : option string) :
  exists T,
    term_set T
    /\ compute_kmap base_expr reset_expr = AccessAnalyzer.format_expr T
    /\ ((List.length (variables_of base_expr reset_expr) <= 6)%nat ->
        T = map (fun imp => letters_of imp (variables_of base_expr reset_expr))
              (essential_prime_implicant_cover
                 (find_prime_implicants (kmap_minterms base_expr reset_expr))
                 (kmap_minterms base_expr reset_expr)
                 (List.length (variables_of base_expr reset_expr)))).
Proof.
  set (variables := variables_of base_expr reset_expr).
  destruct (Nat.le_gt_cases (List.length variables) 6) as [Hsmall|Hbig].
  2:{ exists []. split; [split; constructor|]. split; [|intros; lia].
      unfold compute_kmap.
      destruct (all_vars_of base_expr reset_expr); [reflexivity|].
      unfold minimize_karnaugh.
      destruct (kmap_minterms base_expr reset_expr); [reflexivity|].
      fold variables.
      destruct (Nat.ltb_spec 6 (List.length variables)); [reflexivity|lia]. }
  destruct (variables_of_facts base_expr reset_expr) as (Hs & Hnd & _).
  fold variables in Hs, Hnd.
  assert (Hup : forall c, In c variables -> is_upper c = true)
    by apply variables_of_upper.
  destruct (pipeline_cover_facts _ _ (kmap_minterms_range base_expr reset_expr))
    as (Hcn & Hcs & _).
  fold variables in Hcn, Hcs.
  set (cover := essential_prime_implicant_cover _ _ _) in *.
  exists (map (fun imp => letters_of imp variables) cover).
  assert (Hne : forall imp, In imp cover -> letters_of imp variables <> []).
  { intros imp Himp. destruct (Hcs imp Himp) as (t & -> & _ & Ht).
    now apply letters_of_nonzero. }
  split; [|split; [|reflexivity]].
  - split.
    + apply Forall_forall. intros l Hl.
      apply in_map_iff in Hl as (imp & <- & Himp).
      split; [now apply Hne|].
      destruct (letters_of_facts imp variables Hs Hup) as (H1 & H2 & _). auto.
    + rewrite map_map.
      rewrite (map_ext_in _ (fun imp => letters_of imp variables)).
      2:{ intros imp _. now apply letters_of_facts. }
      clear Hne. induction Hcn as [|imp r Hnin Hr IH]; [constructor|].
      simpl. constructor.
      * intros Hin. apply in_map_iff in Hin as (imp' & E & Himp').
        destruct (Hcs imp (or_introl eq_refl)) as (t & -> & _ & Ht).
        destruct (Hcs imp' (or_intror Himp')) as (t' & -> & _ & Ht').
        apply letters_injective in E; [|assumption|lia|lia].
        subst t'. contradiction.
      * apply IH. intros imp' Himp'. apply Hcs. now right.
  - fold variables. rewrite compute_kmap_unfold by assumption.
    fold variables cover.
    rewrite format_expr_rendered.
    2:{ apply Forall_forall. intros l Hl.
        apply in_map_iff in Hl as (imp & <- & Himp). now apply Hne. }
    unfold format_cover. rewrite rendered_terms_filter. do 2 f_equal.
    rewrite map_map.
    assert (E : map (fun pi => implicant_to_expr pi variables) cover
                = map (fun imp => rendered (letters_of imp variables)) cover).
    { apply map_ext_in. intros imp Himp. apply chars_injective.
      destruct (rendered_group imp variables (Hne imp Himp)) as [-> _].
      rewrite rendered_chars.
      now destruct (letters_of_facts imp variables Hs Hup) as (_ & _ & ->). }
    rewrite E. apply forallb_filter_id. apply forallb_forall.
    intros g Hg. apply in_map_iff in Hg as (imp & <- & _). reflexivity.
Qed.

(** X14: the output of the pipeline is a pattern of the analyzer: reading it
    with [parse_expr] and formatting the terms gives the output back. *)
Theorem kmap_output_is_pattern (base_expr reset_expr : option string) :
  AccessAnalyzer.format_expr
    (AccessAnalyzer.parse_expr (Some (compute_kmap base_expr reset_expr)))
  = compute_kmap base_expr reset_expr.
Proof.
  destruct (compute_kmap_as_pattern base_expr reset_expr) as (T & HT & E & _).
  rewrite E. now apply parse_format_expr.
Qed.

(** ** Access by a set of factors *)

Lemma parse_terms_parse_expr (expr : option string) :
  FactorAnalyzer.parse_terms expr = AccessAnalyzer.parse_expr expr.
Proof. reflexivity. Qed.

Lemma accessible_spec (terms : list (list ascii)) (c : list ascii) :
  FactorAnalyzer.accessible terms c = true
  <-> exists term, In term terms /\ incl term c.
Proof.
  unfold FactorAnalyzer.accessible. destruct terms as [|t r].
  - split; [discriminate|]. intros (term & [] & _).
  - rewrite existsb_exists. split; intros (term & H1 & H2); exists term;
      (split; [assumption|]); now apply TermSet_subset_incl.
Qed.

Lemma accessible_same_terms (T1 T2 : list (list ascii)) (c : list ascii) :
  same_terms T1 T2 ->
  ((exists term, In term T1 /\ incl term c)
   <-> exists term, In term T2 /\ incl term c).
Proof.
  intros [S1 S2]. split; intros (t & Ht & Hi).
  - destruct (S1 t Ht) as (t' & Ht' & E). exists t'. split; [assumption|].
    intros x Hx. apply Hi. now apply E.
  - destruct (S2 t Ht) as (t' & Ht' & E). exists t'. split; [assumption|].
    intros x Hx. apply Hi. now apply E.
Qed.

Lemma indicator_facts (variables : list ascii) (member : ascii -> bool) :
  0 <= indicator variables member < 2 ^ Z.of_nat (List.length variables)
  /\ forall f, has_factor variables (indicator variables member) f
       <-> In f variables /\ member f = true.
Proof.
  unfold indicator.
  set (a := map (fun v => if member v then 1 else 0) variables).
  assert (Hl : List.length variables = List.length a)
    by (unfold a; now rewrite length_map).
  assert (Hb : Forall is_bit a).
  { unfold a. apply Forall_forall. intros v Hv.
    apply in_map_iff in Hv as (x & <- & _).
    destruct (member x); [now right|now left]. }
  split; [rewrite Hl; now apply value_range|].
  intros f. rewrite <- (at_one_has_factor variables a f Hl Hb).
  unfold at_one. split.
  - intros (i & Hi & Hv). split; [now apply nth_error_In in Hi|].
    unfold a in Hv. rewrite nth_error_map, Hi in Hv. simpl in Hv.
    destruct (member f); [reflexivity|discriminate].
  - intros [Hin Hm]. apply In_nth_error in Hin as (i & Hi).
    exists i. split; [assumption|].
    unfold a. rewrite nth_error_map, Hi. simpl. now rewrite Hm.
Qed.

(** X13: what the output of the pipeline grants: over at most six variables,
    a factor set [c] is accessible for the output, by the test of the factor
    analyzer, exactly when some base term has each factor either in [c] (and
    other than P when a reset expression is given) or equal to P with some
    reset term whose factors are all in [c] and other than P. *)
Theorem kmap_access_semantics (base_expr reset_expr : option string)
    (c : list ascii) :
  (List.length (variables_of base_expr reset_expr) <= 6)%nat ->
  (FactorAnalyzer.accessible
     (FactorAnalyzer.parse_terms (Some (compute_kmap base_expr reset_expr))) c
   = true
   <-> exists term,
         In term (terms_of base_expr)
         /\ forall f, In f term ->
              (In f c /\ (is_falsy reset_expr = false -> f <> "P"%char))
              \/ (f = "P"%char
                  /\ exists rt,
                       In rt (terms_of reset_expr)
                       /\ forall g, In g rt -> In g c /\ g <> "P"%char)).
Proof.
  intros Hsmall. set (variables := variables_of base_expr reset_expr).
  rewrite parse_terms_parse_expr, accessible_spec.
  destruct (compute_kmap_as_pattern base_expr reset_expr) as (T & HT & E & ET).
  specialize (ET Hsmall). fold variables in ET.
  destruct (parse_expr_facts (Some (compute_kmap base_expr reset_expr)))
    as [_ Hst].
  cbn [text_of] in Hst.
  rewrite (accessible_same_terms _ _ c Hst).
  rewrite E, (accessible_same_terms _ _ c (findall_format_expr T HT)).
  destruct (pipeline_cover_facts _ _ (kmap_minterms_range base_expr reset_expr))
    as (_ & Hcs & Hcc).
  fold variables in Hcs, Hcc.
  set (cover := essential_prime_implicant_cover _ _ _) in *.
  destruct (variables_of_facts base_expr reset_expr) as (_ & Hnd & Hvin).
  fold variables in Hnd, Hvin.
  assert (Hbase : forall term f, In term (terms_of base_expr) -> In f term ->
            In f variables).
  { intros term f Ht Hf. apply Hvin. left.
    now apply (terms_of_facts base_expr term Ht). }
  assert (Hreset : forall term f, In term (terms_of reset_expr) -> In f term ->
            In f variables).
  { intros term f Ht Hf. apply Hvin. right.
    now apply (terms_of_facts reset_expr term Ht). }
  split.
  - intros (l & Hl & Hincl). subst T.
    apply in_map_iff in Hl as (imp & <- & Himp).
    destruct (Hcs imp Himp) as (t & -> & Ht & _).
    apply reset_substitution_facts in Ht as (_ & HnP & term & Hterm & Hall).
    fold variables in HnP, Hall.
    assert (Hc : forall f, has_factor variables t f -> In f c).
    { intros f Hf. apply Hincl. now apply letters_has_factor. }
    exists term. split; [assumption|]. intros f Hf.
    destruct (Hall f Hf) as [H|[-> (rt & Hrt & Hg)]].
    + left. split; [now apply Hc|]. intros Er ->. now apply HnP.
    + right. split; [reflexivity|]. exists rt. split; [assumption|].
      intros g Hgin. split; [apply Hc; now apply Hg|].
      intros ->. apply HnP; [|now apply Hg].
      destruct (is_falsy reset_expr) eqn:Er; [|reflexivity].
      rewrite (terms_of_falsy _ Er) in Hrt. destruct Hrt.
  - intros (term & Hterm & Hall).
    set (member := fun v : ascii =>
                     CharSet.mem v c
                     && (is_falsy reset_expr || negb (Ascii.eqb v "P"))).
    destruct (indicator_facts variables member) as [Hir Hif].
    set (m := indicator variables member) in *.
    assert (Hmem : forall f, In f c ->
              (is_falsy reset_expr = false -> f <> "P"%char) ->
              member f = true).
    { intros f Hf Hp. unfold member. apply andb_true_iff. split.
      - now apply CharSet_mem_In.
      - destruct (is_falsy reset_expr); [reflexivity|]. simpl.
        apply negb_true_iff. destruct (Ascii.eqb_spec f "P"); [|reflexivity].
        now apply Hp in e. }
    assert (Hm : In m (kmap_minterms base_expr reset_expr)).
    { apply reset_substitution_facts. fold variables.
      split; [assumption|]. split.
      - intros Er Hp. apply Hif in Hp as [_ Hp]. unfold member in Hp.
        rewrite Er in Hp. simpl in Hp. now rewrite andb_false_r in Hp.
      - exists term. split; [assumption|]. intros f Hf.
        destruct (Hall f Hf) as [[H1 H2]|[-> (rt & Hrt & Hg)]].
        + left. apply Hif. split; [now apply (Hbase term)|now apply Hmem].
        + right. split; [reflexivity|]. exists rt. split; [assumption|].
          intros g Hgin. destruct (Hg g Hgin) as [G1 G2].
          apply Hif. split; [now apply (Hreset rt)|]. now apply Hmem. }
    destruct (Hcc m Hm) as (t & Ht & Hsub).
    exists (letters_of (t, t) variables). split.
    + subst T. apply in_map_iff. now exists (t, t).
    + intros f Hf. apply letters_has_factor in Hf.
      apply (has_factor_mono variables t m) in Hf; [|assumption].
      apply Hif in Hf as [_ Hf]. unfold member in Hf.
      apply andb_true_iff in Hf as [Hf _]. now apply CharSet_mem_In.
Qed.

Lemma kmap_access_semantics_witness :
  FactorAnalyzer.accessible
    (FactorAnalyzer.parse_terms
       (Some (compute_kmap (Some "[AP]"%string) (Some "[B]"%string))))
    ["A"; "B"]%char
  = true
  <-> exists term,
        In term (terms_of (Some "[AP]"%string))
        /\ forall f, In f term ->
             (In f ["A"; "B"]%char
              /\ (is_falsy (Some "[B]"%string) = false -> f <> "P"%char))
             \/ (f = "P"%char
                 /\ exists rt,
                      In rt (terms_of (Some "[B]"%string))
                      /\ forall g, In g rt ->
                           In g ["A"; "B"]%char /\ g <> "P"%char).
Proof.
  apply (kmap_access_semantics (Some "[AP]"%string) (Some "[B]"%string)
           ["A"; "B"]%char).
  vm_compute. lia.
Defined.

(** ** The pass over the CSV file *)

Lemma StringSet_mem_In (x : string) (s : list string) :
  StringSet.mem x s = true <-> In x s.
Proof.
  unfold StringSet.mem. rewrite existsb_exists. split.
  - intros (y & Hy & E). apply String.eqb_eq in E. now subst.
  - intros H. exists x. split; [assumption|apply String.eqb_refl].
Qed.

Lemma string_eqb_iff (a b : string) : String.eqb a b = true <-> a = b.
Proof. apply String.eqb_eq. Qed.

Lemma compute_kmap_absent (e1 e2 : option string) :
  compute_kmap e1 e2
  = compute_kmap
      (Some match e1 with Some s => s | None => EmptyString end)
      (Some match e2 with Some s => s | None => EmptyString end).
Proof. destruct e1, e2; reflexivity. Qed.

Lemma output_fieldnames_facts (fieldnames : list string) :
  (exists extra, output_fieldnames fieldnames = fieldnames ++ extra)
  /\ In "Kmap1FA"%string (output_fieldnames fieldnames)
  /\ In "Kmap2FA"%string (output_fieldnames fieldnames)
  /\ (forall k, In k (output_fieldnames fieldnames) ->
        In k fieldnames \/ k = "Kmap1FA"%string \/ k = "Kmap2FA"%string)
  /\ (NoDup fieldnames -> NoDup (output_fieldnames fieldnames))
  /\ output_fieldnames (output_fieldnames fieldnames)
     = output_fieldnames fieldnames.
Proof.
  unfold output_fieldnames. simpl.
  destruct (StringSet.mem "Kmap1FA" fieldnames) eqn:E1.
  - destruct (StringSet.mem "Kmap2FA" fieldnames) eqn:E2.
    + apply StringSet_mem_In in E1 as H1. apply StringSet_mem_In in E2 as H2.
      repeat split; auto.
      * exists []. now rewrite app_nil_r.
      * now rewrite E1, E2.
    + apply StringSet_mem_In in E1 as H1.
      assert (M1 : StringSet.mem "Kmap1FA" (fieldnames ++ ["Kmap2FA"%string])
                   = true)
        by (apply StringSet_mem_In, in_app_iff; now left).
      assert (M2 : StringSet.mem "Kmap2FA" (fieldnames ++ ["Kmap2FA"%string])
                   = true)
        by (apply StringSet_mem_In, in_app_iff; right; now left).
      repeat split.
      * eauto.
      * apply in_app_iff. now left.
      * apply in_app_iff. right. now left.
      * intros k Hk. apply in_app_iff in Hk as [Hk|[<-|[]]]; auto.
      * intros Hnd. apply NoDup_app; [assumption|repeat constructor; intros []|].
        intros x Hx [<-|[]]. apply StringSet_mem_In in Hx. congruence.
      * now rewrite M1, M2.
  - assert (M1 : StringSet.mem "Kmap1FA" (fieldnames ++ ["Kmap1FA"%string])
                 = true)
      by (apply StringSet_mem_In, in_app_iff; right; now left).
    destruct (StringSet.mem "Kmap2FA" (fieldnames ++ ["Kmap1FA"%string]))
      eqn:E2.
    + apply StringSet_mem_In in E2 as H2.
      repeat split.
      * eauto.
      * apply in_app_iff. right. now left.
      * assumption.
      * intros k Hk. apply in_app_iff in Hk as [Hk|[<-|[]]]; auto.
      * intros Hnd. apply NoDup_app; [assumption|repeat constructor; intros []|].
        intros x Hx [<-|[]]. apply StringSet_mem_In in Hx. congruence.
      * now rewrite M1, E2.
    + assert (N1 : StringSet.mem "Kmap1FA"
                     ((fieldnames ++ ["Kmap1FA"%string]) ++ ["Kmap2FA"%string])
                   = true).
      { apply StringSet_mem_In. rewrite !in_app_iff. left. right. now left. }
      assert (N2 : StringSet.mem "Kmap2FA"
                     ((fieldnames ++ ["Kmap1FA"%string]) ++ ["Kmap2FA"%string])
                   = true).
      { apply StringSet_mem_In. rewrite !in_app_iff. right. now left. }
      repeat split.
      * exists ["Kmap1FA"; "Kmap2FA"]%string. now rewrite <- app_assoc.
      * rewrite !in_app_iff. left. right. now left.
      * rewrite !in_app_iff. right. now left.
      * intros k Hk. rewrite !in_app_iff in Hk.
        destruct Hk as [[Hk|[<-|[]]]|[<-|[]]]; auto.
      * intros Hnd. apply NoDup_app.
        -- apply NoDup_app; [assumption|repeat constructor; intros []|].
           intros x Hx [<-|[]]. apply StringSet_mem_In in Hx. congruence.
        -- repeat constructor; intros [].
        -- intros x Hx [<-|[]]. apply StringSet_mem_In in Hx. congruence.
      * now rewrite N1, N2.
Qed.

Section DictGet.
Context {K V : Type} (keq : K -> K -> bool).
Hypothesis keq_eq : forall a b, keq a b = true <-> a = b.

Lemma Dict_get_set (k k' : K) (v : V) (d : list (K * V)) :
  Dict.get keq k (Dict.set keq k' v d)
  = if keq k k' then Some v else Dict.get keq k d.
Proof.
  induction d as [|[k0 v0] r IH]; simpl.
  - reflexivity.
  - destruct (keq k' k0) eqn:E; simpl.
    + apply keq_eq in E. subst k0. now destruct (keq k k').
    + destruct (keq k k0) eqn:E0.
      * apply keq_eq in E0. subst k0.
        destruct (keq k k') eqn:E1; [|reflexivity].
        apply keq_eq in E1. subst k'.
        assert (keq k k = true) by now apply keq_eq. congruence.
      * exact IH.
Qed.

Lemma Dict_get_None (k : K) (d : list (K * V)) :
  Dict.get keq k d = None <-> ~ In k (map fst d).
Proof.
  induction d as [|[k0 v0] r IH]; simpl; [tauto|].
  destruct (keq k k0) eqn:E.
  - apply keq_eq in E. subst. split; [discriminate|]. intros H. exfalso. auto.
  - rewrite IH. split.
    + intros H [H'|H']; [|contradiction]. subst k0.
      assert (keq k k = true) by now apply keq_eq. congruence.
    + intros H H'. apply H. now right.
Qed.
End DictGet.

Lemma zipped_get (fieldnames record : list string)
    (d : list (string * option string)) (k : string) :
  NoDup fieldnames ->
  Dict.get String.eqb k
    (fold_left (fun d kv => Dict.set String.eqb (fst kv) (Some (snd kv)) d)
       (combine fieldnames record) d)
  = if StringSet.mem k (firstn (List.length record) fieldnames)
    then Some (Some (lookup fieldnames record k))
    else Dict.get String.eqb k d.
Proof.
  intros Hnd. revert record d.
  induction Hnd as [|f F Hf HF IH]; intros record d.
  - simpl. now rewrite firstn_nil.
  - destruct record as [|v record]; [reflexivity|].
    cbn [combine fold_left fst snd List.length firstn lookup].
    rewrite IH. unfold StringSet.mem at 2. cbn [existsb].
    fold (StringSet.mem k (firstn (List.length record) F)).
    rewrite (Dict_get_set String.eqb string_eqb_iff).
    destruct (String.eqb_spec k f) as [->|Hne].
    + destruct (StringSet.mem f (firstn (List.length record) F)) eqn:E;
        [|reflexivity].
      apply StringSet_mem_In in E. exfalso. apply Hf.
      rewrite <- (firstn_skipn (List.length record) F).
      apply in_app_iff. now left.
    + reflexivity.
Qed.

Lemma padded_get (keys : list string) (d : list (string * option string))
    (k : string) :
  Dict.get String.eqb k
    (fold_left (fun d key => Dict.set String.eqb key None d) keys d)
  = if StringSet.mem k keys then Some None else Dict.get String.eqb k d.
Proof.
  revert d. induction keys as [|key r IH]; intros d; simpl; [reflexivity|].
  rewrite IH, (Dict_get_set String.eqb string_eqb_iff).
  unfold StringSet.mem at 2. cbn [existsb].
  fold (StringSet.mem k r).
  destruct (StringSet.mem k r); [now rewrite orb_true_r|].
  rewrite orb_false_r. reflexivity.
Qed.

Lemma lookup_absent (fieldnames record : list string) (k : string) :
  ~ In k (firstn (List.length record) fieldnames) ->
  lookup fieldnames record k = EmptyString.
Proof.
  revert record. induction fieldnames as [|f F IH]; intros record H;
    [reflexivity|].
  destruct record as [|v record]; [reflexivity|].
  simpl in *. destruct (String.eqb_spec k f) as [->|Hne].
  - exfalso. apply H. now left.
  - apply IH. intros Hin. apply H. now right.
Qed.

Lemma spelled_read_row (fieldnames record : list string) (k : string) :
  NoDup fieldnames ->
  spelled (Csv.read_row fieldnames record) k = lookup fieldnames record k.
Proof.
  intros Hnd. unfold spelled, Csv.read_row.
  destruct (Nat.ltb (List.length fieldnames) (List.length record)); simpl.
  - rewrite (zipped_get _ _ _ _ Hnd). simpl.
    destruct (StringSet.mem k (firstn (List.length record) fieldnames)) eqn:E;
      [reflexivity|].
    symmetry. apply lookup_absent. intros H. apply StringSet_mem_In in H.
    congruence.
  - rewrite padded_get, (zipped_get _ _ _ _ Hnd). simpl.
    destruct (StringSet.mem k (firstn (List.length record) fieldnames)) eqn:E.
    + destruct (StringSet.mem k (skipn (List.length record) fieldnames)) eqn:E';
        [|reflexivity].
      apply StringSet_mem_In in E, E'. exfalso.
      rewrite <- (firstn_skipn (List.length record) fieldnames) in Hnd.
      apply NoDup_app_remove_l in Hnd as Hn2.
      revert E E'. clear -Hnd. intros E E'.
      induction (firstn (List.length record) fieldnames) as [|a r IH];
        [destruct E|].
      simpl in Hnd. inversion Hnd as [|? ? Ha Hr]; subst.
      destruct E as [->|E]; [|now apply IH].
      apply Ha. apply in_app_iff. now right.
    + assert (L : lookup fieldnames record k = EmptyString).
      { apply lookup_absent. intros H. apply StringSet_mem_In in H.
        congruence. }
      rewrite L.
      now destruct (StringSet.mem k (skipn (List.length record) fieldnames)).
Qed.

Lemma zipped_keys (fieldnames record : list string)
    (d : list (string * option string)) (k : string) :
  In k (map fst
          (fold_left
             (fun d kv => Dict.set String.eqb (fst kv) (Some (snd kv)) d)
             (combine fieldnames record) d)) ->
  In k (map fst d) \/ In k fieldnames.
Proof.
  revert record d. induction fieldnames as [|f F IH]; intros record d H;
    [simpl in H; auto|].
  destruct record as [|v record]; [simpl in H; auto|].
  cbn [combine fold_left fst snd] in H.
  apply IH in H as [H|H]; [|right; now right].
  apply (Dict_set_keys String.eqb string_eqb_iff) in H as [->|H];
    [right; now left|now left].
Qed.

Lemma padded_keys (keys : list string) (d : list (string * option string))
    (k : string) :
  In k (map fst
          (fold_left (fun d key => Dict.set String.eqb key None d) keys d)) ->
  In k (map fst d) \/ In k keys.
Proof.
  revert d. induction keys as [|key r IH]; intros d H; simpl in *; [auto|].
  apply IH in H as [H|H]; [|auto].
  apply (Dict_set_keys String.eqb string_eqb_iff) in H as [->|H]; auto.
Qed.

Lemma read_row_keys (fieldnames record : list string) (k : string) :
  In k (map fst (Csv.fields (Csv.read_row fieldnames record))) ->
  In k fieldnames.
Proof.
  unfold Csv.read_row.
  destruct (Nat.ltb (List.length fieldnames) (List.length record)); simpl;
    intros H.
  - apply zipped_keys in H as [[]|H]. exact H.
  - apply padded_keys in H as [H|H].
    + apply zipped_keys in H as [[]|H]. exact H.
    + rewrite <- (firstn_skipn (List.length record) fieldnames).
      apply in_app_iff. now right.
Qed.

Lemma read_row_rest (fieldnames record : list string) :
  Csv.rest (Csv.read_row fieldnames record) = None
  <-> (List.length record <= List.length fieldnames)%nat.
Proof.
  unfold Csv.read_row.
  destruct (Nat.ltb_spec (List.length fieldnames) (List.length record));
    simpl; split; intros; try lia; try discriminate; reflexivity.
Qed.

Lemma spelled_set (key value : string) (r : Csv.row) (k : string) :
  spelled (Csv.set key value r) k
  = if String.eqb k key then value else spelled r k.
Proof.
  unfold spelled, Csv.set. simpl.
  rewrite (Dict_get_set String.eqb string_eqb_iff).
  now destruct (String.eqb k key).
Qed.

Lemma kmap_of_row (r : Csv.row) (a b : string) :
  compute_kmap (Csv.get a r) (Csv.get b r)
  = compute_kmap (Some (spelled r a)) (Some (spelled r b)).
Proof.
  rewrite compute_kmap_absent. unfold Csv.get, spelled.
  destruct (Dict.get String.eqb a (Csv.fields r)) as [[?|]|],
    (Dict.get String.eqb b (Csv.fields r)) as [[?|]|]; reflexivity.
Qed.

Lemma spelled_add_kmaps (r : Csv.row) (k : string) :
  spelled (add_kmaps r) k = with_kmaps (spelled r) k.
Proof.
  unfold add_kmaps, with_kmaps. rewrite spelled_set, kmap_of_row.
  rewrite !spelled_set, kmap_of_row. reflexivity.
Qed.

Lemma add_kmaps_keys (r : Csv.row) (k : string) :
  In k (map fst (Csv.fields (add_kmaps r))) ->
  In k (map fst (Csv.fields r)) \/ k = "Kmap1FA"%string \/ k = "Kmap2FA"%string.
Proof.
  unfold add_kmaps, Csv.set. simpl. intros H.
  apply (Dict_set_keys String.eqb string_eqb_iff) in H as [->|H]; [auto|].
  apply (Dict_set_keys String.eqb string_eqb_iff) in H as [->|H]; auto.
Qed.

Lemma add_kmaps_rest (r : Csv.row) : Csv.rest (add_kmaps r) = Csv.rest r.
Proof. reflexivity. Qed.

Lemma write_row_spec (fieldnames : list string) (r : Csv.row) :
  (forall k, In k (map fst (Csv.fields r)) -> In k fieldnames) ->
  Csv.write_row fieldnames r
  = match Csv.rest r with
    | Some _ => None
    | None => Some (map (spelled r) fieldnames)
    end.
Proof.
  intros Hk. unfold Csv.write_row.
  assert (E : existsb (fun k => negb (StringSet.mem k fieldnames))
                (map fst (Csv.fields r)) = false).
  { rewrite <- not_true_iff_false. intros H.
    apply existsb_exists in H as (k & Hin & Hn).
    apply negb_true_iff in Hn. apply Hk, StringSet_mem_In in Hin. congruence. }
  rewrite E. cbn [orb]. destruct (Csv.rest r); reflexivity.
Qed.

(** One row of the output. *)
Lemma row_written (in_fieldnames record : list string) :
  NoDup in_fieldnames ->
  Csv.write_row (output_fieldnames in_fieldnames)
    (add_kmaps (Csv.read_row in_fieldnames record))
  = if Nat.leb (List.length record) (List.length in_fieldnames)
    then
      Some
        (map (with_kmaps (lookup in_fieldnames record))
           (output_fieldnames in_fieldnames))
    else None.
Proof.
  intros Hnd. rewrite write_row_spec.
  - rewrite add_kmaps_rest.
    destruct (Nat.leb_spec (List.length record) (List.length in_fieldnames))
      as [Hle|Hgt].
    + rewrite (proj2 (read_row_rest _ _) Hle). f_equal.
      apply map_ext. intros k. rewrite spelled_add_kmaps.
      unfold with_kmaps. now rewrite !spelled_read_row.
    + destruct (Csv.rest (Csv.read_row in_fieldnames record)) eqn:E;
        [reflexivity|].
      apply read_row_rest in E. lia.
  - intros k Hk.
    destruct (output_fieldnames_facts in_fieldnames)
      as ((extra & E) & H1 & H2 & _).
    apply add_kmaps_keys in Hk as [Hk|[->| ->]]; try assumption.
    apply read_row_keys in Hk. rewrite E. apply in_app_iff. now left.
Qed.

Lemma generate_rows_fitting (in_fieldnames : list string)
    (records written : list (list string)) :
  NoDup in_fieldnames ->
  Forall (fits in_fieldnames) records ->
  generate_rows in_fieldnames (output_fieldnames in_fieldnames) records written
  = Written
      (rev written ++ map (row_of in_fieldnames) (filter nonblank records)).
Proof.
  intros Hnd H. revert written.
  induction H as [|rec r Hrec Hr IH]; intros written.
  - simpl. now rewrite app_nil_r.
  - destruct rec as [|v rec]; [apply IH|].
    cbn [generate_rows filter nonblank map].
    rewrite (row_written _ _ Hnd).
    destruct (Nat.leb_spec (List.length (v :: rec)) (List.length in_fieldnames))
      as [_|Hgt]; [|unfold fits in Hrec; lia].
    rewrite IH. simpl. now rewrite <- app_assoc.
Qed.

Lemma generate_rows_long (in_fieldnames : list string)
    (pre : list (list string)) (long : list string)
    (post written : list (list string)) :
  NoDup in_fieldnames ->
  Forall (fits in_fieldnames) pre -> ~ fits in_fieldnames long ->
  generate_rows in_fieldnames (output_fieldnames in_fieldnames)
    (pre ++ long :: post) written
  = ValueError
      (rev written ++ map (row_of in_fieldnames) (filter nonblank pre)).
Proof.
  intros Hnd H Hlong. revert written.
  induction H as [|rec r Hrec Hr IH]; intros written.
  - simpl. rewrite app_nil_r.
    destruct long as [|v long]; [unfold fits in Hlong; simpl in Hlong; lia|].
    rewrite (row_written _ _ Hnd).
    destruct (Nat.leb_spec (List.length (v :: long)) (List.length in_fieldnames))
      as [Hle|_]; [contradiction|reflexivity].
  - rewrite <- app_comm_cons.
    destruct rec as [|v rec]; [apply IH|].
    cbn [generate_rows filter nonblank map].
    rewrite (row_written _ _ Hnd).
    destruct (Nat.leb_spec (List.length (v :: rec)) (List.length in_fieldnames))
      as [_|Hgt]; [|unfold fits in Hrec; lia].
    rewrite IH. simpl. now rewrite <- app_assoc.
Qed.

Lemma first_long (in_fieldnames : list string) (records : list (list string)) :
  Forall (fits in_fieldnames) records
  \/ exists pre long post,
       records = pre ++ long :: post
       /\ Forall (fits in_fieldnames) pre /\ ~ fits in_fieldnames long.
Proof.
  induction records as [|rec r IH]; [left; constructor|].
  destruct (le_dec (List.length rec) (List.length in_fieldnames)) as [Hle|Hgt].
  - destruct IH as [IH|(pre & long & post & -> & Hp & Hl)].
    + left. now constructor.
    + right. exists (rec :: pre), long, post. repeat split; auto.
  - right. exists [], rec, r. repeat split; auto.
Qed.

Lemma missing_none (in_fieldnames : list string) :
  filter (fun c => negb (StringSet.mem c in_fieldnames)) required = []
  <-> forall c, In c required -> In c in_fieldnames.
Proof.
  split.
  - intros E c Hc. destruct (StringSet.mem c in_fieldnames) eqn:M;
      [now apply StringSet_mem_In|].
    assert (H : In c (filter (fun c => negb (StringSet.mem c in_fieldnames))
                        required)).
    { apply filter_In. split; [assumption|]. now rewrite M. }
    rewrite E in H. destruct H.
  - intros H.
    destruct (filter (fun c => negb (StringSet.mem c in_fieldnames)) required)
      as [|c r] eqn:E; [reflexivity|].
    assert (Hc : In c (filter (fun c => negb (StringSet.mem c in_fieldnames))
                         required)) by (rewrite E; now left).
    apply filter_In in Hc as [Hc Hn]. apply H, StringSet_mem_In in Hc.
    rewrite Hc in Hn. discriminate.
Qed.

Lemma generate_unfold (in_fieldnames : list string)
    (records : list (list string)) :
  in_fieldnames <> [] ->
  (forall c, In c required -> In c in_fieldnames) ->
  generate (in_fieldnames :: records)
  = generate_rows in_fieldnames (output_fieldnames in_fieldnames) records
      [output_fieldnames in_fieldnames].
Proof.
  intros Hne Hreq. unfold generate.
  destruct in_fieldnames as [|f F]; [congruence|].
  now rewrite (proj2 (missing_none (f :: F)) Hreq).
Qed.

Lemma lookup_map (fieldnames : list string) (g : string -> string)
    (k : string) :
  In k fieldnames -> lookup fieldnames (map g fieldnames) k = g k.
Proof.
  induction fieldnames as [|f F IH]; intros H; [destruct H|].
  simpl. destruct (String.eqb_spec k f) as [->|Hne]; [reflexivity|].
  destruct H as [->|H]; [congruence|auto].
Qed.

Lemma row_of_fixed (in_fieldnames record : list string) :
  (forall c, In c required -> In c in_fieldnames) ->
  row_of (output_fieldnames in_fieldnames) (row_of in_fieldnames record)
  = row_of in_fieldnames record.
Proof.
  intros Hreq. unfold row_of at 1.
  destruct (output_fieldnames_facts in_fieldnames)
    as ((extra & E) & _ & _ & _ & _ & Hfix).
  rewrite Hfix. unfold row_of. apply map_ext_in. intros k Hk.
  set (Fo := output_fieldnames in_fieldnames) in *.
  set (w := with_kmaps (lookup in_fieldnames record)).
  assert (Hin : forall c, In c required -> In c Fo).
  { intros c Hc. rewrite E. apply in_app_iff. left. now apply Hreq. }
  assert (L : forall c, In c Fo -> lookup Fo (map w Fo) c = w c)
    by (intros c; apply lookup_map).
  unfold with_kmaps at 1.
  rewrite !L by (assumption || (apply Hin; simpl; tauto)).
  unfold w, with_kmaps.
  destruct (String.eqb k "Kmap2FA"); [reflexivity|].
  destruct (String.eqb k "Kmap1FA"); reflexivity.
Qed.

Lemma generate_fitting (in_fieldnames : list string)
    (records : list (list string)) :
  NoDup in_fieldnames -> in_fieldnames <> [] ->
  (forall c, In c required -> In c in_fieldnames) ->
  Forall (fits in_fieldnames) records ->
  generate (in_fieldnames :: records)
  = Written
      (output_fieldnames in_fieldnames
       :: map (row_of in_fieldnames) (filter nonblank records)).
Proof.
  intros Hnd Hne Hreq Hfit. rewrite generate_unfold by assumption.
  now rewrite generate_rows_fitting.
Qed.

(** X22: the normal run of [generate]: with a duplicate-free header that
    holds the five required columns and no record longer than the header,
    the output is the header followed by the two computed columns it lacks
    and one record for each record that is not blank: the fields of the
    input under their columns (the empty string where the record is short),
    and under Kmap1FA and Kmap2FA the minimisation of the columns 1FA with
    Reset1FA and 2FA with Reset2FA. *)
Theorem generate_written (in_fieldnames : list string)
    (records : list (list string)) :
  NoDup in_fieldnames -> in_fieldnames <> [] ->
  (forall c, In c required -> In c in_fieldnames) ->
  Forall (fits in_fieldnames) records ->
  exists rows,
    generate (in_fieldnames :: records)
    = Written (output_fieldnames in_fieldnames :: rows)
    /\ List.length rows = List.length (filter nonblank records)
    /\ forall i record,
         nth_error (filter nonblank records) i = Some record ->
         exists row,
           nth_error rows i = Some row
           /\ List.length row
              = List.length (output_fieldnames in_fieldnames)
           /\ forall j key,
                nth_error (output_fieldnames in_fieldnames) j = Some key ->
                nth_error row j
                = Some
                    (if String.eqb key "Kmap2FA" then
                       compute_kmap
                         (Some (lookup in_fieldnames record "2FA"))
                         (Some (lookup in_fieldnames record "Reset2FA"))
                     else if String.eqb key "Kmap1FA" then
                       compute_kmap
                         (Some (lookup in_fieldnames record "1FA"))
                         (Some (lookup in_fieldnames record "Reset1FA"))
                     else lookup in_fieldnames record key).
Proof.
  intros Hnd Hne Hreq Hfit.
  exists (map (row_of in_fieldnames) (filter nonblank records)).
  split; [now apply generate_fitting|]. split; [apply length_map|].
  intros i record Hi. exists (row_of in_fieldnames record).
  split; [now rewrite nth_error_map, Hi|].
  split; [unfold row_of; apply length_map|].
  intros j key Hj. unfold row_of. now rewrite nth_error_map, Hj.
Qed.

Lemma generate_written_witness :
  exists rows,
    generate
      (["ID"; "1FA"; "2FA"; "Reset1FA"; "Reset2FA"]%string
       :: [["x"; "[A][AB]"; "[P]"; "-"; "[Q]"]%string])
    = Written
        (output_fieldnames ["ID"; "1FA"; "2FA"; "Reset1FA"; "Reset2FA"]%string
         :: rows)
    /\ List.length rows
       = List.length
           (filter nonblank [["x"; "[A][AB]"; "[P]"; "-"; "[Q]"]%string])
    /\ forall i record,
         nth_error
           (filter nonblank [["x"; "[A][AB]"; "[P]"; "-"; "[Q]"]%string]) i
         = Some record ->
         exists row,
           nth_error rows i = Some row
           /\ List.length row
              = List.length
                  (output_fieldnames
                     ["ID"; "1FA"; "2FA"; "Reset1FA"; "Reset2FA"]%string)
           /\ forall j key,
                nth_error
                  (output_fieldnames
                     ["ID"; "1FA"; "2FA"; "Reset1FA"; "Reset2FA"]%string) j
                = Some key ->
                nth_error row j
                = Some
                    (if String.eqb key "Kmap2FA" then
                       compute_kmap
                         (Some
                            (lookup
                               ["ID"; "1FA"; "2FA"; "Reset1FA"; "Reset2FA"]%string
                               record "2FA"))
                         (Some
                            (lookup
                               ["ID"; "1FA"; "2FA"; "Reset1FA"; "Reset2FA"]%string
                               record "Reset2FA"))
                     else if String.eqb key "Kmap1FA" then
                       compute_kmap
                         (Some
                            (lookup
                               ["ID"; "1FA"; "2FA"; "Reset1FA"; "Reset2FA"]%string
                               record "1FA"))
                         (Some
                            (lookup
                               ["ID"; "1FA"; "2FA"; "Reset1FA"; "Reset2FA"]%string
                               record "Reset1FA"))
                     else
                       lookup
                         ["ID"; "1FA"; "2FA"; "Reset1FA"; "Reset2FA"]%string
                         record key).
Proof.
  apply (generate_written
           ["ID"; "1FA"; "2FA"; "Reset1FA"; "Reset2FA"]%string
           [["x"; "[A][AB]"; "[P]"; "-"; "[Q]"]%string]).
  - repeat constructor; simpl; intuition discriminate.
  - discriminate.
  - intros c Hc. exact Hc.
  - apply Forall_forall. intros r [<-|[]]. unfold fits. simpl. lia.
Defined.

(** X23: the failures of [generate]: a file with no header, or with a blank
    first record, and a header that lacks a required column end in
    [SystemExit], the message naming the missing columns in the order ID,
    1FA, 2FA, Reset1FA, Reset2FA; a record with more fields than the header
    ends in the [ValueError] of the writer, after the header and the records
    before it have been written. *)
Theorem generate_failures (in_fieldnames : list string)
    (pre : list (list string)) (long : list string)
    (post : list (list string)) :
  generate [] = SystemExit "Input CSV has no header row."
  /\ generate ([] :: pre) = SystemExit "Input CSV has no header row."
  /\ (in_fieldnames <> [] ->
      forall c, In c required -> ~ In c in_fieldnames ->
      exists missing,
        generate (in_fieldnames :: pre)
        = SystemExit
            ("Missing required columns: " ++ String.concat ", " missing)
        /\ forall x, In x missing <-> In x required /\ ~ In x in_fieldnames)
  /\ (NoDup in_fieldnames -> in_fieldnames <> [] ->
      (forall c, In c required -> In c in_fieldnames) ->
      Forall (fits in_fieldnames) pre -> ~ fits in_fieldnames long ->
      generate (in_fieldnames :: pre ++ long :: post)
      = ValueError
          (output_fieldnames in_fieldnames
           :: map (row_of in_fieldnames) (filter nonblank pre))).
Proof.
  split; [reflexivity|]. split; [reflexivity|]. split.
  - intros Hne c Hc Hn.
    exists (filter (fun c => negb (StringSet.mem c in_fieldnames)) required).
    split.
    + unfold generate. destruct in_fieldnames as [|f F]; [congruence|].
      destruct (filter (fun c => negb (StringSet.mem c (f :: F))) required)
        as [|m ms] eqn:E; [|reflexivity].
      exfalso. apply Hn. now apply (proj1 (missing_none (f :: F)) E).
    + intros x. rewrite filter_In, negb_true_iff.
      rewrite <- not_true_iff_false, StringSet_mem_In. reflexivity.
  - intros Hnd Hne Hreq Hfit Hlong.
    rewrite generate_unfold by assumption.
    now rewrite generate_rows_long.
Qed.

(** X24: running [generate] on its own output writes the same records
    again. *)
Theorem generate_idempotent (in_fieldnames : list string)
    (records written : list (list string)) :
  NoDup in_fieldnames ->
  generate (in_fieldnames :: records) = Written written ->
  generate written = Written written.
Proof.
  intros Hnd Hgen.
  assert (Hne : in_fieldnames <> []).
  { intros ->. discriminate Hgen. }
  assert (Hreq : forall c, In c required -> In c in_fieldnames).
  { apply missing_none. unfold generate in Hgen.
    destruct in_fieldnames as [|f F]; [congruence|].
    destruct (filter (fun c => negb (StringSet.mem c (f :: F))) required);
      [reflexivity|discriminate Hgen]. }
  destruct (first_long in_fieldnames records)
    as [Hfit|(pre & long & post & -> & Hp & Hl)].
  2:{ rewrite generate_unfold, generate_rows_long in Hgen by assumption.
      discriminate Hgen. }
  rewrite (generate_fitting _ _ Hnd Hne Hreq Hfit) in Hgen.
  injection Hgen as <-.
  destruct (output_fieldnames_facts in_fieldnames)
    as ((extra & E) & H1 & _ & _ & Hnd' & Hfix).
  set (Fo := output_fieldnames in_fieldnames) in *.
  assert (HneFo : Fo <> []) by (intros E0; rewrite E0 in H1; exact H1).
  rewrite generate_fitting.
  - rewrite Hfix. do 2 f_equal.
    induction (filter nonblank records) as [|rec r IH]; [reflexivity|].
    simpl.
    assert (Hnb : nonblank (row_of in_fieldnames rec) = true).
    { unfold row_of. fold Fo. now destruct Fo; [congruence|]. }
    rewrite Hnb. simpl. rewrite IH. f_equal.
    now apply row_of_fixed.
  - now apply Hnd'.
  - assumption.
  - intros c Hc. subst Fo. rewrite E. apply in_app_iff. left. now apply Hreq.
  - apply Forall_forall. intros row Hrow.
    apply in_map_iff in Hrow as (rec & <- & _).
    unfold fits, row_of. rewrite length_map. subst Fo. lia.
Qed.

Lemma generate_idempotent_witness :
  generate
    (output_fieldnames ["ID"; "1FA"; "2FA"; "Reset1FA"; "Reset2FA"]%string
     :: map (row_of ["ID"; "1FA"; "2FA"; "Reset1FA"; "Reset2FA"]%string)
          (filter nonblank [["x"; "[A][AB]"; "[P]"; "-"; "[Q]"]%string]))
  = Written
      (output_fieldnames ["ID"; "1FA"; "2FA"; "Reset1FA"; "Reset2FA"]%string
       :: map (row_of ["ID"; "1FA"; "2FA"; "Reset1FA"; "Reset2FA"]%string)
            (filter nonblank [["x"; "[A][AB]"; "[P]"; "-"; "[Q]"]%string])).
Proof.
  apply (generate_idempotent
           ["ID"; "1FA"; "2FA"; "Reset1FA"; "Reset2FA"]%string
           [["x"; "[A][AB]"; "[P]"; "-"; "[Q]"]%string]).
  - repeat constructor; simpl; intuition discriminate.
  - vm_compute. reflexivity.
Defined.

(** ** Counting rows *)

Lemma filter_length_le_impl {A : Type} (f g : A -> bool) (l : list A) :
  (forall x, In x l -> f x = true -> g x = true) ->
  (List.length (filter f l) <= List.length (filter g l))%nat.
Proof.
  induction l as [|a r IH]; intros H; simpl; [lia|].
  assert (IH' : (List.length (filter f r) <= List.length (filter g r))%nat).
  { apply IH. intros x Hx. apply H. now right. }
  destruct (f a) eqn:Ef.
  - rewrite (H a (or_introl eq_refl) Ef). simpl. lia.
  - destruct (g a); simpl; lia.
Qed.

Lemma TermSet_meets_spec (a b : list ascii) :
  TermSet.meets a b = true <-> exists c, In c a /\ In c b.
Proof.
  unfold TermSet.meets. rewrite existsb_exists.
  split; intros (c & H1 & H2); exists c; (split; [assumption|]);
    now apply CharSet_mem_In.
Qed.

Lemma meets_not_subset (term universe C : list ascii) :
  incl term universe ->
  TermSet.meets term C = negb (TermSet.subset term (outside universe C)).
Proof.
  intros Hu. unfold TermSet.meets, TermSet.subset, outside.
  induction term as [|c r IH]; [reflexivity|].
  simpl. rewrite IH by (intros x Hx; apply Hu; now right).
  rewrite negb_andb. f_equal.
  assert (Hc : In c universe) by (apply Hu; now left).
  destruct (CharSet.mem c C) eqn:E.
  - symmetry. apply negb_true_iff. rewrite <- not_true_iff_false.
    intros H. apply CharSet_mem_In, filter_In in H as [_ H].
    rewrite E in H. discriminate.
  - symmetry. apply negb_false_iff. apply CharSet_mem_In, filter_In.
    split; [assumption|]. now rewrite E.
Qed.

(** X20: the count of a factor set grows with the set: a row accessible with
    the factors of [c] is accessible with more factors; and no count exceeds
    the number of rows that have terms. *)
Theorem access_count_monotone (rows_terms : list (list (list ascii)))
    (c c' : list ascii) :
  incl c c' ->
  (FactorAnalyzer.access_count rows_terms c
   <= FactorAnalyzer.access_count rows_terms c')%nat
  /\ (FactorAnalyzer.access_count rows_terms c'
      <= List.length (filter has_terms rows_terms))%nat.
Proof.
  intros Hincl. unfold FactorAnalyzer.access_count. split.
  - apply filter_length_le_impl. intros terms _ H.
    apply accessible_spec in H as (term & Ht & Hi).
    apply accessible_spec. exists term. split; [assumption|].
    intros x Hx. apply Hincl, Hi, Hx.
  - apply filter_length_le_impl. intros terms _ H.
    destruct terms; [discriminate H|reflexivity].
Qed.

Lemma access_count_monotone_witness :
  (FactorAnalyzer.access_count [[["A"; "B"]%char]; [["C"]%char]] ["A"]%char
   <= FactorAnalyzer.access_count [[["A"; "B"]%char]; [["C"]%char]]
        ["A"; "B"]%char)%nat
  /\ (FactorAnalyzer.access_count [[["A"; "B"]%char]; [["C"]%char]]
        ["A"; "B"]%char
      <= List.length (filter has_terms [[["A"; "B"]%char]; [["C"]%char]]))%nat.
Proof.
  apply (access_count_monotone [[["A"; "B"]%char]; [["C"]%char]]
           ["A"]%char ["A"; "B"]%char).
  intros x [<-|[]]. now left.
Defined.

(** X19: necessity and access are complementary: when every factor of the
    rows is in [universe], a row with terms either has every term meet [C]
    or is accessible with the factors of [universe] outside [C], never both;
    so the two counts add up to the number of rows that have terms. *)
Theorem necessity_complements_access (rows_terms : list (list (list ascii)))
    (universe C : list ascii) :
  (forall terms term, In terms rows_terms -> In term terms ->
     incl term universe) ->
  (AccessAnalyzer.necessity_count rows_terms C
   + FactorAnalyzer.access_count rows_terms (outside universe C))%nat
  = List.length (filter has_terms rows_terms).
Proof.
  intros Hu. unfold AccessAnalyzer.necessity_count,
    FactorAnalyzer.access_count.
  induction rows_terms as [|terms r IH]; [reflexivity|].
  assert (IH' := IH (fun T t HT Ht => Hu T t (or_intror HT) Ht)).
  cbn [filter].
  assert (E : match terms with
              | [] => false
              | _ :: _ => forallb (fun term => TermSet.meets term C) terms
              end
              = has_terms terms
                && negb (FactorAnalyzer.accessible terms (outside universe C))).
  { destruct terms as [|t ts]; [reflexivity|].
    cbn [has_terms andb]. unfold FactorAnalyzer.accessible.
    assert (G : forall l, incl l (t :: ts) ->
              forallb (fun term => TermSet.meets term C) l
              = negb (existsb
                        (fun term => TermSet.subset term (outside universe C))
                        l)).
    { induction l as [|x l IHl]; intros Hl; [reflexivity|].
      simpl. rewrite IHl by (intros y Hy; apply Hl; now right).
      rewrite negb_orb. f_equal. apply meets_not_subset.
      apply (Hu (t :: ts)); [now left|apply Hl; now left]. }
    apply G, incl_refl. }
  rewrite E. destruct (has_terms terms) eqn:Eh.
  - destruct (FactorAnalyzer.accessible terms (outside universe C));
      simpl; lia.
  - assert (Ea : FactorAnalyzer.accessible terms (outside universe C) = false)
      by (destruct terms; [reflexivity|discriminate Eh]).
    rewrite Ea. simpl. exact IH'.
Qed.

Lemma necessity_complements_access_witness :
  (AccessAnalyzer.necessity_count [[["A"; "B"]%char]; [["C"]%char]] ["A"]%char
   + FactorAnalyzer.access_count [[["A"; "B"]%char]; [["C"]%char]]
       (outside ["A"; "B"; "C"]%char ["A"]%char))%nat
  = List.length (filter has_terms [[["A"; "B"]%char]; [["C"]%char]]).
Proof.
  apply (necessity_complements_access [[["A"; "B"]%char]; [["C"]%char]]
           ["A"; "B"; "C"]%char ["A"]%char).
  intros terms term [<-|[<-|[]]] [<-|[]] x; simpl; intuition.
Defined.

(** ** The report of patterns *)

Lemma drop_while_stops (p : ascii -> bool) (s : list ascii) :
  stops p (drop_while p s).
Proof.
  induction s as [|c r IH]; simpl; [exact I|].
  destruct (p c) eqn:E; [assumption|]. simpl. exact E.
Qed.

Lemma drop_while_fixed (p : ascii -> bool) (s : list ascii) :
  stops p s -> drop_while p s = s.
Proof. destruct s as [|c r]; simpl; [reflexivity|]. now intros ->. Qed.

Lemma strip_idempotent (s : list ascii) : strip (strip s) = strip s.
Proof.
  unfold strip at 1.
  assert (H1 : stops is_space (strip s)).
  { unfold strip. set (d := drop_while is_space s).
    pose proof (drop_while_stops is_space s) as Hd. fold d in Hd.
    pose proof (take_drop_while is_space (rev d)) as E.
    apply (f_equal (@rev ascii)) in E.
    rewrite rev_app_distr, rev_involutive in E.
    destruct (rev (drop_while is_space (rev d))) as [|c u] eqn:Eu;
      [exact I|].
    rewrite <- E in Hd. simpl in Hd. exact Hd. }
  rewrite (drop_while_fixed _ _ H1).
  assert (H2 : stops is_space (rev (strip s))).
  { unfold strip. rewrite rev_involutive. apply drop_while_stops. }
  rewrite (drop_while_fixed _ _ H2). apply rev_involutive.
Qed.

Lemma parse_expr_stripped (cell : option string) :
  AccessAnalyzer.parse_expr
    (Some (string_of_list_ascii (strip (text_of cell))))
  = AccessAnalyzer.parse_expr cell.
Proof.
  unfold AccessAnalyzer.parse_expr. cbn [text_of]. unfold chars.
  rewrite list_ascii_of_string_of_list_ascii, strip_idempotent.
  destruct (strip (text_of cell)) as [|c r] eqn:Es.
  - simpl. now destruct (is_falsy cell).
  - cbn [string_of_list_ascii is_falsy].
    destruct (is_falsy cell) eqn:Ef; [|reflexivity].
    destruct cell as [[|]|]; simpl in *; try discriminate Ef;
      discriminate Es.
Qed.

Lemma concat_starts (x : string) (l : list string) :
  nonempty x = true -> nonempty (String.concat EmptyString (x :: l)) = true.
Proof.
  destruct x as [|c x]; [discriminate|]. intros _.
  destruct l; reflexivity.
Qed.

Lemma format_expr_nonempty (T : list (list ascii)) :
  term_set T -> T <> [] -> nonempty (AccessAnalyzer.format_expr T) = true.
Proof.
  intros HT Hne. rewrite format_expr_rendered by now apply term_set_nonempty.
  destruct (sorted String.leb (map rendered T)) as [|g gs] eqn:E.
  - exfalso. destruct T as [|t r]; [congruence|].
    assert (H : In (rendered t) (sorted String.leb (map rendered (t :: r))))
      by (apply sorted_In; now left).
    rewrite E in H. exact H.
  - apply concat_starts.
    assert (H : In g (sorted String.leb (map rendered T)))
      by (rewrite E; now left).
    apply sorted_In, in_map_iff in H as (t & <- & _). reflexivity.
Qed.

Lemma total_set (k : string) (v : nat) (d : list (string * nat)) :
  NoDup (map fst d) ->
  (list_sum (map snd (Dict.set String.eqb k v d)) + Counter.get k d
   = list_sum (map snd d) + v)%nat.
Proof.
  unfold Counter.get. induction d as [|[k0 v0] r IH]; intros Hnd; simpl.
  - lia.
  - inversion Hnd as [|? ? Hn Hr]; subst.
    destruct (String.eqb_spec k k0) as [->|Hne]; simpl.
    + lia.
    + specialize (IH Hr). lia.
Qed.

Lemma report_leb_total (a b : string * nat) :
  Counter.report_leb a b = true \/ Counter.report_leb b a = true.
Proof.
  unfold Counter.report_leb.
  destruct (Nat.ltb_spec (snd b) (snd a)); [now left|].
  destruct (Nat.ltb_spec (snd a) (snd b)); [now right|].
  assert (E : snd a = snd b) by lia. rewrite E, Nat.eqb_refl. simpl.
  destruct (String.leb_total (fst a) (fst b)) as [->| ->]; auto.
Qed.

Lemma sufficiency_counts_facts (cells : list (option string)) :
  NoDup (map fst (AccessAnalyzer.sufficiency_counts cells))
  /\ list_sum (map snd (AccessAnalyzer.sufficiency_counts cells))
     = List.length
         (filter (fun cell => has_terms (AccessAnalyzer.parse_expr cell))
            cells)
  /\ forall pattern n,
       In (pattern, n) (AccessAnalyzer.sufficiency_counts cells) ->
       (0 < n)%nat
       /\ exists cell,
            In cell cells
            /\ pattern
               = AccessAnalyzer.format_expr (AccessAnalyzer.parse_expr cell).
Proof.
  unfold AccessAnalyzer.sufficiency_counts.
  match goal with
  | |- context [fold_left ?f cells []] => set (step := f)
  end.
  enough (G : forall init,
             NoDup (map fst init) ->
             let res := fold_left step cells init in
             NoDup (map fst res)
             /\ list_sum (map snd res)
                = (list_sum (map snd init)
                   + List.length
                       (filter
                          (fun cell =>
                             has_terms (AccessAnalyzer.parse_expr cell))
                          cells))%nat
             /\ forall pattern n, In (pattern, n) res ->
                  In (pattern, n) init
                  \/ ((0 < n)%nat
                      /\ exists cell,
                           In cell cells
                           /\ pattern
                              = AccessAnalyzer.format_expr
                                  (AccessAnalyzer.parse_expr cell))).
  { destruct (G [] (NoDup_nil _)) as (G1 & G2 & G3).
    split; [exact G1|]. split; [simpl in G2; exact G2|].
    intros pattern n H. destruct (G3 pattern n H) as [[]|H']. exact H'. }
  induction cells as [|cell r IH]; intros init Hnd; simpl.
  - split; [assumption|]. split; [lia|]. auto.
  - assert (Es : step init cell
                 = if has_terms (AccessAnalyzer.parse_expr cell)
                   then Counter.incr
                          (AccessAnalyzer.format_expr
                             (AccessAnalyzer.parse_expr cell)) init
                   else init).
    { unfold step. cbv zeta. rewrite parse_expr_stripped.
      destruct (AccessAnalyzer.parse_expr cell) as [|t ts] eqn:Ep;
        [reflexivity|].
      cbn [has_terms].
      assert (Hn : nonempty (AccessAnalyzer.format_expr (t :: ts)) = true).
      { apply format_expr_nonempty; [|discriminate].
        rewrite <- Ep. apply parse_expr_facts. }
      destruct (AccessAnalyzer.format_expr (t :: ts));
        [discriminate Hn|reflexivity]. }
    rewrite Es. clear Es.
    destruct (has_terms (AccessAnalyzer.parse_expr cell)) eqn:Eh.
    + set (key := AccessAnalyzer.format_expr (AccessAnalyzer.parse_expr cell)).
      destruct (IH (Counter.incr key init)) as (I1 & I2 & I3).
      { unfold Counter.incr.
        now apply (Dict_set_NoDup String.eqb string_eqb_iff). }
      split; [assumption|]. split.
      * rewrite I2. unfold Counter.incr.
        pose proof (total_set key (S (Counter.get key init)) init Hnd).
        simpl. lia.
      * intros pattern n H. destruct (I3 pattern n H) as [H'|(Hn & c & Hc & E)].
        -- unfold Counter.incr in H'.
           apply (Dict_set_inv String.eqb string_eqb_iff) in H'
             as [[= -> ->]|H']; [|now left].
           right. split; [lia|]. exists cell. split; [now left|reflexivity].
        -- right. split; [assumption|]. exists c. split; [now right|assumption].
    + destruct (IH init Hnd) as (I1 & I2 & I3).
      split; [assumption|]. split; [simpl; exact I2|].
      intros pattern n H. destruct (I3 pattern n H) as [H'|(Hn & c & Hc & E)];
        [now left|].
      right. split; [assumption|]. exists c. split; [now right|assumption].
Qed.

(** ** Canonical patterns *)

(** X15: two expressions get the same pattern exactly when their bracket
    groups hold the same factor sets, whatever the order of the groups and
    of the letters in them and however often a group is repeated; and a
    pattern read again gives the same factor sets and the same pattern. *)
Theorem pattern_canonical (expr1 expr2 : option string) :
  (AccessAnalyzer.format_expr (AccessAnalyzer.parse_expr expr1)
   = AccessAnalyzer.format_expr (AccessAnalyzer.parse_expr expr2)
   <-> same_terms (bracket_findall (text_of expr1))
         (bracket_findall (text_of expr2)))
  /\ same_terms
       (AccessAnalyzer.parse_expr
          (Some (AccessAnalyzer.format_expr (AccessAnalyzer.parse_expr expr1))))
       (AccessAnalyzer.parse_expr expr1)
  /\ AccessAnalyzer.format_expr
       (AccessAnalyzer.parse_expr
          (Some (AccessAnalyzer.format_expr (AccessAnalyzer.parse_expr expr1))))
     = AccessAnalyzer.format_expr (AccessAnalyzer.parse_expr expr1).
Proof.
  destruct (parse_expr_facts expr1) as [T1 S1].
  destruct (parse_expr_facts expr2) as [T2 S2].
  split; [|now apply parse_format_expr]. split.
  - intros E. apply (format_expr_injective _ _ T1 T2) in E.
    apply (same_terms_trans _ (AccessAnalyzer.parse_expr expr1));
      [now apply same_terms_sym|].
    now apply (same_terms_trans _ (AccessAnalyzer.parse_expr expr2)).
  - intros H. apply format_expr_invariant; try assumption.
    apply (same_terms_trans _ (bracket_findall (text_of expr1)));
      [assumption|].
    apply (same_terms_trans _ (bracket_findall (text_of expr2)));
      [assumption|now apply same_terms_sym].
Qed.

(** X16: the pattern of a set of factor sets does not depend on the order in
    which the set and its members are enumerated. *)
Theorem pattern_any_enumeration (T1 T2 : list (list ascii)) :
  term_set T1 -> term_set T2 -> same_terms T1 T2 ->
  AccessAnalyzer.format_expr T1 = AccessAnalyzer.format_expr T2.
Proof. apply format_expr_invariant. Qed.

Lemma pattern_any_enumeration_witness :
  AccessAnalyzer.format_expr [["B"; "A"]%char; ["C"]%char]
  = AccessAnalyzer.format_expr [["C"]%char; ["A"; "B"]%char].
Proof.
  apply (pattern_any_enumeration
           [["B"; "A"]%char; ["C"]%char] [["C"]%char; ["A"; "B"]%char]).
  - split.
    + repeat constructor; try discriminate; simpl; intuition discriminate.
    + vm_compute. repeat constructor; simpl; intuition discriminate.
  - split.
    + repeat constructor; try discriminate; simpl; intuition discriminate.
    + vm_compute. repeat constructor; simpl; intuition discriminate.
  - split.
    + intros t [<-|[<-|[]]].
      * exists ["A"; "B"]%char. split; [simpl; auto|].
        intros c. simpl. tauto.
      * exists ["C"]%char. split; [simpl; auto|]. intros c. tauto.
    + intros t [<-|[<-|[]]].
      * exists ["C"]%char. split; [simpl; auto|]. intros c. tauto.
      * exists ["B"; "A"]%char. split; [simpl; auto|].
        intros c. simpl. tauto.
Defined.

(** ** Canonical brackets of the table comparison *)

Lemma StringSet_of_list_id (l : list string) :
  NoDup l -> StringSet.of_list l = l.
Proof.
  unfold StringSet.of_list.
  enough (G : forall acc, NoDup (acc ++ l) ->
             fold_left (fun a x => StringSet.add x a) l acc = acc ++ l)
    by (intros H; apply (G [] H)).
  induction l as [|x r IH]; intros acc H; simpl; [now rewrite app_nil_r|].
  assert (E : StringSet.add x acc = acc ++ [x]).
  { unfold StringSet.add. destruct (StringSet.mem x acc) eqn:M; [|reflexivity].
    apply StringSet_mem_In in M. apply NoDup_remove_2 in H.
    exfalso. apply H. apply in_app_iff. now left. }
  rewrite E, IH; rewrite <- app_assoc; [reflexivity|exact H].
Qed.

Lemma string_of_list_ascii_inj (a b : list ascii) :
  string_of_list_ascii a = string_of_list_ascii b -> a = b.
Proof.
  intros H. rewrite <- (list_ascii_of_string_of_list_ascii a),
    <- (list_ascii_of_string_of_list_ascii b). now rewrite H.
Qed.

Lemma NoDup_map_inj {A B : Type} (f : A -> B) (l : list A) :
  (forall x y, f x = f y -> x = y) -> NoDup l -> NoDup (map f l).
Proof.
  intros Hf. induction 1 as [|x r Hx Hr IH]; simpl; constructor; [|assumption].
  intros H. apply in_map_iff in H as (y & E & Hy). apply Hf in E. now subst.
Qed.

(** X21: [canonical_brackets] and [format_expr] spell a set of factor sets
    alike when no group's letters are a proper prefix of another's: the
    first sorts the letter strings, the second the bracketed groups. *)
Theorem canonical_brackets_agrees (T : list (list ascii)) :
  term_set T ->
  (forall a b, In a T -> In b T ->
     ~ proper_prefix (string_of_list_ascii (sorted Ascii.leb a))
         (string_of_list_ascii (sorted Ascii.leb b))) ->
  CompareTables.canonical_brackets (map string_of_list_ascii T)
  = AccessAnalyzer.format_expr T.
Proof.
  intros HT Hpf. pose proof HT as [HF HN].
  rewrite format_expr_rendered by now apply term_set_nonempty.
  unfold CompareTables.canonical_brackets.
  set (L := map (fun t => string_of_list_ascii (sorted Ascii.leb t)) T).
  assert (E : flat_map
                (fun p =>
                   match string_of_list_ascii (sorted Ascii.leb (chars p)) with
                   | EmptyString => []
                   | String _ _ as letters => [letters]
                   end)
                (map string_of_list_ascii T) = L).
  { unfold L. rewrite Forall_forall in HF. clear HN Hpf HT.
    induction T as [|t r IH]; [reflexivity|].
    cbn [map flat_map]. rewrite IH by (intros x Hx; apply HF; now right).
    unfold chars. rewrite list_ascii_of_string_of_list_ascii.
    destruct (HF t (or_introl eq_refl)) as (Hne & _).
    destruct (sorted Ascii.leb t) as [|c cs] eqn:Es; [|reflexivity].
    exfalso. destruct t as [|c r']; [congruence|].
    assert (H : In c (sorted Ascii.leb (c :: r')))
      by (apply sorted_In; now left).
    rewrite Es in H. exact H. }
  rewrite E.
  assert (HL : NoDup L).
  { unfold L. rewrite <- (map_map (sorted Ascii.leb) string_of_list_ascii).
    apply NoDup_map_inj; [apply string_of_list_ascii_inj|assumption]. }
  rewrite (StringSet_of_list_id L HL).
  assert (S : sorted String.leb (map rendered T)
              = map bracketed (sorted String.leb L)).
  { assert (M : map rendered T = map bracketed L)
      by (unfold L; rewrite map_map; reflexivity).
    rewrite M. apply sorted_map. intros a b Ha Hb. unfold L in Ha, Hb.
    apply in_map_iff in Ha as (ta & <- & Ha).
    apply in_map_iff in Hb as (tb & <- & Hb).
    apply leb_bracketed; now apply Hpf. }
  rewrite S.
  destruct (sorted String.leb L); reflexivity.
Qed.

Lemma canonical_brackets_agrees_witness :
  CompareTables.canonical_brackets
    (map string_of_list_ascii [["B"; "A"]%char; ["C"]%char])
  = AccessAnalyzer.format_expr [["B"; "A"]%char; ["C"]%char].
Proof.
  apply (canonical_brackets_agrees [["B"; "A"]%char; ["C"]%char]).
  - split.
    + repeat constructor; try discriminate; simpl; intuition discriminate.
    + vm_compute. repeat constructor; simpl; intuition discriminate.
  - intros a b [<-|[<-|[]]] [<-|[<-|[]]] [Hne (r & Hr)]; vm_compute in Hne, Hr;
      try congruence; discriminate Hr.
Defined.

(** The two spellings differ on the factor sets {A} and {A, B}. *)
Lemma canonical_brackets_differs :
  CompareTables.canonical_brackets ["A"; "AB"]%string = "[A][AB]"%string
  /\ AccessAnalyzer.format_expr [["A"]%char; ["A"; "B"]%char]
     = "[AB][A]"%string.
Proof. split; vm_compute; reflexivity. Qed.

(** ** Exact counts of the patterns *)

Lemma Counter_get_incr (p k : string) (d : list (string * nat)) :
  Counter.get p (Counter.incr k d)
  = if String.eqb p k then S (Counter.get k d) else Counter.get p d.
Proof.
  unfold Counter.get, Counter.incr.
  rewrite (Dict_get_set String.eqb string_eqb_iff).
  destruct (String.eqb p k); reflexivity.
Qed.

Lemma sufficiency_counts_unfold (cells : list (option string)) :
  AccessAnalyzer.sufficiency_counts cells
  = fold_left
      (fun counts cell =>
         if has_terms (AccessAnalyzer.parse_expr cell)
         then Counter.incr
                (AccessAnalyzer.format_expr (AccessAnalyzer.parse_expr cell))
                counts
         else counts)
      cells [].
Proof.
  unfold AccessAnalyzer.sufficiency_counts.
  generalize (@nil (string * nat)).
  induction cells as [|cell r IH]; intros init; [reflexivity|].
  cbn [fold_left]. rewrite IH. f_equal. cbv zeta.
  rewrite parse_expr_stripped.
  destruct (AccessAnalyzer.parse_expr cell) as [|t ts] eqn:Ep; [reflexivity|].
  cbn [has_terms].
  assert (Hn : nonempty (AccessAnalyzer.format_expr (t :: ts)) = true).
  { apply format_expr_nonempty; [|discriminate].
    rewrite <- Ep. apply parse_expr_facts. }
  destruct (AccessAnalyzer.format_expr (t :: ts));
    [discriminate Hn|reflexivity].
Qed.

Lemma sufficiency_counts_get (cells : list (option string)) (p : string) :
  Counter.get p (AccessAnalyzer.sufficiency_counts cells)
  = pattern_count cells p.
Proof.
  rewrite sufficiency_counts_unfold.
  enough (G : forall init,
             Counter.get p
               (fold_left
                  (fun counts cell =>
                     if has_terms (AccessAnalyzer.parse_expr cell)
                     then Counter.incr
                            (AccessAnalyzer.format_expr
                               (AccessAnalyzer.parse_expr cell)) counts
                     else counts)
                  cells init)
             = (Counter.get p init + pattern_count cells p)%nat)
    by (rewrite G; reflexivity).
  unfold pattern_count.
  induction cells as [|cell r IH]; intros init; cbn [fold_left filter].
  - simpl. lia.
  - rewrite IH.
    destruct (has_terms (AccessAnalyzer.parse_expr cell)); cbn [andb].
    + rewrite Counter_get_incr.
      destruct (String.eqb p
                  (AccessAnalyzer.format_expr (AccessAnalyzer.parse_expr cell)))
        eqn:E.
      * apply String.eqb_eq in E. subst p. simpl. lia.
      * lia.
    + lia.
Qed.

Lemma counts_entry (d : list (string * nat)) (p : string) (n : nat) :
  NoDup (map fst d) -> (forall k v, In (k, v) d -> (0 < v)%nat) ->
  (In (p, n) d <-> (0 < n)%nat /\ Counter.get p d = n).
Proof.
  intros Hnd Hpos. unfold Counter.get. split.
  - intros H. split; [now apply (Hpos p)|].
    now rewrite (Dict_get_Some String.eqb string_eqb_iff p n d Hnd H).
  - intros [Hn E].
    destruct (Dict.get String.eqb p d) as [v|] eqn:Eg; [|lia].
    subst v. now apply (Dict_get_entry String.eqb string_eqb_iff).
Qed.

(** ** Combinations *)

Lemma picks_none {A : Type} (pool : list A) : picks [] pool.
Proof. induction pool; constructor; assumption. Qed.

Lemma picks_length {A : Type} (c pool : list A) :
  picks c pool -> (List.length c <= List.length pool)%nat.
Proof. induction 1; simpl; lia. Qed.

Lemma picks_incl {A : Type} (c pool : list A) : picks c pool -> incl c pool.
Proof.
  induction 1 as [|x c pool _ IH|x c pool _ IH].
  - intros y [].
  - intros y [<-|Hy]; [now left|right; now apply IH].
  - intros y Hy. right. now apply IH.
Qed.

Lemma combinations_In {A : Type} (pool c : list A) (r : nat) :
  In c (combinations pool r) <-> picks c pool /\ List.length c = r.
Proof.
  revert c r. induction pool as [|x rest IH]; intros c r.
  - destruct r as [|r]; simpl.
    + split.
      * intros [<-|[]]. split; [constructor|reflexivity].
      * intros [_ H]. destruct c; [now left|discriminate].
    + split; [intros []|]. intros [H E]. inversion H; subst. discriminate.
  - destruct r as [|r]; cbn [combinations].
    + split.
      * intros [<-|[]]. split; [apply picks_none|reflexivity].
      * intros [_ H]. destruct c; [now left|discriminate].
    + rewrite in_app_iff, in_map_iff. split.
      * intros [(c' & <- & H)|H].
        -- apply IH in H as [H <-]. split; [now constructor|reflexivity].
        -- apply IH in H as [H E]. split; [now constructor|assumption].
      * intros [H E]. inversion H; subst.
        -- left. exists c0. split; [reflexivity|]. apply IH.
           split; [assumption|]. simpl in E. lia.
        -- right. apply IH. split; assumption.
Qed.

Lemma combos_of_In (pool C : list ascii) :
  In C (AccessAnalyzer.combos_of pool) <-> C <> [] /\ picks C pool.
Proof.
  unfold AccessAnalyzer.combos_of. rewrite in_flat_map. split.
  - intros (r & Hr & H). apply in_seq in Hr. apply combinations_In in H as [H E].
    split; [|assumption]. intros ->. simpl in E. lia.
  - intros [Hne H]. exists (List.length C). split.
    + apply in_seq. pose proof (picks_length _ _ H).
      destruct C; [congruence|]. simpl in *. lia.
    + apply combinations_In. split; [assumption|reflexivity].
Qed.

Lemma ascii_lt_trans (a b c : ascii) :
  ascii_lt a b -> ascii_lt b c -> ascii_lt a c.
Proof.
  unfold ascii_lt. intros H1 H2. apply ascii_ltb_lt in H1, H2.
  apply ascii_ltb_lt. now apply (N.lt_trans _ (N_of_ascii b)).
Qed.

Lemma ascii_lt_irrefl (a : ascii) : ~ ascii_lt a a.
Proof.
  unfold ascii_lt. intros H. apply ascii_ltb_lt in H.
  now apply N.lt_irrefl in H.
Qed.

Lemma picks_strict (pool C : list ascii) :
  StronglySorted ascii_lt pool ->
  (picks C pool <-> StronglySorted ascii_lt C /\ incl C pool).
Proof.
  intros Hp. split.
  - intros H. split; [|now apply picks_incl].
    induction H as [|x c pool H IH|x c pool H IH].
    + constructor.
    + inversion Hp as [|? ? Hr Hx]; subst.
      constructor; [now apply IH|].
      rewrite Forall_forall in *. intros y Hy.
      apply Hx. now apply (picks_incl _ _ H).
    + inversion Hp; subst. now apply IH.
  - revert C. induction Hp as [|y p Hp IH Hy]; intros C [Hs Hi].
    + destruct C as [|x C]; [constructor|]. destruct (Hi x). now left.
    + rewrite Forall_forall in Hy.
      destruct C as [|x C]; [apply picks_none|].
      inversion Hs as [|? ? HsC Hx]; subst. rewrite Forall_forall in Hx.
      destruct (Hi x (or_introl eq_refl)) as [<-|Hxp].
      * apply picks_take. apply IH. split; [assumption|].
        intros z Hz. destruct (Hi z (or_intror Hz)) as [<-|Hzp]; [|assumption].
        exfalso. apply (ascii_lt_irrefl y). now apply Hx.
      * apply picks_skip. apply IH. split; [assumption|].
        intros z [<-|Hz]; [assumption|].
        destruct (Hi z (or_intror Hz)) as [<-|Hzp]; [|assumption].
        exfalso. apply (ascii_lt_irrefl y).
        apply (ascii_lt_trans _ x); [now apply Hy|now apply Hx].
Qed.

(** ** The report of patterns *)

Lemma report_sorted (d : list (string * nat)) :
  Sorted report_order (sorted Counter.report_leb d).
Proof.
  pose proof (sorted_Sorted Counter.report_leb report_leb_total d) as Hs.
  induction Hs as [|a r Hr IH Ha]; constructor; [assumption|].
  destruct Ha as [|b r' Hab]; constructor.
  unfold Counter.report_leb in Hab. unfold report_order.
  apply orb_true_iff in Hab as [Hab|Hab].
  - apply Nat.ltb_lt in Hab. now left.
  - apply andb_true_iff in Hab as [Hab Hl]. apply Nat.eqb_eq in Hab.
    right. now split.
Qed.

(** X17: the report of [run_sufficiency]: no pattern is listed twice; a
    pattern is listed with the count [n] exactly when [n] is positive and is
    the number of cells with terms that have this pattern; every listed
    pattern is its own canonical form; the counts add up to the number of
    cells that have terms; and the lines come by descending count, lines of
    the same count by ascending pattern. *)
Theorem sufficiency_report (cells : list (option string)) :
  let report := AccessAnalyzer.run_sufficiency cells in
  NoDup (map fst report)
  /\ (forall pattern n,
        In (pattern, n) report
        <-> (0 < n)%nat /\ n = pattern_count cells pattern)
  /\ (forall pattern n, In (pattern, n) report ->
        AccessAnalyzer.format_expr
          (AccessAnalyzer.parse_expr (Some pattern)) = pattern)
  /\ list_sum (map snd report)
     = List.length
         (filter (fun cell => has_terms (AccessAnalyzer.parse_expr cell))
            cells)
  /\ Sorted report_order report.
Proof.
  cbv zeta. unfold AccessAnalyzer.run_sufficiency.
  destruct (sufficiency_counts_facts cells) as (H1 & H2 & H3).
  pose proof (sorted_perm Counter.report_leb
                (AccessAnalyzer.sufficiency_counts cells)) as P.
  split; [|split; [|split; [|split]]].
  - eapply Permutation_NoDup; [|exact H1].
    apply Permutation_map, Permutation_sym, P.
  - intros pattern n. rewrite sorted_In.
    rewrite (counts_entry _ pattern n H1)
      by (intros k v H; now apply (H3 k v)).
    rewrite sufficiency_counts_get. intuition congruence.
  - intros pattern n H. apply sorted_In in H.
    destruct (H3 pattern n H) as (Hn & cell & Hc & E).
    rewrite E. apply parse_format_expr, parse_expr_facts.
  - rewrite <- H2. apply Permutation_list_sum, Permutation_map, P.
  - apply report_sorted.
Qed.

(** ** The report of required combinations *)

Lemma format_set_chars (s : list ascii) :
  chars (AccessAnalyzer.format_set s)
  = flat_map (fun ch => ["["; ch; "]"]%char) (sorted Ascii.leb s).
Proof.
  unfold AccessAnalyzer.format_set. rewrite chars_concat, map_map.
  induction (sorted Ascii.leb s) as [|c r IH]; [reflexivity|].
  cbn [map List.concat flat_map]. rewrite IH. reflexivity.
Qed.

Lemma format_set_inj (s s' : list ascii) :
  AccessAnalyzer.format_set s = AccessAnalyzer.format_set s' ->
  sorted Ascii.leb s = sorted Ascii.leb s'.
Proof.
  intros E. apply (f_equal chars) in E. rewrite !format_set_chars in E.
  revert E. generalize (sorted Ascii.leb s') as l'.
  induction (sorted Ascii.leb s) as [|c r IH]; intros [|c' r'] E;
    simpl in E; try discriminate; [reflexivity|].
  injection E as -> E. f_equal. now apply IH.
Qed.

Lemma format_set_sorted (s : list ascii) :
  AccessAnalyzer.format_set (sorted Ascii.leb s) = AccessAnalyzer.format_set s.
Proof.
  unfold AccessAnalyzer.format_set.
  now rewrite (sorted_idempotent Ascii.leb Ascii.leb_total).
Qed.

Lemma necessity_count_ext (rows_terms : list (list (list ascii)))
    (C C' : list ascii) :
  (forall c, In c C <-> In c C') ->
  AccessAnalyzer.necessity_count rows_terms C
  = AccessAnalyzer.necessity_count rows_terms C'.
Proof.
  intros H. unfold AccessAnalyzer.necessity_count. f_equal.
  apply filter_ext. intros terms. destruct terms as [|t ts]; [reflexivity|].
  induction (t :: ts) as [|x l IH]; [reflexivity|].
  simpl. rewrite IH. f_equal.
  apply eq_true_iff_eq. rewrite !TermSet_meets_spec.
  split; intros (c & H1 & H2); exists c; (split; [assumption|]);
    now apply H.
Qed.

Lemma necessity_count_key (rows_terms : list (list (list ascii)))
    (C C' : list ascii) :
  AccessAnalyzer.format_set C = AccessAnalyzer.format_set C' ->
  AccessAnalyzer.necessity_count rows_terms C
  = AccessAnalyzer.necessity_count rows_terms C'.
Proof.
  intros E. apply format_set_inj in E. apply necessity_count_ext.
  intros c. rewrite <- (sorted_In Ascii.leb c C), E. apply sorted_In.
Qed.

Section SetFold.
Context {X : Type} (key : X -> string) (cnt : X -> nat).

Lemma set_fold_NoDup (L : list X) (init : list (string * nat)) :
  NoDup (map fst init) ->
  NoDup
    (map fst
       (fold_left
          (fun counts C =>
             match cnt C with
             | O => counts
             | S _ => Dict.set String.eqb (key C) (cnt C) counts
             end)
          L init)).
Proof.
  revert init. induction L as [|C L IH]; intros init H; [assumption|].
  cbn [fold_left]. apply IH. destruct (cnt C); [assumption|].
  now apply (Dict_set_NoDup String.eqb string_eqb_iff).
Qed.

Lemma set_fold_get (L : list X) (k : string) (v : nat) :
  (forall C C', In C L -> In C' L -> key C = key C' -> cnt C = cnt C') ->
  forall init,
    Dict.get String.eqb k
      (fold_left
         (fun counts C =>
            match cnt C with
            | O => counts
            | S _ => Dict.set String.eqb (key C) (cnt C) counts
            end)
         L init) = Some v
    <-> (exists C, In C L /\ k = key C /\ v = cnt C /\ (0 < v)%nat)
        \/ ((forall C, In C L -> k = key C -> cnt C = 0%nat)
            /\ Dict.get String.eqb k init = Some v).
Proof.
  induction L as [|C L IH]; intros Hinj init; cbn [fold_left].
  - split.
    + intros H. right. split; [intros ? []|assumption].
    + intros [(C & [] & _)|[_ H]]. assumption.
  - rewrite IH by (intros C1 C2 H1 H2; apply Hinj; now right).
    match goal with
    | |- context [Dict.get String.eqb k ?d = Some v] =>
        match d with
        | init => fail 1
        | _ => set (init' := d)
        end
    end.
    assert (Eg : Dict.get String.eqb k init'
                 = if (0 <? cnt C)%nat && String.eqb k (key C)
                   then Some (cnt C) else Dict.get String.eqb k init).
    { unfold init'. destruct (cnt C) as [|n]; [reflexivity|].
      rewrite (Dict_get_set String.eqb string_eqb_iff). reflexivity. }
    clearbody init'. split.
    + intros [(C0 & H0 & E)|[Hno Hg]].
      * left. exists C0. split; [now right|assumption].
      * rewrite Eg in Hg.
        destruct ((0 <? cnt C)%nat && String.eqb k (key C)) eqn:Eb.
        -- apply andb_true_iff in Eb as [Hpos Ek].
           apply Nat.ltb_lt in Hpos. apply String.eqb_eq in Ek.
           injection Hg as <-. left. exists C. split; [now left|]. auto.
        -- right. split; [|assumption].
           intros C0 [<-|H0] Ek; [|now apply Hno].
           apply andb_false_iff in Eb as [Eb|Eb].
           ++ apply Nat.ltb_ge in Eb. lia.
           ++ subst k. rewrite String.eqb_refl in Eb. discriminate.
    + intros [(C0 & H0 & Ek & Ev & Hpos)|[Hno Hg]].
      * destruct (existsb
                    (fun C' => String.eqb k (key C') && (0 <? cnt C')%nat) L)
          eqn:Ex.
        -- apply existsb_exists in Ex as (C' & H' & Eb).
           apply andb_true_iff in Eb as [Ek' Hpos'].
           apply String.eqb_eq in Ek'. apply Nat.ltb_lt in Hpos'.
           left. exists C'. split; [assumption|]. split; [assumption|].
           assert (E : cnt C0 = cnt C').
           { apply Hinj; [assumption|now right|congruence]. }
           split; [congruence|assumption].
        -- assert (Hnone : forall C', In C' L -> k = key C' ->
                     cnt C' = 0%nat).
           { intros C' H' Ek'. destruct (cnt C') as [|n] eqn:En;
               [reflexivity|]. exfalso.
             assert (T : existsb
                           (fun C' => String.eqb k (key C')
                                      && (0 <? cnt C')%nat) L = true).
             { apply existsb_exists. exists C'. split; [assumption|].
               rewrite Ek', String.eqb_refl, En. reflexivity. }
             congruence. }
           right. split; [assumption|]. rewrite Eg.
           destruct H0 as [<-|H0].
           ++ subst k v. rewrite String.eqb_refl.
              rewrite (proj2 (Nat.ltb_lt _ _) Hpos). reflexivity.
           ++ exfalso. rewrite (Hnone C0 H0 Ek) in Ev. lia.
      * right. split; [intros C0 H0; apply Hno; now right|]. rewrite Eg.
        destruct ((0 <? cnt C)%nat && String.eqb k (key C)) eqn:Eb;
          [|assumption].
        apply andb_true_iff in Eb as [Hpos Ek].
        apply Nat.ltb_lt in Hpos. apply String.eqb_eq in Ek.
        rewrite (Hno C (or_introl eq_refl) Ek) in Hpos. lia.
Qed.

Lemma set_fold_positive (L : list X) (init : list (string * nat)) :
  (forall k v, In (k, v) init -> (0 < v)%nat) ->
  forall k v,
    In (k, v)
      (fold_left
         (fun counts C =>
            match cnt C with
            | O => counts
            | S _ => Dict.set String.eqb (key C) (cnt C) counts
            end)
         L init) -> (0 < v)%nat.
Proof.
  revert init. induction L as [|C L IH]; intros init H k v; cbn [fold_left].
  - apply H.
  - apply IH. destruct (cnt C) as [|n] eqn:En; [assumption|].
    intros k' v' H'.
    apply (Dict_set_inv String.eqb string_eqb_iff) in H'
      as [[= -> ->]|H']; [lia|now apply (H k')].
Qed.
End SetFold.

Lemma update_terms_facts (terms : list (list ascii)) (acc : list ascii) :
  NoDup acc ->
  NoDup (fold_left (fun acc t => CharSet.update acc t) terms acc)
  /\ forall f,
       In f (fold_left (fun acc t => CharSet.update acc t) terms acc)
       <-> In f acc \/ exists term, In term terms /\ In f term.
Proof.
  revert acc. induction terms as [|t r IH]; intros acc H; cbn [fold_left].
  - split; [assumption|]. intros f. split; [auto|].
    intros [H'|(term & [] & _)]. assumption.
  - destruct (IH (CharSet.update acc t)) as [I1 I2];
      [now apply CharSet_update_NoDup|].
    split; [assumption|]. intros f. rewrite I2, CharSet_update_In. split.
    + intros [[H'|H']|(term & Ht & Hf)]; [now left| |].
      * right. exists t. split; [now left|assumption].
      * right. exists term. split; [now right|assumption].
    + intros [H'|(term & [<-|Ht] & Hf)]; [now left; left|now left; right|].
      right. exists term. now split.
Qed.

Lemma all_factors_of_facts (rows_terms : list (list (list ascii))) :
  NoDup (AccessAnalyzer.all_factors_of rows_terms)
  /\ forall f,
       In f (AccessAnalyzer.all_factors_of rows_terms)
       <-> exists terms term,
             In terms rows_terms /\ In term terms /\ In f term.
Proof.
  unfold AccessAnalyzer.all_factors_of.
  enough (G : forall init, NoDup init ->
             let res :=
               fold_left
                 (fun all_factors terms =>
                    fold_left (fun acc t => CharSet.update acc t) terms
                      all_factors)
                 rows_terms init in
             NoDup res
             /\ forall f,
                  In f res
                  <-> In f init
                      \/ exists terms term,
                           In terms rows_terms /\ In term terms /\ In f term).
  { destruct (G [] (NoDup_nil _)) as [G1 G2]. split; [assumption|].
    intros f. rewrite G2. simpl. tauto. }
  induction rows_terms as [|terms r IH]; intros init H; cbn [fold_left].
  - split; [assumption|]. intros f. split; [auto|].
    intros [H'|(terms & term & [] & _)]. assumption.
  - destruct (update_terms_facts terms init H) as [U1 U2].
    destruct (IH _ U1) as [I1 I2]. split; [assumption|].
    intros f. rewrite I2, U2. split.
    + intros [[H'|(term & Ht & Hf)]|(terms' & term & Hts & Ht & Hf)].
      * now left.
      * right. exists terms, term. split; [now left|now split].
      * right. exists terms', term. split; [now right|now split].
    + intros [H'|(terms' & term & [<-|Hts] & Ht & Hf)].
      * now left; left.
      * left. right. exists term. now split.
      * right. exists terms', term. now split.
Qed.

Lemma necessity_counts_facts (cells : list (option string)) :
  let rows_terms := AccessAnalyzer.rows_terms_of cells in
  let counts := AccessAnalyzer.necessity_counts cells in
  NoDup (map fst counts)
  /\ forall pattern n,
       In (pattern, n) counts
       <-> (0 < n)%nat
           /\ exists C,
                C <> [] /\ NoDup C
                /\ incl C (AccessAnalyzer.all_factors_of rows_terms)
                /\ pattern = AccessAnalyzer.format_set C
                /\ n = AccessAnalyzer.necessity_count rows_terms C.
Proof.
  cbv zeta. unfold AccessAnalyzer.necessity_counts.
  generalize (AccessAnalyzer.rows_terms_of cells). intros rows_terms.
  destruct (all_factors_of_facts rows_terms) as [HF _].
  remember (AccessAnalyzer.all_factors_of rows_terms) as F eqn:EF.
  assert (Hempty : F = [] ->
            forall pattern n,
              In (pattern, n) (@nil (string * nat))
              <-> (0 < n)%nat
                  /\ exists C,
                       C <> [] /\ NoDup C /\ incl C F
                       /\ pattern = AccessAnalyzer.format_set C
                       /\ n = AccessAnalyzer.necessity_count rows_terms C).
  { intros E pattern n. split; [intros []|].
    intros (_ & C & Hne & _ & Hi & _). rewrite E in Hi.
    destruct C as [|c C]; [congruence|]. destruct (Hi c). now left. }
  destruct rows_terms as [|r0 rs].
  { split; [constructor|]. apply Hempty. rewrite EF. reflexivity. }
  destruct F as [|f0 fs].
  { split; [constructor|]. now apply Hempty. }
  cbv iota. clear Hempty EF.
  set (rows_terms := r0 :: rs) in *. set (F := f0 :: fs) in *.
  clearbody rows_terms F.
  set (pool := sorted Ascii.leb F).
  assert (Hpool : StronglySorted ascii_lt pool) by now apply sorted_strict.
  set (L := AccessAnalyzer.combos_of pool).
  assert (Hinj : forall C C', In C L -> In C' L ->
             AccessAnalyzer.format_set C = AccessAnalyzer.format_set C' ->
             AccessAnalyzer.necessity_count rows_terms C
             = AccessAnalyzer.necessity_count rows_terms C').
  { intros C C' _ _. apply necessity_count_key. }
  pose proof (set_fold_NoDup AccessAnalyzer.format_set
                (AccessAnalyzer.necessity_count rows_terms) L []
                (NoDup_nil _)) as Hnd.
  pose proof (set_fold_positive AccessAnalyzer.format_set
                (AccessAnalyzer.necessity_count rows_terms) L []
                (fun k v (H : In (k, v) []) => match H with end)) as Hpos.
  pose proof (fun k v =>
                set_fold_get AccessAnalyzer.format_set
                  (AccessAnalyzer.necessity_count rows_terms) L k v Hinj [])
    as Hget.
  split; [exact Hnd|].
  intros pattern n. split.
  - intros H. split; [now apply (Hpos pattern)|].
    apply (Dict_get_Some String.eqb string_eqb_iff _ _ _ Hnd) in H.
    apply Hget in H as [(C & HC & -> & -> & Hn)|[_ H]]; [|discriminate H].
    apply combos_of_In in HC as [Hne HC].
    apply (picks_strict pool C Hpool) in HC as [Hs Hi].
    exists C. split; [assumption|]. split; [now apply strict_NoDup|].
    split; [|split; reflexivity].
    intros x Hx. apply (sorted_In Ascii.leb x F). now apply Hi.
  - intros (Hn & C & Hne & HndC & Hi & -> & ->).
    apply (Dict_get_entry String.eqb string_eqb_iff). apply Hget. left.
    exists (sorted Ascii.leb C). split; [|split; [|split]].
    + apply combos_of_In. split.
      * intros E. destruct C as [|c C]; [congruence|].
        assert (H : In c (sorted Ascii.leb (c :: C)))
          by (apply sorted_In; now left).
        rewrite E in H. exact H.
      * apply (picks_strict pool _ Hpool). split; [now apply sorted_strict|].
        intros x Hx. apply sorted_In in Hx. apply sorted_In. now apply Hi.
    + symmetry. apply format_set_sorted.
    + apply necessity_count_ext. intros c. symmetry. apply sorted_In.
    + assumption.
Qed.

(** ** The solver in general *)

(** X4: Petrick's method on clauses none of which is empty, whose indices
    are positions of [literal_counts] (the code subscripts the list with
    them), always yields a product: the chosen indices hit every clause,
    come from the clauses, and no set of indices that hits every clause is
    smaller, nor of the same size with fewer literals. *)
Theorem petrick_minimum_hitting_set
    (literal_counts : list nat) (clauses : list (list nat)) :
  Forall (fun c => c <> []) clauses ->
  Forall (Forall (fun i => (i < List.length literal_counts)%nat)) clauses ->
  exists products,
    petrick literal_counts clauses [[]] = Some products
    /\ let chosen := choose_product literal_counts products in
       Forall (hits chosen) clauses
       /\ NoDup chosen
       /\ (forall i, In i chosen -> exists c, In c clauses /\ In i c)
       /\ forall H, NoDup H -> Forall (hits H) clauses ->
            (List.length chosen <= List.length H)%nat
            /\ (List.length H = List.length chosen ->
                (literal_total literal_counts chosen
                 <= literal_total literal_counts H)%nat).
Proof. intros Hne _. now apply petrick_choice. Qed.

Lemma petrick_minimum_hitting_set_witness :
  exists products,
    petrick [1; 1; 1]%nat [[0; 1]; [1; 2]]%nat [[]] = Some products
    /\ let chosen := choose_product [1; 1; 1]%nat products in
       Forall (hits chosen) [[0; 1]; [1; 2]]%nat
       /\ NoDup chosen
       /\ (forall i, In i chosen ->
             exists c, In c [[0; 1]; [1; 2]]%nat /\ In i c)
       /\ forall H, NoDup H -> Forall (hits H) [[0; 1]; [1; 2]]%nat ->
            (List.length chosen <= List.length H)%nat
            /\ (List.length H = List.length chosen ->
                (literal_total [1; 1; 1]%nat chosen
                 <= literal_total [1; 1; 1]%nat H)%nat).
Proof.
  apply (petrick_minimum_hitting_set [1; 1; 1]%nat [[0; 1]; [1; 2]]%nat).
  - repeat constructor; discriminate.
  - repeat constructor; simpl; lia.
Defined.

(** ** The pipeline in general *)

(** X7: the minterm set that [compute_kmap] minimises: the minterms within
    range that satisfy the base expression with P replaced by the reset
    expression, and, when a reset expression is given, have no P. *)
Theorem reset_substitution (base_expr reset_expr : option string) (x : Z) :
  let variables := variables_of base_expr reset_expr in
  In x (kmap_minterms base_expr reset_expr)
  <-> 0 <= x < 2 ^ Z.of_nat (List.length variables)
      /\ (is_falsy reset_expr = false -> ~ has_factor variables x "P")
      /\ grants_subst (terms_of base_expr) (terms_of reset_expr) variables x.
Proof. apply reset_substitution_facts. Qed.

(** ** The reports of the access analyzer *)

(** X18: the report of [run_necessity]: the factors are those of the terms
    of the column; a line is listed exactly for the non-empty sets [C] of
    these factors that meet every term of at least one row with terms, with
    the number of such rows; no set is listed twice, and the lines come by
    descending count, lines of the same count by ascending pattern. *)
Theorem necessity_report (cells : list (option string)) :
  let rows_terms := AccessAnalyzer.rows_terms_of cells in
  let all_factors := AccessAnalyzer.all_factors_of rows_terms in
  let report := AccessAnalyzer.run_necessity cells in
  (forall f,
     In f all_factors
     <-> exists terms term,
           In terms rows_terms /\ In term terms /\ In f term)
  /\ NoDup (map fst report)
  /\ (forall pattern n,
        In (pattern, n) report
        <-> (0 < n)%nat
            /\ exists C,
                 C <> [] /\ NoDup C /\ incl C all_factors
                 /\ pattern = AccessAnalyzer.format_set C
                 /\ n = AccessAnalyzer.necessity_count rows_terms C)
  /\ Sorted report_order report.
Proof.
  cbv zeta. unfold AccessAnalyzer.run_necessity.
  destruct (necessity_counts_facts cells) as [H1 H2].
  split; [apply all_factors_of_facts|]. split; [|split].
  - eapply Permutation_NoDup; [|exact H1].
    apply Permutation_map, Permutation_sym, sorted_perm.
  - intros pattern n. rewrite sorted_In. apply H2.
  - apply report_sorted.
Qed.

(** ** The chosen product in the returned cover (C7) *)

Lemma sorted_lt_fixed (p : list nat) :
  StronglySorted lt p -> sorted Nat.leb p = p.
Proof.
  intros H. apply sorted_fixed. apply StronglySorted_Sorted.
  induction H as [|x r Hr IH Hx]; constructor; [assumption|].
  eapply Forall_impl; [|exact Hx]. intros y Hy. apply Nat.leb_le.
  unfold lt in Hy. lia.
Qed.

(** Absorption leaves no product that contains another. *)
Lemma reduce_products_antichain (literal_counts : list nat)
    (prods : list (list nat)) :
  (forall p, In p prods -> NoDup p) ->
  forall p q,
    In p (reduce_products literal_counts prods) ->
    In q (reduce_products literal_counts prods) ->
    incl p q -> p = q.
Proof.
  intros Hnd. unfold reduce_products.
  set (leb := fun a b =>
                cost_leb (product_cost literal_counts a)
                  (product_cost literal_counts b)).
  set (step := fun minimal p =>
                 if existsb (fun q => NatSet.superset p q) minimal then minimal
                 else minimal ++ [p]).
  set (shorter := fun a b : list nat => (List.length a <= List.length b)%nat).
  assert (Hs : StronglySorted shorter (sorted leb prods)).
  { apply Sorted_StronglySorted.
    - intros a b c Hab Hbc. unfold shorter in *. lia.
    - assert (T : forall a b, leb a b = true \/ leb b a = true).
      { intros a b. unfold leb, cost_leb.
        destruct (cost_ltb (product_cost literal_counts b)
                    (product_cost literal_counts a)) eqn:E1; [|now left].
        right. apply negb_true_iff, cost_ltb_ge.
        apply cost_ltb_lt in E1. lia. }
      pose proof (sorted_Sorted leb T prods) as S.
      induction S as [|a r Hr IH Ha]; constructor; [assumption|].
      destruct Ha as [|b r' Hab]; constructor.
      unfold leb, cost_leb in Hab. apply negb_true_iff, cost_ltb_ge in Hab.
      unfold shorter. simpl in Hab. lia. }
  assert (Hnd' : forall p, In p (sorted leb prods) -> NoDup p).
  { intros p Hp. apply Hnd. now apply sorted_In in Hp. }
  enough (G : forall l init,
             StronglySorted shorter l ->
             (forall q a, In q init -> In a l -> shorter q a) ->
             (forall p, In p init \/ In p l -> NoDup p) ->
             (forall p q, In p init -> In q init -> incl p q -> p = q) ->
             forall p q,
               In p (fold_left step l init) -> In q (fold_left step l init) ->
               incl p q -> p = q).
  { apply (G (sorted leb prods) []); auto.
    - intros q a [].
    - intros p [[]|Hp]. now apply Hnd'.
    - intros p q []. }
  clear Hs Hnd' Hnd.
  induction l as [|a r IH]; intros init Hs Hle Hnd Hanti; simpl; [exact Hanti|].
  inversion Hs as [|? ? Hr Ha]; subst. rewrite Forall_forall in Ha.
  apply IH; [assumption| | |].
  - intros q b Hq Hb. unfold step in Hq.
    destruct (existsb (fun q0 => NatSet.superset a q0) init).
    + apply Hle; [assumption|now right].
    + apply in_app_iff in Hq as [Hq|[<-|[]]].
      * apply Hle; [assumption|now right].
      * now apply Ha.
  - intros p [Hp|Hp]; apply Hnd; [|right; now right].
    unfold step in Hp.
    destruct (existsb (fun q0 => NatSet.superset a q0) init); [now left|].
    apply in_app_iff in Hp as [Hp|[<-|[]]]; [now left|right; now left].
  - unfold step.
    destruct (existsb (fun q0 => NatSet.superset a q0) init) eqn:E;
      [exact Hanti|].
    assert (Hno : forall q, In q init -> ~ incl q a).
    { intros q Hq Hi.
      assert (T : existsb (fun q0 => NatSet.superset a q0) init = true).
      { apply existsb_exists. exists q. split; [assumption|].
        now apply NatSet_superset_incl. }
      congruence. }
    intros p q Hp Hq Hi.
    apply in_app_iff in Hp as [Hp|[<-|[]]];
      apply in_app_iff in Hq as [Hq|[<-|[]]].
    + now apply Hanti.
    + exfalso. now apply (Hno p).
    + exfalso. apply (Hno q Hq).
      apply NoDup_length_incl; [apply Hnd; right; now left| |assumption].
      apply (Hle q a); [assumption|now left].
    + reflexivity.
Qed.

(** The products that survive the loop over the clauses are duplicate-free
    ascending index lists none of which contains another. *)
Lemma petrick_antichain (literal_counts : list nat)
    (clauses : list (list nat)) :
  forall products products',
    (forall p, In p products -> StronglySorted lt p) ->
    (forall p q, In p products -> In q products -> incl p q -> p = q) ->
    petrick literal_counts clauses products = Some products' ->
    (forall p, In p products' -> StronglySorted lt p)
    /\ (forall p q, In p products' -> In q products' -> incl p q -> p = q).
Proof.
  induction clauses as [|c r IH]; intros products products' Hs Ha E.
  - simpl in E. injection E as <-. now split.
  - simpl in E.
    assert (Hs' : forall q,
              In q (multiply_clause literal_counts products c) ->
              StronglySorted lt q).
    { intros q Hq. unfold multiply_clause in Hq.
      apply reduce_products_facts, crossed_In in Hq
        as (p & idx & Hp & _ & ->).
      apply NatSet_add_sorted. now apply Hs. }
    assert (Ha' : forall p q,
              In p (multiply_clause literal_counts products c) ->
              In q (multiply_clause literal_counts products c) ->
              incl p q -> p = q).
    { unfold multiply_clause. apply reduce_products_antichain.
      intros q Hq. apply sorted_lt_NoDup.
      apply crossed_In in Hq as (p & idx & Hp & _ & ->).
      apply NatSet_add_sorted. now apply Hs. }
    destruct (multiply_clause literal_counts products c) as [|p0 ps] eqn:Em;
      [discriminate E|].
    now apply (IH (p0 :: ps) products').
Qed.

Lemma picked_in_range (pi_list : list implicant) (l : list nat) :
  (forall i, In i l -> exists pi, nth_error pi_list i = Some pi) ->
  exists picked,
    Forall2 (fun i pi => nth_error pi_list i = Some pi) l picked
    /\ flat_map
         (fun i =>
            match nth_error pi_list i with
            | Some pi => [pi]
            | None => []
            end)
         l = picked.
Proof.
  induction l as [|i r IH]; intros H.
  - exists []. split; [constructor|reflexivity].
  - destruct IH as (picked & F & E); [intros j Hj; apply H; now right|].
    destruct (H i (or_introl eq_refl)) as (pi & Hpi).
    exists (pi :: picked). split; [now constructor|].
    simpl. now rewrite Hpi, E.
Qed.

(** The solver past its guards. *)
Lemma solver_petrick_unfold (prime_implicants : list implicant)
    (minterms : list Z) (num_vars : nat) :
  build_clauses (build_coverage prime_implicants minterms num_vars)
    (build_index_of prime_implicants)
    (fst (fold_left
            (essential_step
               (build_coverage prime_implicants minterms num_vars))
            minterms ([], [])))
    (IntSet.diff minterms
       (snd (fold_left
               (essential_step
                  (build_coverage prime_implicants minterms num_vars))
               minterms ([], [])))) <> [] ->
  prime_implicants <> [] -> minterms <> [] ->
  essential_prime_implicant_cover prime_implicants minterms num_vars
  = match
      petrick (literal_counts_of prime_implicants)
        (build_clauses (build_coverage prime_implicants minterms num_vars)
           (build_index_of prime_implicants)
           (fst (fold_left
                   (essential_step
                      (build_coverage prime_implicants minterms num_vars))
                   minterms ([], [])))
           (IntSet.diff minterms
              (snd (fold_left
                      (essential_step
                         (build_coverage prime_implicants minterms num_vars))
                      minterms ([], [])))))
        [[]]
    with
    | Some products =>
        fst (fold_left
               (essential_step
                  (build_coverage prime_implicants minterms num_vars))
               minterms ([], []))
        ++ flat_map
             (fun i =>
                match nth_error prime_implicants i with
                | Some pi => [pi]
                | None => []
                end)
             (sorted Nat.leb
                (choose_product (literal_counts_of prime_implicants)
                   products))
    | None =>
        fst (fold_left
               (essential_step
                  (build_coverage prime_implicants minterms num_vars))
               minterms ([], []))
    end.
Proof.
  intros Hc Hp Hm. unfold essential_prime_implicant_cover.
  destruct prime_implicants as [|p0 ps] eqn:Ep; [congruence|].
  destruct minterms as [|m0 ms0] eqn:Em; [congruence|].
  rewrite <- Ep, <- Em in *. clear Ep Em Hp Hm p0 ps m0 ms0.
  revert Hc.
  destruct (fold_left
              (essential_step
                 (build_coverage prime_implicants minterms num_vars))
              minterms ([], [])) as [essential covered].
  cbn [fst snd].
  destruct (IntSet.diff minterms covered) as [|r0 rs].
  { intros Hc. exfalso. apply Hc. reflexivity. }
  intros Hc.
  destruct (build_clauses (build_coverage prime_implicants minterms num_vars)
              (build_index_of prime_implicants) essential (r0 :: rs));
    [congruence|reflexivity].
Qed.

(** C7: when the solver comes to Petrick's method, the loop over the
    clauses leaves products none of which contains another; among them
    the solver picks the one with the fewest implicants, then the smallest
    total literal count (the literal count of an implicant being the
    number of 1 bits of its relevance mask), then the smallest sorted
    index tuple.  These criteria single out one product, so the choice
    does not depend on the order in which the products are enumerated,
    and the cover returned is the essential implicants followed by the
    implicants at the chosen indices, in ascending order of index. *)
Theorem chosen_product_minimal (prime_implicants : list implicant)
    (minterms : list Z) (num_vars : nat) :
  let coverage := build_coverage prime_implicants minterms num_vars in
  let st := fold_left (essential_step coverage) minterms ([], []) in
  let essential := fst st in
  let remaining := IntSet.diff minterms (snd st) in
  let literal_counts := literal_counts_of prime_implicants in
  let clauses :=
    build_clauses coverage (build_index_of prime_implicants) essential
      remaining in
  clauses <> [] ->
  exists products,
    petrick literal_counts clauses [[]] = Some products
    /\ (forall p q, In p products -> In q products -> incl p q -> p = q)
    /\ (forall i pi, nth_error prime_implicants i = Some pi ->
          nth i literal_counts 0%nat = bin_count_ones (snd pi))
    /\ let chosen := choose_product literal_counts products in
       best_product literal_counts products chosen
       /\ (forall c, best_product literal_counts products c -> c = chosen)
       /\ (forall products', Permutation products products' ->
             choose_product literal_counts products' = chosen)
       /\ exists picked,
            Forall2 (fun i pi => nth_error prime_implicants i = Some pi)
              (sorted Nat.leb chosen) picked
            /\ essential_prime_implicant_cover prime_implicants minterms
                 num_vars
               = essential ++ picked.
Proof.
  intros coverage st essential remaining literal_counts clauses Hne.
  set (index_of := build_index_of prime_implicants) in *.
  destruct (build_index_of_facts prime_implicants) as [Hidx _].
  fold index_of in Hidx.
  pose proof (build_clauses_facts coverage index_of essential remaining)
    as Hclauses. fold clauses in Hclauses.
  (* the indices of the clauses are positions of the implicant list *)
  assert (Hrange : forall c i, In c clauses -> In i c ->
            exists pi, nth_error prime_implicants i = Some pi).
  { intros c i Hc Hi. apply Hclauses in Hc as (_ & m & _ & ->).
    apply NatSet_diff_In in Hi as [Hi _].
    apply index_set_In in Hi as (pi & _ & Hg). exists pi. now apply Hidx. }
  assert (Hnonempty : Forall (fun c => c <> []) clauses).
  { apply Forall_forall. intros c Hc. now apply Hclauses in Hc. }
  (* the guards before Petrick's method are passed *)
  assert (Hrem : remaining <> []).
  { intros E. apply Hne. unfold clauses. now rewrite E. }
  assert (Hms : minterms <> []).
  { intros E. apply Hrem. unfold remaining. now rewrite E. }
  assert (Hpis : prime_implicants <> []).
  { intros E. destruct clauses as [|c cs] eqn:Ec; [congruence|].
    assert (Hc : In c (c :: cs)) by now left.
    pose proof (proj1 (Hclauses c) Hc) as (Hcne & _).
    destruct c as [|i c']; [congruence|].
    destruct (Hrange (i :: c') i Hc (or_introl eq_refl)) as (pi & Hpi).
    rewrite E in Hpi. destruct i; discriminate Hpi. }
  destruct (petrick_ok literal_counts clauses Hnonempty [] [[]]
              products_ok_init) as (products & Epk & Hpne & Hsets & _).
  simpl in Hsets.
  destruct (petrick_antichain literal_counts clauses [[]] products)
    as [Hsorted Hanti]; [| |exact Epk|].
  { intros p [<-|[]]. constructor. }
  { intros p q [<-|[]] [<-|[]] _. reflexivity. }
  assert (Hinj : forall p q, In p products -> In q products ->
            sorted Nat.leb p = sorted Nat.leb q -> p = q).
  { intros p q Hp Hq E.
    now rewrite !sorted_lt_fixed in E by now apply Hsorted. }
  destruct (choose_product_facts prime_implicants products Hpne)
    as (Hcounts & Hbest & Hperm).
  fold literal_counts in Hcounts, Hbest, Hperm.
  exists products. split; [exact Epk|]. split; [exact Hanti|].
  split; [exact Hcounts|]. intros chosen. fold chosen in Hbest, Hperm.
  split; [exact Hbest|]. split.
  { intros c Hc. now apply (best_product_unique literal_counts products). }
  split.
  { intros products' HP. now apply Hperm. }
  destruct (picked_in_range prime_implicants (sorted Nat.leb chosen))
    as (picked & HF & Epicked).
  { intros i Hi. apply sorted_In in Hi.
    destruct Hbest as [Hin _].
    destruct (Hsets chosen Hin) as (_ & _ & Hfrom).
    destruct (Hfrom i Hi) as (c & Hc & Hic). now apply (Hrange c). }
  exists picked. split; [exact HF|].
  rewrite (solver_petrick_unfold prime_implicants minterms num_vars Hne Hpis
             Hms).
  unfold chosen, clauses, literal_counts, remaining, essential, st, coverage,
    index_of in *.
  now rewrite Epk, Epicked.
Qed.

Lemma chosen_product_minimal_witness :
  let prime_implicants : list implicant :=
    [(0, 6); (0, 5); (1, 3); (2, 3); (5, 5); (6, 6)] in
  let minterms := [0; 1; 2; 5; 6; 7] in
  let coverage := build_coverage prime_implicants minterms 3 in
  let st := fold_left (essential_step coverage) minterms ([], []) in
  let essential := fst st in
  let remaining := IntSet.diff minterms (snd st) in
  let literal_counts := literal_counts_of prime_implicants in
  let clauses :=
    build_clauses coverage (build_index_of prime_implicants) essential
      remaining in
  exists products,
    petrick literal_counts clauses [[]] = Some products
    /\ (forall p q, In p products -> In q products -> incl p q -> p = q)
    /\ (forall i pi, nth_error prime_implicants i = Some pi ->
          nth i literal_counts 0%nat = bin_count_ones (snd pi))
    /\ let chosen := choose_product literal_counts products in
       best_product literal_counts products chosen
       /\ (forall c, best_product literal_counts products c -> c = chosen)
       /\ (forall products', Permutation products products' ->
             choose_product literal_counts products' = chosen)
       /\ exists picked,
            Forall2 (fun i pi => nth_error prime_implicants i = Some pi)
              (sorted Nat.leb chosen) picked
            /\ essential_prime_implicant_cover prime_implicants minterms 3
               = essential ++ picked.
Proof.
  apply (chosen_product_minimal
           [(0, 6); (0, 5); (1, 3); (2, 3); (5, 5); (6, 6)]
           [0; 1; 2; 5; 6; 7] 3).
  vm_compute. discriminate.
Defined.
